(** * post-api-sync: the endpoint resolution engine

  A shallow embedding of the path utilities ([utils.js]), the schema
  resolvers ([extract/zod.js], [extract/nestjs.js]), the router graph
  resolver ([extract/hono.js]), the builder-route extractor
  ([extract/express.js]), the extractor driver ([extract/index.js])
  and the grouping of requests ([collection/postman.js]), followed by
  the properties established about them.

  Conventions.
  - A JavaScript string is the sequence of its code units; the
    development covers code units below 256, which is what Rocq's
    [ascii] holds.
  - A [Map] and a [Set] iterate in insertion order and are association
    lists and duplicate-free lists here.
  - The syntax tree comes from Babel, which is not part of the
    repository: a parsed file is the list of the nodes a visitor of
    this repository reacts to, in traversal order. *)

From Stdlib Require Import String Ascii List ZArith Lia Bool Arith PeanoNat.
Import ListNotations.
Set Warnings "-register-all".
Open Scope string_scope.
Open Scope list_scope.

(** ** JavaScript strings *)

Module JsString.

(** [String.prototype.trim] strips WhiteSpace and LineTerminator code
    units; below 256 these are TAB, LF, VT, FF, CR, SP and NBSP. *)
Definition isWhiteSpace (c : ascii) : bool :=
  let n := nat_of_ascii c in
  (((9 <=? n) && (n <=? 13)) || (n =? 32) || (n =? 160))%nat.

Fixpoint trimStart (s : string) : string :=
  match s with
  | String c s' => if isWhiteSpace c then trimStart s' else s
  | EmptyString => EmptyString
  end.

Fixpoint trimEnd (s : string) : string :=
  match s with
  | String c s' =>
      match trimEnd s' with
      | EmptyString => if isWhiteSpace c then EmptyString else String c EmptyString
      | r => String c r
      end
  | EmptyString => EmptyString
  end.

Definition trim (s : string) : string := trimEnd (trimStart s).

Definition startsWith (c : ascii) (s : string) : bool :=
  match s with
  | String d _ => Ascii.eqb d c
  | EmptyString => false
  end.

Fixpoint endsWith (c : ascii) (s : string) : bool :=
  match s with
  | EmptyString => false
  | String d EmptyString => Ascii.eqb d c
  | String _ s' => endsWith c s'
  end.

(** [s.slice(0, -1)] *)
Fixpoint dropLast (s : string) : string :=
  match s with
  | EmptyString => EmptyString
  | String _ EmptyString => EmptyString
  | String c s' => String c (dropLast s')
  end.

(** [s.replace(/\/+/g, '/')]: every maximal run of slashes becomes one
    slash. A slash followed by a slash is dropped. *)
Fixpoint collapseSlashes (s : string) : string :=
  match s with
  | EmptyString => EmptyString
  | String c s' =>
      if Ascii.eqb c "/" && startsWith "/" s'
      then collapseSlashes s'
      else String c (collapseSlashes s')
  end.

(** [toUpperCase] and [toLowerCase] on the ASCII letters; the method and
    type names they are applied to are ASCII, other code units are left
    as they are. *)
Definition upperChar (c : ascii) : ascii :=
  let n := nat_of_ascii c in
  if ((97 <=? n) && (n <=? 122))%nat then ascii_of_nat (n - 32) else c.

Definition lowerChar (c : ascii) : ascii :=
  let n := nat_of_ascii c in
  if ((65 <=? n) && (n <=? 90))%nat then ascii_of_nat (n + 32) else c.

Fixpoint mapChars (f : ascii -> ascii) (s : string) : string :=
  match s with
  | EmptyString => EmptyString
  | String c s' => String (f c) (mapChars f s')
  end.

Definition toUpperCase : string -> string := mapChars upperChar.
Definition toLowerCase : string -> string := mapChars lowerChar.

(** Truthiness of a string: only the empty string is falsy. *)
Definition truthy (s : string) : bool := negb (String.eqb s "").

(** [a || b] on strings *)
Definition orElse (a b : string) : string := if truthy a then a else b.

Fixpoint contains (c : ascii) (s : string) : bool :=
  match s with
  | EmptyString => false
  | String d s' => Ascii.eqb d c || contains c s'
  end.

(** [s.slice(1)] *)
Definition dropFirst (s : string) : string :=
  match s with
  | EmptyString => EmptyString
  | String _ s' => s'
  end.

(** [s.split(sep)] for a separator of one code unit: the pieces between
    the separators, empty pieces included. *)
Fixpoint splitOn (sep : ascii) (s : string) : list string :=
  match s with
  | EmptyString => [EmptyString]
  | String c s' =>
      if Ascii.eqb c sep then EmptyString :: splitOn sep s'
      else match splitOn sep s' with
           | piece :: pieces => String c piece :: pieces
           | [] => [String c EmptyString]
           end
  end.

(** The class [\w] of a regular expression without flags, which is
    [[A-Za-z0-9_]]. *)
Definition isWordChar (c : ascii) : bool :=
  let n := nat_of_ascii c in
  (((48 <=? n) && (n <=? 57)) || ((65 <=? n) && (n <=? 90)) ||
   ((97 <=? n) && (n <=? 122)) || (n =? 95))%nat.

(** What a greedy [\w*] takes at the start of a string, and the text it
    leaves. *)
Fixpoint takeWord (s : string) : string * string :=
  match s with
  | String c s' =>
      if isWordChar c
      then let '(w, rest) := takeWord s' in (String c w, rest)
      else (EmptyString, s)
  | EmptyString => (EmptyString, EmptyString)
  end.

(** A global regular expression over a string.  [attempt] tries the
    pattern at the start of a text and gives the text matched there.
    The search goes from left to right and resumes after each match;
    [skip] counts the code units of the last match still to pass. *)
Section Global.
Variable attempt : string -> option string.

(** [s.match(re)] with the [g] flag: the texts matched. *)
Fixpoint matchAllFrom (skip : nat) (s : string) : list string :=
  match s with
  | EmptyString => []
  | String _ s' =>
      match skip with
      | S k => matchAllFrom k s'
      | O =>
          match attempt s with
          | Some matched => matched :: matchAllFrom (String.length matched - 1) s'
          | None => matchAllFrom 0 s'
          end
      end
  end.

Definition matchAll (s : string) : list string := matchAllFrom 0 s.

(** [s.replace(re, f)] with the [g] flag. *)
Fixpoint replaceAllFrom (f : string -> string) (skip : nat) (s : string) : string :=
  match s with
  | EmptyString => EmptyString
  | String c s' =>
      match skip with
      | S k => replaceAllFrom f k s'
      | O =>
          match attempt s with
          | Some matched =>
              (f matched ++ replaceAllFrom f (String.length matched - 1) s')%string
          | None => String c (replaceAllFrom f 0 s')
          end
      end
  end.

Definition replaceAll (f : string -> string) (s : string) : string :=
  replaceAllFrom f 0 s.
End Global.

End JsString.

(** ** Map, Set and plain objects *)

(** [Map] with string keys: [set] on a present key keeps its position. *)
Module JsMap.

Definition t (V : Type) : Type := list (string * V).

Section Ops.
Context {V : Type}.

Definition empty : t V := [].

Fixpoint get (k : string) (m : t V) : option V :=
  match m with
  | [] => None
  | (k', v) :: m' => if String.eqb k' k then Some v else get k m'
  end.

Definition has (k : string) (m : t V) : bool :=
  match get k m with Some _ => true | None => false end.

Fixpoint set (k : string) (v : V) (m : t V) : t V :=
  match m with
  | [] => [(k, v)]
  | (k', v') :: m' =>
      if String.eqb k' k then (k, v) :: m' else (k', v') :: set k v m'
  end.

Definition keys (m : t V) : list string := map fst m.
Definition values (m : t V) : list V := map snd m.
End Ops.

End JsMap.

(** [Set] of strings. *)
Module JsSet.

Definition t : Type := list string.

Definition has (x : string) (s : t) : bool := existsb (String.eqb x) s.

Definition add (x : string) (s : t) : t := if has x s then s else s ++ [x].

End JsSet.

(** A plain object used as a dictionary ([properties[name] = ...]):
  [Object.entries] lists the keys that are array indices first, in
  ascending order, then the other keys in insertion order.  (The key
  [__proto__], which assignment treats specially, is outside the
  model.) *)
Module JsObject.

Definition t (V : Type) : Type := list (string * V).

Definition digit (c : ascii) : option N :=
  let n := nat_of_ascii c in
  if ((48 <=? n) && (n <=? 57))%nat then Some (N.of_nat (n - 48)) else None.

Fixpoint digits (acc : N) (s : string) : option N :=
  match s with
  | EmptyString => Some acc
  | String c s' =>
      match digit c with
      | Some d => digits (acc * 10 + d) s'
      | None => None
      end
  end.

(** The canonical numeric strings below 2^32 - 1. *)
Definition arrayIndex (k : string) : option N :=
  match k with
  | EmptyString => None
  | String c s' =>
      if Ascii.eqb c "0" && negb (String.eqb s' "") then None
      else match digits 0 k with
           | Some n => if (n <? 4294967295)%N then Some n else None
           | None => None
           end
  end.

Section Ops.
Context {V : Type}.

Definition empty : t V := [].

Definition get (k : string) (o : t V) : option V := JsMap.get k o.
Definition has (k : string) (o : t V) : bool := JsMap.has k o.

Fixpoint insertIndex (n : N) (k : string) (v : V) (o : t V) : t V :=
  match o with
  | [] => [(k, v)]
  | (k', v') :: o' =>
      match arrayIndex k' with
      | Some n' => if (n' <? n)%N then (k', v') :: insertIndex n k v o'
                   else (k, v) :: o
      | None => (k, v) :: o
      end
  end.

Definition set (k : string) (v : V) (o : t V) : t V :=
  if has k o then JsMap.set k v o
  else match arrayIndex k with
       | Some n => insertIndex n k v o
       | None => o ++ [(k, v)]
       end.

Definition entries (o : t V) : list (string * V) := o.
End Ops.

End JsObject.

(** ** utils.js *)

Module Utils.
Import JsString.

Definition HTTP_METHODS : list string :=
  ["get"; "post"; "put"; "patch"; "delete"; "options"; "head"].

Definition normalizePath (p : string) : string :=
  if negb (truthy p) then "/" else
  let out := trim p in
  let out := if negb (startsWith "/" out) then ("/" ++ out)%string else out in
  let out := collapseSlashes out in
  let out := if (1 <? String.length out)%nat && endsWith "/" out
             then dropLast out else out in
  out.

Definition joinPaths (base child : string) : string :=
  let a := normalizePath (orElse base "/") in
  let b := normalizePath (orElse child "/") in
  if String.eqb a "/" then b
  else if String.eqb b "/" then a
  else normalizePath (a ++ "/" ++ b)%string.

Definition toKey (method pathStr : string) : string :=
  (toUpperCase method ++ " " ++ normalizePath pathStr)%string.

(** [/:([A-Za-z0-9_]+)/] at the start of a text. *)
Definition colonParamAt (s : string) : option string :=
  match s with
  | String c rest =>
      let '(w, _) := takeWord rest in
      if Ascii.eqb c ":" && truthy w then Some (String c w) else None
  | EmptyString => None
  end.

(** [/{([A-Za-z0-9_]+)}/], which is also [/{(\w+)}/], at the start of a
    text. *)
Definition braceParamAt (s : string) : option string :=
  match s with
  | String c rest =>
      let '(w, after) := takeWord rest in
      if Ascii.eqb c "{" && truthy w && startsWith "}" after
      then Some (String c (w ++ "}"))%string else None
  | EmptyString => None
  end.

Definition extractPathParams (p : string) : list string :=
  let params : JsSet.t := [] in
  let colonMatches := matchAll colonParamAt p in
  let params := fold_left (fun params m => JsSet.add (dropFirst m) params)
                  colonMatches params in
  let braceMatches := matchAll braceParamAt p in
  let params := fold_left (fun params m => JsSet.add (dropLast (dropFirst m)) params)
                  braceMatches params in
  params.

(** The replacement [':$1'], the group being the match without its
    braces. *)
Definition toPostmanPath (p : string) : string :=
  replaceAll braceParamAt (fun m => String ":" (dropLast (dropFirst m))) p.

Definition splitPath (p : string) : list string :=
  filter truthy (splitOn "/" (normalizePath p)).

End Utils.

(** ** The fragment of the Babel syntax tree the extractors inspect *)

Module Ast.

Inductive expr : Type :=
| Identifier (name : string)
| StringLiteral (value : string)
| NumericLiteral (value : Z)
| BooleanLiteral (value : bool)
| TemplateLiteral (quasis : list string)
| CallExpression (callee : expr) (arguments : list expr)
| MemberExpression (object : expr) (property : expr)
| NewExpression (callee : expr) (arguments : list expr)
| ObjectExpression (properties : list objectMember)
| ArrayExpression (elements : list (option expr))
| OtherExpression
with objectMember : Type :=
| ObjectProperty (key : expr) (value : expr)
| OtherMember.

(** [node.name], defined on an Identifier only. *)
Definition nameOf (e : expr) : option string :=
  match e with
  | Identifier n => Some n
  | _ => None
  end.

(** [x === 'lit'] for a possibly undefined [x]. *)
Definition isName (x : option string) (lit : string) : bool :=
  match x with
  | Some s => String.eqb s lit
  | None => false
  end.

End Ast.

(** ** extract/zod.js *)

Module Zod.
Import Ast.

Inductive literal : Type :=
| LString (s : string)
| LNumber (n : Z)
| LBoolean (b : bool).

(** The object a resolution returns.  Every call builds a fresh
    object, so a schema is a tree. *)
Inductive schema : Type := Schema {
  type : string;
  properties : option (JsObject.t schema);
  required : option (list string);
  items : option schema;
  example : option literal;
  optional : bool
}.

Definition ofType (ty : string) : schema :=
  Schema ty None None None None false.

Definition withExample (v : literal) (s : schema) : schema :=
  Schema (type s) (properties s) (required s) (items s) (Some v) (optional s).

Definition withOptional (s : schema) : schema :=
  Schema (type s) (properties s) (required s) (items s) (example s) true.

Definition getPropertyName (node : expr) : option string :=
  match node with
  | Identifier name => Some name
  | StringLiteral value => Some value
  | _ => None
  end.

Definition getStringLiteral (node : option expr) : string :=
  match node with
  | Some (StringLiteral value) => value
  | _ => ""
  end.

Fixpoint findProperty (keyName : string) (props : list objectMember) : option expr :=
  match props with
  | [] => None
  | ObjectProperty key value :: rest =>
      if isName (getPropertyName key) keyName then Some value
      else findProperty keyName rest
  | OtherMember :: rest => findProperty keyName rest
  end.

Definition getObjectProperty (node : option expr) (keyName : string) : option expr :=
  match node with
  | Some (ObjectExpression props) => findProperty keyName props
  | _ => None
  end.

Definition literalOf (e : expr) : option literal :=
  match e with
  | StringLiteral v => Some (LString v)
  | NumericLiteral v => Some (LNumber v)
  | BooleanLiteral v => Some (LBoolean v)
  | _ => None
  end.

(** The loop over the properties of [z.object({...})], given the
    resolver for a property value. *)
Fixpoint objectProperties (resolve : expr -> option schema)
    (props : list objectMember)
    (properties : JsObject.t schema) (required : list string)
    : option (JsObject.t schema * list string) :=
  match props with
  | [] => Some (properties, required)
  | OtherMember :: rest => objectProperties resolve rest properties required
  | ObjectProperty key value :: rest =>
      match getPropertyName key with
      | None => objectProperties resolve rest properties required
      | Some name =>
          if negb (JsString.truthy name)
          then objectProperties resolve rest properties required
          else
            match resolve value with
            | None => None
            | Some propSchema =>
                objectProperties resolve rest
                  (JsObject.set name propSchema properties)
                  (if negb (optional propSchema) then required ++ [name]
                   else required)
            end
      end
  end.

(** [resolveZodSchema], with the recursion counted by [fuel]: [None]
    stands for a computation that has not returned within [fuel]
    nested calls. *)
Fixpoint resolveZodSchemaFuel (fuel : nat) (node : option expr)
    (schemaDefs : JsMap.t expr) (depth : nat) : option schema :=
  match fuel with
  | O => None
  | S fuel' =>
      let recur n := resolveZodSchemaFuel fuel' n schemaDefs (depth + 1) in
      match node with
      | None => Some (ofType "string")
      | Some node =>
          if (10 <? depth)%nat then Some (ofType "string") else
          match node with
          | Identifier name =>
              match JsMap.get name schemaDefs with
              | Some def => recur (Some def)
              | None => Some (ofType "object")
              end
          | CallExpression (MemberExpression object property) arguments =>
              let methodName := nameOf property in
              if isName methodName "string" then Some (ofType "string")
              else if isName methodName "number" then Some (ofType "number")
              else if isName methodName "boolean" then Some (ofType "boolean")
              else if isName methodName "object" then
                match hd_error arguments with
                | Some (ObjectExpression props) =>
                    match objectProperties (fun v => recur (Some v)) props
                            JsObject.empty [] with
                    | None => None
                    | Some (properties, required) =>
                        Some (Schema "object" (Some properties)
                                (match required with
                                 | [] => None
                                 | _ => Some required
                                 end)
                                None None false)
                    end
                | _ => Some (ofType "object")
                end
              else if isName methodName "array" then
                match recur (hd_error arguments) with
                | None => None
                | Some it => Some (Schema "array" None None (Some it) None false)
                end
              else if isName methodName "openapi" then
                match recur (Some object) with
                | None => None
                | Some baseSchema =>
                    match getObjectProperty (hd_error arguments) "example" with
                    | Some example =>
                        match literalOf example with
                        | Some v => Some (withExample v baseSchema)
                        | None => Some baseSchema
                        end
                    | None => Some baseSchema
                    end
                end
              else if isName methodName "optional" then
                match recur (Some object) with
                | None => None
                | Some base => Some (withOptional base)
                end
              else recur (Some object)
          | MemberExpression object property =>
              let name := nameOf property in
              if isName name "string" then Some (ofType "string")
              else if isName name "number" then Some (ofType "number")
              else if isName name "boolean" then Some (ofType "boolean")
              else recur (Some object)
          | _ => Some (ofType "string")
          end
      end
  end.

(** Every nested call adds one to [depth] and a call at a depth above 10
    returns at once, so [12 - depth] nested calls are the most there
    can be: the fuel given here is never used up, and the last branch
    is never taken (see [resolveZodSchema_returns]). *)
Definition resolveZodSchema (node : option expr) (schemaDefs : JsMap.t expr)
    (depth : nat) : schema :=
  match resolveZodSchemaFuel (S (11 - depth)) node schemaDefs depth with
  | Some s => s
  | None => ofType "string"
  end.

End Zod.

(** ** The parsed file, the platform and the endpoint record *)

Module Model.
Import Ast.

(** TypeScript type annotations. *)
Inductive tsType : Type :=
| TSStringKeyword
| TSNumberKeyword
| TSBooleanKeyword
| TSArrayType (elementType : tsType)
| TSTypeReference (typeName : expr) (typeParameters : option (list tsType))
| TSTypeLiteral (members : list tsMember)
| TSOtherType
with tsMember : Type :=
| TSPropertySignature (key : expr) (typeAnnotation : option tsType)
| TSOtherMember.

Inductive decorator : Type := Decorator (expression : expr).

(** What [getParamDecorators] reads of a formal argument or of the
    [left] of an argument with a default value. *)
Record paramTarget : Type := {
  pt_decorators : option (list decorator);
  pt_typeAnnotation : option tsType
}.

Record paramNode : Type := {
  pn_self : paramTarget;
  pn_left : option paramTarget
}.

Inductive propValue : Type :=
| FunctionValue (params : list paramNode)
| OtherValue.

Inductive classMember : Type :=
| ClassMethod (decorators : list decorator) (params : list paramNode)
| ClassProperty (key : expr) (decorators : list decorator) (optional : bool)
    (typeAnnotation : option tsType) (value : option propValue)
| OtherClassMember.

Record classDecl : Type := {
  c_id : option string;
  c_decorators : list decorator;
  c_body : list classMember
}.

Inductive importSpecifier : Type :=
| ImportSpecifier (local imported : string)
| ImportDefaultSpecifier (local : string)
| ImportNamespaceSpecifier (local : string).

Inductive exportSpecifier : Type :=
| ExportSpecifier (exported local : string)
| OtherExportSpecifier.

(** The nodes the visitors of the repository are called on.  In an
    [ExportNamedDeclaration], [declaration] is [Some ids] for a variable
    declaration, [ids] holding the name of each declarator whose [id]
    is an Identifier. *)
Inductive node : Type :=
| ImportDeclaration (source : string) (specifiers : list importSpecifier)
| ExportDefaultDeclaration (declaration : expr)
| ExportNamedDeclaration (declaration : option (list (option string)))
    (specifiers : list exportSpecifier)
| VariableDeclarator (id : option string) (init : option expr)
| CallExpressionNode (callee : expr) (arguments : list expr)
| ClassDeclaration (c : classDecl).

Definition ast : Type := list node.

(** What the code asks of Node and of the parser.  [parseFile] is [None]
    where the parser throws. *)
Record platform : Type := {
  parseFile : string -> option ast;
  existsSync : string -> bool;
  pathResolve : list string -> string;
  pathDirname : string -> string;
  pathExtname : string -> string;
  pathIsAbsolute : string -> bool
}.

(** Schema objects of the decorator-style resolver live in a store: the
    memo table hands out the same object more than once. *)
Definition ref : Type := nat.

Record sobj : Type := {
  o_type : string;
  o_example : option Zod.literal;
  o_properties : option (JsObject.t ref);
  o_items : option ref;
  o_required : option (list string)
}.

Inductive bodySchema : Type :=
| ZodBody (s : Zod.schema)
| DtoBody (root : ref) (objects : list sobj).

Record param : Type := { p_name : string; p_required : bool }.

Record parameters : Type := {
  ps_path : option (list param);
  ps_query : option (list param);
  ps_body : option bodySchema
}.

Record endpoint : Type := {
  method : string;
  path : string;
  description : string;
  tags : option (list string);
  params : parameters;
  filePath : option string;
  key : string
}.

End Model.

(** ** extract/nestjs.js *)

Module Nest.
Import Ast Model.

(** The code reads this table as a plain object: for a decorator named
    after an inherited key ([constructor], [toString], ...) it finds a
    value that is not a string and throws before the endpoint is built.
    That error is outside the model, where such a name is not found. *)
Definition HTTP_DECORATORS : JsMap.t string :=
  [("Get", "GET"); ("Post", "POST"); ("Put", "PUT"); ("Patch", "PATCH");
   ("Delete", "DELETE"); ("Options", "OPTIONS"); ("Head", "HEAD")].

Definition OPTIONAL_DECORATORS : JsSet.t := ["IsOptional"; "ApiPropertyOptional"].

Definition TYPE_DECORATORS : JsMap.t string :=
  [("IsString", "string"); ("IsEmail", "string"); ("IsUUID", "string");
   ("IsInt", "number"); ("IsNumber", "number"); ("Min", "number");
   ("Max", "number"); ("IsBoolean", "boolean")].

Definition getDecoratorName (dec : decorator) : option string :=
  match dec with
  | Decorator (CallExpression (Identifier name) _) => Some name
  | Decorator (Identifier name) => Some name
  | _ => None
  end.

Definition getDecoratorArgs (dec : decorator) : list expr :=
  match dec with
  | Decorator (CallExpression _ arguments) => arguments
  | _ => []
  end.

(** The cooked text of a quasi that has none is [""], which is what
    [cooked || ''] gives. *)
Definition stringOf (node : option expr) : string :=
  match node with
  | Some (StringLiteral value) => value
  | Some (TemplateLiteral [cooked]) => cooked
  | _ => ""
  end.

Definition getStringArg (dec : decorator) : string :=
  stringOf (hd_error (getDecoratorArgs dec)).

Fixpoint stringLiterals (args : list expr) : list string :=
  match args with
  | [] => []
  | StringLiteral value :: rest => value :: stringLiterals rest
  | _ :: rest => stringLiterals rest
  end.

Definition getTagsFromDecorator (dec : decorator) : list string :=
  stringLiterals (getDecoratorArgs dec).

Fixpoint findSummary (props : list objectMember) : option string :=
  match props with
  | [] => None
  | ObjectProperty (Identifier name) (StringLiteral value) :: rest =>
      if String.eqb name "summary" then Some value else findSummary rest
  | _ :: rest => findSummary rest
  end.

Definition getSummaryFromDecorator (dec : decorator) : option string :=
  match hd_error (getDecoratorArgs dec) with
  | Some (ObjectExpression props) => findSummary props
  | _ => None
  end.

Definition getPropertyName (node : expr) : option string :=
  match node with
  | Identifier name => Some name
  | StringLiteral value => Some value
  | _ => None
  end.

Definition getDecoratorObjectArg (dec : decorator) : option (list objectMember) :=
  match hd_error (getDecoratorArgs dec) with
  | Some (ObjectExpression props) => Some props
  | _ => None
  end.

Record propMeta : Type := {
  m_optional : bool;
  m_example : option Zod.literal;
  m_overrideType : option string
}.

(** The default [meta = {}]. *)
Definition noMeta : propMeta := {| m_optional := false; m_example := None; m_overrideType := None |}.

(** One property of the object argument of [@ApiProperty]. *)
Definition apiPropertyField (m : propMeta) (prop : objectMember) : propMeta :=
  match prop with
  | ObjectProperty (Identifier name) value =>
      let m1 :=
        match value with
        | BooleanLiteral false =>
            if String.eqb name "required"
            then {| m_optional := true; m_example := m_example m; m_overrideType := m_overrideType m |}
            else m
        | _ => m
        end in
      let m2 :=
        if String.eqb name "example" then
          match Zod.literalOf value with
          | Some v => {| m_optional := m_optional m1; m_example := Some v; m_overrideType := m_overrideType m1 |}
          | None => m1
          end
        else m1 in
      match value with
      | Identifier ty =>
          if String.eqb name "type"
          then {| m_optional := m_optional m2; m_example := m_example m2;
                  m_overrideType := Some (JsString.toLowerCase ty) |}
          else m2
      | _ => m2
      end
  | _ => m
  end.

Definition propMetaStep (m : propMeta) (dec : decorator) : propMeta :=
  match getDecoratorName dec with
  | None => m
  | Some name =>
      if negb (JsString.truthy name) then m else
      let m1 := if JsSet.has name OPTIONAL_DECORATORS
                then {| m_optional := true; m_example := m_example m; m_overrideType := m_overrideType m |}
                else m in
      let m2 := match JsMap.get name TYPE_DECORATORS with
                | Some ty => {| m_optional := m_optional m1; m_example := m_example m1; m_overrideType := Some ty |}
                | None => m1
                end in
      if String.eqb name "ApiProperty" || String.eqb name "ApiPropertyOptional" then
        let obj := getDecoratorObjectArg dec in
        let m3 := if String.eqb name "ApiPropertyOptional"
                  then {| m_optional := true; m_example := m_example m2; m_overrideType := m_overrideType m2 |}
                  else m2 in
        match obj with
        | Some props => fold_left apiPropertyField props m3
        | None => m3
        end
      else m2
  end.

Definition getPropMetaFromDecorators (decorators : list decorator) : propMeta :=
  fold_left propMetaStep decorators noMeta.

Record dtoProp : Type := {
  dp_name : string;
  dp_optional : bool;
  dp_typeNode : option tsType;
  dp_example : option Zod.literal;
  dp_overrideType : option string
}.

Record dto : Type := { d_name : string; d_props : list dtoProp }.

(** [schemaFromTypeNode] receives the property itself as [meta]. *)
Definition metaOfProp (prop : dtoProp) : propMeta :=
  {| m_optional := dp_optional prop; m_example := dp_example prop;
     m_overrideType := dp_overrideType prop |}.

Fixpoint dtoPropsOf (body : list classMember) : list dtoProp :=
  match body with
  | [] => []
  | ClassProperty key decorators optional typeAnnotation _ :: rest =>
      match getPropertyName key with
      | None => dtoPropsOf rest
      | Some name =>
          if negb (JsString.truthy name) then dtoPropsOf rest else
          let meta := getPropMetaFromDecorators decorators in
          {| dp_name := name;
             dp_optional := optional || m_optional meta;
             dp_typeNode := typeAnnotation;
             dp_example := m_example meta;
             dp_overrideType := m_overrideType meta |} :: dtoPropsOf rest
      end
  | _ :: rest => dtoPropsOf rest
  end.

Definition collectDtoStep (dtoMap : JsMap.t dto) (n : node) : JsMap.t dto :=
  match n with
  | ClassDeclaration c =>
      match c_id c with
      | None => dtoMap
      | Some className =>
          if negb (JsString.truthy className) then dtoMap else
          match dtoPropsOf (c_body c) with
          | [] => dtoMap
          | props => JsMap.set className {| d_name := className; d_props := props |} dtoMap
          end
      end
  | _ => dtoMap
  end.

Definition collectDtoSchemasFromAst (tree : ast) : JsMap.t dto :=
  fold_left collectDtoStep tree JsMap.empty.

Section WithPlatform.
Variable env : platform.

Definition resolveImportFile (baseDir source : string) : option string :=
  find (existsSync env)
    [ pathResolve env [baseDir; (source ++ ".ts")%string];
      pathResolve env [baseDir; (source ++ ".tsx")%string];
      pathResolve env [baseDir; (source ++ ".js")%string];
      pathResolve env [baseDir; (source ++ ".jsx")%string];
      pathResolve env [baseDir; source; "index.ts"];
      pathResolve env [baseDir; source; "index.js"] ].

Definition importSpecStep (abs : string) (m : JsMap.t string)
    (spec : importSpecifier) : JsMap.t string :=
  match spec with
  | ImportSpecifier local _ => JsMap.set local abs m
  | ImportDefaultSpecifier local => JsMap.set local abs m
  | ImportNamespaceSpecifier _ => m
  end.

Definition collectImportStep (baseDir : string) (m : JsMap.t string)
    (n : node) : JsMap.t string :=
  match n with
  | ImportDeclaration source specifiers =>
      if negb (JsString.truthy source) || negb (JsString.startsWith "." source)
      then m
      else match resolveImportFile baseDir source with
           | None => m
           | Some abs => fold_left (importSpecStep abs) specifiers m
           end
  | _ => m
  end.

Definition collectImportMap (tree : ast) (filePath : string) : JsMap.t string :=
  fold_left (collectImportStep (pathDirname env filePath)) tree JsMap.empty.

Definition mergeImported (dtoMap : JsMap.t dto) (entry : string * dto) : JsMap.t dto :=
  if JsMap.has (fst entry) dtoMap then dtoMap
  else JsMap.set (fst entry) (snd entry) dtoMap.

Definition collectImportedStep (acc : JsMap.t dto * JsSet.t)
    (entry : string * string) : JsMap.t dto * JsSet.t :=
  let '(dtoMap, visited) := acc in
  let importFile := snd entry in
  if JsSet.has importFile visited then acc
  else
    let visited := JsSet.add importFile visited in
    match parseFile env importFile with
    | Some importedAst =>
        (fold_left mergeImported (collectDtoSchemasFromAst importedAst) dtoMap, visited)
    | None => (dtoMap, visited)
    end.

Definition collectDtoSchemas (tree : ast) (filePath : string) : JsMap.t dto :=
  fst (fold_left collectImportedStep (collectImportMap tree filePath)
         (collectDtoSchemasFromAst tree, [filePath])).

End WithPlatform.

(** *** Schema objects and the memo table

    The state a resolution threads: the store of schema objects and
    the [memo] map of the call.  A computation returns [None] only
    when the budget of nested DTO expansions of [buildSchemaForDtoIn]
    is used up, which the depth test excludes (see
    [buildSchemaForDto_runs]). *)

Record state : Type := { heap : list sobj; memo : JsMap.t ref }.

Definition M (A : Type) : Type := state -> option (A * state).

Definition ret {A} (a : A) : M A := fun st => Some (a, st).

Definition bind {A B} (m : M A) (f : A -> M B) : M B :=
  fun st => match m st with
            | Some (a, st') => f a st'
            | None => None
            end.

Definition fail {A} : M A := fun _ => None.

Notation "x <- m ;; k" := (bind m (fun x => k))
  (at level 61, m at next level, right associativity).

Definition alloc (o : sobj) : M ref :=
  fun st => Some (List.length (heap st),
                  {| heap := heap st ++ [o]; memo := memo st |}).

Fixpoint updateNth {A} (n : nat) (f : A -> A) (l : list A) : list A :=
  match l, n with
  | [], _ => []
  | x :: l', O => f x :: l'
  | x :: l', S n' => x :: updateNth n' f l'
  end.

Definition modify (r : ref) (f : sobj -> sobj) : M unit :=
  fun st => Some (tt, {| heap := updateNth r f (heap st); memo := memo st |}).

Definition memoGet (name : string) : M (option ref) :=
  fun st => Some (JsMap.get name (memo st), st).

Definition memoSet (name : string) (r : ref) : M unit :=
  fun st => Some (tt, {| heap := heap st; memo := JsMap.set name r (memo st) |}).

Definition plain (ty : string) (example : option Zod.literal) : sobj :=
  {| o_type := ty; o_example := example; o_properties := None;
     o_items := None; o_required := None |}.

Definition arrayOf (items : ref) : sobj :=
  {| o_type := "array"; o_example := None; o_properties := None;
     o_items := Some items; o_required := None |}.

Definition objectWith (properties : JsObject.t ref) : sobj :=
  {| o_type := "object"; o_example := None; o_properties := Some properties;
     o_items := None; o_required := None |}.

(** [schema.properties[name] = propSchema] *)
Definition setProperty (name : string) (propSchema : ref) (o : sobj) : sobj :=
  {| o_type := o_type o; o_example := o_example o;
     o_properties :=
       match o_properties o with
       | Some props => Some (JsObject.set name propSchema props)
       | None => None
       end;
     o_items := o_items o; o_required := o_required o |}.

(** [schema.required = required] *)
Definition setRequired (required : list string) (o : sobj) : sobj :=
  {| o_type := o_type o; o_example := o_example o;
     o_properties := o_properties o;
     o_items := o_items o; o_required := Some required |}.

(** The two closing lines of [schemaFromTypeNode], which its first test
    repeats. *)
Definition fallback (meta : propMeta) : M ref :=
  match m_overrideType meta with
  | Some ty =>
      if JsString.truthy ty then alloc (plain ty (m_example meta))
      else alloc (plain "object" (m_example meta))
  | None => alloc (plain "object" (m_example meta))
  end.

Section Members.
(** The resolver for the type of a member. *)
Variable resolve : tsType -> M ref.

(** The loop of [schemaFromTypeNode] over the members of a type
    literal. *)
Fixpoint literalMembers (members : list tsMember) (properties : JsObject.t ref)
    {struct members} : M (JsObject.t ref) :=
  match members with
  | [] => ret properties
  | TSOtherMember :: rest => literalMembers rest properties
  | TSPropertySignature key typeAnnotation :: rest =>
      match getPropertyName key with
      | None => literalMembers rest properties
      | Some name =>
          if negb (JsString.truthy name) then literalMembers rest properties
          else
            propSchema <-
              match typeAnnotation with
              | Some t => resolve t
              | None => fallback noMeta
              end ;;
            literalMembers rest (JsObject.set name propSchema properties)
      end
  end.
End Members.

Section Resolve.
Variable dtoMap : JsMap.t dto.
(** [buildSchemaForDto(name, dtoMap, depth, memo)] as the type
    resolver calls it. *)
Variable build : string -> nat -> M ref.

Fixpoint fromType (typeNode : tsType) (depth : nat) (meta : propMeta)
    {struct typeNode} : M ref :=
  match typeNode with
  | TSStringKeyword => alloc (plain "string" (m_example meta))
  | TSNumberKeyword => alloc (plain "number" (m_example meta))
  | TSBooleanKeyword => alloc (plain "boolean" (m_example meta))
  | TSArrayType elementType =>
      items <- fromType elementType (depth + 1) noMeta ;;
      alloc (arrayOf items)
  | TSTypeReference (Identifier name) typeParameters =>
      let expand :=
        if JsMap.has name dtoMap && (depth <? 2)%nat
        then build name (depth + 1)
        else fallback meta in
      if String.eqb name "Array" then
        match typeParameters with
        | Some [param] =>
            items <- fromType param (depth + 1) noMeta ;;
            alloc (arrayOf items)
        | _ => expand
        end
      else expand
  | TSTypeReference _ _ => fallback meta
  | TSTypeLiteral members =>
      properties <-
        literalMembers (fun t => fromType t (depth + 1) noMeta) members JsObject.empty ;;
      alloc (objectWith properties)
  | TSOtherType => fallback meta
  end.

Definition schemaFromTypeNodeWith (typeNode : option tsType) (depth : nat)
    (meta : propMeta) : M ref :=
  match typeNode with
  | None => fallback meta
  | Some t => fromType t depth meta
  end.

(** The loop of [buildSchemaForDto] over the properties. *)
Fixpoint dtoProperties (schema : ref) (props : list dtoProp) (depth : nat)
    (required : list string) : M (list string) :=
  match props with
  | [] => ret required
  | prop :: rest =>
      propSchema <- schemaFromTypeNodeWith (dp_typeNode prop) (depth + 1) (metaOfProp prop) ;;
      _ <- modify schema (setProperty (dp_name prop) propSchema) ;;
      dtoProperties schema rest depth
        (if negb (dp_optional prop) then required ++ [dp_name prop] else required)
  end.
End Resolve.

(** The body of [buildSchemaForDto], [build] being the function itself
    as the type resolver calls it back. *)
Definition buildSchemaForDtoWith (build : string -> nat -> M ref)
    (dtoName : string) (dtoMap : JsMap.t dto) (depth : nat) : M ref :=
  cached <- memoGet dtoName ;;
  match cached with
  | Some schema => ret schema
  | None =>
      match JsMap.get dtoName dtoMap with
      | None => alloc (plain "object" None)
      | Some d =>
          schema <- alloc (objectWith JsObject.empty) ;;
          _ <- memoSet dtoName schema ;;
          required <- dtoProperties dtoMap build schema (d_props d) depth [] ;;
          _ <- match required with
               | [] => ret tt
               | _ => modify schema (setRequired required)
               end ;;
          ret schema
      end
  end.

(** [buildSchemaForDto] with a budget [k] of nested DTO expansions. *)
Fixpoint buildSchemaForDtoIn (k : nat) (dtoName : string) (dtoMap : JsMap.t dto)
    (depth : nat) {struct k} : M ref :=
  buildSchemaForDtoWith
    (fun name depth' =>
       match k with
       | S k' => buildSchemaForDtoIn k' name dtoMap depth'
       | O => fail
       end)
    dtoName dtoMap depth.

(** A DTO is expanded only from a type reference met at a depth below 2,
    and is entered two levels deeper than the DTO around it: two
    nested expansions are the most there can be. *)
Definition buildSchemaForDto (dtoName : string) (dtoMap : JsMap.t dto)
    (depth : nat) : M ref :=
  buildSchemaForDtoIn 2 dtoName dtoMap depth.

Definition schemaFromTypeNode (typeNode : option tsType) (dtoMap : JsMap.t dto)
    (depth : nat) (meta : propMeta) : M ref :=
  schemaFromTypeNodeWith dtoMap (fun name depth' => buildSchemaForDto name dtoMap depth')
    typeNode depth meta.

(** A call with the default [memo = new Map()]: the object returned
    and the objects it can reach. *)
Definition fresh (m : M ref) : option (ref * list sobj) :=
  match m {| heap := []; memo := JsMap.empty |} with
  | Some (r, st) => Some (r, heap st)
  | None => None
  end.

(** *** Parameters and endpoints *)

Record paramInfo : Type := {
  pi_params : list param;
  pi_query : list param;
  pi_body : option bodySchema
}.

(** [paramNode.decorators ? paramNode : paramNode.left || paramNode] *)
Definition decoratorTarget (p : paramNode) : paramTarget :=
  match pt_decorators (pn_self p) with
  | Some _ => pn_self p
  | None =>
      match pn_left p with
      | Some l => l
      | None => pn_self p
      end
  end.

Definition nonEmpty {A} (l : list A) : option (list A) :=
  match l with
  | [] => None
  | _ => Some l
  end.

(** The query parameters an un-named [@Query()] contributes: one per
    property of the schema built for the DTO. *)
Definition queryOfSchema (schema : sobj) : list param :=
  match o_properties schema with
  | Some properties =>
      map (fun entry =>
             {| p_name := fst entry;
                p_required :=
                  match o_required schema with
                  | Some required => existsb (String.eqb (fst entry)) required
                  | None => false
                  end |})
          (JsObject.entries properties)
  | None => []
  end.

Definition paramDecoratorStep (dtoSchemas : JsMap.t dto) (target : paramTarget)
    (acc : option paramInfo) (dec : decorator) : option paramInfo :=
  match acc with
  | None => None
  | Some info =>
      match getDecoratorName dec with
      | None => Some info
      | Some name =>
          if negb (JsString.truthy name) then Some info else
          let arg := getStringArg dec in
          let typeNode := pt_typeAnnotation target in
          let params :=
            if String.eqb name "Param" && JsString.truthy arg
            then pi_params info ++ [{| p_name := arg; p_required := true |}]
            else pi_params info in
          let query :=
            if String.eqb name "Query" then
              if JsString.truthy arg
              then Some (pi_query info ++ [{| p_name := arg; p_required := false |}])
              else
                match typeNode with
                | Some (TSTypeReference (Identifier dtoName) _) =>
                    match fresh (buildSchemaForDto dtoName dtoSchemas 0) with
                    | Some (schema, objects) =>
                        match nth_error objects schema with
                        | Some o => Some (pi_query info ++ queryOfSchema o)
                        | None => Some (pi_query info)
                        end
                    | None => None
                    end
                | _ => Some (pi_query info)
                end
            else Some (pi_query info) in
          let body :=
            if String.eqb name "Body" then
              match fresh (schemaFromTypeNode typeNode dtoSchemas 0 noMeta) with
              | Some (schema, objects) => Some (Some (DtoBody schema objects))
              | None => None
              end
            else Some (pi_body info) in
          match query, body with
          | Some query, Some body =>
              Some {| pi_params := params; pi_query := query; pi_body := body |}
          | _, _ => None
          end
      end
  end.

Definition getParamDecorators (p : paramNode) (dtoSchemas : JsMap.t dto)
    : option paramInfo :=
  let target := decoratorTarget p in
  let decorators :=
    match pt_decorators target with
    | Some ds => ds
    | None => []
    end in
  fold_left (paramDecoratorStep dtoSchemas target) decorators
    (Some {| pi_params := []; pi_query := []; pi_body := None |}).

Definition controllerStep (acc : string * list string) (dec : decorator)
    : string * list string :=
  let '(basePath, tags) := acc in
  let name := getDecoratorName dec in
  let basePath := if isName name "Controller" then getStringArg dec else basePath in
  let tags := if isName name "ApiTags" then tags ++ getTagsFromDecorator dec else tags in
  (basePath, tags).

Record routeInfo : Type := {
  r_httpMethod : option string;
  r_methodPath : string;
  r_description : option string
}.

Definition methodDecoratorStep (acc : routeInfo) (dec : decorator) : routeInfo :=
  let name := getDecoratorName dec in
  let found :=
    match name with
    | Some n => JsMap.get n HTTP_DECORATORS
    | None => None
    end in
  let acc1 :=
    match found with
    | Some verb =>
        {| r_httpMethod := Some verb; r_methodPath := getStringArg dec;
           r_description := r_description acc |}
    | None => acc
    end in
  if isName name "ApiOperation" then
    {| r_httpMethod := r_httpMethod acc1; r_methodPath := r_methodPath acc1;
       r_description :=
         match getSummaryFromDecorator dec with
         | Some summary =>
             if JsString.truthy summary then Some summary else r_description acc1
         | None => r_description acc1
         end |}
  else acc1.

Definition paramListStep (dtoSchemas : JsMap.t dto) (acc : option paramInfo)
    (p : paramNode) : option paramInfo :=
  match acc with
  | None => None
  | Some info =>
      match getParamDecorators p dtoSchemas with
      | None => None
      | Some res =>
          Some {| pi_params := pi_params info ++ pi_params res;
                  pi_query := pi_query info ++ pi_query res;
                  pi_body := match pi_body res with
                             | Some b => Some b
                             | None => pi_body info
                             end |}
      end
  end.

(** What one member of a class body adds to [endpoints]. *)
Definition memberEndpoint (dtoSchemas : JsMap.t dto) (filePath basePath : string)
    (tags : list string) (memberNode : classMember) : option (list endpoint) :=
  let route :=
    match memberNode with
    | ClassMethod decorators paramList => Some (decorators, paramList)
    | ClassProperty _ decorators _ _ (Some (FunctionValue paramList)) =>
        Some (decorators, paramList)
    | _ => None
    end in
  match route with
  | None => Some []
  | Some (methodDecorators, paramList) =>
      let info := fold_left methodDecoratorStep methodDecorators
                    {| r_httpMethod := None; r_methodPath := ""; r_description := None |} in
      match r_httpMethod info with
      | None => Some []
      | Some httpMethod =>
          let fullPath := Utils.normalizePath (Utils.joinPaths basePath (r_methodPath info)) in
          match fold_left (paramListStep dtoSchemas) paramList
                  (Some {| pi_params := []; pi_query := []; pi_body := None |}) with
          | None => None
          | Some res =>
              Some [ {| method := httpMethod;
                        path := fullPath;
                        description :=
                          match r_description info with
                          | Some d => if JsString.truthy d then d
                                      else (httpMethod ++ " " ++ fullPath)%string
                          | None => (httpMethod ++ " " ++ fullPath)%string
                          end;
                        tags := nonEmpty tags;
                        params := {| ps_path := nonEmpty (pi_params res);
                                     ps_query := nonEmpty (pi_query res);
                                     ps_body := pi_body res |};
                        filePath := Some filePath;
                        key := Utils.toKey httpMethod fullPath |} ]
          end
      end
  end.

Fixpoint classEndpoints (dtoSchemas : JsMap.t dto) (filePath basePath : string)
    (tags : list string) (body : list classMember) : option (list endpoint) :=
  match body with
  | [] => Some []
  | memberNode :: rest =>
      match memberEndpoint dtoSchemas filePath basePath tags memberNode with
      | None => None
      | Some es =>
          match classEndpoints dtoSchemas filePath basePath tags rest with
          | None => None
          | Some es' => Some (es ++ es')
          end
      end
  end.

Fixpoint fileEndpoints (dtoSchemas : JsMap.t dto) (filePath : string) (tree : ast)
    : option (list endpoint) :=
  match tree with
  | [] => Some []
  | ClassDeclaration c :: rest =>
      let '(basePath, tags) := fold_left controllerStep (c_decorators c) ("", []) in
      match classEndpoints dtoSchemas filePath basePath tags (c_body c) with
      | None => None
      | Some es =>
          match fileEndpoints dtoSchemas filePath rest with
          | None => None
          | Some es' => Some (es ++ es')
          end
      end
  | _ :: rest => fileEndpoints dtoSchemas filePath rest
  end.

(** [None] where [parseFile] throws. *)
Definition extractNestJsEndpoints (env : platform) (filePath : string)
    : option (list endpoint) :=
  match parseFile env filePath with
  | None => None
  | Some tree => fileEndpoints (collectDtoSchemas env tree filePath) filePath tree
  end.

End Nest.

(** ** extract/hono.js *)

Module Hono.
Import Ast Model.

Definition ROUTER_CLASS_NAMES : JsSet.t := ["Hono"; "OpenAPIHono"].
Definition HONO_METHODS : JsSet.t := Utils.HTTP_METHODS ++ ["all"].

Definition getStringLiteral (node : option expr) : string :=
  match node with
  | Some (StringLiteral value) => value
  | Some (TemplateLiteral [cooked]) => cooked
  | _ => ""
  end.

Definition getPropertyName (node : expr) : option string := nameOf node.

(** [s.replace(/old$/, new)] for a literal [old]. *)
Definition replaceSuffix (old new s : string) : string :=
  let n := String.length s - String.length old in
  if String.eqb (substring n (String.length old) s) old
     && (String.length old <=? String.length s)%nat
  then (substring 0 n s ++ new)%string
  else s.

Definition resolveImportFile (env : platform) (baseDir source : string)
    : option string :=
  let first :=
    if pathIsAbsolute env source then source
    else pathResolve env [baseDir; source] in
  let ext := pathExtname env source in
  let js :=
    if String.eqb ext ".js"
    then [ pathResolve env [baseDir; replaceSuffix ".js" ".ts" source];
           pathResolve env [baseDir; replaceSuffix ".js" ".tsx" source] ]
    else [] in
  let jsx :=
    if String.eqb ext ".jsx"
    then [ pathResolve env [baseDir; replaceSuffix ".jsx" ".tsx" source] ]
    else [] in
  let bare :=
    if negb (JsString.truthy ext)
    then [ pathResolve env [baseDir; (source ++ ".ts")%string];
           pathResolve env [baseDir; (source ++ ".tsx")%string];
           pathResolve env [baseDir; (source ++ ".js")%string];
           pathResolve env [baseDir; (source ++ ".jsx")%string];
           pathResolve env [baseDir; source; "index.ts"];
           pathResolve env [baseDir; source; "index.js"] ]
    else [] in
  find (existsSync env) (first :: js ++ jsx ++ bare).

Record routeDef : Type := {
  rd_method : string;
  rd_path : string;
  rd_description : option string
}.

(** The three string properties a route definition object is read for;
    a later property of the same name wins. *)
Record routeProps : Type := {
  rp_method : option string;
  rp_path : option string;
  rp_summary : option string
}.

Definition routePropStep (acc : routeProps) (prop : objectMember) : routeProps :=
  match prop with
  | ObjectProperty (Identifier name) (StringLiteral value) =>
      {| rp_method := if String.eqb name "method" then Some value else rp_method acc;
         rp_path := if String.eqb name "path" then Some value else rp_path acc;
         rp_summary := if String.eqb name "summary" then Some value else rp_summary acc |}
  | _ => acc
  end.

Definition routePropsOf (props : list objectMember) : routeProps :=
  fold_left routePropStep props
    {| rp_method := None; rp_path := None; rp_summary := None |}.

Definition truthyOpt (x : option string) : option string :=
  match x with
  | Some s => if JsString.truthy s then Some s else None
  | None => None
  end.

Definition parseCreateRoute (node : option expr) : option routeDef :=
  match node with
  | Some (CallExpression (Identifier callee) arguments) =>
      if String.eqb callee "createRoute" then
        match hd_error arguments with
        | Some (ObjectExpression props) =>
            let p := routePropsOf props in
            match truthyOpt (rp_method p), truthyOpt (rp_path p) with
            | Some m, Some routePath =>
                Some {| rd_method := JsString.toUpperCase m; rd_path := routePath;
                        rd_description := rp_summary p |}
            | _, _ => None
            end
        | _ => None
        end
      else None
  | _ => None
  end.

Definition parseOpenApiRouteArg (node : option expr) (routeDefs : JsMap.t routeDef)
    : option routeDef :=
  match node with
  | None => None
  | Some (Identifier name) => JsMap.get name routeDefs
  | Some (CallExpression _ _) => parseCreateRoute node
  | Some (ObjectExpression props) =>
      let p := routePropsOf props in
      match truthyOpt (rp_method p), truthyOpt (rp_path p) with
      | Some m, Some routePath =>
          Some {| rd_method := JsString.toUpperCase m; rd_path := routePath;
                  rd_description := None |}
      | _, _ => None
      end
  | Some _ => None
  end.

Record call : Type := { c_name : string; c_args : list expr }.

(** The calls of a chain, root first.  The function reads neither the
    [computed] flag of a member access nor the type arguments of a call,
    and the tree does not record them. *)
Fixpoint parseCallChain (node : expr) : expr * list call :=
  match node with
  | CallExpression (MemberExpression object property) arguments =>
      match truthyOpt (getPropertyName property) with
      | Some propName =>
          let '(root, calls) := parseCallChain object in
          (root, calls ++ [{| c_name := propName; c_args := arguments |}])
      | None => (node, [])
      end
  | _ => (node, [])
  end.

Definition isHonoNewExpression (node : expr) : bool :=
  match node with
  | NewExpression (Identifier name) _ => JsSet.has name ROUTER_CLASS_NAMES
  | _ => false
  end.

Record routerMeta : Type := { rm_basePath : string }.

Definition recordBasePath (routers : JsMap.t routerMeta) (routerVar basePath : string)
    : JsMap.t routerMeta :=
  let existing :=
    match JsMap.get routerVar routers with
    | Some r => r
    | None => {| rm_basePath := "" |}
    end in
  if negb (JsString.truthy basePath) then routers
  else JsMap.set routerVar
         {| rm_basePath := Utils.normalizePath (Utils.joinPaths (rm_basePath existing) basePath) |}
         routers.

Fixpoint upperLiterals (elements : list (option expr)) : list string :=
  match elements with
  | [] => []
  | Some (StringLiteral value) :: rest => JsString.toUpperCase value :: upperLiterals rest
  | _ :: rest => upperLiterals rest
  end.

(** [parseMethodsFromOn(node)]: [isCall] is [node.type ===
    'CallExpression'] and [args] is [node.arguments].  The visitor of
    call expressions passes the node; the loop over a chain passes
    [{ arguments: call.args }], which has no [type]. *)
Definition parseMethodsFromOn (isCall : bool) (args : list expr) : list string :=
  if negb isCall then [] else
  match hd_error args with
  | Some (StringLiteral value) => [JsString.toUpperCase value]
  | Some (ArrayExpression elements) => upperLiterals elements
  | _ => []
  end.

Definition parseValidatorArgs (args : list expr) (schemaDefs : JsMap.t expr)
    : option (string * Zod.schema) :=
  if (List.length args <? 2)%nat then None else
  let target := getStringLiteral (hd_error args) in
  if negb (existsb (String.eqb target) ["json"; "form"; "query"; "param"]) then None
  else Some (target, Zod.resolveZodSchema (nth_error args 1) schemaDefs 0).

(** [params = {}] and what the validators found set in it. *)
Record rawParams : Type := {
  rw_body : option Zod.schema;
  rw_query : option (list param)
}.

Definition queryOfZod (schema : Zod.schema) : list param :=
  match Zod.properties schema with
  | Some properties =>
      map (fun entry => {| p_name := fst entry;
                           p_required := negb (Zod.optional (snd entry)) |})
          (JsObject.entries properties)
  | None => []
  end.

Definition validatorStep (schemaDefs : JsMap.t expr) (acc : rawParams) (arg : expr)
    : rawParams :=
  match arg with
  | CallExpression (Identifier callee) arguments =>
      if String.eqb callee "zValidator" then
        match parseValidatorArgs arguments schemaDefs with
        | Some (target, schema) =>
            let acc1 :=
              if String.eqb target "json" || String.eqb target "form"
              then {| rw_body := Some schema; rw_query := rw_query acc |}
              else acc in
            if String.eqb target "query"
            then {| rw_body := rw_body acc1; rw_query := Some (queryOfZod schema) |}
            else acc1
        | None => acc
        end
      else acc
  | _ => acc
  end.

Definition validators (schemaDefs : JsMap.t expr) (args : list expr) : rawParams :=
  fold_left (validatorStep schemaDefs) args {| rw_body := None; rw_query := None |}.

Record rawEndpoint : Type := {
  re_routerVar : string;
  re_method : string;
  re_path : string;
  re_description : string;
  re_parameters : option rawParams
}.

Record mount : Type := { mt_parentVar : string; mt_childIdent : string; mt_prefix : string }.

Record exportsInfo : Type := { ex_default : option string; ex_named : JsMap.t string }.

Record importInfo : Type := {
  im_sourceFile : string;
  im_importName : string;
  im_isDefault : bool
}.

Record fileData : Type := {
  fd_filePath : string;
  fd_routers : JsMap.t routerMeta;
  fd_endpoints : list rawEndpoint;
  fd_mounts : list mount;
  fd_exports : exportsInfo;
  fd_imports : JsMap.t importInfo
}.

(** *** parseHonoFile: the visitors *)

Record parseState : Type := {
  st_routers : JsMap.t routerMeta;
  st_endpoints : list rawEndpoint;
  st_mounts : list mount;
  st_exports : exportsInfo;
  st_imports : JsMap.t importInfo;
  st_routeDefs : JsMap.t routeDef;
  st_schemaDefs : JsMap.t expr
}.

Definition initial : parseState :=
  {| st_routers := JsMap.empty; st_endpoints := []; st_mounts := [];
     st_exports := {| ex_default := None; ex_named := JsMap.empty |};
     st_imports := JsMap.empty; st_routeDefs := JsMap.empty;
     st_schemaDefs := JsMap.empty |}.

Definition withRouters (f : JsMap.t routerMeta -> JsMap.t routerMeta) (st : parseState) : parseState :=
  {| st_routers := f (st_routers st); st_endpoints := st_endpoints st;
     st_mounts := st_mounts st; st_exports := st_exports st;
     st_imports := st_imports st; st_routeDefs := st_routeDefs st;
     st_schemaDefs := st_schemaDefs st |}.

Definition pushEndpoints (es : list rawEndpoint) (st : parseState) : parseState :=
  {| st_routers := st_routers st; st_endpoints := st_endpoints st ++ es;
     st_mounts := st_mounts st; st_exports := st_exports st;
     st_imports := st_imports st; st_routeDefs := st_routeDefs st;
     st_schemaDefs := st_schemaDefs st |}.

Definition pushMount (m : mount) (st : parseState) : parseState :=
  {| st_routers := st_routers st; st_endpoints := st_endpoints st;
     st_mounts := st_mounts st ++ [m]; st_exports := st_exports st;
     st_imports := st_imports st; st_routeDefs := st_routeDefs st;
     st_schemaDefs := st_schemaDefs st |}.

Definition withExports (f : exportsInfo -> exportsInfo) (st : parseState) : parseState :=
  {| st_routers := st_routers st; st_endpoints := st_endpoints st;
     st_mounts := st_mounts st; st_exports := f (st_exports st);
     st_imports := st_imports st; st_routeDefs := st_routeDefs st;
     st_schemaDefs := st_schemaDefs st |}.

Definition withImports (f : JsMap.t importInfo -> JsMap.t importInfo) (st : parseState) : parseState :=
  {| st_routers := st_routers st; st_endpoints := st_endpoints st;
     st_mounts := st_mounts st; st_exports := st_exports st;
     st_imports := f (st_imports st); st_routeDefs := st_routeDefs st;
     st_schemaDefs := st_schemaDefs st |}.

Definition setRouteDef (name : string) (d : routeDef) (st : parseState) : parseState :=
  {| st_routers := st_routers st; st_endpoints := st_endpoints st;
     st_mounts := st_mounts st; st_exports := st_exports st;
     st_imports := st_imports st; st_routeDefs := JsMap.set name d (st_routeDefs st);
     st_schemaDefs := st_schemaDefs st |}.

Definition setSchemaDef (name : string) (e : expr) (st : parseState) : parseState :=
  {| st_routers := st_routers st; st_endpoints := st_endpoints st;
     st_mounts := st_mounts st; st_exports := st_exports st;
     st_imports := st_imports st; st_routeDefs := st_routeDefs st;
     st_schemaDefs := JsMap.set name e (st_schemaDefs st) |}.

(** [if (!routers.has(routerVar)) routers.set(routerVar, { basePath: '' })] *)
Definition ensureRouter (routerVar : string) (st : parseState) : parseState :=
  withRouters (fun routers =>
                 if JsMap.has routerVar routers then routers
                 else JsMap.set routerVar {| rm_basePath := "" |} routers) st.

Definition verbOf (name : string) : string :=
  if String.eqb name "all" then "ALL" else JsString.toUpperCase name.

(** The endpoint of a verb call [x.get(path, ...)], if its path is a
    non-empty literal. *)
Definition verbEndpoint (routerVar name : string) (args : list expr)
    (schemaDefs : JsMap.t expr) : list rawEndpoint :=
  let m := verbOf name in
  let routePath := getStringLiteral (hd_error args) in
  if JsString.truthy routePath then
    [ {| re_routerVar := routerVar; re_method := m; re_path := routePath;
         re_description := (m ++ " " ++ routePath)%string;
         re_parameters := Some (validators schemaDefs (tl args)) |} ]
  else [].

Definition onEndpoints (routerVar : string) (isCall : bool) (args : list expr)
    : list rawEndpoint :=
  let routePath := getStringLiteral (nth_error args 1) in
  map (fun m => {| re_routerVar := routerVar; re_method := m; re_path := routePath;
                   re_description := (m ++ " " ++ routePath)%string;
                   re_parameters := None |})
      (parseMethodsFromOn isCall args).

Definition openapiEndpoint (routerVar : string) (args : list expr)
    (routeDefs : JsMap.t routeDef) : list rawEndpoint :=
  match parseOpenApiRouteArg (hd_error args) routeDefs with
  | Some route =>
      [ {| re_routerVar := routerVar; re_method := rd_method route;
           re_path := rd_path route;
           re_description :=
             match truthyOpt (rd_description route) with
             | Some d => d
             | None => (rd_method route ++ " " ++ rd_path route)%string
             end;
           re_parameters := None |} ]
  | None => []
  end.

(** One call of a chain rooted at [new Hono()]. *)
Definition chainCallStep (varName : string) (st : parseState) (c : call) : parseState :=
  let st1 :=
    if String.eqb (c_name c) "basePath"
    then withRouters (fun routers =>
           recordBasePath routers varName (getStringLiteral (hd_error (c_args c)))) st
    else st in
  let st2 :=
    if JsSet.has (c_name c) HONO_METHODS
    then pushEndpoints (verbEndpoint varName (c_name c) (c_args c) (st_schemaDefs st1)) st1
    else st1 in
  let st3 :=
    if String.eqb (c_name c) "on"
    then pushEndpoints (onEndpoints varName false (c_args c)) st2
    else st2 in
  if String.eqb (c_name c) "openapi"
  then pushEndpoints (openapiEndpoint varName (c_args c) (st_routeDefs st3)) st3
  else st3.

Definition importStep (resolved : string) (st : parseState) (spec : importSpecifier)
    : parseState :=
  match spec with
  | ImportDefaultSpecifier local =>
      withImports (JsMap.set local
        {| im_sourceFile := resolved; im_importName := "default"; im_isDefault := true |}) st
  | ImportSpecifier local imported =>
      withImports (JsMap.set local
        {| im_sourceFile := resolved; im_importName := imported; im_isDefault := false |}) st
  | ImportNamespaceSpecifier _ => st
  end.

Definition exportNamed (exported local : string) (st : parseState) : parseState :=
  withExports (fun e => {| ex_default := ex_default e;
                           ex_named := JsMap.set exported local (ex_named e) |}) st.

Definition exportDeclaredStep (st : parseState) (id : option string) : parseState :=
  match id with
  | Some name => exportNamed name name st
  | None => st
  end.

Definition exportSpecifierStep (st : parseState) (spec : exportSpecifier) : parseState :=
  match spec with
  | ExportSpecifier exported local => exportNamed exported local st
  | OtherExportSpecifier => st
  end.

Definition visitVariableDeclarator (varName : string) (init : expr) (st : parseState)
    : parseState :=
  let st1 :=
    match init with
    | CallExpression _ _ | MemberExpression _ _ => setSchemaDef varName init st
    | _ => st
    end in
  match parseCreateRoute (Some init) with
  | Some parsed => setRouteDef varName parsed st1
  | None =>
      match init with
      | NewExpression _ _ =>
          if isHonoNewExpression init
          then withRouters (JsMap.set varName {| rm_basePath := "" |}) st1
          else st1
      | CallExpression _ _ =>
          let '(root, calls) := parseCallChain init in
          if isHonoNewExpression root
          then fold_left (chainCallStep varName) calls
                 (withRouters (JsMap.set varName {| rm_basePath := "" |}) st1)
          else st1
      | _ => st1
      end
  end.

Definition visitCallExpression (callee : expr) (arguments : list expr) (st : parseState)
    : parseState :=
  match callee with
  | MemberExpression (Identifier routerVar) (Identifier methodName) =>
      if String.eqb methodName "basePath" then
        let st1 := ensureRouter routerVar st in
        withRouters (fun routers =>
          recordBasePath routers routerVar (getStringLiteral (hd_error arguments))) st1
      else if String.eqb methodName "route" then
        let st1 := ensureRouter routerVar st in
        let prefix := getStringLiteral (hd_error arguments) in
        match nth_error arguments 1 with
        | Some (Identifier child) =>
            if JsString.truthy prefix
            then pushMount {| mt_parentVar := routerVar; mt_childIdent := child;
                              mt_prefix := prefix |} st1
            else st1
        | _ => st1
        end
      else if JsSet.has methodName HONO_METHODS then
        let st1 := ensureRouter routerVar st in
        pushEndpoints (verbEndpoint routerVar methodName arguments (st_schemaDefs st1)) st1
      else if String.eqb methodName "on" then
        let st1 := ensureRouter routerVar st in
        pushEndpoints (onEndpoints routerVar true arguments) st1
      else if String.eqb methodName "openapi" then
        let st1 := ensureRouter routerVar st in
        pushEndpoints (openapiEndpoint routerVar arguments (st_routeDefs st1)) st1
      else st
  | _ => st
  end.

Definition visit (env : platform) (filePath : string) (st : parseState) (n : node)
    : parseState :=
  match n with
  | ImportDeclaration source specifiers =>
      if negb (JsString.truthy source) || negb (JsString.startsWith "." source) then st
      else match resolveImportFile env (pathDirname env filePath) source with
           | None => st
           | Some resolved => fold_left (importStep resolved) specifiers st
           end
  | ExportDefaultDeclaration (Identifier name) =>
      withExports (fun e => {| ex_default := Some name; ex_named := ex_named e |}) st
  | ExportDefaultDeclaration _ => st
  | ExportNamedDeclaration declaration specifiers =>
      let st1 :=
        match declaration with
        | Some ids => fold_left exportDeclaredStep ids st
        | None => st
        end in
      fold_left exportSpecifierStep specifiers st1
  | VariableDeclarator (Some varName) (Some init) =>
      visitVariableDeclarator varName init st
  | VariableDeclarator _ _ => st
  | CallExpressionNode callee arguments => visitCallExpression callee arguments st
  | ClassDeclaration _ => st
  end.

(** [None] where [parseFile] throws. *)
Definition parseHonoFile (env : platform) (filePath : string) : option fileData :=
  match parseFile env filePath with
  | None => None
  | Some tree =>
      let st := fold_left (visit env filePath) tree initial in
      Some {| fd_filePath := filePath; fd_routers := st_routers st;
              fd_endpoints := st_endpoints st; fd_mounts := st_mounts st;
              fd_exports := st_exports st; fd_imports := st_imports st |}
  end.

(** *** The router graph *)

Definition routerId (filePath varName : string) : string :=
  (filePath ++ "::" ++ varName)%string.

Record routerNode : Type := {
  rn_filePath : string;
  rn_varName : string;
  rn_basePath : string
}.

Definition indexFile (routers : JsMap.t routerNode) (data : fileData)
    : JsMap.t routerNode :=
  fold_left (fun routers entry =>
               JsMap.set (routerId (fd_filePath data) (fst entry))
                 {| rn_filePath := fd_filePath data; rn_varName := fst entry;
                    rn_basePath := JsString.orElse (rm_basePath (snd entry)) "" |}
                 routers)
    (fd_routers data) routers.

Definition buildRouterIndex (fileDataMap : JsMap.t fileData) : JsMap.t routerNode :=
  fold_left indexFile (JsMap.values fileDataMap) JsMap.empty.

Definition resolveChildRouterId (childIdent : string) (data : fileData)
    (fileDataMap : JsMap.t fileData) : option string :=
  if JsMap.has childIdent (fd_routers data)
  then Some (routerId (fd_filePath data) childIdent)
  else
    match JsMap.get childIdent (fd_imports data) with
    | Some imp =>
        match JsMap.get (im_sourceFile imp) fileDataMap with
        | None => None
        | Some target =>
            if im_isDefault imp then
              match truthyOpt (ex_default (fd_exports target)) with
              | Some d => Some (routerId (fd_filePath target) d)
              | None => None
              end
            else
              match truthyOpt (JsMap.get (im_importName imp) (ex_named (fd_exports target))) with
              | Some mapped => Some (routerId (fd_filePath target) mapped)
              | None => None
              end
        end
    | None => None
    end.

Definition addPrefix (prefixesByRouter : JsMap.t JsSet.t) (routerIdValue prefix : string)
    : bool * JsMap.t JsSet.t :=
  let set :=
    match JsMap.get routerIdValue prefixesByRouter with
    | Some s => s
    | None => []
    end in
  if JsSet.has prefix set then (false, prefixesByRouter)
  else (true, JsMap.set routerIdValue (set ++ [prefix]) prefixesByRouter).

Record edge : Type := { ed_childId : string; ed_prefix : string }.

Record graph : Type := {
  g_endpointsByRouter : JsMap.t (list rawEndpoint);
  g_edges : JsMap.t (list edge);
  g_childHasParent : JsSet.t
}.

Definition emptyGraph : graph :=
  {| g_endpointsByRouter := JsMap.empty; g_edges := JsMap.empty; g_childHasParent := [] |}.

(** [map.get(k).push(v)], the list created on first use. *)
Definition pushTo {A} (k : string) (v : A) (m : JsMap.t (list A)) : JsMap.t (list A) :=
  match JsMap.get k m with
  | Some l => JsMap.set k (l ++ [v]) m
  | None => JsMap.set k [v] m
  end.

Definition collectEndpoint (data : fileData) (g : graph) (e : rawEndpoint) : graph :=
  {| g_endpointsByRouter :=
       pushTo (routerId (fd_filePath data) (re_routerVar e)) e (g_endpointsByRouter g);
     g_edges := g_edges g;
     g_childHasParent := g_childHasParent g |}.

Definition collectMount (fileDataMap : JsMap.t fileData) (data : fileData) (g : graph)
    (m : mount) : graph :=
  let parentId := routerId (fd_filePath data) (mt_parentVar m) in
  match truthyOpt (resolveChildRouterId (mt_childIdent m) data fileDataMap) with
  | None => g
  | Some childId =>
      {| g_endpointsByRouter := g_endpointsByRouter g;
         g_edges := pushTo parentId {| ed_childId := childId; ed_prefix := mt_prefix m |}
                      (g_edges g);
         g_childHasParent := JsSet.add childId (g_childHasParent g) |}
  end.

Definition collectFile (fileDataMap : JsMap.t fileData) (g : graph) (data : fileData)
    : graph :=
  fold_left (collectMount fileDataMap data) (fd_mounts data)
    (fold_left (collectEndpoint data) (fd_endpoints data) g).

Definition buildGraph (fileDataMap : JsMap.t fileData) : graph :=
  fold_left (collectFile fileDataMap) (JsMap.values fileDataMap) emptyGraph.

(** [roots.length ? roots : routerIds] *)
Definition startOf (routers : JsMap.t routerNode) (childHasParent : JsSet.t)
    : list string :=
  let routerIds := JsMap.keys routers in
  let roots := filter (fun id => negb (JsSet.has id childHasParent)) routerIds in
  match roots with
  | [] => routerIds
  | _ => roots
  end.

Record bfs : Type := {
  queue : list (string * string);
  prefixesByRouter : JsMap.t JsSet.t
}.

Definition enqueue (b : bfs) (id prefix : string) : bfs :=
  let '(added, prefixes) := addPrefix (prefixesByRouter b) id prefix in
  if added
  then {| queue := queue b ++ [(id, prefix)]; prefixesByRouter := prefixes |}
  else {| queue := queue b; prefixesByRouter := prefixes |}.

Definition seed (start : list string) : bfs :=
  fold_left (fun b id => enqueue b id "") start
    {| queue := []; prefixesByRouter := JsMap.empty |}.

Definition visitEdge (effective : string) (b : bfs) (e : edge) : bfs :=
  enqueue b (ed_childId e) (Utils.joinPaths effective (ed_prefix e)).

(** One turn of the [while] loop, on a queue that is not empty. *)
Definition bfsStep (routers : JsMap.t routerNode) (edges : JsMap.t (list edge))
    (b : bfs) : bfs :=
  match queue b with
  | [] => b
  | (id, prefix) :: rest =>
      let b' := {| queue := rest; prefixesByRouter := prefixesByRouter b |} in
      match JsMap.get id routers with
      | None => b'
      | Some router =>
          let effective := Utils.joinPaths prefix (JsString.orElse (rn_basePath router) "") in
          let children :=
            match JsMap.get id edges with
            | Some l => l
            | None => []
            end in
          fold_left (visitEdge effective) children b'
      end
  end.

(** The [while] loop; [None] when it has not ended within [fuel]
    turns. *)
Fixpoint bfsLoop (fuel : nat) (routers : JsMap.t routerNode)
    (edges : JsMap.t (list edge)) (b : bfs) : option bfs :=
  match queue b with
  | [] => Some b
  | _ :: _ =>
      match fuel with
      | O => None
      | S fuel' => bfsLoop fuel' routers edges (bfsStep routers edges b)
      end
  end.

(** The three nested loops that fill [results]: which route is emitted
    for which router under which prefix, in order. *)
Definition emissions (endpointsByRouter : JsMap.t (list rawEndpoint))
    (prefixesByRouter : JsMap.t JsSet.t) : list (string * string * rawEndpoint) :=
  flat_map (fun entry =>
              let prefixes :=
                match JsMap.get (fst entry) prefixesByRouter with
                | Some set => set
                | None => [""]
                end in
              flat_map (fun prefix => map (fun e => (fst entry, prefix, e)) (snd entry))
                prefixes)
    endpointsByRouter.

(** The body of the innermost loop. *)
Definition emit (routers : JsMap.t routerNode) (em : string * string * rawEndpoint)
    : endpoint :=
  let '(id, prefix, e) := em in
  let router := JsMap.get id routers in
  let effective :=
    Utils.joinPaths prefix
      (match router with
       | Some r => JsString.orElse (rn_basePath r) ""
       | None => ""
       end) in
  let fullPath := Utils.normalizePath (Utils.joinPaths effective (re_path e)) in
  {| method := re_method e;
     path := fullPath;
     description := JsString.orElse (re_description e)
                      (re_method e ++ " " ++ fullPath)%string;
     tags := None;
     params :=
       match re_parameters e with
       | Some ps => {| ps_path := None; ps_query := rw_query ps;
                       ps_body := option_map ZodBody (rw_body ps) |}
       | None => {| ps_path := None; ps_query := None; ps_body := None |}
       end;
     filePath := option_map rn_filePath router;
     key := Utils.toKey (re_method e) fullPath |}.

Definition parseAll (env : platform) (files : list string) : JsMap.t fileData :=
  fold_left (fun fileDataMap file =>
               match parseHonoFile env file with
               | Some data => JsMap.set file data fileDataMap
               | None => fileDataMap
               end)
    files JsMap.empty.

(** [None] when the traversal has not ended within [fuel] turns of its
    loop. *)
Definition extractHonoEndpoints (env : platform) (fuel : nat) (files : list string)
    : option (list endpoint) :=
  let fileDataMap := parseAll env files in
  let routers := buildRouterIndex fileDataMap in
  let g := buildGraph fileDataMap in
  let start := startOf routers (g_childHasParent g) in
  match bfsLoop fuel routers (g_edges g) (seed start) with
  | None => None
  | Some b =>
      Some (map (emit routers) (emissions (g_endpointsByRouter g) (prefixesByRouter b)))
  end.

End Hono.

(** ** extract/express.js *)

Module Express.
Import Ast Model.

Definition getStringLiteral (node : option expr) : string :=
  match node with
  | Some (StringLiteral value) => value
  | Some (TemplateLiteral [cooked]) => cooked
  | _ => ""
  end.

Definition isHttpMethod (prop : string) : bool :=
  existsb (String.eqb prop) Utils.HTTP_METHODS.

Definition getMemberObjectName (memberExpr : expr) : option string :=
  match memberExpr with
  | MemberExpression (Identifier name) _ => Some name
  | _ => None
  end.

Record routeCall : Type := { rc_routerName : string; rc_routePath : string }.

(** [router.route('/path')] *)
Definition getRouteCallInfo (callExpr : expr) : option routeCall :=
  match callExpr with
  | CallExpression (MemberExpression object (Identifier prop)) arguments =>
      if negb (String.eqb prop "route") then None else
      let routePath := getStringLiteral (hd_error arguments) in
      match getMemberObjectName (MemberExpression object (Identifier prop)) with
      | Some routerName =>
          if JsString.truthy routerName && JsString.truthy routePath
          then Some {| rc_routerName := routerName; rc_routePath := routePath |}
          else None
      | None => None
      end
  | _ => None
  end.

(** [baseMap.get(name) || ''] *)
Definition getBase (baseMap : JsMap.t string) (name : string) : string :=
  match JsMap.get name baseMap with
  | Some base => base
  | None => ""
  end.

(** The visitor of [collectRouterBases] on one node: [owner.use(prefix,
    router)] records the base of [router]. *)
Definition routerBaseStep (baseMap : JsMap.t string) (n : node) : JsMap.t string :=
  match n with
  | CallExpressionNode (MemberExpression object (Identifier prop)) arguments =>
      if negb (String.eqb prop "use") then baseMap else
      match getMemberObjectName (MemberExpression object (Identifier prop)) with
      | None => baseMap
      | Some ownerName =>
          if negb (JsString.truthy ownerName) then baseMap
          else if (List.length arguments <? 2)%nat then baseMap
          else
            let prefix := getStringLiteral (hd_error arguments) in
            match nth_error arguments 1 with
            | Some (Identifier routerName) =>
                if negb (JsString.truthy prefix) then baseMap
                else JsMap.set routerName
                       (Utils.joinPaths (getBase baseMap ownerName) prefix) baseMap
            | _ => baseMap
            end
      end
  | _ => baseMap
  end.

Definition collectRouterBases (tree : ast) : JsMap.t string :=
  fold_left routerBaseStep tree JsMap.empty.

(** The first pass of [extractExpressEndpoints]: the variables whose
    initializer is a call or a member expression. *)
Definition schemaDefStep (schemaDefs : JsMap.t expr) (n : node) : JsMap.t expr :=
  match n with
  | VariableDeclarator (Some name) (Some init) =>
      match init with
      | CallExpression _ _ | MemberExpression _ _ => JsMap.set name init schemaDefs
      | _ => schemaDefs
      end
  | _ => schemaDefs
  end.

Definition collectSchemaDefs (tree : ast) : JsMap.t expr :=
  fold_left schemaDefStep tree JsMap.empty.

Record schemas : Type := { sc_body : option Zod.schema; sc_query : list param }.

(** One argument of a route in [extractSchemasFromArgs]: a middleware
    call whose first argument resolves to an object schema with
    properties gives the query parameters of a GET, DELETE or HEAD and
    the body of the other methods. *)
Definition schemaArgStep (schemaDefs : JsMap.t expr) (httpMethod : string)
    (acc : schemas) (arg : expr) : schemas :=
  match arg with
  | CallExpression _ (possibleSchema :: _) =>
      let resolved := Zod.resolveZodSchema (Some possibleSchema) schemaDefs 0 in
      match Zod.properties resolved with
      | Some properties =>
          if negb (String.eqb (Zod.type resolved) "object") then acc
          else if existsb (String.eqb httpMethod) ["GET"; "DELETE"; "HEAD"] then
            {| sc_body := sc_body acc;
               sc_query :=
                 sc_query acc ++
                 map (fun entry => {| p_name := fst entry;
                                      p_required := negb (Zod.optional (snd entry)) |})
                     (JsObject.entries properties) |}
          else {| sc_body := Some resolved; sc_query := sc_query acc |}
      | None => acc
      end
  | _ => acc
  end.

Definition extractSchemasFromArgs (schemaDefs : JsMap.t expr) (args : list expr)
    (httpMethod : string) : schemas :=
  fold_left (schemaArgStep schemaDefs httpMethod) args {| sc_body := None; sc_query := [] |}.

Definition routeEndpoint (filePath method fullPath : string) (found : schemas) : endpoint :=
  {| method := method;
     path := fullPath;
     description := (method ++ " " ++ fullPath)%string;
     tags := None;
     params := {| ps_path := None; ps_query := Some (sc_query found);
                  ps_body := option_map ZodBody (sc_body found) |};
     filePath := Some filePath;
     key := Utils.toKey method fullPath |}.

(** What the visitor of the last pass pushes on one node. *)
Definition routeStep (filePath : string) (routerBases : JsMap.t string)
    (schemaDefs : JsMap.t expr) (n : node) : list endpoint :=
  match n with
  | CallExpressionNode (MemberExpression object (Identifier methodName)) arguments =>
      match object with
      | Identifier ownerName =>
          if negb (isHttpMethod methodName) then [] else
          match arguments with
          | [] => []
          | first :: rest =>
              let routePath := getStringLiteral (Some first) in
              if negb (JsString.truthy routePath) then [] else
              let base :=
                if JsString.truthy ownerName && JsMap.has ownerName routerBases
                then getBase routerBases ownerName else "" in
              let method := JsString.toUpperCase methodName in
              let fullPath := Utils.normalizePath (Utils.joinPaths base routePath) in
              [routeEndpoint filePath method fullPath
                 (extractSchemasFromArgs schemaDefs rest method)]
          end
      | CallExpression _ _ =>
          if negb (JsString.truthy methodName && isHttpMethod methodName) then [] else
          match getRouteCallInfo object with
          | None => []
          | Some routeInfo =>
              let method := JsString.toUpperCase methodName in
              let base := JsString.orElse (getBase routerBases (rc_routerName routeInfo)) "" in
              let fullPath :=
                Utils.normalizePath (Utils.joinPaths base (rc_routePath routeInfo)) in
              [routeEndpoint filePath method fullPath
                 (extractSchemasFromArgs schemaDefs arguments method)]
          end
      | _ => []
      end
  | _ => []
  end.

(** [None] where [parseFile] throws. *)
Definition extractExpressEndpoints (env : platform) (filePath : string)
    : option (list endpoint) :=
  match parseFile env filePath with
  | None => None
  | Some tree =>
      let routerBases := collectRouterBases tree in
      let schemaDefs := collectSchemaDefs tree in
      Some (flat_map (routeStep filePath routerBases schemaDefs) tree)
  end.

End Express.

(** ** extract/index.js *)

Module Engine.
Import Model.

Section Extractors.
(** The three extractors; [None] is a rejected promise (for the
    router-graph extractor, a traversal that does not end). *)
Variable extractNestJsEndpoints : string -> option (list endpoint).
Variable extractExpressEndpoints : string -> option (list endpoint).
Variable extractHonoEndpoints : list string -> option (list endpoint).

(** [for (const e of list) map.set(e.key, e)], then [map.values()]. *)
Definition mergeByKey (es : list endpoint) : list endpoint :=
  JsMap.values (fold_left (fun m e => JsMap.set (key e) e m) es JsMap.empty).

Definition extractEndpoints (filePath framework : string) : option (list endpoint) :=
  if String.eqb framework "nestjs" then extractNestJsEndpoints filePath
  else if String.eqb framework "express" then extractExpressEndpoints filePath
  else if String.eqb framework "hono" then Some []
  else
    match extractNestJsEndpoints filePath with
    | None => None
    | Some nest =>
        match extractExpressEndpoints filePath with
        | None => None
        | Some exp => Some (mergeByKey (nest ++ exp))
        end
    end.

(** The loop over the files, [endpoints] being what was pushed so
    far. *)
Fixpoint extractEach (files : list string) (framework : string)
    (endpoints : list endpoint) : option (list endpoint) :=
  match files with
  | [] => Some endpoints
  | file :: rest =>
      match extractEndpoints file framework with
      | None => None
      | Some extracted => extractEach rest framework (endpoints ++ extracted)
      end
  end.

Definition extractAllEndpoints (files : list string) (framework : string)
    : option (list endpoint) :=
  if String.eqb framework "hono" then extractHonoEndpoints files
  else if String.eqb framework "auto" then
    match extractHonoEndpoints files with
    | None => None
    | Some [] => extractEach files framework []
    | Some hono => Some hono
    end
  else extractEach files framework [].

End Extractors.

End Engine.

(** ** collection/postman.js *)

Module Postman.
Import Model JsString.

(** [/{{([A-Za-z0-9_]+)}}/] at the start of a text. *)
Definition doubleBraceAt (s : string) : option string :=
  match s with
  | String c (String d rest) =>
      let '(w, after) := takeWord rest in
      match after with
      | String e (String f _) =>
          if Ascii.eqb c "{" && Ascii.eqb d "{" && truthy w
             && Ascii.eqb e "}" && Ascii.eqb f "}"
          then Some (String c (String d (w ++ "}}")))%string else None
      | _ => None
      end
  | _ => None
  end.

(** The path with its parameters in braces: [:id] and [{{id}}] become
    [{id}]. *)
Definition toDisplayPath (routePath : string) : string :=
  let p := Utils.normalizePath (orElse routePath "/") in
  let p := replaceAll Utils.colonParamAt
             (fun m => ("{" ++ dropFirst m ++ "}")%string) p in
  replaceAll doubleBraceAt
    (fun m => ("{" ++ dropLast (dropLast (dropFirst (dropFirst m))) ++ "}")%string) p.

(** The two ways of grouping the requests of a collection.  What a
    request is, and how a label is cleaned and a folder named, does not
    matter to the grouping. *)
Section Grouping.
Variable Item : Type.
Variable buildItem : endpoint -> Item.
Variable cleanLabel : string -> string.
Variable deriveFolderName : endpoint -> string.

Record group : Type := { g_name : string; g_item : list Item }.

(** [if (!groups.has(name)) groups.set(name, []);
     groups.get(name).push(buildItem(endpoint))] *)
Definition addTo (name : string) (e : endpoint) (groups : JsMap.t (list Item))
    : JsMap.t (list Item) :=
  let groups := if JsMap.has name groups then groups else JsMap.set name [] groups in
  match JsMap.get name groups with
  | Some items => JsMap.set name (items ++ [buildItem e]) groups
  | None => groups
  end.

Definition groupsOf (groups : JsMap.t (list Item)) : list group :=
  map (fun entry => {| g_name := fst entry; g_item := snd entry |}) groups.

Definition buildFolderItems (endpoints : list endpoint) : list group :=
  groupsOf (fold_left (fun folders e => addTo (deriveFolderName e) e folders)
              endpoints JsMap.empty).

(** [cleanLabel(tags[0] || 'General')], the tags being [['General']]
    where the endpoint has none. *)
Definition tagOf (e : endpoint) : string :=
  let tags :=
    match tags e with
    | Some (t :: ts) => t :: ts
    | _ => ["General"]
    end in
  cleanLabel (orElse (hd "" tags) "General").

Definition buildTaggedItems (endpoints : list endpoint) : list group :=
  groupsOf (fold_left (fun groups e => addTo (tagOf e) e groups) endpoints JsMap.empty).

End Grouping.

End Postman.

(** ** Vocabulary of the properties *)

Module Spec.
Import Model Nest.

(** Every reference an object holds points into a store of [n]
    objects. *)
Definition closedObj (n : nat) (o : sobj) : Prop :=
  (forall props, o_properties o = Some props -> Forall (fun e => snd e < n) props) /\
  (forall c, o_items o = Some c -> c < n).

Definition closedHeap (h : list sobj) : Prop :=
  Forall (closedObj (List.length h)) h.

(** A state whose store is closed and whose memo table points into it. *)
Definition wf (st : state) : Prop :=
  closedHeap (heap st) /\
  Forall (fun e => snd e < List.length (heap st)) (memo st).

(** The object at [r] unfolds to a finite tree: every path of
    references from it ends. *)
Inductive finiteAt (h : list sobj) : ref -> Prop :=
| finiteAt_intro (r : ref) (o : sobj) :
    nth_error h r = Some o ->
    (forall props k c, o_properties o = Some props -> In (k, c) props -> finiteAt h c) ->
    (forall c, o_items o = Some c -> finiteAt h c) ->
    finiteAt h r.

(** From [st] the computation returns, in a well-formed state that has
    lost no object, a result of which [Q] holds. *)
Definition runs {A} (m : M A) (st : state) (Q : A -> state -> Prop) : Prop :=
  exists a st', m st = Some (a, st') /\ wf st' /\
                List.length (heap st) <= List.length (heap st') /\ Q a st'.

(** The object at [r] unfolds to a finite tree that holds none of the
    objects [F], the objects under construction. *)
Inductive finiteAvoiding (h : list sobj) (F : list ref) : ref -> Prop :=
| finiteAvoiding_intro (r : ref) (o : sobj) :
    ~ In r F ->
    nth_error h r = Some o ->
    (forall props k c, o_properties o = Some props -> In (k, c) props ->
                       finiteAvoiding h F c) ->
    (forall c, o_items o = Some c -> finiteAvoiding h F c) ->
    finiteAvoiding h F r.

(** Every name of the memo table holds an object under construction,
    for a name of [open], or an object that unfolds to a finite tree. *)
Definition settled (F : list ref) (open : list string) (st : state) : Prop :=
  Forall (fun r => r < List.length (heap st)) F /\
  forall name r, JsMap.get name (memo st) = Some r ->
    (In r F /\ In name open) \/ finiteAvoiding (heap st) F r.

(** The objects of [st] other than those of [T] are the same in [st']. *)
Definition keepsExcept (T : list ref) (st st' : state) : Prop :=
  forall r o, ~ In r T -> nth_error (heap st) r = Some o ->
              nth_error (heap st') r = Some o.

(** The names of the memo table of [st] hold the same objects in
    [st']. *)
Definition memoKept (st st' : state) : Prop :=
  forall name r, JsMap.get name (memo st) = Some r -> JsMap.get name (memo st') = Some r.

(** From [st] the computation returns, in a settled state in which the
    objects of [st] other than those of [T] and the memo table of [st]
    are unchanged, a result of which [Q] holds. *)
Definition yields {A} (F : list ref) (open : list string) (T : list ref)
    (m : M A) (st : state) (Q : A -> state -> Prop) : Prop :=
  exists a st', m st = Some (a, st') /\ settled F open st' /\
                keepsExcept T st st' /\ memoKept st st' /\ Q a st'.

(** No property of the DTO has the DTO itself as its declared type. *)
Definition noSelfReference (dtoMap : JsMap.t dto) (dtoName : string) : Prop :=
  forall d prop typeParameters,
    JsMap.get dtoName dtoMap = Some d -> In prop (d_props d) ->
    dp_typeNode prop <> Some (TSTypeReference (Ast.Identifier dtoName) typeParameters).

Definition validRef (r : ref) (st : state) : Prop := r < List.length (heap st).

Definition validRefs (o : JsObject.t ref) (st : state) : Prop :=
  Forall (fun e => snd e < List.length (heap st)) o.

End Spec.

Module Trace.
Import Hono.

(** What one turn of the loop pushes on the queue: the queue it leaves
    when the entry it takes is the only one. *)
Definition pushedBy (routers : JsMap.t routerNode) (edges : JsMap.t (list edge))
    (b : bfs) : list (string * string) :=
  match queue b with
  | [] => []
  | entry :: _ =>
      queue (bfsStep routers edges
               {| queue := [entry]; prefixesByRouter := prefixesByRouter b |})
  end.

(** The state after [n] turns. *)
Definition after (routers : JsMap.t routerNode) (edges : JsMap.t (list edge))
    (n : nat) (b : bfs) : bfs :=
  Nat.iter n (bfsStep routers edges) b.

(** The entries pushed in the first [n] turns, in order. *)
Fixpoint enqueued (routers : JsMap.t routerNode) (edges : JsMap.t (list edge))
    (n : nat) (b : bfs) : list (string * string) :=
  match n with
  | O => []
  | S n' => pushedBy routers edges b ++ enqueued routers edges n' (bfsStep routers edges b)
  end.

(** The emissions of one router under one prefix. *)
Definition emittedFor (id prefix : string) (ems : list (string * string * rawEndpoint))
    : list (string * string * rawEndpoint) :=
  filter (fun em => String.eqb (fst (fst em)) id && String.eqb (snd (fst em)) prefix) ems.

(** The pairs the prefix table records. *)
Definition recorded (prefixes : JsMap.t JsSet.t) (id prefix : string) : Prop :=
  exists set, JsMap.get id prefixes = Some set /\ In prefix set.

End Trace.

(** * Properties *)

(** ** Paths and keys *)

Section PathFacts.
Import JsString Utils.

Example normalizePath_examples :
  normalizePath "" = "/" /\
  normalizePath "   " = "/" /\
  normalizePath "users" = "/users" /\
  normalizePath "  //a///b// " = "/a/b" /\
  joinPaths "users" ":id" = "/users/:id" /\
  joinPaths "" "" = "/" /\
  toKey "get" "x/" = "GET /x".
Proof. repeat split; reflexivity. Qed.

(** A method name without a space cuts the key at its first space. *)
Lemma key_cut (u1 u2 n1 n2 : string) :
  contains " " u1 = false -> contains " " u2 = false ->
  (u1 ++ " " ++ n1)%string = (u2 ++ " " ++ n2)%string ->
  u1 = u2 /\ n1 = n2.
Proof.
  revert u2. induction u1 as [|c u1 IH]; intros [|d u2] H1 H2 E; simpl in *.
  - injection E as E. now split.
  - injection E as Ec E. subst d. simpl in H2. discriminate.
  - injection E as Ec E. subst c. simpl in H1. discriminate.
  - injection E as Ec E. subst d.
    apply orb_false_iff in H1 as [_ H1]. apply orb_false_iff in H2 as [_ H2].
    destruct (IH u2 H1 H2 E) as [-> ->]. now split.
Qed.

(** A method of [HTTP_METHODS], in any letter case. *)
Definition validMethod (m : string) : Prop :=
  In (toUpperCase m) (map toUpperCase HTTP_METHODS).

Lemma validMethod_no_space (m : string) :
  validMethod m -> contains " " (toUpperCase m) = false.
Proof.
  unfold validMethod. simpl.
  intros H. repeat (destruct H as [<- | H]; [reflexivity|]). destruct H.
Qed.

(** C6. The key of an endpoint is a function of its method and path,
    and two keys differ as soon as the methods differ up to letter case
    or the normalized paths differ, for the methods of [HTTP_METHODS]
    in any letter case and all path strings. *)
Theorem toKey_stable_and_collision_free (m1 m2 p1 p2 : string) :
  validMethod m1 -> validMethod m2 ->
  (m1 = m2 -> p1 = p2 -> toKey m1 p1 = toKey m2 p2) /\
  (toUpperCase m1 <> toUpperCase m2 \/ normalizePath p1 <> normalizePath p2 ->
   toKey m1 p1 <> toKey m2 p2).
Proof.
  intros V1 V2. split.
  - intros -> ->. reflexivity.
  - intros D E. unfold toKey in E.
    apply key_cut in E; auto using validMethod_no_space.
    destruct E as [Eu En]. destruct D as [D | D]; contradiction.
Qed.

Lemma toKey_stable_and_collision_free_witness :
  validMethod "get" /\ validMethod "POST" /\
  toKey "get" "/a/" <> toKey "POST" "a".
Proof.
  assert (V1 : validMethod "get") by (unfold validMethod; simpl; auto).
  assert (V2 : validMethod "POST") by (unfold validMethod; simpl; auto 10).
  split; [exact V1|]. split; [exact V2|].
  apply (proj2 (toKey_stable_and_collision_free "get" "POST" "/a/" "a" V1 V2)).
  left. discriminate.
Defined.

(** Outside the methods of [HTTP_METHODS] a key does not determine its
    method and path. *)
Example toKey_collision_with_space :
  toKey "GET /A" "/b" = toKey "GET" "/A /b".
Proof. reflexivity. Qed.

(** C7. Normalizing twice is not normalizing once: the white space
    is trimmed before the trailing slash is removed, and the white
    space the removal uncovers stays. *)
Theorem normalizePath_not_idempotent :
  normalizePath "a /" = "/a " /\
  normalizePath (normalizePath "a /") = "/a" /\
  normalizePath (normalizePath "a /") <> normalizePath "a /".
Proof. repeat split. discriminate. Qed.

End PathFacts.

(** ** The schema-builder resolver *)

Section ZodFacts.
Import Ast Zod.

Lemma objectProperties_returns (resolve : expr -> option schema) :
  (forall v, exists s, resolve v = Some s) ->
  forall props properties required,
  exists r, objectProperties resolve props properties required = Some r.
Proof.
  intros R props. induction props as [|p props IH]; intros properties required; simpl.
  - eauto.
  - destruct p as [k v|]; [|apply IH].
    destruct (getPropertyName k) as [name|]; [|apply IH].
    destruct (negb (JsString.truthy name)); [apply IH|].
    destruct (R v) as [s ->]. apply IH.
Qed.

Lemma objectProperties_ext (f g : expr -> option schema) :
  (forall v s, f v = Some s -> g v = Some s) ->
  forall props properties required r,
  objectProperties f props properties required = Some r ->
  objectProperties g props properties required = Some r.
Proof.
  intros FG props. induction props as [|p props IH]; intros properties required r; simpl.
  - auto.
  - destruct p as [k v|]; [|apply IH].
    destruct (getPropertyName k) as [name|]; [|apply IH].
    destruct (negb (JsString.truthy name)); [apply IH|].
    destruct (f v) as [s|] eqn:E; [|discriminate].
    rewrite (FG _ _ E). apply IH.
Qed.

(** Enough fuel gives a result. *)
Lemma resolveZodSchemaFuel_returns (fuel : nat) :
  forall node schemaDefs depth,
  1 <= fuel -> 12 <= fuel + depth ->
  exists s, resolveZodSchemaFuel fuel node schemaDefs depth = Some s.
Proof.
  induction fuel as [|fuel IH]; intros node defs depth H1 H2; [lia|].
  simpl. destruct node as [node|]; [|eauto].
  destruct (10 <? depth)%nat eqn:E; [eauto|].
  apply Nat.ltb_ge in E.
  assert (R : forall n, exists s, resolveZodSchemaFuel fuel n defs (depth + 1) = Some s)
    by (intros n; apply IH; lia).
  destruct node; eauto.
  - destruct (JsMap.get name defs); eauto.
  - destruct node; eauto.
    repeat (match goal with |- context [if ?b then _ else _] => destruct b end; eauto).
    + destruct (hd_error arguments) as [[]|]; eauto.
      destruct (objectProperties_returns
                  (fun v => resolveZodSchemaFuel fuel (Some v) defs (depth + 1))
                  (fun v => R (Some v)) properties0 JsObject.empty []) as [[ps rq] ->].
      eauto.
    + destruct (R (hd_error arguments)) as [s ->]. eauto.
    + destruct (R (Some node1)) as [s ->].
      destruct (getObjectProperty (hd_error arguments) "example"); eauto.
      destruct (literalOf e); eauto.
    + destruct (R (Some node1)) as [s ->]. eauto.
  - repeat (match goal with |- context [if ?b then _ else _] => destruct b end; eauto).
Qed.

(** More fuel does not change a result. *)
Lemma resolveZodSchemaFuel_more (fuel : nat) :
  forall node schemaDefs depth s,
  resolveZodSchemaFuel fuel node schemaDefs depth = Some s ->
  resolveZodSchemaFuel (S fuel) node schemaDefs depth = Some s.
Proof.
  induction fuel as [|fuel IH]; intros node defs depth s; [discriminate|].
  intros H. cbn [resolveZodSchemaFuel] in H.
  remember (S fuel) as fuel1 eqn:Efuel. cbn [resolveZodSchemaFuel].
  destruct node as [node|]; [|exact H].
  destruct (10 <? depth)%nat; [exact H|].
  destruct node; try exact H.
  - destruct (JsMap.get name defs); [apply IH|]; exact H.
  - destruct node; try exact H.
    repeat (match goal with |- context [if ?b then _ else _] => destruct b end; try exact H).
    + destruct (hd_error arguments) as [[]|]; try exact H.
      destruct (objectProperties _ properties0 JsObject.empty []) as [[ps rq]|] eqn:E in H;
        [|discriminate].
      rewrite (objectProperties_ext _
                 (fun v => resolveZodSchemaFuel fuel1 (Some v) defs (depth + 1))
                 (fun v s' Hv => IH _ _ _ _ Hv) _ _ _ _ E).
      exact H.
    + destruct (resolveZodSchemaFuel fuel (hd_error arguments) defs (depth + 1)) eqn:E;
        [|discriminate].
      rewrite (IH _ _ _ _ E). exact H.
    + destruct (resolveZodSchemaFuel fuel (Some node1) defs (depth + 1)) eqn:E;
        [|discriminate].
      rewrite (IH _ _ _ _ E). exact H.
    + destruct (resolveZodSchemaFuel fuel (Some node1) defs (depth + 1)) eqn:E;
        [|discriminate].
      rewrite (IH _ _ _ _ E). exact H.
    + apply IH. exact H.
  - repeat (match goal with |- context [if ?b then _ else _] => destruct b end; try exact H).
    apply IH. exact H.
Qed.

Lemma resolveZodSchemaFuel_le (fuel fuel' : nat) node schemaDefs depth s :
  fuel <= fuel' ->
  resolveZodSchemaFuel fuel node schemaDefs depth = Some s ->
  resolveZodSchemaFuel fuel' node schemaDefs depth = Some s.
Proof.
  induction 1; auto using resolveZodSchemaFuel_more.
Qed.

(** [resolveZodSchema] is what the resolver returns, whatever the fuel
    above the bound. *)
Lemma resolveZodSchema_returns (fuel : nat) node schemaDefs depth :
  12 - depth <= fuel -> 1 <= fuel ->
  resolveZodSchemaFuel fuel node schemaDefs depth
  = Some (resolveZodSchema node schemaDefs depth).
Proof.
  intros H1 H2.
  destruct (resolveZodSchemaFuel_returns (S (11 - depth)) node schemaDefs depth)
    as [s E]; [lia|lia|].
  unfold resolveZodSchema. rewrite E.
  eapply resolveZodSchemaFuel_le; [|exact E]. lia.
Qed.

(** The resolver unfolded once at a depth within the cap. *)
Lemma resolveZodSchema_step node schemaDefs depth :
  depth <= 10 ->
  resolveZodSchemaFuel (S (11 - depth)) node schemaDefs depth
  = Some (resolveZodSchema node schemaDefs depth).
Proof. intros H. apply resolveZodSchema_returns; lia. Qed.

Lemma resolveZodSchema_above_cap node schemaDefs depth :
  10 < depth -> resolveZodSchema node schemaDefs depth = ofType "string".
Proof.
  intros H. unfold resolveZodSchema.
  replace (11 - depth) with 0 by lia. simpl.
  destruct node; [|reflexivity].
  apply Nat.ltb_lt in H. rewrite H. reflexivity.
Qed.

Lemma resolveZodSchema_unknown_identifier name schemaDefs depth :
  depth <= 10 -> JsMap.get name schemaDefs = None ->
  resolveZodSchema (Some (Identifier name)) schemaDefs depth = ofType "object".
Proof.
  intros H G. unfold resolveZodSchema. simpl.
  apply Nat.ltb_ge in H. rewrite H, G. reflexivity.
Qed.

End ZodFacts.

(** ** The decorator-style schema resolver *)

Section NestFacts.
Import Ast Model Nest Spec.

(** Induction on a type annotation through its type parameters and
    members. *)
Section TsTypeInd.
Variable P : tsType -> Prop.
Hypothesis Hstring : P TSStringKeyword.
Hypothesis Hnumber : P TSNumberKeyword.
Hypothesis Hboolean : P TSBooleanKeyword.
Hypothesis Harray : forall t, P t -> P (TSArrayType t).
Hypothesis Hreference : forall n ps,
  (forall l, ps = Some l -> Forall P l) -> P (TSTypeReference n ps).
Hypothesis Hliteral : forall ms,
  Forall (fun m => forall k t, m = TSPropertySignature k (Some t) -> P t) ms ->
  P (TSTypeLiteral ms).
Hypothesis Hother : P TSOtherType.

Fixpoint tsType_nested_ind (t : tsType) : P t :=
  match t with
  | TSStringKeyword => Hstring
  | TSNumberKeyword => Hnumber
  | TSBooleanKeyword => Hboolean
  | TSArrayType e => Harray e (tsType_nested_ind e)
  | TSTypeReference n ps =>
      Hreference n ps
        (match ps as ps0 return forall l, ps0 = Some l -> Forall P l with
         | Some l0 =>
             fun l E =>
               match E in _ = o return match o with Some l' => Forall P l' | None => True end with
               | eq_refl =>
                   (fix all (l1 : list tsType) : Forall P l1 :=
                      match l1 with
                      | [] => Forall_nil P
                      | x :: l2 => Forall_cons x (tsType_nested_ind x) (all l2)
                      end) l0
               end
         | None => fun l E => match E in _ = o return match o with Some l' => Forall P l' | None => True end with eq_refl => I end
         end)
  | TSTypeLiteral ms =>
      Hliteral ms
        ((fix all (l1 : list tsMember)
            : Forall (fun m => forall k t, m = TSPropertySignature k (Some t) -> P t) l1 :=
            match l1 with
            | [] => Forall_nil _
            | m :: l2 =>
                Forall_cons m
                  (match m as m0 return forall k t, m0 = TSPropertySignature k (Some t) -> P t with
                   | TSPropertySignature k0 (Some t0) =>
                       fun k t E =>
                         match E in _ = m1
                               return match m1 with
                                      | TSPropertySignature _ (Some t1) => P t1
                                      | _ => True
                                      end with
                         | eq_refl => tsType_nested_ind t0
                         end
                   | TSPropertySignature k0 None =>
                       fun k t E =>
                         match E in _ = m1
                               return match m1 with
                                      | TSPropertySignature _ (Some t1) => P t1
                                      | _ => True
                                      end with
                         | eq_refl => I
                         end
                   | TSOtherMember =>
                       fun k t E =>
                         match E in _ = m1
                               return match m1 with
                                      | TSPropertySignature _ (Some t1) => P t1
                                      | _ => True
                                      end with
                         | eq_refl => I
                         end
                   end)
                  (all l2)
            end) ms)
  | TSOtherType => Hother
  end.
End TsTypeInd.

Lemma closedObj_mono (n n' : nat) (o : sobj) :
  n <= n' -> closedObj n o -> closedObj n' o.
Proof.
  intros L [Hp Hi]. split.
  - intros props E. eapply Forall_impl; [|apply (Hp _ E)]. simpl. intros; lia.
  - intros c E. specialize (Hi c E). lia.
Qed.

Lemma Forall_updateNth {A} (P : A -> Prop) (f : A -> A) (n : nat) (l : list A) :
  (forall x, P x -> P (f x)) -> Forall P l -> Forall P (updateNth n f l).
Proof.
  intros Hf H. revert n. induction H as [|x l Hx Hl IH]; intros [|n]; simpl; auto.
Qed.

Lemma length_updateNth {A} (f : A -> A) (n : nat) (l : list A) :
  List.length (updateNth n f l) = List.length l.
Proof.
  revert n. induction l as [|x l IH]; intros [|n]; simpl; auto.
Qed.

Lemma JsMap_set_Forall {V} (P : V -> Prop) (k : string) (v : V) (m : JsMap.t V) :
  Forall (fun e => P (snd e)) m -> P v -> Forall (fun e => P (snd e)) (JsMap.set k v m).
Proof.
  intros H Hv. induction H as [|[k' v'] m Hx Hm IH]; simpl.
  - auto.
  - destruct (String.eqb k' k); auto.
Qed.

Lemma insertIndex_Forall {V} (P : V -> Prop) (n : N) (k : string) (v : V)
    (o : JsObject.t V) :
  Forall (fun e => P (snd e)) o -> P v ->
  Forall (fun e => P (snd e)) (JsObject.insertIndex n k v o).
Proof.
  intros H Hv. induction H as [|[k' v'] m Hx Hm IH]; simpl.
  - auto.
  - destruct (JsObject.arrayIndex k'); [destruct (N.ltb n0 n)|]; auto.
Qed.

Lemma JsObject_set_Forall {V} (P : V -> Prop) (k : string) (v : V) (o : JsObject.t V) :
  Forall (fun e => P (snd e)) o -> P v -> Forall (fun e => P (snd e)) (JsObject.set k v o).
Proof.
  intros H Hv. unfold JsObject.set.
  destruct (JsObject.has k o); [apply JsMap_set_Forall; auto|].
  destruct (JsObject.arrayIndex k); [apply insertIndex_Forall; auto|].
  apply Forall_app; auto.
Qed.

Lemma validRefs_mono (o : JsObject.t ref) (st st' : state) :
  List.length (heap st) <= List.length (heap st') -> validRefs o st -> validRefs o st'.
Proof.
  intros L H. eapply Forall_impl; [|exact H]. simpl. intros; lia.
Qed.

(** *** The rules of the state monad *)

Lemma runs_ret {A} (a : A) (st : state) (Q : A -> state -> Prop) :
  wf st -> Q a st -> runs (ret a) st Q.
Proof. intros W H. exists a, st. repeat split; auto; apply W. Qed.

Lemma runs_bind {A B} (m : M A) (f : A -> M B) (st : state)
    (Q : A -> state -> Prop) (R : B -> state -> Prop) :
  runs m st Q ->
  (forall a st', wf st' -> List.length (heap st) <= List.length (heap st') ->
                 Q a st' -> runs (f a) st' R) ->
  runs (bind m f) st R.
Proof.
  intros (a & st1 & E & W & L & HQ) K.
  destruct (K a st1 W L HQ) as (b & st2 & E2 & W2 & L2 & HR).
  exists b, st2. unfold bind. rewrite E. repeat split; auto; try apply W2. lia.
Qed.

Lemma runs_weaken {A} (m : M A) (st : state) (Q R : A -> state -> Prop) :
  runs m st Q -> (forall a st', Q a st' -> R a st') -> runs m st R.
Proof.
  intros (a & st1 & E & W & L & HQ) QR. exists a, st1. repeat split; auto; apply W.
Qed.

Lemma runs_alloc (o : sobj) (st : state) :
  wf st -> closedObj (S (List.length (heap st))) o ->
  runs (alloc o) st validRef.
Proof.
  intros [Hh Hm] Ho. eexists _, _. split; [reflexivity|].
  unfold wf, closedHeap, validRef. simpl. rewrite !length_app. simpl.
  replace (List.length (heap st) + 1) with (S (List.length (heap st))) by lia.
  repeat split; try lia.
  - apply Forall_app. split.
    + eapply Forall_impl; [|exact Hh]. intros x. apply closedObj_mono. lia.
    + constructor; auto.
  - eapply Forall_impl; [|exact Hm]. simpl. intros; lia.
Qed.

Lemma runs_modify (r : ref) (f : sobj -> sobj) (st : state) :
  wf st ->
  (forall o, closedObj (List.length (heap st)) o -> closedObj (List.length (heap st)) (f o)) ->
  runs (modify r f) st (fun _ st' => List.length (heap st') = List.length (heap st)).
Proof.
  intros [Hh Hm] Hf. eexists _, _. split; [reflexivity|].
  unfold wf, closedHeap. simpl. rewrite !length_updateNth.
  repeat split; auto. apply Forall_updateNth; auto.
Qed.

Lemma runs_memoSet (name : string) (r : ref) (st : state) :
  wf st -> validRef r st ->
  runs (memoSet name r) st (fun _ st' => List.length (heap st') = List.length (heap st)).
Proof.
  intros [Hh Hm] Hr. eexists _, _. split; [reflexivity|].
  unfold wf. simpl. repeat split; auto.
  apply (JsMap_set_Forall (fun v => v < List.length (heap st))); auto.
Qed.

Lemma runs_memoGet (name : string) (st : state) :
  wf st ->
  runs (memoGet name) st
    (fun cached st' => st' = st /\ forall r, cached = Some r -> validRef r st).
Proof.
  intros W. eexists _, _. split; [reflexivity|].
  repeat split; auto; try apply W.
  intros r E. destruct W as [_ Hm]. unfold validRef.
  induction Hm as [|[k v] m Hx Hm IH]; simpl in E; [discriminate|].
  destruct (String.eqb k name); [injection E as <-; exact Hx|auto].
Qed.

Lemma closedObj_plain (n : nat) (ty : string) (ex : option Zod.literal) :
  closedObj n (plain ty ex).
Proof. split; simpl; intros; discriminate. Qed.

Lemma runs_fallback (meta : propMeta) (st : state) :
  wf st -> runs (fallback meta) st validRef.
Proof.
  intros W. unfold fallback.
  destruct (m_overrideType meta) as [ty|]; [destruct (JsString.truthy ty)|];
    apply runs_alloc; auto using closedObj_plain.
Qed.

Lemma setProperty_closed (n : nat) (name : string) (c : ref) (o : sobj) :
  c < n -> closedObj n o -> closedObj n (setProperty name c o).
Proof.
  intros Hc [Hp Hi]. split; simpl; auto.
  intros props E. destruct (o_properties o) as [ps|]; [|discriminate].
  injection E as <-.
  apply (JsObject_set_Forall (fun v => v < n)); auto.
Qed.

Lemma setRequired_closed (n : nat) (required : list string) (o : sobj) :
  closedObj n o -> closedObj n (setRequired required o).
Proof. intros [Hp Hi]. split; simpl; auto. Qed.

(** *** The resolvers return *)

(** The DTO resolver as the type resolver relies on it at a depth
    [depth]: it is asked only for depths above [depth] and at most 2. *)
Definition buildRuns (build : string -> nat -> M ref) (depth : nat) : Prop :=
  forall name d st, depth < d -> d <= 2 -> wf st -> runs (build name d) st validRef.

Lemma buildRuns_deeper build (depth depth' : nat) :
  depth <= depth' -> buildRuns build depth -> buildRuns build depth'.
Proof. intros L H name d st L1 L2. apply H; lia. Qed.

Lemma literalMembers_runs (resolve : tsType -> M ref) (members : list tsMember) :
  Forall (fun m => forall k t, m = TSPropertySignature k (Some t) ->
                   forall st, wf st -> runs (resolve t) st validRef) members ->
  forall properties st, wf st -> validRefs properties st ->
  runs (literalMembers resolve members properties) st validRefs.
Proof.
  induction 1 as [|m ms Hm Hms IH]; intros properties st W V; simpl.
  - apply runs_ret; auto.
  - destruct m as [k ta|]; [|auto].
    destruct (getPropertyName k) as [name|]; [|auto].
    destruct (negb (JsString.truthy name)); [auto|].
    eapply runs_bind.
    + destruct ta as [t|]; [apply (Hm k t eq_refl); auto|apply runs_fallback; auto].
    + intros r st' W' L Hr. apply IH; auto.
      apply (JsObject_set_Forall (fun v => v < List.length (heap st'))); auto.
      apply (validRefs_mono _ st); auto.
Qed.

Lemma closedObj_arrayOf (n : nat) (items : ref) :
  items < n -> closedObj n (arrayOf items).
Proof.
  intros H. split; simpl; intros; [discriminate|]. injection H0 as <-. exact H.
Qed.

Lemma closedObj_objectWith (st : state) (n : nat) (properties : JsObject.t ref) :
  validRefs properties st -> List.length (heap st) <= n ->
  closedObj n (objectWith properties).
Proof.
  intros V L. split; simpl; intros; [|discriminate].
  injection H as <-. eapply Forall_impl; [|exact V]. simpl. intros; lia.
Qed.

Lemma fromType_runs (dtoMap : JsMap.t dto) (build : string -> nat -> M ref)
    (typeNode : tsType) :
  forall depth meta st,
  buildRuns build depth -> wf st ->
  runs (fromType dtoMap build typeNode depth meta) st validRef.
Proof.
  induction typeNode using tsType_nested_ind; intros depth meta st B W;
    cbn [fromType].
  - apply runs_alloc; auto using closedObj_plain.
  - apply runs_alloc; auto using closedObj_plain.
  - apply runs_alloc; auto using closedObj_plain.
  - eapply runs_bind.
    + apply IHtypeNode; [|exact W]. eapply buildRuns_deeper; [|exact B]. lia.
    + intros items st' W' L Hi. apply runs_alloc; auto.
      apply closedObj_arrayOf. unfold validRef in Hi. lia.
  - assert (E : runs (if JsMap.has
                           match n with Identifier name => name | _ => "" end dtoMap
                           && (depth <? 2)%nat
                         then build match n with Identifier name => name | _ => "" end (depth + 1)
                         else fallback meta) st validRef).
    { destruct (JsMap.has _ dtoMap && (depth <? 2)%nat) eqn:C.
      - apply andb_prop in C as [_ C]. apply Nat.ltb_lt in C. apply B; auto; lia.
      - apply runs_fallback; auto. }
    destruct n; try (apply runs_fallback; exact W).
    destruct (String.eqb name "Array"); [|exact E].
    destruct ps as [[|param [|]]|]; try exact E.
    eapply runs_bind.
    + specialize (H _ eq_refl). inversion H as [|? ? Hp _]; subst.
      apply Hp; [|exact W]. eapply buildRuns_deeper; [|exact B]. lia.
    + intros items st' W' L Hi. apply runs_alloc; auto.
      apply closedObj_arrayOf. unfold validRef in Hi. lia.
  - eapply runs_bind.
    + apply literalMembers_runs; [|exact W|constructor].
      eapply Forall_impl; [|exact H]. simpl.
      intros m Hm k t E st0 W0. apply (Hm k t E); [|exact W0].
      eapply buildRuns_deeper; [|exact B]. lia.
    + intros properties st' W' L V. apply runs_alloc; auto.
      apply (closedObj_objectWith st'); auto.
  - apply runs_fallback; auto.
Qed.

Lemma schemaFromTypeNodeWith_runs dtoMap build typeNode depth meta st :
  buildRuns build depth -> wf st ->
  runs (schemaFromTypeNodeWith dtoMap build typeNode depth meta) st validRef.
Proof.
  intros B W. destruct typeNode as [t|]; simpl.
  - apply fromType_runs; auto.
  - apply runs_fallback; auto.
Qed.

Lemma dtoProperties_runs dtoMap build (schema : ref) (props : list dtoProp) depth :
  buildRuns build (depth + 1) ->
  forall required st, wf st -> validRef schema st ->
  runs (dtoProperties dtoMap build schema props depth required) st
    (fun _ st' => True).
Proof.
  intros B. induction props as [|prop props IH]; intros required st W V; simpl.
  - apply runs_ret; auto.
  - eapply runs_bind; [apply schemaFromTypeNodeWith_runs; eauto|].
    intros r st1 W1 L1 Hr.
    eapply runs_bind.
    + apply runs_modify; auto. intros o. apply setProperty_closed. exact Hr.
    + intros u2 st2 W2 L2 E2. apply IH; auto.
      unfold validRef in *. lia.
Qed.

Lemma buildSchemaForDtoWith_runs (build : string -> nat -> M ref)
    dtoName dtoMap depth st :
  buildRuns build (depth + 1) -> wf st ->
  runs (buildSchemaForDtoWith build dtoName dtoMap depth) st validRef.
Proof.
  intros B W. unfold buildSchemaForDtoWith.
  eapply runs_bind; [apply runs_memoGet; exact W|].
  intros cached st' W' _ [-> Hc].
  destruct cached as [r|]; [apply runs_ret; auto|].
  destruct (JsMap.get dtoName dtoMap) as [d|];
    [|apply runs_alloc; auto using closedObj_plain].
  eapply runs_bind;
    [apply runs_alloc; [exact W|apply (closedObj_objectWith st); [constructor|lia]]|].
  intros schema st1 W1 L1 V1.
  eapply runs_bind; [apply runs_memoSet; auto|].
  intros u2 st2 W2 L2 E2.
  assert (V2 : validRef schema st2) by (unfold validRef in *; lia).
  eapply runs_bind; [apply dtoProperties_runs; auto|].
  intros required st3 W3 L3 _.
  assert (V3 : validRef schema st3) by (unfold validRef in *; lia).
  eapply runs_bind.
  - destruct required as [|x required].
    + apply (runs_ret tt st3 (fun _ st' => List.length (heap st') = List.length (heap st3)));
        auto.
    + apply runs_modify; auto using setRequired_closed.
  - intros u4 st4 W4 L4 E4. apply runs_ret; auto.
    unfold validRef in *. lia.
Qed.

(** With a budget and a depth that add up to 2 or more, a resolution
    of a DTO returns. *)
Lemma buildSchemaForDtoIn_runs (k : nat) :
  forall dtoName dtoMap depth st,
  2 <= k + depth -> wf st ->
  runs (buildSchemaForDtoIn k dtoName dtoMap depth) st validRef.
Proof.
  induction k as [|k IH]; intros dtoName dtoMap depth st K W;
    cbn [buildSchemaForDtoIn]; apply buildSchemaForDtoWith_runs; auto.
  - intros name d0 st0 L3 L4 _. lia.
  - intros name d0 st0 L3 L4 W0. apply IH; auto. lia.
Qed.

Lemma buildSchemaForDto_runs dtoName dtoMap depth st :
  wf st -> runs (buildSchemaForDto dtoName dtoMap depth) st validRef.
Proof. intros W. apply buildSchemaForDtoIn_runs; auto. lia. Qed.

Lemma schemaFromTypeNode_runs typeNode dtoMap depth meta st :
  wf st -> runs (schemaFromTypeNode typeNode dtoMap depth meta) st validRef.
Proof.
  intros W. apply schemaFromTypeNodeWith_runs; auto.
  intros name d st0 _ _ W0. apply buildSchemaForDto_runs; auto.
Qed.

Lemma wf_empty : wf {| heap := []; memo := JsMap.empty |}.
Proof. split; constructor. Qed.

(** A call with a new memo table returns an object of a closed store. *)
Lemma fresh_returns (m : M ref) :
  (forall st, wf st -> runs m st validRef) ->
  exists r h, fresh m = Some (r, h) /\ closedHeap h /\ r < List.length h.
Proof.
  intros H. destruct (H _ wf_empty) as (r & st & E & W & _ & V).
  exists r, (heap st). unfold fresh. rewrite E. repeat split; auto. apply W.
Qed.

(** *** The depth cap *)

(** The type of the node a type reference degrades to. *)
Definition capType (meta : propMeta) : string :=
  match m_overrideType meta with
  | Some ty => if JsString.truthy ty then ty else "object"
  | None => "object"
  end.

Lemma fallback_eq (meta : propMeta) (st : state) :
  fallback meta st
  = Some (List.length (heap st),
          {| heap := heap st ++ [plain (capType meta) (m_example meta)];
             memo := memo st |}).
Proof.
  unfold fallback, capType.
  destruct (m_overrideType meta) as [ty|]; [destruct (JsString.truthy ty)|]; reflexivity.
Qed.

(** Two schema-builder bindings that refer to each other:
    [const a = b.optional(); const b = a.optional()]. *)
Definition cyclicDefs : JsMap.t expr :=
  [ ("a", CallExpression (MemberExpression (Identifier "b") (Identifier "optional")) []);
    ("b", CallExpression (MemberExpression (Identifier "a") (Identifier "optional")) []) ].

(** At the cap the schema-builder resolver returns a [string] node, not
    an [object] node: the resolution of [a] runs into the cap and is a
    [string] node marked optional. *)
Lemma depth_cap_of_builder_is_string :
  Zod.resolveZodSchema (Some (Identifier "a")) cyclicDefs 11 = Zod.ofType "string" /\
  Zod.type (Zod.resolveZodSchema (Some (Identifier "a")) cyclicDefs 11) <> "object" /\
  Zod.resolveZodSchema (Some (Identifier "a")) cyclicDefs 0
  = Zod.withOptional (Zod.ofType "string").
Proof. repeat split. discriminate. Qed.

(** C3 (amended). A schema-builder resolution at a depth above 10 is a
    [string] node; a reference to a named type at a depth of 2 or more
    is not expanded and is a new node without properties, of the type
    the decorators of the member force when they force one and of type
    [object] otherwise; and each of the resolvers returns, at every depth
    and on every input. *)
Theorem depth_cap
    (node : option expr) (schemaDefs : JsMap.t expr) (depth : nat)
    (name : string) (typeParameters : option (list tsType))
    (dtoMap : JsMap.t dto) (depth' : nat) (meta : propMeta) (st : state) :
  10 < depth -> 2 <= depth' ->
  (name = "Array" -> forall p, typeParameters <> Some [p]) ->
  wf st ->
  Zod.resolveZodSchema node schemaDefs depth = Zod.ofType "string" /\
  schemaFromTypeNode (Some (TSTypeReference (Identifier name) typeParameters))
    dtoMap depth' meta st
  = Some (List.length (heap st),
          {| heap := heap st ++ [plain (capType meta) (m_example meta)];
             memo := memo st |}) /\
  (forall node0 depth0 fuel, 12 - depth0 <= fuel -> 1 <= fuel ->
     Zod.resolveZodSchemaFuel fuel node0 schemaDefs depth0
     = Some (Zod.resolveZodSchema node0 schemaDefs depth0)) /\
  (forall typeNode depth0 meta0,
     runs (schemaFromTypeNode typeNode dtoMap depth0 meta0) st validRef) /\
  (forall dtoName depth0,
     runs (buildSchemaForDto dtoName dtoMap depth0) st validRef).
Proof.
  intros Hd Hd' Harr W. repeat split.
  - apply resolveZodSchema_above_cap. exact Hd.
  - unfold schemaFromTypeNode, schemaFromTypeNodeWith. cbn [fromType].
    assert (C : (depth' <? 2)%nat = false) by (apply Nat.ltb_ge; lia).
    rewrite C, andb_false_r.
    destruct (String.eqb name "Array") eqn:E; [|apply fallback_eq].
    apply String.eqb_eq in E.
    destruct typeParameters as [[|p [|]]|]; try apply fallback_eq.
    exfalso. apply (Harr E p). reflexivity.
  - intros. apply resolveZodSchema_returns; assumption.
  - intros. apply schemaFromTypeNode_runs. exact W.
  - intros. apply buildSchemaForDto_runs. exact W.
Qed.

Lemma depth_cap_witness :
  Zod.resolveZodSchema (Some (Identifier "a")) cyclicDefs 11 = Zod.ofType "string" /\
  fresh (schemaFromTypeNode (Some (TSTypeReference (Identifier "Child") None)) [] 2
           {| m_optional := false; m_example := None; m_overrideType := Some "child" |})
  = Some (0, [plain "child" None]).
Proof.
  destruct (depth_cap (Some (Identifier "a")) cyclicDefs 11 "Child" None [] 2
              {| m_optional := false; m_example := None; m_overrideType := Some "child" |}
              {| heap := []; memo := JsMap.empty |})
    as (H1 & H2 & _).
  - lia.
  - lia.
  - discriminate.
  - split; constructor.
  - split; [exact H1|]. unfold fresh. rewrite H2. reflexivity.
Defined.

(** *** Recursive definitions *)

(** [class A { self: A }] *)
Definition selfDto : JsMap.t dto :=
  [ ("A", {| d_name := "A";
             d_props := [ {| dp_name := "self"; dp_optional := false;
                             dp_typeNode := Some (TSTypeReference (Identifier "A") None);
                             dp_example := None; dp_overrideType := None |} ] |}) ].

(** [class A { b: B }  class B { a: A }] *)
Definition mutualDto : JsMap.t dto :=
  [ ("A", {| d_name := "A";
             d_props := [ {| dp_name := "b"; dp_optional := false;
                             dp_typeNode := Some (TSTypeReference (Identifier "B") None);
                             dp_example := None; dp_overrideType := None |} ] |});
    ("B", {| d_name := "B";
             d_props := [ {| dp_name := "a"; dp_optional := false;
                             dp_typeNode := Some (TSTypeReference (Identifier "A") None);
                             dp_example := None; dp_overrideType := None |} ] |}) ].

Lemma finiteAt_self_loop (h : list sobj) (r : ref) (o : sobj) (props : JsObject.t ref)
    (k : string) :
  nth_error h r = Some o -> o_properties o = Some props -> In (k, r) props ->
  ~ finiteAt h r.
Proof.
  intros Hn Hp Hin F. induction F as [r o' Hn' _ IH _ _].
  rewrite Hn in Hn'. injection Hn' as <-.
  exact (IH props k r Hp Hin Hn Hin).
Qed.

(** The schema built for a DTO that refers to itself is its own
    property: it does not unfold to a finite tree. *)
Lemma self_reference_is_cyclic :
  fresh (buildSchemaForDto "A" selfDto 0)
  = Some (0, [ {| o_type := "object"; o_example := None;
                  o_properties := Some [("self", 0)];
                  o_items := None; o_required := Some ["self"] |} ]) /\
  ~ finiteAt [ {| o_type := "object"; o_example := None;
                  o_properties := Some [("self", 0)];
                  o_items := None; o_required := Some ["self"] |} ] 0.
Proof.
  split; [reflexivity|].
  eapply finiteAt_self_loop; [reflexivity|reflexivity|left; reflexivity].
Qed.

(** A cycle of two types is cut by the depth test. *)
Example mutual_reference_is_cut :
  fresh (buildSchemaForDto "A" mutualDto 0)
  = Some (0, [ {| o_type := "object"; o_example := None;
                  o_properties := Some [("b", 1)];
                  o_items := None; o_required := Some ["b"] |};
               {| o_type := "object"; o_example := None;
                  o_properties := Some [("a", 2)];
                  o_items := None; o_required := Some ["a"] |};
               plain "object" None ]).
Proof. reflexivity. Qed.

End NestFacts.

(** ** Maps and sets *)

Section ContainerFacts.

Lemma JsSet_has_In (x : string) (s : JsSet.t) : JsSet.has x s = true <-> In x s.
Proof.
  unfold JsSet.has. rewrite existsb_exists. split.
  - intros (y & Hy & E). apply String.eqb_eq in E. now subst.
  - intros H. exists x. split; auto. apply String.eqb_refl.
Qed.

Lemma JsSet_has_not_In (x : string) (s : JsSet.t) : JsSet.has x s = false <-> ~ In x s.
Proof.
  rewrite <- JsSet_has_In. destruct (JsSet.has x s); split; congruence.
Qed.

Lemma JsSet_add_In (x y : string) (s : JsSet.t) :
  In y (JsSet.add x s) <-> y = x \/ In y s.
Proof.
  unfold JsSet.add. destruct (JsSet.has x s) eqn:E.
  - apply JsSet_has_In in E. split; [auto|]. intros [->|]; auto.
  - rewrite in_app_iff. simpl. split; intros H; intuition.
Qed.

Lemma JsMap_get_set_same {V} (k : string) (v : V) (m : JsMap.t V) :
  JsMap.get k (JsMap.set k v m) = Some v.
Proof.
  induction m as [|[k' v'] m IH]; simpl.
  - now rewrite String.eqb_refl.
  - destruct (String.eqb k' k) eqn:E; simpl.
    + now rewrite String.eqb_refl.
    + now rewrite E.
Qed.

Lemma JsMap_get_set_other {V} (k k' : string) (v : V) (m : JsMap.t V) :
  k' <> k -> JsMap.get k' (JsMap.set k v m) = JsMap.get k' m.
Proof.
  intros D. induction m as [|[k0 v0] m IH]; simpl.
  - apply String.eqb_neq in D. rewrite String.eqb_sym. now rewrite D.
  - destruct (String.eqb k0 k) eqn:E; simpl.
    + apply String.eqb_eq in E. subst k0.
      assert (F : String.eqb k k' = false) by (apply String.eqb_neq; congruence).
      now rewrite F.
    + now rewrite IH.
Qed.

Lemma JsMap_get_In {V} (k : string) (v : V) (m : JsMap.t V) :
  JsMap.get k m = Some v -> In (k, v) m.
Proof.
  induction m as [|[k' v'] m IH]; simpl; [discriminate|].
  destruct (String.eqb k' k) eqn:E.
  - apply String.eqb_eq in E. intros [= <-]. subst. now left.
  - auto.
Qed.

Lemma JsMap_get_None {V} (k : string) (m : JsMap.t V) :
  JsMap.get k m = None <-> ~ In k (JsMap.keys m).
Proof.
  induction m as [|[k' v'] m IH]; simpl.
  - tauto.
  - destruct (String.eqb k' k) eqn:E.
    + apply String.eqb_eq in E. split; [discriminate|]. intros H. exfalso. auto.
    + apply String.eqb_neq in E. rewrite IH. tauto.
Qed.

Lemma JsMap_In_get {V} (k : string) (v : V) (m : JsMap.t V) :
  NoDup (JsMap.keys m) -> In (k, v) m -> JsMap.get k m = Some v.
Proof.
  induction m as [|[k' v'] m IH]; simpl; [tauto|].
  intros N [E|H].
  - injection E as -> ->. now rewrite String.eqb_refl.
  - inversion N as [|? ? Hk N']; subst.
    destruct (String.eqb k' k) eqn:E.
    + apply String.eqb_eq in E. subst. exfalso. apply Hk.
      apply (in_map fst) in H. exact H.
    + auto.
Qed.

Lemma JsMap_keys_set {V} (k : string) (v : V) (m : JsMap.t V) :
  JsMap.keys (JsMap.set k v m)
  = if JsMap.has k m then JsMap.keys m else JsMap.keys m ++ [k].
Proof.
  unfold JsMap.has. induction m as [|[k' v'] m IH]; simpl; [reflexivity|].
  destruct (String.eqb k' k) eqn:E; simpl.
  - apply String.eqb_eq in E. now subst.
  - rewrite IH. destruct (JsMap.get k m); reflexivity.
Qed.

Lemma JsMap_set_NoDup {V} (k : string) (v : V) (m : JsMap.t V) :
  NoDup (JsMap.keys m) -> NoDup (JsMap.keys (JsMap.set k v m)).
Proof.
  intros N. rewrite JsMap_keys_set. unfold JsMap.has.
  destruct (JsMap.get k m) eqn:E; [exact N|].
  apply JsMap_get_None in E.
  apply NoDup_app; [exact N|repeat constructor; simpl; tauto|].
  intros x Hx [<-|[]]. contradiction.
Qed.

End ContainerFacts.

(** ** The traversal of the router graph *)

Section BfsFacts.
Import Model Hono Trace.

(** The entries pushed so far are the pairs the prefix table records,
    each once. *)
Definition logged (log : list (string * string)) (prefixes : JsMap.t JsSet.t) : Prop :=
  NoDup log /\
  (forall id p, In (id, p) log <-> recorded prefixes id p) /\
  (forall id set, JsMap.get id prefixes = Some set -> NoDup set).

Definition enqueueAll (pairs : list (string * string)) (b : bfs) : bfs :=
  fold_left (fun b pr => enqueue b (fst pr) (snd pr)) pairs b.

Lemma enqueue_cases (b : bfs) (id p : string) :
  (recorded (prefixesByRouter b) id p /\ enqueue b id p = b) \/
  (~ recorded (prefixesByRouter b) id p /\
   enqueue b id p
   = {| queue := queue b ++ [(id, p)];
        prefixesByRouter :=
          JsMap.set id
            (match JsMap.get id (prefixesByRouter b) with Some s => s | None => [] end ++ [p])
            (prefixesByRouter b) |}).
Proof.
  unfold enqueue, addPrefix, recorded.
  destruct (JsMap.get id (prefixesByRouter b)) as [s|] eqn:G.
  - destruct (JsSet.has p s) eqn:H.
    + left. split; [exists s; split; auto; now apply JsSet_has_In|]. now destruct b.
    + right. split; [|reflexivity].
      intros (s' & E & I). injection E as <-. apply JsSet_has_not_In in H. auto.
  - simpl. right. split; [|reflexivity]. intros (s' & E & _). discriminate.
Qed.

(** A state with [q] put before its queue. *)
Definition withQueue (q : list (string * string)) (b : bfs) : bfs :=
  {| queue := q ++ queue b; prefixesByRouter := prefixesByRouter b |}.

Definition fromPrefixes (prefixes : JsMap.t JsSet.t) : bfs :=
  {| queue := []; prefixesByRouter := prefixes |}.

Lemma enqueue_frame (q : list (string * string)) (prefixes : JsMap.t JsSet.t)
    (id p : string) :
  enqueue {| queue := q; prefixesByRouter := prefixes |} id p
  = withQueue q (enqueue (fromPrefixes prefixes) id p).
Proof.
  unfold enqueue, withQueue, fromPrefixes. simpl.
  destruct (addPrefix prefixes id p) as [[] prefixes']; simpl;
    rewrite ?app_nil_r; reflexivity.
Qed.

Lemma enqueueAll_frame (pairs : list (string * string)) :
  forall q prefixes,
  enqueueAll pairs {| queue := q; prefixesByRouter := prefixes |}
  = withQueue q (enqueueAll pairs (fromPrefixes prefixes)).
Proof.
  induction pairs as [|[id p] pairs IH]; intros q prefixes.
  - unfold withQueue, fromPrefixes. simpl. now rewrite app_nil_r.
  - unfold enqueueAll in *. simpl.
    rewrite (enqueue_frame q). unfold withQueue at 1. rewrite IH.
    destruct (enqueue (fromPrefixes prefixes) id p) as [q1 p1] eqn:E. simpl.
    rewrite (IH q1 p1). unfold withQueue. simpl. now rewrite app_assoc.
Qed.

Lemma logged_enqueue (log : list (string * string)) (prefixes : JsMap.t JsSet.t)
    (id p : string) :
  logged log prefixes ->
  logged (log ++ queue (enqueue (fromPrefixes prefixes) id p))
    (prefixesByRouter (enqueue (fromPrefixes prefixes) id p)).
Proof.
  intros (N & R & S).
  destruct (enqueue_cases (fromPrefixes prefixes) id p) as [[Hr E]|[Hr E]];
    rewrite E; simpl in *.
  - rewrite app_nil_r. repeat split; auto; apply R.
  - set (old := match JsMap.get id prefixes with Some s => s | None => [] end).
    assert (Hold : ~ In p old).
    { intros I. apply Hr. unfold old in I.
      destruct (JsMap.get id prefixes) as [s|] eqn:G; [|destruct I].
      exists s. auto. }
    assert (Nold : NoDup old).
    { unfold old. destruct (JsMap.get id prefixes) as [s|] eqn:G;
        [eauto|constructor]. }
    repeat split.
    + apply NoDup_app; [exact N|repeat constructor; simpl; tauto|].
      intros x Hx [<-|[]]. apply Hr. now apply R.
    + rewrite in_app_iff. simpl. intros [H|[H|[]]].
      * apply R in H. destruct H as (s & G & I).
        destruct (String.eqb id0 id) eqn:Eid.
        -- apply String.eqb_eq in Eid. subst id0.
           exists (old ++ [p]). rewrite JsMap_get_set_same. split; auto.
           apply in_app_iff. left. unfold old. now rewrite G.
        -- apply String.eqb_neq in Eid. exists s.
           rewrite JsMap_get_set_other; auto.
      * injection H as <- <-. exists (old ++ [p]).
        rewrite JsMap_get_set_same. split; auto. apply in_app_iff. right. now left.
    + intros (s & G & I). rewrite in_app_iff. simpl.
      destruct (String.eqb id0 id) eqn:Eid.
      * apply String.eqb_eq in Eid. subst id0.
        rewrite JsMap_get_set_same in G. injection G as <-.
        apply in_app_iff in I. destruct I as [I|[<-|[]]]; [|now right; left].
        left. apply R. unfold old in I.
        destruct (JsMap.get id prefixes) as [s|] eqn:G; [|destruct I].
        exists s. auto.
      * apply String.eqb_neq in Eid.
        rewrite JsMap_get_set_other in G; auto.
        left. apply R. exists s. auto.
    + intros id0 s G.
      destruct (String.eqb id0 id) eqn:Eid.
      * apply String.eqb_eq in Eid. subst id0.
        rewrite JsMap_get_set_same in G. injection G as <-.
        apply NoDup_app; [exact Nold|repeat constructor; simpl; tauto|].
        intros x Hx [<-|[]]. contradiction.
      * apply String.eqb_neq in Eid.
        rewrite JsMap_get_set_other in G; eauto.
Qed.

Lemma logged_enqueueAll (pairs : list (string * string)) :
  forall log prefixes,
  logged log prefixes ->
  logged (log ++ queue (enqueueAll pairs (fromPrefixes prefixes)))
    (prefixesByRouter (enqueueAll pairs (fromPrefixes prefixes))).
Proof.
  induction pairs as [|[id p] pairs IH]; intros log prefixes L.
  - simpl. now rewrite app_nil_r.
  - pose proof (logged_enqueue log prefixes id p L) as L1.
    unfold enqueueAll in *. simpl.
    destruct (enqueue (fromPrefixes prefixes) id p) as [q1 p1] eqn:E. simpl in L1.
    pose proof (enqueueAll_frame pairs q1 p1) as F. unfold enqueueAll in F. rewrite F.
    unfold withQueue. simpl. rewrite app_assoc. apply IH. exact L1.
Qed.

Lemma seed_enqueueAll (start : list string) :
  seed start
  = enqueueAll (map (fun id => (id, "")) start)
      {| queue := []; prefixesByRouter := JsMap.empty |}.
Proof.
  unfold seed, enqueueAll. generalize {| queue := []; prefixesByRouter := JsMap.empty |}.
  induction start as [|id start IH]; intros b; simpl; auto.
Qed.

Lemma visitEdges_enqueueAll (effective : string) (children : list edge) (b : bfs) :
  fold_left (visitEdge effective) children b
  = enqueueAll (map (fun e => (ed_childId e, Utils.joinPaths effective (ed_prefix e))) children) b.
Proof.
  unfold enqueueAll. revert b. induction children as [|e children IH]; intros b; simpl; auto.
Qed.

Lemma logged_empty : logged [] JsMap.empty.
Proof.
  repeat split; try constructor; simpl.
  - intros [].
  - intros (s & E & _). discriminate.
  - discriminate.
Qed.

Lemma logged_seed (start : list string) :
  logged (queue (seed start)) (prefixesByRouter (seed start)).
Proof.
  rewrite seed_enqueueAll.
  apply (logged_enqueueAll (map (fun id => (id, "")) start) [] JsMap.empty logged_empty).
Qed.

Section Graph.
Variable routers : JsMap.t routerNode.
Variable edges : JsMap.t (list edge).

(** A turn of the loop takes the first entry and appends what it
    pushes; the entries pushed extend the log. *)
Lemma bfsStep_pushes (log : list (string * string)) (b : bfs) :
  logged log (prefixesByRouter b) ->
  queue (bfsStep routers edges b) = tl (queue b) ++ pushedBy routers edges b /\
  logged (log ++ pushedBy routers edges b) (prefixesByRouter (bfsStep routers edges b)).
Proof.
  intros L. unfold pushedBy, bfsStep. destruct (queue b) as [|[id prefix] rest] eqn:Q; simpl.
  - rewrite Q, app_nil_r. auto.
  - destruct (JsMap.get id routers) as [router|]; simpl.
    + rewrite !visitEdges_enqueueAll.
      set (pairs := map _ _).
      rewrite (enqueueAll_frame pairs rest).
      change {| queue := []; prefixesByRouter := prefixesByRouter b |}
        with (fromPrefixes (prefixesByRouter b)).
      unfold withQueue. simpl. split; [reflexivity|].
      apply logged_enqueueAll. exact L.
    + rewrite !app_nil_r. auto.
Qed.

Lemma after_succ (n : nat) (b : bfs) :
  after routers edges (S n) b = after routers edges n (bfsStep routers edges b).
Proof. unfold after. now rewrite Nat.iter_succ_r. Qed.

Lemma logged_after (n : nat) :
  forall log b,
  logged log (prefixesByRouter b) ->
  logged (log ++ enqueued routers edges n b)
    (prefixesByRouter (after routers edges n b)).
Proof.
  induction n as [|n IH]; intros log b L.
  - simpl. now rewrite app_nil_r.
  - rewrite after_succ. simpl. rewrite app_assoc.
    apply IH. now apply bfsStep_pushes.
Qed.

(** When the loop ends it has made some number of turns. *)
Lemma bfsLoop_after (fuel : nat) :
  forall b b', bfsLoop fuel routers edges b = Some b' ->
  exists n, n <= fuel /\ b' = after routers edges n b /\ queue b' = [].
Proof.
  induction fuel as [|fuel IH]; intros b b' H; simpl in H.
  - destruct (queue b) eqn:Q; [|discriminate]. injection H as <-.
    exists 0. auto.
  - destruct (queue b) eqn:Q.
    + injection H as <-. exists 0. split; [lia|]. auto.
    + destruct (IH _ _ H) as (n & Ln & E & Q').
      exists (S n). split; [lia|]. rewrite after_succ. auto.
Qed.

End Graph.

(** *** Emissions *)

Lemma emissions_cons (entry : string * list rawEndpoint)
    (endpointsByRouter : JsMap.t (list rawEndpoint)) (prefixes : JsMap.t JsSet.t) :
  emissions (entry :: endpointsByRouter) prefixes
  = flat_map (fun prefix => map (fun e => (fst entry, prefix, e)) (snd entry))
      (match JsMap.get (fst entry) prefixes with Some set => set | None => [""] end)
    ++ emissions endpointsByRouter prefixes.
Proof. reflexivity. Qed.

Lemma emissions_app (m1 m2 : JsMap.t (list rawEndpoint)) (prefixes : JsMap.t JsSet.t) :
  emissions (m1 ++ m2) prefixes = emissions m1 prefixes ++ emissions m2 prefixes.
Proof. unfold emissions. apply flat_map_app. Qed.

Lemma emittedFor_app (id p : string) (l1 l2 : list (string * string * rawEndpoint)) :
  emittedFor id p (l1 ++ l2) = emittedFor id p l1 ++ emittedFor id p l2.
Proof. unfold emittedFor. apply filter_app. Qed.

Lemma emittedFor_other_prefix (id p q : string) (routes : list rawEndpoint) :
  q <> p -> emittedFor id p (map (fun e => (id, q, e)) routes) = [].
Proof.
  intros D. unfold emittedFor. induction routes as [|e routes IH]; simpl; auto.
  apply String.eqb_neq in D. rewrite D, andb_false_r. exact IH.
Qed.

Lemma emittedFor_same (id p : string) (routes : list rawEndpoint) :
  emittedFor id p (map (fun e => (id, p, e)) routes) = map (fun e => (id, p, e)) routes.
Proof.
  unfold emittedFor. induction routes as [|e routes IH]; simpl; auto.
  rewrite !String.eqb_refl. simpl. now rewrite IH.
Qed.

Lemma emittedFor_other_router (id p k : string) (routes : list rawEndpoint)
    (set : list string) :
  k <> id ->
  emittedFor id p (flat_map (fun prefix => map (fun e => (k, prefix, e)) routes) set) = [].
Proof.
  intros D. unfold emittedFor. apply String.eqb_neq in D.
  induction set as [|q set IH]; simpl; auto.
  rewrite filter_app, IH, app_nil_r. clear IH.
  induction routes as [|e routes IHr]; simpl; auto.
  now rewrite D.
Qed.

Lemma emittedFor_block (id p : string) (routes : list rawEndpoint) (set : list string) :
  NoDup set -> In p set ->
  emittedFor id p (flat_map (fun prefix => map (fun e => (id, prefix, e)) routes) set)
  = map (fun e => (id, p, e)) routes.
Proof.
  induction 1 as [|q set Hq N IH]; intros I; [destruct I|].
  simpl. rewrite emittedFor_app. destruct I as [->|I].
  - rewrite emittedFor_same.
    assert (E : emittedFor id p
                  (flat_map (fun prefix => map (fun e => (id, prefix, e)) routes) set) = []).
    { clear IH N. induction set as [|q set IH]; simpl; auto.
      rewrite emittedFor_app, emittedFor_other_prefix, IH; auto.
      - intros H. apply Hq. now right.
      - intros ->. apply Hq. now left. }
    now rewrite E, app_nil_r.
  - rewrite emittedFor_other_prefix; [auto|]. intros ->. contradiction.
Qed.

Lemma emittedFor_absent (id p : string) (endpointsByRouter : JsMap.t (list rawEndpoint))
    (prefixes : JsMap.t JsSet.t) :
  ~ In id (JsMap.keys endpointsByRouter) ->
  emittedFor id p (emissions endpointsByRouter prefixes) = [].
Proof.
  induction endpointsByRouter as [|[k l] m IH]; intros H; [reflexivity|].
  rewrite emissions_cons, emittedFor_app. simpl in *.
  rewrite emittedFor_other_router, IH; auto.
Qed.

(** Under a recorded prefix a router emits its routes, each once, in
    order. *)
Lemma emittedFor_recorded (id p : string) (routes : list rawEndpoint)
    (endpointsByRouter : JsMap.t (list rawEndpoint)) (prefixes : JsMap.t JsSet.t) :
  NoDup (JsMap.keys endpointsByRouter) ->
  JsMap.get id endpointsByRouter = Some routes ->
  recorded prefixes id p ->
  (forall id' set, JsMap.get id' prefixes = Some set -> NoDup set) ->
  emittedFor id p (emissions endpointsByRouter prefixes)
  = map (fun e => (id, p, e)) routes.
Proof.
  intros N G (set & Gs & I) S.
  induction endpointsByRouter as [|[k l] m IH]; [discriminate|].
  rewrite emissions_cons, emittedFor_app. simpl in *.
  inversion N as [|? ? Hk N']; subst.
  destruct (String.eqb k id) eqn:E.
  - apply String.eqb_eq in E. subst k. injection G as ->.
    rewrite Gs, emittedFor_block, emittedFor_absent, app_nil_r; eauto.
  - apply String.eqb_neq in E.
    rewrite emittedFor_other_router, IH; auto.
Qed.

End BfsFacts.

(** ** Scenarios *)

Section Scenarios.
Import Ast Model.

(** Enough of Node's [path] and [fs] for files of one directory that
    import each other by [./name]. *)
Fixpoint lastSlash (s : string) : option nat :=
  match s with
  | EmptyString => None
  | String c s' =>
      match lastSlash s' with
      | Some n => Some (S n)
      | None => if Ascii.eqb c "/" then Some 0 else None
      end
  end.

Definition dirname (s : string) : string :=
  match lastSlash s with
  | Some n => substring 0 n s
  | None => "."
  end.

Definition stripDot (s : string) : string :=
  if String.prefix "./" s then substring 2 (String.length s - 2) s else s.

Definition resolvePath (parts : list string) : string :=
  match parts with
  | [] => ""
  | base :: rest => fold_left (fun acc p => (acc ++ "/" ++ stripDot p)%string) rest base
  end.

Definition onDisk (files : list (string * ast)) : platform :=
  {| parseFile := fun f => JsMap.get f files;
     existsSync := fun f => JsMap.has f files;
     pathResolve := resolvePath;
     pathDirname := dirname;
     pathExtname := fun _ => "";
     pathIsAbsolute := JsString.startsWith "/" |}.

Definition newHono : expr := NewExpression (Identifier "Hono") [].

(** The statement [obj.meth(args)]. *)
Definition callOn (obj meth : string) (args : list expr) : node :=
  CallExpressionNode (MemberExpression (Identifier obj) (Identifier meth)) args.

(** A request handler, which the extractors do not look into. *)
Definition handler : expr := OtherExpression.

(** [f1.ts]:
    [const a = new Hono(); export const b = new Hono();
     b.get('/ping', handler); a.route('/v1', b)] *)
Definition f1 : ast :=
  [ VariableDeclarator (Some "a") (Some newHono);
    ExportNamedDeclaration (Some [Some "b"]) [];
    VariableDeclarator (Some "b") (Some newHono);
    callOn "b" "get" [StringLiteral "/ping"; handler];
    callOn "a" "route" [StringLiteral "/v1"; Identifier "b"] ].

(** [f2.ts]:
    [import { b } from './f1'; const app = new Hono();
     app.route('/legacy', b)] *)
Definition f2 : ast :=
  [ ImportDeclaration "./f1" [ImportSpecifier "b" "b"];
    VariableDeclarator (Some "app") (Some newHono);
    callOn "app" "route" [StringLiteral "/legacy"; Identifier "b"] ].

Definition twoFiles : platform := onDisk [("/app/f1.ts", f1); ("/app/f2.ts", f2)].

Definition ping (fullPath : string) : endpoint :=
  {| method := "GET"; path := fullPath; description := "GET /ping"; tags := None;
     params := {| ps_path := None; ps_query := None; ps_body := None |};
     filePath := Some "/app/f1.ts";
     key := ("GET " ++ fullPath)%string |}.

Lemma bfsLoop_more (routers : JsMap.t Hono.routerNode) (edges : JsMap.t (list Hono.edge))
    (fuel : nat) :
  forall b b', Hono.bfsLoop fuel routers edges b = Some b' ->
  forall fuel', fuel <= fuel' -> Hono.bfsLoop fuel' routers edges b = Some b'.
Proof.
  induction fuel as [|fuel IH]; intros b b' H fuel' L; simpl in H.
  - destruct (Hono.queue b) eqn:Q; [|discriminate].
    destruct fuel'; simpl; now rewrite Q.
  - destruct (Hono.queue b) eqn:Q.
    + destruct fuel'; simpl; now rewrite Q.
    + destruct fuel' as [|fuel']; [lia|]. simpl. rewrite Q. apply IH; auto. lia.
Qed.

(** A result does not depend on the fuel that was enough for it. *)
Lemma extractHonoEndpoints_more (env : platform) (files : list string) (fuel fuel' : nat)
    (results : list endpoint) :
  Hono.extractHonoEndpoints env fuel files = Some results ->
  fuel <= fuel' ->
  Hono.extractHonoEndpoints env fuel' files = Some results.
Proof.
  unfold Hono.extractHonoEndpoints. intros H L.
  destruct (Hono.bfsLoop fuel _ _ _) as [b|] eqn:E; [|discriminate].
  now rewrite (bfsLoop_more _ _ _ _ _ E fuel' L).
Qed.

(** C1. Router [b] of [f1.ts], mounted on [a] under [/v1] there and on
    the router of [f2.ts] under [/legacy], declares [GET /ping]: the
    extraction over the two files returns, in either order of the files,
    exactly the two endpoints [GET /v1/ping] and [GET /legacy/ping]. *)
Theorem remounted_router_has_two_endpoints :
  (forall n,
     Hono.extractHonoEndpoints twoFiles (4 + n) ["/app/f1.ts"; "/app/f2.ts"]
     = Some [ping "/v1/ping"; ping "/legacy/ping"]) /\
  (forall n,
     Hono.extractHonoEndpoints twoFiles (4 + n) ["/app/f2.ts"; "/app/f1.ts"]
     = Some [ping "/legacy/ping"; ping "/v1/ping"]).
Proof.
  split; intros n;
    apply (extractHonoEndpoints_more _ _ 4); try lia; vm_compute; reflexivity.
Qed.

End Scenarios.

(** ** A cycle of mounts *)

Section MountCycle.
Import Ast Model JsString Utils Hono.

(** [c.ts]:
    [const a = new Hono(); const b = new Hono();
     a.route('/b', b); b.route('/a', a)] *)
Definition cycleFile : ast :=
  [ VariableDeclarator (Some "a") (Some newHono);
    VariableDeclarator (Some "b") (Some newHono);
    callOn "a" "route" [StringLiteral "/b"; Identifier "b"];
    callOn "b" "route" [StringLiteral "/a"; Identifier "a"] ].

Definition cycleDisk : platform := onDisk [("/app/c.ts", cycleFile)].

Definition cycleRouters : JsMap.t routerNode :=
  [ ("/app/c.ts::a", {| rn_filePath := "/app/c.ts"; rn_varName := "a"; rn_basePath := "" |});
    ("/app/c.ts::b", {| rn_filePath := "/app/c.ts"; rn_varName := "b"; rn_basePath := "" |}) ].

Definition cycleEdges : JsMap.t (list edge) :=
  [ ("/app/c.ts::a", [ {| ed_childId := "/app/c.ts::b"; ed_prefix := "/b" |} ]);
    ("/app/c.ts::b", [ {| ed_childId := "/app/c.ts::a"; ed_prefix := "/a" |} ]) ].

(** Every router of the file is mounted, so every router is a start
    of the traversal. *)
Lemma cycle_graph :
  buildRouterIndex (parseAll cycleDisk ["/app/c.ts"]) = cycleRouters /\
  g_edges (buildGraph (parseAll cycleDisk ["/app/c.ts"])) = cycleEdges /\
  startOf cycleRouters (g_childHasParent (buildGraph (parseAll cycleDisk ["/app/c.ts"])))
  = ["/app/c.ts::a"; "/app/c.ts::b"].
Proof. repeat split. Qed.

(** The prefixes the traversal makes: [/a] and [/b] in a row. *)
Definition seg (x : bool) : string := if x then "/a" else "/b".

Fixpoint segs (l : list bool) : string :=
  match l with
  | [] => ""
  | x :: l' => (seg x ++ segs l')%string
  end.

Definition nodeOf (x : bool) : string := if x then "/app/c.ts::a" else "/app/c.ts::b".

Lemma segs_app (l1 l2 : list bool) : segs (l1 ++ l2) = (segs l1 ++ segs l2)%string.
Proof.
  induction l1 as [|x l1 IH]; simpl; [reflexivity|].
  rewrite IH. now destruct x.
Qed.

Lemma length_segs (l : list bool) : String.length (segs l) = 2 * List.length l.
Proof.
  induction l as [|x l IH]; simpl; [reflexivity|].
  destruct x; simpl; rewrite IH; lia.
Qed.

Lemma trimEnd_segs (l : list bool) (t : string) :
  trimEnd (segs l ++ t) = (segs l ++ trimEnd t)%string.
Proof.
  induction l as [|x l IH]; simpl; [reflexivity|].
  destruct x; simpl; rewrite IH; destruct (segs l ++ trimEnd t)%string; reflexivity.
Qed.

Lemma collapseSlashes_segs (l : list bool) (t : string) :
  collapseSlashes (segs l ++ t) = (segs l ++ collapseSlashes t)%string.
Proof.
  induction l as [|x l IH]; simpl; [reflexivity|].
  destruct x; simpl; rewrite IH; reflexivity.
Qed.

Lemma endsWith_seg (x : bool) (s : string) :
  s <> "" -> endsWith "/" (seg x ++ s) = endsWith "/" s.
Proof. destruct s; [congruence|]. now destruct x. Qed.

Lemma segs_nonempty (l : list bool) : l <> [] -> segs l <> "".
Proof. destruct l as [|[] l]; [congruence| |]; discriminate. Qed.

Lemma endsWith_segs (l : list bool) : endsWith "/" (segs l) = false.
Proof.
  induction l as [|x l IH]; [reflexivity|].
  destruct l as [|y l]; [now destruct x|].
  simpl segs. rewrite endsWith_seg; [exact IH|].
  apply (segs_nonempty (y :: l)). discriminate.
Qed.

Lemma append_empty_r (s : string) : (s ++ "")%string = s.
Proof. induction s; simpl; congruence. Qed.

(** Normalization of a string that needs no trimming and starts with
    a slash. *)
Lemma normalizePath_trimmed (s : string) :
  truthy s = true -> trim s = s -> startsWith "/" s = true ->
  endsWith "/" (collapseSlashes s) = false ->
  normalizePath s = collapseSlashes s.
Proof.
  intros T E S W. unfold normalizePath. rewrite T. simpl.
  rewrite E, S. simpl. rewrite W, andb_false_r. reflexivity.
Qed.

Lemma trim_segs (l : list bool) (t : string) :
  l <> [] -> trimEnd t = t -> trim (segs l ++ t) = (segs l ++ t)%string.
Proof.
  intros H Ht. unfold trim.
  assert (S : trimStart (segs l ++ t) = (segs l ++ t)%string)
    by (destruct l as [|[] l]; [congruence| |]; reflexivity).
  rewrite S, trimEnd_segs, Ht. reflexivity.
Qed.

Lemma normalizePath_segs (l : list bool) : l <> [] -> normalizePath (segs l) = segs l.
Proof.
  intros H.
  assert (C : collapseSlashes (segs l) = segs l).
  { rewrite <- (append_empty_r (segs l)) at 1.
    rewrite collapseSlashes_segs. simpl. apply append_empty_r. }
  rewrite normalizePath_trimmed; auto.
  - destruct l as [|[] l]; [congruence| |]; reflexivity.
  - rewrite <- (append_empty_r (segs l)). apply trim_segs; auto.
  - destruct l as [|[] l]; [congruence| |]; reflexivity.
  - rewrite C. apply endsWith_segs.
Qed.

Lemma segs_not_root (l : list bool) : String.eqb (segs l) "/" = false.
Proof. destruct l as [|[] [|[] l]]; reflexivity. Qed.

Lemma segs_snoc (l : list bool) (x : bool) :
  (segs l ++ seg x)%string = segs (l ++ [x]).
Proof. rewrite segs_app. simpl. now rewrite append_empty_r. Qed.

(** The prefix of the child of a router reached under [segs l]. *)
Lemma childPrefix_segs (l : list bool) (x : bool) :
  joinPaths (joinPaths (segs l) (orElse "" "")) (seg x) = segs (l ++ [x]).
Proof.
  destruct l as [|y l]; [now destruct x|].
  assert (N : y :: l <> []) by discriminate.
  remember (y :: l) as l0 eqn:El0.
  assert (O : orElse (segs l0) "/" = segs l0) by (subst l0; now destruct y).
  assert (E1 : joinPaths (segs l0) (orElse "" "") = segs l0).
  { unfold joinPaths. rewrite O, normalizePath_segs; auto.
    rewrite segs_not_root. reflexivity. }
  rewrite E1. unfold joinPaths.
  rewrite O, normalizePath_segs; auto. rewrite segs_not_root.
  assert (B : normalizePath (orElse (seg x) "/") = seg x) by (now destruct x).
  rewrite B.
  assert (B' : String.eqb (seg x) "/" = false) by (now destruct x).
  rewrite B'.
  change (segs l0 ++ "/" ++ seg x)%string with (segs l0 ++ String "/" (seg x))%string.
  assert (C : collapseSlashes (segs l0 ++ String "/" (seg x)) = segs (l0 ++ [x])).
  { rewrite collapseSlashes_segs.
    assert (C : collapseSlashes (String "/" (seg x)) = seg x) by (now destruct x).
    rewrite C. apply segs_snoc. }
  rewrite normalizePath_trimmed; auto.
  - subst l0. now destruct y.
  - apply trim_segs; auto. now destruct x.
  - subst l0. now destruct y.
  - rewrite C. apply endsWith_segs.
Qed.

(** Every prefix of the set is shorter than [k] segments. *)
Definition shorter (k : nat) (set : JsSet.t) : Prop :=
  Forall (fun s => String.length s < 2 * k) set.

Lemma shorter_fresh (k : nat) (set : JsSet.t) (l : list bool) :
  shorter k set -> k <= List.length l -> JsSet.has (segs l) set = false.
Proof.
  intros H L. apply JsSet_has_not_In. intros I.
  unfold shorter in H. rewrite Forall_forall in H. specialize (H _ I).
  rewrite length_segs in H. lia.
Qed.

Lemma shorter_more (k k' : nat) (set : JsSet.t) :
  k <= k' -> shorter k set -> shorter k' set.
Proof. intros L. apply Forall_impl. intros; lia. Qed.

Lemma shorter_add (k : nat) (set : JsSet.t) (l : list bool) :
  shorter k set -> List.length l < k -> shorter k (set ++ [segs l]).
Proof.
  intros H L. apply Forall_app. split; [exact H|].
  constructor; [|constructor]. rewrite length_segs. lia.
Qed.

(** The states of the traversal of the cycle: two entries wait, and
    the prefix the next turn makes is longer than every prefix recorded
    for the router it is for. *)
Definition waiting (x y : bool) (l1 l2 : list bool) (sa sb : JsSet.t) : bfs :=
  {| queue := [(nodeOf x, segs l1); (nodeOf y, segs l2)];
     prefixesByRouter := [("/app/c.ts::a", sa); ("/app/c.ts::b", sb)] |}.

Definition setOf (x : bool) (sa sb : JsSet.t) : JsSet.t := if x then sa else sb.

Inductive turning : bfs -> Prop :=
| turning_same (x : bool) (l1 l2 : list bool) (sa sb : JsSet.t) :
    List.length l2 = S (List.length l1) ->
    shorter (S (List.length l1)) (setOf (negb x) sa sb) ->
    shorter (S (S (List.length l1))) (setOf x sa sb) ->
    turning (waiting x x l1 l2 sa sb)
| turning_other (x : bool) (l1 l2 : list bool) (sa sb : JsSet.t) :
    List.length l2 = List.length l1 ->
    shorter (S (List.length l1)) sa ->
    shorter (S (List.length l1)) sb ->
    turning (waiting x (negb x) l1 l2 sa sb).

Lemma turning_seed : turning (seed ["/app/c.ts::a"; "/app/c.ts::b"]).
Proof.
  apply (turning_other true [] [] [""] [""]); auto;
    repeat constructor.
Qed.

(** A turn at a router with one mounted child. *)
Lemma bfsStep_one_child (routers : JsMap.t routerNode) (edges : JsMap.t (list edge))
    (id prefix : string) (rest : list (string * string)) (prefixes : JsMap.t JsSet.t)
    (router : routerNode) (e : edge) :
  JsMap.get id routers = Some router -> JsMap.get id edges = Some [e] ->
  bfsStep routers edges {| queue := (id, prefix) :: rest; prefixesByRouter := prefixes |}
  = enqueue {| queue := rest; prefixesByRouter := prefixes |} (ed_childId e)
      (joinPaths (joinPaths prefix (orElse (rn_basePath router) "")) (ed_prefix e)).
Proof. intros R E. unfold bfsStep. simpl. rewrite R, E. reflexivity. Qed.

(** A turn from a state of the cycle: the first entry leaves and an
    entry for the other router arrives. *)
Lemma bfsStep_waiting (x y : bool) (l1 l2 : list bool) (sa sb : JsSet.t) :
  shorter (S (List.length l1)) (setOf (negb x) sa sb) ->
  bfsStep cycleRouters cycleEdges (waiting x y l1 l2 sa sb)
  = waiting y (negb x) l2 (l1 ++ [negb x])
      (if x then sa else sa ++ [segs (l1 ++ [negb x])])
      (if x then sb ++ [segs (l1 ++ [negb x])] else sb).
Proof.
  intros H.
  assert (F : JsSet.has (segs (l1 ++ [negb x])) (setOf (negb x) sa sb) = false).
  { apply (shorter_fresh _ _ _ H). rewrite length_app. simpl. lia. }
  destruct x; unfold waiting.
  - rewrite (bfsStep_one_child cycleRouters cycleEdges (nodeOf true) _ _ _
               {| rn_filePath := "/app/c.ts"; rn_varName := "a"; rn_basePath := "" |}
               {| ed_childId := nodeOf false; ed_prefix := seg false |} eq_refl eq_refl).
    cbn [ed_childId ed_prefix rn_basePath]. rewrite childPrefix_segs.
    unfold enqueue, addPrefix. cbn [negb setOf] in F. cbn [prefixesByRouter queue].
    change (JsMap.get (nodeOf false) [("/app/c.ts::a", sa); ("/app/c.ts::b", sb)])
      with (Some sb).
    cbv iota. rewrite F. reflexivity.
  - rewrite (bfsStep_one_child cycleRouters cycleEdges (nodeOf false) _ _ _
               {| rn_filePath := "/app/c.ts"; rn_varName := "b"; rn_basePath := "" |}
               {| ed_childId := nodeOf true; ed_prefix := seg true |} eq_refl eq_refl).
    cbn [ed_childId ed_prefix rn_basePath]. rewrite childPrefix_segs.
    unfold enqueue, addPrefix. cbn [negb setOf] in F. cbn [prefixesByRouter queue].
    change (JsMap.get (nodeOf true) [("/app/c.ts::a", sa); ("/app/c.ts::b", sb)])
      with (Some sa).
    cbv iota. rewrite F. reflexivity.
Qed.

Lemma turning_step (b : bfs) :
  turning b -> turning (bfsStep cycleRouters cycleEdges b).
Proof.
  intros [x l1 l2 sa sb L H1 H2 | x l1 l2 sa sb L Ha Hb].
  - rewrite bfsStep_waiting; auto.
    apply turning_other.
    + rewrite length_app. simpl. lia.
    + rewrite L. destruct x; simpl in *.
      * eapply shorter_more; [|exact H2]. lia.
      * apply shorter_add; [eapply shorter_more; [|exact H1]; lia|].
        rewrite length_app. simpl. lia.
    + rewrite L. destruct x; simpl in *.
      * apply shorter_add; [eapply shorter_more; [|exact H1]; lia|].
        rewrite length_app. simpl. lia.
      * eapply shorter_more; [|exact H2]. lia.
  - rewrite bfsStep_waiting; [|destruct x; simpl; auto].
    apply turning_same.
    + rewrite length_app. simpl. lia.
    + rewrite L, negb_involutive. destruct x; simpl; auto.
    + rewrite L. destruct x; simpl.
      * apply shorter_add; [eapply shorter_more; [|exact Hb]; lia|].
        rewrite length_app. simpl. lia.
      * apply shorter_add; [eapply shorter_more; [|exact Ha]; lia|].
        rewrite length_app. simpl. lia.
Qed.

Lemma turning_never_ends (fuel : nat) :
  forall b, turning b -> bfsLoop fuel cycleRouters cycleEdges b = None.
Proof.
  induction fuel as [|fuel IH]; intros b T.
  - destruct T; reflexivity.
  - assert (Q : exists e q, queue b = e :: q) by (destruct T; simpl; eauto).
    destruct Q as (e & q & Q). simpl. rewrite Q.
    apply IH. now apply turning_step.
Qed.

(** C8. On two routers mounted on each other the traversal starts from
    both, as no router is without a parent, and then never ends:
    whatever the number of turns allowed, the extraction has no
    result. *)
Theorem mount_cycle_never_ends :
  startOf (buildRouterIndex (parseAll cycleDisk ["/app/c.ts"]))
    (g_childHasParent (buildGraph (parseAll cycleDisk ["/app/c.ts"])))
  = ["/app/c.ts::a"; "/app/c.ts::b"] /\
  forall fuel, extractHonoEndpoints cycleDisk fuel ["/app/c.ts"] = None.
Proof.
  split; [reflexivity|].
  intros fuel. unfold extractHonoEndpoints.
  destruct cycle_graph as (-> & -> & ->).
  rewrite (turning_never_ends fuel _ turning_seed). reflexivity.
Qed.

End MountCycle.

(** ** The start of the traversal and what it records *)

Section TraversalFacts.
Import Ast Model Hono Trace.

(** The start set is the set of routers without a parent when there
    is one, and the set of all routers otherwise. *)
Lemma startOf_roots_or_all (routers : JsMap.t routerNode) (childHasParent : JsSet.t) :
  ((exists id, In id (JsMap.keys routers) /\ ~ In id childHasParent) ->
   forall id, In id (startOf routers childHasParent)
              <-> In id (JsMap.keys routers) /\ ~ In id childHasParent) /\
  ((forall id, In id (JsMap.keys routers) -> In id childHasParent) ->
   startOf routers childHasParent = JsMap.keys routers).
Proof.
  unfold startOf.
  set (roots := filter (fun id => negb (JsSet.has id childHasParent)) (JsMap.keys routers)).
  assert (R : forall id, In id roots <-> In id (JsMap.keys routers) /\ ~ In id childHasParent).
  { intros id. unfold roots. rewrite filter_In, negb_true_iff, JsSet_has_not_In. tauto. }
  split.
  - intros (id0 & H0). apply R in H0.
    destruct roots as [|r roots']; [destruct H0|]. exact R.
  - intros H. destruct roots as [|r roots'] eqn:E; [reflexivity|].
    exfalso. assert (I : In r (r :: roots')) by now left.
    apply R in I. destruct I as [I1 I2]. auto.
Qed.

(** The routers with a parent are the targets of the mount edges. *)
Definition targets (g : graph) (id : string) : Prop :=
  exists parent l e, In (parent, l) (g_edges g) /\ In e l /\ ed_childId e = id.

Lemma JsMap_set_In {V} (k : string) (v : V) (m : JsMap.t V) (k' : string) (v' : V) :
  In (k', v') (JsMap.set k v m) -> (k' = k /\ v' = v) \/ In (k', v') m.
Proof.
  induction m as [|[k0 v0] m IH]; simpl.
  - intros [H|[]]. injection H as <- <-. auto.
  - destruct (String.eqb k0 k); simpl.
    + intros [H|H]; [injection H as <- <-|]; auto.
    + intros [H|H]; auto. destruct (IH H); auto.
Qed.

Lemma JsMap_set_keeps {V} (k : string) (v : V) (m : JsMap.t V) (k' : string) (v' : V) :
  In (k', v') m ->
  In (k', v') (JsMap.set k v m) \/ (k' = k /\ JsMap.get k m = Some v').
Proof.
  induction m as [|[k0 v0] m IH]; simpl; [tauto|].
  destruct (String.eqb k0 k) eqn:E; simpl.
  - apply String.eqb_eq in E. subst k0. intros [H|H]; [injection H as <- <-|]; auto.
  - intros [H|H]; auto. destruct (IH H) as [I|I]; auto.
Qed.

Lemma pushTo_In {A} (k : string) (v : A) (m : JsMap.t (list A)) (k' : string) (l' : list A) :
  In (k', l') (pushTo k v m) ->
  In (k', l') m \/
  (k' = k /\ exists l, l' = l ++ [v] /\ (l = [] \/ In (k, l) m)).
Proof.
  unfold pushTo. destruct (JsMap.get k m) as [l|] eqn:G; intros H;
    apply JsMap_set_In in H; destruct H as [[-> ->]|H]; auto; right; split; auto.
  - exists l. split; auto. right. now apply JsMap_get_In.
  - exists []. auto.
Qed.

Lemma pushTo_has {A} (k : string) (v : A) (m : JsMap.t (list A)) :
  exists l, In (k, l ++ [v]) (pushTo k v m).
Proof.
  unfold pushTo. destruct (JsMap.get k m) as [l|] eqn:G.
  - exists l. apply JsMap_get_In. apply JsMap_get_set_same.
  - exists []. apply JsMap_get_In. apply JsMap_get_set_same.
Qed.

Lemma pushTo_keeps {A} (k : string) (v : A) (m : JsMap.t (list A)) (k' : string)
    (l' : list A) (x : A) :
  In (k', l') m -> In x l' -> exists l'', In (k', l'') (pushTo k v m) /\ In x l''.
Proof.
  unfold pushTo. intros H Hx. destruct (JsMap.get k m) as [l|] eqn:G.
  - destruct (JsMap_set_keeps k (l ++ [v]) m k' l' H) as [I|[-> E]]; [eauto|].
    rewrite G in E. injection E as ->.
    exists (l' ++ [v]). split; [apply JsMap_get_In, JsMap_get_set_same|].
    apply in_app_iff. now left.
  - destruct (JsMap_set_keeps k [v] m k' l' H) as [I|[-> E]]; [eauto|].
    rewrite G in E. discriminate.
Qed.

Definition parented (g : graph) : Prop :=
  forall id, In id (g_childHasParent g) <-> targets g id.

Lemma parented_collectEndpoint (data : fileData) (g : graph) (e : rawEndpoint) :
  parented g -> parented (collectEndpoint data g e).
Proof. intros H id. apply H. Qed.

Lemma parented_collectMount (fileDataMap : JsMap.t fileData) (data : fileData)
    (g : graph) (m : mount) :
  parented g -> parented (collectMount fileDataMap data g m).
Proof.
  intros H. unfold collectMount.
  destruct (truthyOpt (resolveChildRouterId (mt_childIdent m) data fileDataMap))
    as [childId|]; [|exact H].
  intros id. simpl. rewrite JsSet_add_In, (H id). unfold targets. simpl. split.
  - intros [->|(parent & l & e & I1 & I2 & I3)].
    + destruct (pushTo_has (routerId (fd_filePath data) (mt_parentVar m))
                  {| ed_childId := childId; ed_prefix := mt_prefix m |} (g_edges g))
        as (l & I).
      eexists _, _, _. split; [exact I|]. split; [apply in_app_iff; right; now left|].
      reflexivity.
    + destruct (pushTo_keeps (routerId (fd_filePath data) (mt_parentVar m))
                  {| ed_childId := childId; ed_prefix := mt_prefix m |}
                  (g_edges g) parent l e I1 I2) as (l'' & J1 & J2).
      eexists _, _, _. eauto.
  - intros (parent & l & e & I1 & I2 & I3).
    apply pushTo_In in I1. destruct I1 as [I1|(-> & l1 & -> & I1)].
    + right. eexists _, _, _. eauto.
    + apply in_app_iff in I2. destruct I2 as [I2|[<-|[]]].
      * destruct I1 as [->|I1]; [destruct I2|].
        right. eexists _, _, _. eauto.
      * left. now rewrite <- I3.
Qed.

Lemma parented_fold {A} (f : graph -> A -> graph) (l : list A) :
  (forall g a, parented g -> parented (f g a)) ->
  forall g, parented g -> parented (fold_left f l g).
Proof.
  intros Hf. induction l as [|a l IH]; intros g H; simpl; auto.
Qed.

Lemma parented_buildGraph (fileDataMap : JsMap.t fileData) :
  parented (buildGraph fileDataMap).
Proof.
  unfold buildGraph. apply parented_fold.
  - intros g data H. unfold collectFile.
    apply parented_fold; [apply parented_collectMount|].
    apply parented_fold; [apply parented_collectEndpoint|exact H].
  - intros id. unfold targets. simpl. split; [intros []|].
    intros (parent & l & e & [] & _).
Qed.

(** The routes of a router are kept under one key. *)
Lemma pushTo_NoDup {A} (k : string) (v : A) (m : JsMap.t (list A)) :
  NoDup (JsMap.keys m) -> NoDup (JsMap.keys (pushTo k v m)).
Proof.
  intros N. unfold pushTo. destruct (JsMap.get k m); now apply JsMap_set_NoDup.
Qed.

Lemma buildGraph_keys (fileDataMap : JsMap.t fileData) :
  NoDup (JsMap.keys (g_endpointsByRouter (buildGraph fileDataMap))).
Proof.
  unfold buildGraph.
  assert (F : forall {A} (f : graph -> A -> graph) (l : list A),
            (forall g a, NoDup (JsMap.keys (g_endpointsByRouter g)) ->
                         NoDup (JsMap.keys (g_endpointsByRouter (f g a)))) ->
            forall g, NoDup (JsMap.keys (g_endpointsByRouter g)) ->
                      NoDup (JsMap.keys (g_endpointsByRouter (fold_left f l g)))).
  { intros A f l Hf. induction l as [|a l IH]; intros g H; simpl; auto. }
  apply F; [|constructor].
  intros g data H. unfold collectFile. apply F.
  - intros g' m H'. unfold collectMount.
    destruct (truthyOpt _); auto.
  - apply F; auto. intros g' e H'. simpl. now apply pushTo_NoDup.
Qed.

End TraversalFacts.

(** ** A diamond of mounts *)

Section Diamond.
Import Ast Model Hono Trace.

(** [d.ts]:
    [const root = new Hono(); const left = new Hono();
     const right = new Hono(); const leaf = new Hono();
     leaf.get('/ping', handler);
     root.route('/x', left); root.route('/x', right);
     left.route('/c', leaf); right.route('/c', leaf)] *)
Definition diamondFile : ast :=
  [ VariableDeclarator (Some "root") (Some newHono);
    VariableDeclarator (Some "left") (Some newHono);
    VariableDeclarator (Some "right") (Some newHono);
    VariableDeclarator (Some "leaf") (Some newHono);
    callOn "leaf" "get" [StringLiteral "/ping"; handler];
    callOn "root" "route" [StringLiteral "/x"; Identifier "left"];
    callOn "root" "route" [StringLiteral "/x"; Identifier "right"];
    callOn "left" "route" [StringLiteral "/c"; Identifier "leaf"];
    callOn "right" "route" [StringLiteral "/c"; Identifier "leaf"] ].

Definition diamondDisk : platform := onDisk [("/app/d.ts", diamondFile)].

Definition diamondPing : rawEndpoint :=
  {| re_routerVar := "leaf"; re_method := "GET"; re_path := "/ping";
     re_description := "GET /ping";
     re_parameters := Some {| rw_body := None; rw_query := None |} |}.

Definition diamondRouters : JsMap.t routerNode :=
  buildRouterIndex (parseAll diamondDisk ["/app/d.ts"]).

Definition diamondGraph : graph := buildGraph (parseAll diamondDisk ["/app/d.ts"]).

(** C2. The traversal never pushes a pair of a router and a prefix
    twice: whatever the routers, the edges and the start set, the
    entries pushed in any number of turns are pairwise distinct, the
    prefixes recorded for a router are pairwise distinct, and the state
    in which the loop ends is one of these states; so under a prefix
    recorded for it a router emits its routes once each.  In the diamond
    the leaf is reached twice under [/x/c] and its route is emitted
    once. *)
Theorem bfs_never_enqueues_twice
    (routers : JsMap.t routerNode) (edges : JsMap.t (list edge)) (start : list string)
    (endpointsByRouter : JsMap.t (list rawEndpoint))
    (n : nat) (id p : string) (routes : list rawEndpoint) :
  NoDup (JsMap.keys endpointsByRouter) ->
  JsMap.get id endpointsByRouter = Some routes ->
  recorded (prefixesByRouter (after routers edges n (seed start))) id p ->
  NoDup (queue (seed start) ++ enqueued routers edges n (seed start)) /\
  (forall id' set,
     JsMap.get id' (prefixesByRouter (after routers edges n (seed start))) = Some set ->
     NoDup set) /\
  emittedFor id p
    (emissions endpointsByRouter (prefixesByRouter (after routers edges n (seed start))))
  = map (fun e => (id, p, e)) routes /\
  (forall fuel b, bfsLoop fuel routers edges (seed start) = Some b ->
     exists m, b = after routers edges m (seed start)) /\
  (forall k, extractHonoEndpoints diamondDisk (5 + k) ["/app/d.ts"]
             = Some [ {| method := "GET"; path := "/x/c/ping";
                         description := "GET /ping"; tags := None;
                         params := {| ps_path := None; ps_query := None; ps_body := None |};
                         filePath := Some "/app/d.ts";
                         key := "GET /x/c/ping" |} ]).
Proof.
  intros N G R.
  pose proof (logged_after routers edges n _ _ (logged_seed start)) as (L1 & L2 & L3).
  split; [|split; [|split; [|split]]].
  - exact L1.
  - exact L3.
  - apply emittedFor_recorded; auto.
  - intros fuel b H. destruct (bfsLoop_after _ _ _ _ _ H) as (m & _ & E & _). eauto.
  - intros k. apply (extractHonoEndpoints_more _ _ 5); [|lia]. vm_compute. reflexivity.
Qed.

Lemma bfs_never_enqueues_twice_witness :
  recorded
    (prefixesByRouter
       (after diamondRouters (g_edges diamondGraph) 5
          (seed (startOf diamondRouters (g_childHasParent diamondGraph)))))
    "/app/d.ts::leaf" "/x/c" /\
  emittedFor "/app/d.ts::leaf" "/x/c"
    (emissions (g_endpointsByRouter diamondGraph)
       (prefixesByRouter
          (after diamondRouters (g_edges diamondGraph) 5
             (seed (startOf diamondRouters (g_childHasParent diamondGraph))))))
  = [("/app/d.ts::leaf", "/x/c", diamondPing)].
Proof.
  assert (R : recorded
    (prefixesByRouter
       (after diamondRouters (g_edges diamondGraph) 5
          (seed (startOf diamondRouters (g_childHasParent diamondGraph)))))
    "/app/d.ts::leaf" "/x/c").
  { exists ["/x/c"]. split; [vm_compute; reflexivity|now left]. }
  split; [exact R|].
  assert (G : JsMap.get "/app/d.ts::leaf" (g_endpointsByRouter diamondGraph)
              = Some [diamondPing]) by (vm_compute; reflexivity).
  exact (proj1 (proj2 (proj2
    (bfs_never_enqueues_twice diamondRouters (g_edges diamondGraph)
       (startOf diamondRouters (g_childHasParent diamondGraph))
       (g_endpointsByRouter diamondGraph) 5 "/app/d.ts::leaf" "/x/c" [diamondPing]
       (buildGraph_keys _) G R)))).
Defined.

End Diamond.

(** ** Unresolvable references *)

Section Fallbacks.
Import Ast Model Hono Trace.

(** [i.ts]:
    [const app = new Hono(); const b = new Hono(); const c = new Hono();
     app.get('/health', handler); c.get('/ping', handler);
     b.route('/c', c); c.route('/b', b)]:
    [b] and [c] have a parent each and cannot be reached from [app], the
    one router without a parent. *)
Definition islandFile : ast :=
  [ VariableDeclarator (Some "app") (Some newHono);
    VariableDeclarator (Some "b") (Some newHono);
    VariableDeclarator (Some "c") (Some newHono);
    callOn "app" "get" [StringLiteral "/health"; handler];
    callOn "c" "get" [StringLiteral "/ping"; handler];
    callOn "b" "route" [StringLiteral "/c"; Identifier "c"];
    callOn "c" "route" [StringLiteral "/b"; Identifier "b"] ].

Definition islandDisk : platform := onDisk [("/app/i.ts", islandFile)].

Definition plainGet (routePath : string) : endpoint :=
  {| method := "GET"; path := routePath;
     description := ("GET " ++ routePath)%string; tags := None;
     params := {| ps_path := None; ps_query := None; ps_body := None |};
     filePath := Some "/app/i.ts";
     key := ("GET " ++ routePath)%string |}.

(** [userSchema] under [n] calls of a method the resolver looks
    through: [userSchema.nullable().nullable()...]. *)
Fixpoint chained (n : nat) (base : expr) : expr :=
  match n with
  | O => base
  | S n' => CallExpression (MemberExpression (chained n' base) (Identifier "nullable")) []
  end.

(** A schema-builder variable that is not defined does not always
    resolve to an [object] node: met beyond the depth cap it resolves to
    a [string] node, as it does under eleven chained calls in a
    resolution that starts at depth 0, while under ten it resolves to an
    [object] node. *)
Lemma unknown_variable_beyond_cap_is_string :
  JsMap.get "userSchema" (@nil (string * expr)) = None /\
  Zod.resolveZodSchema (Some (Identifier "userSchema")) [] 11 = Zod.ofType "string" /\
  Zod.type (Zod.resolveZodSchema (Some (Identifier "userSchema")) [] 11) <> "object" /\
  Zod.resolveZodSchema (Some (chained 11 (Identifier "userSchema"))) [] 0
  = Zod.ofType "string" /\
  Zod.resolveZodSchema (Some (chained 10 (Identifier "userSchema"))) [] 0
  = Zod.ofType "object".
Proof. repeat split. discriminate. Qed.

(** C10 (amended). References that cannot be resolved fall back, and
    no resolver fails on them: a schema-builder variable that is not
    defined resolves to an [object] node when it is met at a depth of at
    most 10 and to a [string] node beyond that cap; a DTO name that is
    not defined resolves to a new [object] node; and a router for which
    the traversal recorded no prefix emits its routes under the empty
    prefix alone, as do the routes of the routers [b] and [c] that no
    root reaches. *)
Theorem unresolvable_references_fall_back
    (name : string) (schemaDefs : JsMap.t expr) (depth : nat)
    (dtoName : string) (dtoMap : JsMap.t Nest.dto) (depth' : nat) (st : Nest.state)
    (id : string) (routes : list rawEndpoint)
    (earlier later : JsMap.t (list rawEndpoint)) (prefixes : JsMap.t JsSet.t) :
  JsMap.get name schemaDefs = None ->
  JsMap.get dtoName dtoMap = None ->
  JsMap.get dtoName (Nest.memo st) = None ->
  JsMap.get id prefixes = None ->
  Zod.resolveZodSchema (Some (Identifier name)) schemaDefs depth
  = Zod.ofType (if (depth <=? 10)%nat then "object" else "string") /\
  Nest.buildSchemaForDto dtoName dtoMap depth' st
  = Some (List.length (Nest.heap st),
          {| Nest.heap := Nest.heap st ++ [Nest.plain "object" None];
             Nest.memo := Nest.memo st |}) /\
  emissions (earlier ++ (id, routes) :: later) prefixes
  = emissions earlier prefixes ++ map (fun e => (id, "", e)) routes
    ++ emissions later prefixes /\
  (forall k, extractHonoEndpoints islandDisk (1 + k) ["/app/i.ts"]
             = Some [plainGet "/health"; plainGet "/ping"]).
Proof.
  intros Hs Hm Hc Hp. split; [|split; [|split]].
  - destruct (Nat.leb_spec depth 10) as [Hd|Hd].
    + apply resolveZodSchema_unknown_identifier; assumption.
    + apply resolveZodSchema_above_cap. exact Hd.
  - unfold Nest.buildSchemaForDto. cbn [Nest.buildSchemaForDtoIn].
    unfold Nest.buildSchemaForDtoWith, Nest.bind, Nest.memoGet. rewrite Hc, Hm. reflexivity.
  - rewrite emissions_app, emissions_cons. simpl fst. simpl snd. rewrite Hp.
    simpl. now rewrite app_nil_r.
  - intros k. apply (extractHonoEndpoints_more _ _ 1); [|lia]. vm_compute. reflexivity.
Qed.

Lemma unresolvable_references_fall_back_witness :
  Zod.resolveZodSchema (Some (Identifier "userSchema")) [] 0 = Zod.ofType "object" /\
  Zod.resolveZodSchema (Some (Identifier "userSchema")) [] 11 = Zod.ofType "string" /\
  Nest.fresh (Nest.buildSchemaForDto "SearchDto" [] 0) = Some (0, [Nest.plain "object" None]) /\
  emissions [("/app/i.ts::c", [diamondPing])] []
  = [("/app/i.ts::c", "", diamondPing)].
Proof.
  destruct (unresolvable_references_fall_back "userSchema" [] 0 "SearchDto" [] 0
              {| Nest.heap := []; Nest.memo := [] |}
              "/app/i.ts::c" [diamondPing] [] [] [])
    as (H1 & H2 & H3 & _); try reflexivity.
  destruct (unresolvable_references_fall_back "userSchema" [] 11 "SearchDto" [] 0
              {| Nest.heap := []; Nest.memo := [] |}
              "/app/i.ts::c" [diamondPing] [] [] [])
    as (H4 & _); try reflexivity.
  split; [exact H1|]. split; [exact H4|]. split; [|exact H3].
  unfold Nest.fresh. change JsMap.empty with (@nil (string * ref)).
  rewrite H2. reflexivity.
Defined.

End Fallbacks.

(** ** The decorator-style controller *)

Section Controller.
Import Ast Model Nest.

Definition decorate (name : string) (args : list expr) : decorator :=
  Decorator (CallExpression (Identifier name) args).

(** [class SearchDto { name: string; age?: number }] *)
Definition searchDto : node :=
  ClassDeclaration
    {| c_id := Some "SearchDto"; c_decorators := [];
       c_body :=
         [ ClassProperty (Identifier "name") [] false (Some TSStringKeyword) None;
           ClassProperty (Identifier "age") [] true (Some TSNumberKeyword) None ] |}.

(** [@Controller('users') class UsersController {
       @Get(':id') find(@Query() query: SearchDto) { ... } }] *)
Definition usersController : node :=
  ClassDeclaration
    {| c_id := Some "UsersController";
       c_decorators := [decorate "Controller" [StringLiteral "users"]];
       c_body :=
         [ ClassMethod [decorate "Get" [StringLiteral ":id"]]
             [ {| pn_self :=
                    {| pt_decorators := Some [decorate "Query" []];
                       pt_typeAnnotation :=
                         Some (TSTypeReference (Identifier "SearchDto") None) |};
                  pn_left := None |} ] ] |}.

(** The DTO in the file of the controller, and in a file of its own
    that the controller imports. *)
Definition oneFile : platform :=
  onDisk [("/app/users.controller.ts", [searchDto; usersController])].

Definition withImport : platform :=
  onDisk [ ("/app/users.controller.ts",
            [ImportDeclaration "./search.dto" [ImportSpecifier "SearchDto" "SearchDto"];
             usersController]);
           ("/app/search.dto.ts", [searchDto]) ].

Definition getUser : endpoint :=
  {| method := "GET"; path := "/users/:id"; description := "GET /users/:id";
     tags := None;
     params := {| ps_path := None;
                  ps_query := Some [ {| p_name := "name"; p_required := true |};
                                     {| p_name := "age"; p_required := false |} ];
                  ps_body := None |};
     filePath := Some "/app/users.controller.ts";
     key := "GET /users/:id" |}.

(** C9. The controller [users] with one method under [@Get(':id')]
    whose argument is an un-named [@Query()] of a DTO with a required
    [name] and an optional [age] yields one endpoint, [GET /users/:id],
    with the query parameters [name] (required) and [age] (not
    required) in that order. *)
Theorem query_dto_controller_endpoint :
  extractNestJsEndpoints oneFile "/app/users.controller.ts" = Some [getUser] /\
  extractNestJsEndpoints withImport "/app/users.controller.ts" = Some [getUser].
Proof. split; vm_compute; reflexivity. Qed.

End Controller.

(** ** The driver of the extractors *)

Section EngineFacts.
Import Ast Model Engine.

(** The last endpoint of a list with a given key. *)
Definition lastWithKey (k : string) (es : list endpoint) : option endpoint :=
  find (fun e => String.eqb (key e) k) (rev es).

Definition keyed (m : JsMap.t endpoint) : Prop :=
  Forall (fun entry => key (snd entry) = fst entry) m.

Lemma keyed_set (e : endpoint) (m : JsMap.t endpoint) :
  keyed m -> keyed (JsMap.set (key e) e m).
Proof.
  induction 1 as [|[k0 e0] m H0 Hm IH]; simpl.
  - repeat constructor.
  - destruct (String.eqb k0 (key e)); constructor; auto.
Qed.

Lemma find_over_app {A} (f : A -> bool) (l1 l2 : list A) :
  find f (l1 ++ l2) = match find f l1 with Some x => Some x | None => find f l2 end.
Proof.
  induction l1 as [|x l1 IH]; simpl; [reflexivity|].
  destruct (f x); auto.
Qed.

Lemma merge_fold (es : list endpoint) :
  forall m, keyed m -> NoDup (JsMap.keys m) ->
  let m' := fold_left (fun m e => JsMap.set (key e) e m) es m in
  keyed m' /\ NoDup (JsMap.keys m') /\
  forall k, JsMap.get k m'
            = match lastWithKey k es with
              | Some e => Some e
              | None => JsMap.get k m
              end.
Proof.
  unfold lastWithKey.
  induction es as [|e es IH]; intros m K N; simpl.
  - auto.
  - destruct (IH (JsMap.set (key e) e m) (keyed_set e m K) (JsMap_set_NoDup _ _ _ N))
      as (K' & N' & G').
    repeat split; auto.
    intros k. rewrite G', find_over_app.
    destruct (find _ (rev es)); [reflexivity|]. simpl.
    destruct (String.eqb (key e) k) eqn:E.
    + apply String.eqb_eq in E. subst k. apply JsMap_get_set_same.
    + apply String.eqb_neq in E. apply JsMap_get_set_other. congruence.
Qed.

Lemma keyed_keys (m : JsMap.t endpoint) :
  keyed m -> map key (JsMap.values m) = JsMap.keys m.
Proof.
  unfold JsMap.values, JsMap.keys.
  induction 1 as [|[k e] m H Hm IH]; simpl; [reflexivity|].
  simpl in H. now rewrite H, IH.
Qed.

(** After the merge each key is there once and holds the last endpoint
    of the list with that key. *)
Lemma mergeByKey_last (es : list endpoint) :
  NoDup (map key (mergeByKey es)) /\
  forall e, In e (mergeByKey es) <-> lastWithKey (key e) es = Some e.
Proof.
  unfold mergeByKey.
  destruct (merge_fold es JsMap.empty) as (K & N & G); [constructor|constructor|].
  set (m := fold_left _ es JsMap.empty) in *.
  split; [now rewrite keyed_keys|].
  intros e. specialize (G (key e)). simpl in G. split.
  - intros I. unfold JsMap.values in I. apply in_map_iff in I.
    destruct I as ([k e'] & E & I). simpl in E. subst e'.
    assert (Ek : k = key e).
    { unfold keyed in K. rewrite Forall_forall in K. symmetry. apply (K _ I). }
    subst k. apply JsMap_In_get in I; auto.
    rewrite G in I. destruct (lastWithKey (key e) es); [exact I|discriminate].
  - intros L. rewrite L in G. apply JsMap_get_In in G.
    unfold JsMap.values. apply in_map_iff. exists (key e, e). auto.
Qed.

(** In a list of two parts the later part wins. *)
Lemma lastWithKey_app (k : string) (earlier later : list endpoint) :
  lastWithKey k (earlier ++ later)
  = match lastWithKey k later with
    | Some e => Some e
    | None => lastWithKey k earlier
    end.
Proof. unfold lastWithKey. now rewrite rev_app_distr, find_over_app. Qed.

Section Auto.
Variable nest express : string -> option (list endpoint).
Variable hono : list string -> option (list endpoint).

Lemma extractEach_auto (N X : string -> list endpoint) (files : list string) :
  (forall f, In f files -> nest f = Some (N f) /\ express f = Some (X f)) ->
  forall endpoints,
  extractEach nest express files "auto" endpoints
  = Some (endpoints ++ flat_map (fun f => mergeByKey (N f ++ X f)) files).
Proof.
  induction files as [|f files IH]; intros H endpoints; simpl.
  - now rewrite app_nil_r.
  - destruct (H f (or_introl eq_refl)) as [Hn Hx].
    unfold extractEndpoints. simpl. rewrite Hn, Hx.
    rewrite IH; [|intros g Hg; apply H; now right].
    now rewrite app_assoc.
Qed.

(** C5 (amended). In the auto mode the router-graph extractor runs
    first over all the files and its endpoints, when there are any, are
    the result, with nothing merged into them.  When it finds none, each
    file goes through the decorator extractor and then the builder-route
    extractor, the two lists of the file are merged by key, the later
    endpoint of a key replacing the earlier one, and the merged lists of
    the files are put one after the other. *)
Theorem auto_mode_gates_then_merges_per_file (files : list string) :
  (forall h hs, hono files = Some (h :: hs) ->
     extractAllEndpoints nest express hono files "auto" = Some (h :: hs)) /\
  (forall N X, hono files = Some [] ->
     (forall f, In f files -> nest f = Some (N f) /\ express f = Some (X f)) ->
     extractAllEndpoints nest express hono files "auto"
     = Some (flat_map (fun f => mergeByKey (N f ++ X f)) files)) /\
  (forall fromNest fromExpress,
     NoDup (map key (mergeByKey (fromNest ++ fromExpress))) /\
     forall e, In e (mergeByKey (fromNest ++ fromExpress))
               <-> match lastWithKey (key e) fromExpress with
                   | Some e' => Some e'
                   | None => lastWithKey (key e) fromNest
                   end = Some e).
Proof.
  split; [|split].
  - intros h hs H. unfold extractAllEndpoints. simpl. now rewrite H.
  - intros N X H F. unfold extractAllEndpoints. simpl. rewrite H.
    now rewrite (extractEach_auto N X files F []).
  - intros fromNest fromExpress.
    destruct (mergeByKey_last (fromNest ++ fromExpress)) as [D L].
    split; [exact D|]. intros e. rewrite L, lastWithKey_app. reflexivity.
Qed.

End Auto.

(** [@Controller('users') class UsersController {
       @Get() @ApiOperation({ summary: 'List users' }) list() { ... } }] *)
Definition listController : node :=
  ClassDeclaration
    {| c_id := Some "UsersController";
       c_decorators := [decorate "Controller" [StringLiteral "users"]];
       c_body :=
         [ ClassMethod
             [ decorate "Get" [];
               decorate "ApiOperation"
                 [ObjectExpression
                    [ObjectProperty (Identifier "summary") (StringLiteral "List users")]] ]
             [] ] |}.

(** [mixed.ts] holds a router with [app.get('/users', handler)] and the
    controller above. *)
Definition mixedDisk : platform :=
  onDisk [ ("/app/mixed.ts",
            [ VariableDeclarator (Some "app") (Some newHono);
              callOn "app" "get" [StringLiteral "/users"; handler];
              listController ]) ].

(** Two files with the controller above each. *)
Definition twoControllers : platform :=
  onDisk [ ("/app/a.controller.ts", [listController]);
           ("/app/b.controller.ts", [listController]) ].

Definition listUsers (file description : string) : endpoint :=
  {| method := "GET"; path := "/users"; description := description; tags := None;
     params := {| ps_path := None; ps_query := None; ps_body := None |};
     filePath := Some file; key := "GET /users" |}.

(** In the auto mode the results of the extractors are not merged by
    key.  The endpoint the router-graph extractor finds in [mixed.ts] is
    the whole result: the endpoint of the controller, which has the same
    key and comes from an extractor that would run later, does not
    replace it and is not there.  And when the router-graph extractor
    finds nothing, the endpoints of two files that have the same key are
    both in the result. *)
Lemma auto_mode_is_not_a_merge_by_key :
  (forall express k,
     extractAllEndpoints (Nest.extractNestJsEndpoints mixedDisk) express
       (Hono.extractHonoEndpoints mixedDisk (1 + k)) ["/app/mixed.ts"] "auto"
     = Some [listUsers "/app/mixed.ts" "GET /users"]) /\
  Nest.extractNestJsEndpoints mixedDisk "/app/mixed.ts"
  = Some [listUsers "/app/mixed.ts" "List users"] /\
  key (listUsers "/app/mixed.ts" "List users") = key (listUsers "/app/mixed.ts" "GET /users") /\
  listUsers "/app/mixed.ts" "List users" <> listUsers "/app/mixed.ts" "GET /users" /\
  (forall express k,
     express "/app/a.controller.ts" = Some [] ->
     express "/app/b.controller.ts" = Some [] ->
     extractAllEndpoints (Nest.extractNestJsEndpoints twoControllers) express
       (Hono.extractHonoEndpoints twoControllers k)
       ["/app/a.controller.ts"; "/app/b.controller.ts"] "auto"
     = Some [ listUsers "/app/a.controller.ts" "List users";
              listUsers "/app/b.controller.ts" "List users" ]) /\
  key (listUsers "/app/a.controller.ts" "List users")
  = key (listUsers "/app/b.controller.ts" "List users").
Proof.
  split; [|split; [|split; [|split; [|split]]]].
  - intros express k. unfold extractAllEndpoints. simpl String.eqb. cbv iota.
    rewrite (extractHonoEndpoints_more mixedDisk ["/app/mixed.ts"] 1 (1 + k)
               [listUsers "/app/mixed.ts" "GET /users"]); [reflexivity| |lia].
    vm_compute. reflexivity.
  - vm_compute. reflexivity.
  - reflexivity.
  - discriminate.
  - intros express k Ha Hb. unfold extractAllEndpoints. simpl String.eqb. cbv iota.
    rewrite (extractHonoEndpoints_more twoControllers
               ["/app/a.controller.ts"; "/app/b.controller.ts"] 0 k []);
      [| vm_compute; reflexivity | lia].
    unfold extractEach, extractEndpoints. simpl String.eqb. cbv iota.
    rewrite Ha, Hb.
    replace (Nest.extractNestJsEndpoints twoControllers "/app/a.controller.ts")
      with (Some [listUsers "/app/a.controller.ts" "List users"])
      by (vm_compute; reflexivity).
    replace (Nest.extractNestJsEndpoints twoControllers "/app/b.controller.ts")
      with (Some [listUsers "/app/b.controller.ts" "List users"])
      by (vm_compute; reflexivity).
    reflexivity.
  - reflexivity.
Qed.

Lemma auto_mode_gates_then_merges_per_file_witness :
  extractAllEndpoints (Nest.extractNestJsEndpoints mixedDisk) (fun _ => Some [])
    (Hono.extractHonoEndpoints mixedDisk 1) ["/app/mixed.ts"] "auto"
  = Some [listUsers "/app/mixed.ts" "GET /users"] /\
  extractAllEndpoints (Nest.extractNestJsEndpoints twoControllers) (fun _ => Some [])
    (Hono.extractHonoEndpoints twoControllers 0)
    ["/app/a.controller.ts"; "/app/b.controller.ts"] "auto"
  = Some [ listUsers "/app/a.controller.ts" "List users";
           listUsers "/app/b.controller.ts" "List users" ].
Proof.
  split.
  - apply (proj1 (auto_mode_gates_then_merges_per_file
                    (Nest.extractNestJsEndpoints mixedDisk) (fun _ => Some [])
                    (Hono.extractHonoEndpoints mixedDisk 1) ["/app/mixed.ts"])).
    vm_compute. reflexivity.
  - rewrite (proj1 (proj2 (auto_mode_gates_then_merges_per_file
                    (Nest.extractNestJsEndpoints twoControllers) (fun _ => Some [])
                    (Hono.extractHonoEndpoints twoControllers 0)
                    ["/app/a.controller.ts"; "/app/b.controller.ts"]))
               (fun f => [listUsers f "List users"]) (fun _ => [])).
    + reflexivity.
    + vm_compute. reflexivity.
    + intros f [<-|[<-|[]]]; split; vm_compute; reflexivity.
Defined.

End EngineFacts.

(** ** The schema of a DTO as a tree *)

Section NestTrees.
Import Ast Model Nest Spec.

Lemma nth_error_updateNth_other {A} (f : A -> A) (s r : nat) (l : list A) :
  r <> s -> nth_error (updateNth s f l) r = nth_error l r.
Proof.
  revert s r. induction l as [|x l IH]; intros [|s] [|r] D; simpl; auto; try congruence.
Qed.

Lemma nth_error_updateNth_same {A} (f : A -> A) (s : nat) (l : list A) (x : A) :
  nth_error l s = Some x -> nth_error (updateNth s f l) s = Some (f x).
Proof.
  revert s. induction l as [|y l IH]; intros [|s]; simpl; try discriminate; auto.
  intros [= ->]. reflexivity.
Qed.

Lemma finiteAvoiding_valid (h : list sobj) (F : list ref) (r : ref) :
  finiteAvoiding h F r -> r < List.length h.
Proof.
  intros [r' o _ H _ _]. apply nth_error_Some. congruence.
Qed.

Lemma finiteAvoiding_ext (h ext : list sobj) (F : list ref) (r : ref) :
  finiteAvoiding h F r -> finiteAvoiding (h ++ ext) F r.
Proof.
  induction 1 as [r o HF Hn _ IHp _ IHi].
  apply (finiteAvoiding_intro _ _ r o); auto.
  rewrite nth_error_app1; auto. apply nth_error_Some. congruence.
Qed.

Lemma finiteAvoiding_modify (h : list sobj) (F : list ref) (s : ref)
    (f : sobj -> sobj) (r : ref) :
  In s F -> finiteAvoiding h F r -> finiteAvoiding (updateNth s f h) F r.
Proof.
  intros Hs. induction 1 as [r o HF Hn _ IHp _ IHi].
  apply (finiteAvoiding_intro _ _ r o); auto.
  rewrite nth_error_updateNth_other; auto. intros ->. contradiction.
Qed.

Lemma finiteAvoiding_fewer (h : list sobj) (F F' : list ref) (r : ref) :
  (forall x, In x F' -> In x F) -> finiteAvoiding h F r -> finiteAvoiding h F' r.
Proof.
  intros Sub. induction 1 as [r o HF Hn _ IHp _ IHi].
  apply (finiteAvoiding_intro _ _ r o); auto.
Qed.

(** A finite tree of [h] holds no object allocated after it. *)
Lemma finiteAvoiding_new (h : list sobj) (F : list ref) (s r : ref) :
  List.length h <= s -> finiteAvoiding h F r -> finiteAvoiding h (s :: F) r.
Proof.
  intros L. induction 1 as [r o HF Hn _ IHp _ IHi].
  apply (finiteAvoiding_intro _ _ r o); auto.
  intros [<-|I]; [|contradiction].
  assert (s < List.length h) by (apply nth_error_Some; congruence). lia.
Qed.

Lemma finiteAt_of_avoiding (h : list sobj) (r : ref) :
  finiteAvoiding h [] r -> finiteAt h r.
Proof.
  induction 1 as [r o HF Hn _ IHp _ IHi]. apply (finiteAt_intro _ r o); auto.
Qed.

Lemma keepsExcept_refl (T : list ref) (st : state) : keepsExcept T st st.
Proof. intros r o _ H. exact H. Qed.

Lemma keepsExcept_trans (T : list ref) (st1 st2 st3 : state) :
  keepsExcept T st1 st2 -> keepsExcept T st2 st3 -> keepsExcept T st1 st3.
Proof. intros H1 H2 r o N H. auto. Qed.

(** A finite tree that holds no object of [F] is still there when only
    objects of [F] have changed. *)
Lemma keepsExcept_tree (F T : list ref) (st st' : state) (r : ref) :
  (forall x, In x T -> In x F) -> keepsExcept T st st' ->
  finiteAvoiding (heap st) F r -> finiteAvoiding (heap st') F r.
Proof.
  intros Sub K. induction 1 as [r o HF Hn _ IHp _ IHi].
  apply (finiteAvoiding_intro _ _ r o); auto.
Qed.

(** The results that are finite trees. *)
Definition tree (F : list ref) (r : ref) (st : state) : Prop :=
  finiteAvoiding (heap st) F r.

Definition trees (F : list ref) (o : JsObject.t ref) (st : state) : Prop :=
  Forall (fun e => finiteAvoiding (heap st) F (snd e)) o.

Lemma keepsExcept_trees (F T : list ref) (o : JsObject.t ref) (st st' : state) :
  (forall x, In x T -> In x F) -> keepsExcept T st st' ->
  trees F o st -> trees F o st'.
Proof. intros Sub K. apply Forall_impl. intros e. now apply (keepsExcept_tree F T st). Qed.

Section Rules.
Variable F : list ref.
Variable open : list string.
Variable T : list ref.
Hypothesis T_in_F : forall x, In x T -> In x F.

Lemma yields_ret {A} (a : A) (st : state) (Q : A -> state -> Prop) :
  settled F open st -> Q a st -> yields F open T (ret a) st Q.
Proof.
  intros S H. exists a, st. repeat split; auto using keepsExcept_refl; try apply S.
  intros name r G. exact G.
Qed.

Lemma yields_bind {A B} (m : M A) (f : A -> M B) (st : state)
    (Q : A -> state -> Prop) (R : B -> state -> Prop) :
  yields F open T m st Q ->
  (forall a st', settled F open st' -> keepsExcept T st st' -> Q a st' ->
                 yields F open T (f a) st' R) ->
  yields F open T (bind m f) st R.
Proof.
  intros (a & st1 & E & S & P & M1 & HQ) K.
  destruct (K a st1 S P HQ) as (b & st2 & E2 & S2 & P2 & M2 & HR).
  exists b, st2. unfold bind. rewrite E. repeat split; auto; try apply S2.
  - eauto using keepsExcept_trans.
  - intros name r G. auto.
Qed.

Lemma settled_alloc (o : sobj) (st : state) :
  settled F open st ->
  settled F open {| heap := heap st ++ [o]; memo := memo st |}.
Proof.
  intros [SF SM]. split; simpl.
  - rewrite length_app. eapply Forall_impl; [|exact SF]. simpl. intros; lia.
  - intros name r G. destruct (SM name r G) as [H|H]; auto.
    right. now apply finiteAvoiding_ext.
Qed.

Lemma keepsExcept_alloc (o : sobj) (st : state) :
  keepsExcept T st {| heap := heap st ++ [o]; memo := memo st |}.
Proof.
  intros r o' _ H. simpl. rewrite nth_error_app1; auto.
  apply nth_error_Some. congruence.
Qed.

(** An object whose properties and items are finite trees is
    allocated as a finite tree. *)
Lemma yields_alloc (o : sobj) (st : state) :
  settled F open st ->
  (forall props k c, o_properties o = Some props -> In (k, c) props -> tree F c st) ->
  (forall c, o_items o = Some c -> tree F c st) ->
  yields F open T (alloc o) st (tree F).
Proof.
  intros S Hp Hi. eexists _, _. split; [reflexivity|].
  split; [now apply settled_alloc|]. split; [apply keepsExcept_alloc|].
  split; [intros name r G; exact G|].
  unfold tree. simpl.
  apply (finiteAvoiding_intro _ _ (List.length (heap st)) o).
  - intros I. destruct S as [SF _]. rewrite Forall_forall in SF.
    specialize (SF _ I). lia.
  - rewrite nth_error_app2, Nat.sub_diag; auto.
  - intros props k c E I. apply finiteAvoiding_ext. eapply Hp; eauto.
  - intros c E. apply finiteAvoiding_ext. now apply Hi.
Qed.

Lemma yields_plain (ty : string) (ex : option Zod.literal) (st : state) :
  settled F open st -> yields F open T (alloc (plain ty ex)) st (tree F).
Proof. intros S. apply yields_alloc; auto; simpl; intros; discriminate. Qed.

Lemma yields_fallback (meta : propMeta) (st : state) :
  settled F open st -> yields F open T (fallback meta) st (tree F).
Proof.
  intros S. unfold fallback.
  destruct (m_overrideType meta) as [ty|]; [destruct (JsString.truthy ty)|];
    now apply yields_plain.
Qed.

Lemma yields_arrayOf (items : ref) (st : state) :
  settled F open st -> tree F items st ->
  yields F open T (alloc (arrayOf items)) st (tree F).
Proof.
  intros S Tr. apply yields_alloc; auto; simpl; intros; try discriminate.
  injection H as <-. exact Tr.
Qed.

Lemma yields_objectWith (properties : JsObject.t ref) (st : state) :
  settled F open st -> trees F properties st ->
  yields F open T (alloc (objectWith properties)) st (tree F).
Proof.
  intros S Tr. apply yields_alloc; auto; simpl; intros; try discriminate.
  injection H as <-. unfold trees in Tr. rewrite Forall_forall in Tr.
  apply (Tr (k, c)). assumption.
Qed.

Lemma literalMembers_yields (resolve : tsType -> M ref) (members : list tsMember) :
  Forall (fun m => forall k t, m = TSPropertySignature k (Some t) ->
                   forall st, settled F open st -> yields F open T (resolve t) st (tree F))
         members ->
  forall properties st, settled F open st -> trees F properties st ->
  yields F open T (literalMembers resolve members properties) st (trees F).
Proof.
  induction 1 as [|m ms Hm Hms IH]; intros properties st S Tr; simpl.
  - apply yields_ret; auto.
  - destruct m as [k ta|]; [|auto].
    destruct (getPropertyName k) as [name|]; [|auto].
    destruct (negb (JsString.truthy name)); [auto|].
    eapply yields_bind.
    + destruct ta as [t|]; [apply (Hm k t eq_refl); auto|apply yields_fallback; auto].
    + intros r st' S' P Hr. apply IH; auto.
      apply (JsObject_set_Forall (fun v => finiteAvoiding (heap st') F v)); auto.
      apply (keepsExcept_trees F T _ st); auto.
Qed.

(** At a depth of 2 or more the type resolver expands no DTO and
    builds a finite tree, whatever the DTO resolver. *)
Lemma fromType_deep (dtoMap : JsMap.t dto) (build : string -> nat -> M ref)
    (typeNode : tsType) :
  forall depth meta st,
  2 <= depth -> settled F open st ->
  yields F open T (fromType dtoMap build typeNode depth meta) st (tree F).
Proof.
  induction typeNode using tsType_nested_ind; intros depth meta st D S;
    cbn [fromType].
  - now apply yields_plain.
  - now apply yields_plain.
  - now apply yields_plain.
  - eapply yields_bind; [apply IHtypeNode; auto; lia|].
    intros items st' S' P Tr. now apply yields_arrayOf.
  - assert (C : (depth <? 2)%nat = false) by (apply Nat.ltb_ge; lia).
    destruct n; try (now apply yields_fallback).
    rewrite C, andb_false_r.
    destruct (String.eqb name "Array"); [|now apply yields_fallback].
    destruct ps as [[|param [|]]|]; try (now apply yields_fallback).
    eapply yields_bind.
    + specialize (H _ eq_refl). inversion H as [|? ? Hp _]; subst.
      apply Hp; auto. lia.
    + intros items st' S' P Tr. now apply yields_arrayOf.
  - eapply yields_bind.
    + apply literalMembers_yields; [|exact S|constructor].
      eapply Forall_impl; [|exact H]. simpl.
      intros m Hm k t E st0 S0. apply (Hm k t E); auto. lia.
    + intros properties st' S' P Tr. now apply yields_objectWith.
  - now apply yields_fallback.
Qed.

Lemma yields_modify (s : ref) (f : sobj -> sobj) (st : state) :
  settled F open st -> In s T ->
  yields F open T (modify s f) st
    (fun _ st' => heap st' = updateNth s f (heap st)).
Proof.
  intros [SF SM] I. eexists _, _. split; [reflexivity|]. split; [|split].
  - split; simpl.
    + now rewrite length_updateNth.
    + intros name r G. destruct (SM name r G) as [H|H]; auto.
      right. apply finiteAvoiding_modify; auto.
  - intros r o N H. simpl. rewrite nth_error_updateNth_other; auto.
    intros ->. contradiction.
  - split; [intros name r G; exact G|reflexivity].
Qed.

End Rules.

(** The object under construction at [s]: its properties so far are
    finite trees. *)
Definition filling (F : list ref) (s : ref) (st : state) : Prop :=
  exists o ps, nth_error (heap st) s = Some o /\ o_items o = None /\
               o_properties o = Some ps /\ trees F ps st.

Lemma filling_kept (F : list ref) (s : ref) (st st' : state) :
  keepsExcept [] st st' -> filling F s st -> filling F s st'.
Proof.
  intros K (o & ps & Hn & Hi & Hp & Ht). exists o, ps.
  split; [apply K; auto|]. split; [exact Hi|]. split; [exact Hp|].
  apply (keepsExcept_trees F [] ps st); auto. intros x [].
Qed.

Lemma filling_setProperty (F : list ref) (s : ref) (name : string) (c : ref)
    (st st' : state) :
  In s F -> heap st' = updateNth s (setProperty name c) (heap st) ->
  tree F c st -> filling F s st -> filling F s st'.
Proof.
  intros I E Tc (o & ps & Hn & Hi & Hp & Ht).
  exists (setProperty name c o), (JsObject.set name c ps).
  rewrite E. repeat split; simpl; auto.
  - now apply nth_error_updateNth_same.
  - now rewrite Hp.
  - unfold trees. rewrite E.
    apply (JsObject_set_Forall
             (fun v => finiteAvoiding (updateNth s (setProperty name c) (heap st)) F v)).
    + eapply Forall_impl; [|exact Ht]. intros e. now apply finiteAvoiding_modify.
    + now apply finiteAvoiding_modify.
Qed.

Lemma filling_setRequired (F : list ref) (s : ref) (required : list string)
    (st st' : state) :
  In s F -> heap st' = updateNth s (setRequired required) (heap st) ->
  filling F s st -> filling F s st'.
Proof.
  intros I E (o & ps & Hn & Hi & Hp & Ht).
  exists (setRequired required o), ps.
  rewrite E. repeat split; simpl; auto.
  - now apply nth_error_updateNth_same.
  - unfold trees. rewrite E.
    eapply Forall_impl; [|exact Ht]. intros e. now apply finiteAvoiding_modify.
Qed.

(** A computation that touches no object may run where [s] may be
    touched. *)
Lemma yields_frame {A} (F : list ref) (open : list string) (s : ref)
    (m : M A) (st : state) (Q : A -> state -> Prop) :
  yields F open [] m st Q ->
  yields F open [s] m st (fun a st' => Q a st' /\ keepsExcept [] st st').
Proof.
  intros (a & st' & E & S & K & M & HQ). exists a, st'. repeat split; auto; try apply S.
  intros r o _ H. apply K; auto.
Qed.

Lemma dtoProperties_yields (F : list ref) (open : list string)
    (dtoMap : JsMap.t dto) (build : string -> nat -> M ref) (s : ref) (depth : nat)
    (props : list dtoProp) :
  In s F ->
  (forall prop, In prop props -> forall st, settled F open st ->
     yields F open []
       (schemaFromTypeNodeWith dtoMap build (dp_typeNode prop) (depth + 1) (metaOfProp prop))
       st (tree F)) ->
  forall required st, settled F open st -> filling F s st ->
  yields F open [s] (dtoProperties dtoMap build s props depth required) st
    (fun _ st' => filling F s st').
Proof.
  intros I.
  assert (Sub : forall x, In x [s] -> In x F) by (intros x [<-|[]]; exact I).
  induction props as [|prop props IH]; intros R required st S Fl; simpl.
  - apply yields_ret; auto.
  - eapply yields_bind; [apply yields_frame, R; [now left|exact S]|].
    intros r st1 S1 _ [T1 K1].
    eapply yields_bind; [apply yields_modify; [exact Sub|exact S1|now left]|].
    intros u st2 S2 _ E2.
    apply IH; auto; [intros p Hp; apply R; now right|].
    apply (filling_setProperty F s (dp_name prop) r st1 st2); auto.
    now apply (filling_kept F s st).
Qed.

Lemma buildSchemaForDtoWith_eq (build : string -> nat -> M ref) (dtoName : string)
    (dtoMap : JsMap.t dto) (depth : nat) (st : state) :
  buildSchemaForDtoWith build dtoName dtoMap depth st
  = match JsMap.get dtoName (memo st) with
    | Some schema => ret schema st
    | None =>
        match JsMap.get dtoName dtoMap with
        | None => alloc (plain "object" None) st
        | Some d =>
            (required <-
               dtoProperties dtoMap build (List.length (heap st)) (d_props d) depth [] ;;
             _ <- match required with
                  | [] => ret tt
                  | _ => modify (List.length (heap st)) (setRequired required)
                  end ;;
             ret (List.length (heap st)))
              {| heap := heap st ++ [objectWith JsObject.empty];
                 memo := JsMap.set dtoName (List.length (heap st)) (memo st) |}
        end
    end.
Proof.
  unfold buildSchemaForDtoWith, bind at 1, memoGet.
  destruct (JsMap.get dtoName (memo st)); [reflexivity|].
  destruct (JsMap.get dtoName dtoMap); reflexivity.
Qed.

(** The DTO resolver builds a finite tree for a name that is not under
    construction when the types of the properties resolve to finite
    trees. *)
Lemma buildSchemaForDtoWith_tree (F : list ref) (open : list string)
    (build : string -> nat -> M ref) (dtoName : string) (dtoMap : JsMap.t dto)
    (depth : nat) (st : state) :
  (forall d prop, JsMap.get dtoName dtoMap = Some d -> In prop (d_props d) ->
     forall s st', settled (s :: F) (dtoName :: open) st' ->
       yields (s :: F) (dtoName :: open) []
         (schemaFromTypeNodeWith dtoMap build (dp_typeNode prop) (depth + 1) (metaOfProp prop))
         st' (tree (s :: F))) ->
  ~ In dtoName open -> settled F open st ->
  yields F open [] (buildSchemaForDtoWith build dtoName dtoMap depth) st (tree F).
Proof.
  intros R NO S. unfold yields. rewrite buildSchemaForDtoWith_eq.
  destruct (JsMap.get dtoName (memo st)) as [r|] eqn:G.
  - apply yields_ret; auto. destruct S as [_ SM].
    destruct (SM _ _ G) as [[_ I]|H]; [contradiction|exact H].
  - destruct (JsMap.get dtoName dtoMap) as [d|] eqn:D; [|now apply yields_plain].
    set (s := List.length (heap st)).
    set (st2 := {| heap := heap st ++ [objectWith JsObject.empty];
                   memo := JsMap.set dtoName s (memo st) |}).
    assert (SF : Forall (fun r => r < s) F) by apply S.
    assert (Ns : ~ In s F).
    { intros I. rewrite Forall_forall in SF. specialize (SF _ I). lia. }
    assert (S2 : settled (s :: F) (dtoName :: open) st2).
    { split; simpl.
      - rewrite length_app. simpl. constructor; [fold s; lia|].
        eapply Forall_impl; [|exact SF]. simpl. fold s. intros; lia.
      - intros name r Gr. destruct (String.eqb name dtoName) eqn:E.
        + apply String.eqb_eq in E. subst name.
          rewrite JsMap_get_set_same in Gr. injection Gr as <-. left. auto.
        + apply String.eqb_neq in E. rewrite JsMap_get_set_other in Gr; auto.
          destruct S as [_ SM]. destruct (SM _ _ Gr) as [[I1 I2]|H]; [left; auto|].
          right. apply finiteAvoiding_ext. apply finiteAvoiding_new; auto. }
    assert (F2 : filling (s :: F) s st2).
    { exists (objectWith JsObject.empty), JsObject.empty. simpl. repeat split.
      - unfold s. rewrite nth_error_app2, Nat.sub_diag; auto.
      - constructor. }
    destruct (dtoProperties_yields (s :: F) (dtoName :: open) dtoMap build s depth
                (d_props d) (or_introl eq_refl) (fun prop Hp => R d prop eq_refl Hp s)
                [] st2 S2 F2) as (required & st3 & E3 & S3 & K3 & M3 & F3).
    assert (Fin : exists st4,
              (_ <- match required with
                    | [] => ret tt
                    | _ => modify s (setRequired required)
                    end ;; ret s) st3 = Some (s, st4) /\
              settled (s :: F) (dtoName :: open) st4 /\
              keepsExcept [s] st3 st4 /\ memoKept st3 st4 /\
              filling (s :: F) s st4).
    { destruct required as [|x required].
      - exists st3. repeat split; auto; try apply S3.
        + apply keepsExcept_refl.
        + intros name r Gr. exact Gr.
      - destruct (yields_modify (s :: F) (dtoName :: open) [s]
                    (fun y Hy => match Hy with or_introl e => or_introl e | or_intror f => match f with end end)
                    s (setRequired (x :: required)) st3 S3 (or_introl eq_refl))
          as (u & st4 & E4 & S4 & K4 & M4 & H4).
        exists st4. unfold bind. rewrite E4. repeat split; auto; try apply S4.
        eapply filling_setRequired; eauto. now left. }
    destruct Fin as (st4 & E4 & S4 & K4 & M4 & F4).
    exists s, st4. split; [|split; [|split; [|split]]].
    + fold s. fold st2. unfold bind at 1. rewrite E3. exact E4.
    + split; [destruct S4 as [SF4 _]; now inversion SF4|].
      intros name r Gr. destruct S4 as [_ SM4].
      destruct (SM4 _ _ Gr) as [[[<-|I1] I2]|H].
      * right. destruct F4 as (o & ps & Hn & Hi & Hp & Ht).
        apply (finiteAvoiding_intro _ _ s o); auto.
        -- intros props k c Ep Ic. rewrite Hp in Ep. injection Ep as <-.
           unfold trees in Ht. rewrite Forall_forall in Ht.
           apply (finiteAvoiding_fewer _ (s :: F)); [intros y Hy; now right|].
           apply (Ht (k, c) Ic).
        -- intros c Ec. rewrite Hi in Ec. discriminate.
      * destruct I2 as [<-|I2]; [|left; auto].
        assert (Gs : JsMap.get dtoName (memo st4) = Some s).
        { apply M4, M3. simpl. apply JsMap_get_set_same. }
        rewrite Gs in Gr. injection Gr as <-. contradiction.
      * right. apply (finiteAvoiding_fewer _ (s :: F)); [intros y Hy; now right|exact H].
    + intros r o _ Hr.
      assert (Lr : r < s) by (apply nth_error_Some; congruence).
      apply K4; [intros [<-|[]]; lia|]. apply K3; [intros [<-|[]]; lia|].
      simpl. rewrite nth_error_app1; auto.
    + intros name r Gr. apply M4, M3. simpl.
      rewrite JsMap_get_set_other; auto. intros ->. congruence.
    + destruct F4 as (o & ps & Hn & Hi & Hp & Ht).
      apply (finiteAvoiding_intro _ _ s o); auto.
      * intros props k c Ep Ic. rewrite Hp in Ep. injection Ep as <-.
        unfold trees in Ht. rewrite Forall_forall in Ht.
        apply (finiteAvoiding_fewer _ (s :: F)); [intros y Hy; now right|].
        apply (Ht (k, c) Ic).
      * intros c Ec. rewrite Hi in Ec. discriminate.
Qed.

Lemma no_touch (F : list ref) (x : ref) : In x [] -> In x F.
Proof. intros []. Qed.

Lemma buildSchemaForDtoWith_deep (F : list ref) (open : list string)
    (build : string -> nat -> M ref) (dtoName : string) (dtoMap : JsMap.t dto)
    (depth : nat) (st : state) :
  1 <= depth -> ~ In dtoName open -> settled F open st ->
  yields F open [] (buildSchemaForDtoWith build dtoName dtoMap depth) st (tree F).
Proof.
  intros D. apply buildSchemaForDtoWith_tree.
  intros d prop _ _ s st' S'. unfold schemaFromTypeNodeWith.
  destruct (dp_typeNode prop) as [t|].
  - apply fromType_deep; auto using no_touch. lia.
  - now apply yields_fallback.
Qed.

Lemma buildSchemaForDtoIn_deep (k : nat) (F : list ref) (open : list string)
    (dtoName : string) (dtoMap : JsMap.t dto) (depth : nat) (st : state) :
  1 <= depth -> ~ In dtoName open -> settled F open st ->
  yields F open [] (buildSchemaForDtoIn k dtoName dtoMap depth) st (tree F).
Proof.
  destruct k; cbn [buildSchemaForDtoIn]; apply buildSchemaForDtoWith_deep.
Qed.

(** The type resolver builds a finite tree when the DTO resolver does
    so at every depth of 1 or more. *)
Lemma fromType_all (F : list ref) (open : list string) (dtoMap : JsMap.t dto)
    (build : string -> nat -> M ref) (typeNode : tsType) :
  (forall name d st, 1 <= d -> settled F open st ->
     yields F open [] (build name d) st (tree F)) ->
  forall depth meta st,
  settled F open st ->
  yields F open [] (fromType dtoMap build typeNode depth meta) st (tree F).
Proof.
  intros CB.
  induction typeNode using tsType_nested_ind; intros depth meta st S;
    cbn [fromType].
  - now apply yields_plain.
  - now apply yields_plain.
  - now apply yields_plain.
  - eapply yields_bind; [apply IHtypeNode; auto|].
    intros items st' S' P Tr. now apply yields_arrayOf.
  - destruct n; try (now apply yields_fallback).
    assert (E : yields F open []
                  (if JsMap.has name dtoMap && (depth <? 2)%nat
                   then build name (depth + 1) else fallback meta) st (tree F)).
    { destruct (JsMap.has name dtoMap && (depth <? 2)%nat).
      - apply CB; auto. lia.
      - now apply yields_fallback. }
    destruct (String.eqb name "Array"); [|exact E].
    destruct ps as [[|param [|]]|]; try exact E.
    eapply yields_bind.
    + specialize (H _ eq_refl). inversion H as [|? ? Hp _]; subst.
      apply Hp; auto.
    + intros items st' S' P Tr. now apply yields_arrayOf.
  - eapply yields_bind.
    + apply literalMembers_yields; [apply no_touch| |exact S|constructor].
      eapply Forall_impl; [|exact H]. simpl.
      intros m Hm k t E st0 S0. apply (Hm k t E); auto.
    + intros properties st' S' P Tr. now apply yields_objectWith.
  - now apply yields_fallback.
Qed.

(** At depth 1 the type resolver calls the DTO resolver for a type
    that is a reference to a named type, and only then. *)
Lemma fromType_at_1 (F : list ref) (open : list string) (dtoMap : JsMap.t dto)
    (build : string -> nat -> M ref) (typeNode : tsType) (meta : propMeta) (st : state) :
  (forall name typeParameters st',
     typeNode = TSTypeReference (Identifier name) typeParameters ->
     settled F open st' -> yields F open [] (build name 2) st' (tree F)) ->
  settled F open st ->
  yields F open [] (fromType dtoMap build typeNode 1 meta) st (tree F).
Proof.
  intros CB S.
  destruct typeNode as [| | |e|n ps|ms|]; cbn [fromType];
    try (now apply yields_plain); try (now apply yields_fallback).
  - eapply yields_bind; [apply fromType_deep; auto using no_touch|].
    intros items st' S' P Tr. now apply yields_arrayOf.
  - destruct n; try (now apply yields_fallback).
    assert (E : yields F open []
                  (if JsMap.has name dtoMap && (1 <? 2)%nat
                   then build name (1 + 1) else fallback meta) st (tree F)).
    { destruct (JsMap.has name dtoMap && (1 <? 2)%nat).
      - apply (CB name ps); auto.
      - now apply yields_fallback. }
    destruct (String.eqb name "Array"); [|exact E].
    destruct ps as [[|param [|]]|]; try exact E.
    eapply yields_bind; [apply fromType_deep; auto using no_touch|].
    intros items st' S' P Tr. now apply yields_arrayOf.
  - eapply yields_bind.
    + apply literalMembers_yields; [apply no_touch| |exact S|constructor].
      apply Forall_forall. intros m _ k t E st0 S0.
      apply fromType_deep; auto using no_touch.
    + intros properties st' S' P Tr. now apply yields_objectWith.
Qed.

Lemma settled_empty : settled [] [] {| heap := []; memo := JsMap.empty |}.
Proof. split; [constructor|]. intros name r G. discriminate. Qed.

(** A call with a new memo table that yields a finite tree. *)
Lemma fresh_tree (m : M ref) :
  (forall st, settled [] [] st -> yields [] [] [] m st (tree [])) ->
  exists r h, fresh m = Some (r, h) /\ finiteAt h r.
Proof.
  intros H. destruct (H _ settled_empty) as (r & st & E & _ & _ & _ & Tr).
  exists r, (heap st). unfold fresh. rewrite E. split; auto.
  now apply finiteAt_of_avoiding.
Qed.

(** The schema of a DTO is a finite tree when the DTO is resolved at a
    depth of 1 or more, and at depth 0 when no property of the DTO has
    the DTO itself as its type. *)
Lemma buildSchemaForDto_tree (dtoName : string) (dtoMap : JsMap.t dto) (depth : nat) :
  1 <= depth \/ noSelfReference dtoMap dtoName ->
  exists r h, fresh (buildSchemaForDto dtoName dtoMap depth) = Some (r, h) /\ finiteAt h r.
Proof.
  intros C. apply fresh_tree. intros st S. unfold buildSchemaForDto.
  destruct (Nat.le_gt_cases 1 depth) as [L|L];
    [apply buildSchemaForDtoIn_deep; auto|].
  destruct C as [C|C]; [lia|]. assert (depth = 0) by lia. subst depth.
  cbn [buildSchemaForDtoIn]. apply buildSchemaForDtoWith_tree; auto.
  intros d prop G I s st' S'. unfold schemaFromTypeNodeWith.
  destruct (dp_typeNode prop) as [t|] eqn:E; [|now apply yields_fallback].
  apply fromType_at_1; auto.
  intros name tps st0 -> S0.
  apply (buildSchemaForDtoIn_deep 1); auto.
  intros [<-|[]]. exact (C d prop tps G I E).
Qed.

(** The schema of a type annotation is a finite tree. *)
Lemma schemaFromTypeNode_tree (typeNode : option tsType) (dtoMap : JsMap.t dto)
    (depth : nat) (meta : propMeta) :
  exists r h, fresh (schemaFromTypeNode typeNode dtoMap depth meta) = Some (r, h) /\
              finiteAt h r.
Proof.
  apply fresh_tree. intros st S. unfold schemaFromTypeNode, schemaFromTypeNodeWith.
  destruct typeNode as [t|]; [|now apply yields_fallback].
  apply fromType_all; auto.
  intros name d st0 D S0. unfold buildSchemaForDto.
  apply buildSchemaForDtoIn_deep; auto.
Qed.

(** C4 (amended). Resolution returns on every input, cyclic or not.
    The zod resolver returns a schema, a finite tree, once its fuel
    covers the depths left below the cap of 10.  The DTO resolver
    returns an object of a finite store in which every reference is to
    an object of the store; that object unfolds to a finite tree when the
    DTO is resolved at a depth of 1 or more, and at depth 0 when no
    property of the DTO has the DTO itself as its type.  The schema of a
    type annotation always unfolds to a finite tree. *)
Theorem resolution_returns_on_cycles
    (dtoName : string) (dtoMap : JsMap.t dto) (depth : nat)
    (typeNode : option tsType) (meta : propMeta)
    (node : option expr) (schemaDefs : JsMap.t expr) (depth' fuel : nat) :
  12 - depth' <= fuel -> 1 <= fuel ->
  (exists r h, fresh (buildSchemaForDto dtoName dtoMap depth) = Some (r, h) /\
               closedHeap h /\ r < List.length h /\
               (1 <= depth \/ noSelfReference dtoMap dtoName -> finiteAt h r)) /\
  (exists r h, fresh (schemaFromTypeNode typeNode dtoMap depth meta) = Some (r, h) /\
               finiteAt h r) /\
  Zod.resolveZodSchemaFuel fuel node schemaDefs depth'
  = Some (Zod.resolveZodSchema node schemaDefs depth').
Proof.
  intros H1 H2. split; [|split].
  - destruct (fresh_returns (buildSchemaForDto dtoName dtoMap depth))
      as (r & h & E & C & V).
    { intros st W. now apply buildSchemaForDto_runs. }
    exists r, h. repeat (split; auto).
    intros T. destruct (buildSchemaForDto_tree dtoName dtoMap depth T)
      as (r' & h' & E' & Fin).
    rewrite E in E'. now injection E' as <- <-.
  - apply schemaFromTypeNode_tree.
  - now apply resolveZodSchema_returns.
Qed.

Lemma resolution_returns_on_cycles_witness :
  (exists r h, fresh (buildSchemaForDto "A" mutualDto 0) = Some (r, h) /\
               closedHeap h /\ r < List.length h /\ finiteAt h r) /\
  (exists r h, fresh (schemaFromTypeNode
                        (Some (TSTypeReference (Identifier "A") None))
                        selfDto 0 noMeta) = Some (r, h) /\
               finiteAt h r) /\
  Zod.resolveZodSchemaFuel 12 (Some (Identifier "a")) cyclicDefs 0
  = Some (Zod.withOptional (Zod.ofType "string")).
Proof.
  destruct (resolution_returns_on_cycles "A" mutualDto 0
              (Some (TSTypeReference (Identifier "A") None)) noMeta
              (Some (Identifier "a")) cyclicDefs 0 12) as (D & _ & Z); try lia.
  destruct (resolution_returns_on_cycles "A" selfDto 0
              (Some (TSTypeReference (Identifier "A") None)) noMeta
              (Some (Identifier "a")) cyclicDefs 0 12) as (_ & T & _); try lia.
  split; [|split; [exact T|exact Z]].
  destruct D as (r & h & E & C & V & Fin).
  exists r, h. repeat (split; auto).
  apply Fin. right. intros d prop tps G I.
  injection G as <-. destruct I as [<-|[]]. discriminate.
Defined.

End NestTrees.

(** * Further properties *)

(** ** The shape of a normalized path *)

Section PathShape.
Import JsString Utils.

Fixpoint noDoubleSlash (s : string) : bool :=
  match s with
  | EmptyString => true
  | String c s' => negb (Ascii.eqb c "/" && startsWith "/" s') && noDoubleSlash s'
  end.

(** A path in normal form: it starts with a slash, no slash follows a
    slash, and only the root ends with a slash. *)
Definition normalized (s : string) : Prop :=
  startsWith "/" s = true /\ noDoubleSlash s = true /\
  (endsWith "/" s = true -> s = "/").

Fixpoint endsWithSpace (s : string) : bool :=
  match s with
  | EmptyString => false
  | String c EmptyString => isWhiteSpace c
  | String _ s' => endsWithSpace s'
  end.

Fixpoint noSpace (s : string) : bool :=
  match s with
  | EmptyString => true
  | String c s' => negb (isWhiteSpace c) && noSpace s'
  end.

Lemma startsWith_collapseSlashes (c : ascii) (s : string) :
  startsWith c (collapseSlashes s) = startsWith c s.
Proof.
  induction s as [|d s IH]; [reflexivity|].
  cbn [collapseSlashes]. destruct (Ascii.eqb d "/") eqn:E; simpl.
  - destruct s as [|e s]; [reflexivity|]. cbn [startsWith].
    destruct (Ascii.eqb e "/") eqn:E'.
    + rewrite IH. cbn [startsWith].
      apply Ascii.eqb_eq in E, E'. now subst.
    + reflexivity.
  - reflexivity.
Qed.

Lemma noDoubleSlash_collapseSlashes (s : string) :
  noDoubleSlash (collapseSlashes s) = true.
Proof.
  induction s as [|d s IH]; [reflexivity|].
  cbn [collapseSlashes]. destruct (Ascii.eqb d "/" && startsWith "/" s) eqn:E; [exact IH|].
  cbn [noDoubleSlash]. rewrite startsWith_collapseSlashes, E, IH. reflexivity.
Qed.

Lemma collapseSlashes_fixed (s : string) :
  noDoubleSlash s = true -> collapseSlashes s = s.
Proof.
  induction s as [|d s IH]; [reflexivity|].
  cbn [noDoubleSlash collapseSlashes]. intros H.
  apply andb_true_iff in H as [H1 H2]. apply negb_true_iff in H1.
  rewrite H1, IH; auto.
Qed.

Lemma length_collapseSlashes (s : string) :
  String.length (collapseSlashes s) <= String.length s.
Proof.
  induction s as [|d s IH]; [reflexivity|].
  cbn [collapseSlashes]. destruct (Ascii.eqb d "/" && startsWith "/" s); simpl; lia.
Qed.

Lemma length_dropLast (s : string) :
  String.length (dropLast s) <= String.length s.
Proof.
  induction s as [|d s IH]; [reflexivity|].
  destruct s as [|e s]; [simpl; lia|].
  change (dropLast (String d (String e s))) with (String d (dropLast (String e s))).
  simpl in *. lia.
Qed.

Lemma startsWith_dropLast (c : ascii) (s : string) :
  1 < String.length s -> startsWith c (dropLast s) = startsWith c s.
Proof.
  destruct s as [|d [|e s]]; simpl; try lia. reflexivity.
Qed.

Lemma noDoubleSlash_dropLast (s : string) :
  noDoubleSlash s = true -> noDoubleSlash (dropLast s) = true.
Proof.
  induction s as [|d s IH]; [reflexivity|].
  destruct s as [|e s]; [reflexivity|].
  change (dropLast (String d (String e s))) with (String d (dropLast (String e s))).
  cbn [noDoubleSlash]. intros H.
  apply andb_true_iff in H as [H1 H2].
  rewrite (IH H2), andb_true_r.
  destruct s as [|f s].
  - simpl. now rewrite andb_false_r.
  - exact H1.
Qed.

Lemma endsWith_dropLast (s : string) :
  noDoubleSlash s = true -> endsWith "/" s = true -> endsWith "/" (dropLast s) = false.
Proof.
  induction s as [|d s IH]; [reflexivity|].
  destruct s as [|e s]; [reflexivity|].
  change (dropLast (String d (String e s))) with (String d (dropLast (String e s))).
  intros N E.
  change (endsWith "/" (String e s) = true) in E.
  cbn [noDoubleSlash] in N. apply andb_true_iff in N as [N1 N2].
  destruct s as [|f s].
  - simpl in E. simpl. simpl in N1. rewrite E, andb_true_r in N1.
    now apply negb_true_iff in N1.
  - specialize (IH N2 E).
    change (dropLast (String e (String f s))) with (String e (dropLast (String f s))) in *.
    exact IH.
Qed.

Lemma trimStart_fixed (s : string) : startsWith "/" s = true -> trimStart s = s.
Proof.
  destruct s as [|c s]; [reflexivity|]. simpl. intros E.
  apply Ascii.eqb_eq in E. now subst.
Qed.

Lemma trimEnd_cons (c : ascii) (s : string) :
  trimEnd (String c s)
  = match trimEnd s with
    | EmptyString => if isWhiteSpace c then EmptyString else String c EmptyString
    | r => String c r
    end.
Proof. reflexivity. Qed.

Lemma trimEnd_fixed (s : string) : endsWithSpace s = false -> trimEnd s = s.
Proof.
  induction s as [|c s IH]; [reflexivity|].
  destruct s as [|d s].
  - simpl. now intros ->.
  - intros E. change (endsWithSpace (String d s) = false) in E.
    rewrite trimEnd_cons, (IH E). reflexivity.
Qed.

Lemma length_trimEnd (s : string) : String.length (trimEnd s) <= String.length s.
Proof.
  induction s as [|c s IH]; [reflexivity|].
  cbn [trimEnd]. destruct (trimEnd s); [destruct (isWhiteSpace c)|]; simpl in *; lia.
Qed.

Lemma trimEnd_shorter (s : string) :
  endsWithSpace s = true -> String.length (trimEnd s) < String.length s.
Proof.
  induction s as [|c s IH]; [discriminate|].
  destruct s as [|d s].
  - simpl. intros ->. simpl. lia.
  - intros E. change (endsWithSpace (String d s) = true) in E.
    specialize (IH E). rewrite trimEnd_cons.
    destruct (trimEnd (String d s)); [destruct (isWhiteSpace c)|];
      cbn [String.length] in *; lia.
Qed.

Lemma startsWith_trimEnd (s : string) :
  startsWith "/" s = true -> startsWith "/" (trimEnd s) = true.
Proof.
  destruct s as [|c s]; [discriminate|]. simpl. intros E.
  apply Ascii.eqb_eq in E. subst c.
  destruct (trimEnd s); reflexivity.
Qed.

Lemma noSpace_trimStart (s : string) : noSpace s = true -> trimStart s = s.
Proof.
  destruct s as [|c s]; [reflexivity|]. simpl. intros H.
  apply andb_true_iff in H as [H _]. apply negb_true_iff in H. now rewrite H.
Qed.

Lemma noSpace_endsWithSpace (s : string) : noSpace s = true -> endsWithSpace s = false.
Proof.
  induction s as [|c s IH]; [reflexivity|].
  cbn [noSpace]. intros H. apply andb_true_iff in H as [H1 H2].
  destruct s as [|d s]; [now apply negb_true_iff in H1|].
  exact (IH H2).
Qed.

Lemma noSpace_collapseSlashes (s : string) :
  noSpace s = true -> noSpace (collapseSlashes s) = true.
Proof.
  induction s as [|c s IH]; [reflexivity|].
  cbn [noSpace collapseSlashes]. intros H. apply andb_true_iff in H as [H1 H2].
  destruct (Ascii.eqb c "/" && startsWith "/" s); auto.
  cbn [noSpace]. now rewrite H1, IH.
Qed.

Lemma noSpace_dropLast (s : string) :
  noSpace s = true -> noSpace (dropLast s) = true.
Proof.
  induction s as [|c s IH]; [reflexivity|].
  destruct s as [|d s]; [reflexivity|].
  change (dropLast (String c (String d s))) with (String c (dropLast (String d s))).
  cbn [noSpace]. intros H. apply andb_true_iff in H as [H1 H2].
  rewrite H1. exact (IH H2).
Qed.

(** The four steps of [normalizePath] on a string that is not empty. *)
Definition finish (out : string) : string :=
  let out := if negb (startsWith "/" out) then ("/" ++ out)%string else out in
  let out := collapseSlashes out in
  if (1 <? String.length out)%nat && endsWith "/" out then dropLast out else out.

Lemma normalizePath_finish (p : string) :
  normalizePath p = if negb (truthy p) then "/" else finish (trim p).
Proof. reflexivity. Qed.

Lemma single_slash (s : string) :
  startsWith "/" s = true -> String.length s <= 1 -> s = "/".
Proof.
  destruct s as [|c [|d s]]; simpl; try discriminate; try lia.
  intros E _. apply Ascii.eqb_eq in E. now subst.
Qed.

Lemma finish_normalized (out : string) : normalized (finish out).
Proof.
  unfold finish.
  set (o2 := if negb (startsWith "/" out) then ("/" ++ out)%string else out).
  assert (S2 : startsWith "/" o2 = true).
  { unfold o2. destruct (startsWith "/" out) eqn:E; simpl; auto. }
  set (o3 := collapseSlashes o2).
  assert (S3 : startsWith "/" o3 = true)
    by (unfold o3; now rewrite startsWith_collapseSlashes).
  assert (N3 : noDoubleSlash o3 = true) by apply noDoubleSlash_collapseSlashes.
  destruct (1 <? String.length o3)%nat eqn:L; simpl.
  - apply Nat.ltb_lt in L. destruct (endsWith "/" o3) eqn:E.
    + split; [|split].
      * now rewrite startsWith_dropLast.
      * now apply noDoubleSlash_dropLast.
      * rewrite endsWith_dropLast; auto. discriminate.
    + split; [|split]; auto. rewrite E. discriminate.
  - apply Nat.ltb_ge in L. split; [|split]; auto.
    intros _. now apply single_slash.
Qed.

Lemma normalizePath_normalized (p : string) : normalized (normalizePath p).
Proof.
  rewrite normalizePath_finish. destruct (negb (truthy p)).
  - split; [|split]; reflexivity.
  - apply finish_normalized.
Qed.

Lemma finish_fixed (s : string) : normalized s -> finish s = s.
Proof.
  intros (S & N & E). unfold finish. rewrite S. simpl.
  rewrite (collapseSlashes_fixed _ N).
  destruct (1 <? String.length s)%nat eqn:L; simpl; auto.
  destruct (endsWith "/" s) eqn:E'; auto.
  rewrite (E eq_refl) in L. discriminate.
Qed.

Lemma length_finish (s : string) :
  startsWith "/" s = true -> String.length (finish s) <= String.length s.
Proof.
  intros S. unfold finish. rewrite S. simpl.
  pose proof (length_collapseSlashes s).
  pose proof (length_dropLast (collapseSlashes s)).
  destruct (_ && _); lia.
Qed.

Lemma truthy_startsWith (c : ascii) (s : string) : startsWith c s = true -> truthy s = true.
Proof. destruct s; [discriminate|reflexivity]. Qed.

Lemma noSpace_finish (s : string) : noSpace s = true -> noSpace (finish s) = true.
Proof.
  intros H. unfold finish.
  assert (H2 : noSpace (if negb (startsWith "/" s) then ("/" ++ s)%string else s) = true)
    by (destruct (negb (startsWith "/" s)); auto).
  apply noSpace_collapseSlashes in H2.
  destruct (_ && _); auto using noSpace_dropLast.
Qed.

(** X1. Whatever the input, the path returned by [normalizePath] starts
    with a slash, has no slash after a slash, and ends with a slash
    only when it is the root. *)
Theorem normalizePath_shape (p : string) :
  startsWith "/" (normalizePath p) = true /\
  noDoubleSlash (normalizePath p) = true /\
  (endsWith "/" (normalizePath p) = true -> normalizePath p = "/").
Proof. exact (normalizePath_normalized p). Qed.

Lemma normalizePath_shape_witness : normalizePath " // " = "/".
Proof. apply (normalizePath_shape " // "). reflexivity. Defined.

(** X2. Normalizing a normalized path changes it exactly when it ends
    with white space; in particular [normalizePath] is idempotent on
    every path without white space. *)
Theorem normalizePath_idempotent_iff (p : string) :
  (normalizePath (normalizePath p) = normalizePath p <->
   endsWithSpace (normalizePath p) = false) /\
  (noSpace p = true -> normalizePath (normalizePath p) = normalizePath p).
Proof.
  pose proof (normalizePath_normalized p) as Nm.
  set (r := normalizePath p) in *.
  assert (S : startsWith "/" r = true) by apply Nm.
  assert (Fwd : endsWithSpace r = false -> normalizePath r = r).
  { intros E. rewrite normalizePath_finish, (truthy_startsWith _ _ S). simpl.
    unfold trim. rewrite (trimStart_fixed _ S), (trimEnd_fixed _ E).
    now apply finish_fixed. }
  split; [split; [|exact Fwd]|].
  - intros I. destruct (endsWithSpace r) eqn:E; [exfalso|reflexivity].
    assert (L : String.length (normalizePath r) < String.length r).
    { rewrite normalizePath_finish, (truthy_startsWith _ _ S). simpl.
      unfold trim. rewrite (trimStart_fixed _ S).
      pose proof (trimEnd_shorter _ E).
      pose proof (length_finish _ (startsWith_trimEnd _ S)). lia. }
    rewrite I in L. lia.
  - intros W. apply Fwd. apply noSpace_endsWithSpace.
    unfold r. rewrite normalizePath_finish. destruct (negb (truthy p)); [reflexivity|].
    apply noSpace_finish. unfold trim.
    rewrite (noSpace_trimStart _ W), (trimEnd_fixed _ (noSpace_endsWithSpace _ W)).
    exact W.
Qed.

(** X3. [joinPaths] returns a path in normal form, and the empty path
    and the root are neutral on both sides: joining with them is
    normalizing the other path. *)
Theorem joinPaths_shape_and_neutral (base child : string) :
  (startsWith "/" (joinPaths base child) = true /\
   noDoubleSlash (joinPaths base child) = true /\
   (endsWith "/" (joinPaths base child) = true -> joinPaths base child = "/")) /\
  joinPaths "" child = normalizePath child /\
  joinPaths "/" child = normalizePath child /\
  joinPaths base "" = normalizePath base /\
  joinPaths base "/" = normalizePath base.
Proof.
  assert (O : forall s, normalizePath (orElse s "/") = normalizePath s).
  { intros [|c s]; reflexivity. }
  split; [|split; [|split; [|split]]].
  - unfold joinPaths. destruct (String.eqb _ "/"); [apply normalizePath_normalized|].
    destruct (String.eqb _ "/"); apply normalizePath_normalized.
  - unfold joinPaths. simpl. apply O.
  - unfold joinPaths. simpl. apply O.
  - unfold joinPaths. rewrite O. simpl.
    destruct (String.eqb (normalizePath base) "/") eqn:E; [|reflexivity].
    apply String.eqb_eq in E. now rewrite E.
  - unfold joinPaths. rewrite O. simpl.
    destruct (String.eqb (normalizePath base) "/") eqn:E; [|reflexivity].
    apply String.eqb_eq in E. now rewrite E.
Qed.

Lemma splitOn_cons (sep c : ascii) (s : string) :
  splitOn sep (String c s)
  = if Ascii.eqb c sep then EmptyString :: splitOn sep s
    else match splitOn sep s with
         | piece :: pieces => String c piece :: pieces
         | [] => [String c EmptyString]
         end.
Proof. reflexivity. Qed.

Lemma splitOn_not_nil (sep : ascii) (s : string) : splitOn sep s <> [].
Proof.
  destruct s as [|c s]; [discriminate|]. rewrite splitOn_cons.
  destruct (Ascii.eqb c sep); [discriminate|]. destruct (splitOn sep s); discriminate.
Qed.

(** Joining the pieces of a split with the separator gives the string
    back. *)
Lemma concat_splitOn (sep : ascii) (s : string) :
  String.concat (String sep EmptyString) (splitOn sep s) = s.
Proof.
  induction s as [|c s IH]; [reflexivity|]. rewrite splitOn_cons.
  pose proof (splitOn_not_nil sep s) as NE.
  destruct (Ascii.eqb c sep) eqn:E.
  - apply Ascii.eqb_eq in E. subst c.
    destruct (splitOn sep s) as [|x l]; [contradiction|].
    cbn [String.concat]. cbn [String.concat] in IH. rewrite IH. reflexivity.
  - destruct (splitOn sep s) as [|x l]; [contradiction|].
    destruct l as [|y l]; cbn [String.concat] in *; now rewrite <- IH.
Qed.

Lemma splitOn_pieces (sep : ascii) (s : string) :
  Forall (fun piece => contains sep piece = false) (splitOn sep s).
Proof.
  induction s as [|c s IH]; [repeat constructor|]. rewrite splitOn_cons.
  destruct (Ascii.eqb c sep) eqn:E; [constructor; auto|].
  destruct (splitOn sep s) as [|x l]; [repeat constructor; simpl; now rewrite E|].
  inversion IH; subst. constructor; auto. simpl. now rewrite E.
Qed.

Lemma splitOn_no_empty_piece (u : string) :
  noDoubleSlash u = true -> endsWith "/" u = false ->
  Forall (fun piece => truthy piece = true) (tl (splitOn "/" u)) /\
  (u <> EmptyString -> startsWith "/" u = false ->
   truthy (hd EmptyString (splitOn "/" u)) = true).
Proof.
  induction u as [|c u IH]; [intros _ _; split; [constructor|congruence]|].
  intros N E. cbn [noDoubleSlash] in N. apply andb_true_iff in N as [N1 N2].
  apply negb_true_iff in N1.
  assert (E' : u <> EmptyString -> endsWith "/" u = false).
  { destruct u; [congruence|]. intros _. exact E. }
  rewrite splitOn_cons. destruct (Ascii.eqb c "/") eqn:C.
  - simpl in N1. assert (U : u <> EmptyString).
    { intros ->. simpl in E. congruence. }
    destruct (IH N2 (E' U)) as [T H]. specialize (H U N1).
    split; [|simpl; congruence].
    cbn [tl]. pose proof (splitOn_not_nil "/" u).
    destruct (splitOn "/" u) as [|x l]; [contradiction|]. constructor; auto.
  - assert (T : Forall (fun piece => truthy piece = true) (tl (splitOn "/" u))).
    { destruct u as [|d u]; [constructor|]. apply IH; auto. }
    destruct (splitOn "/" u) as [|x l]; split; auto.
Qed.

Lemma filter_all {A} (f : A -> bool) (l : list A) :
  Forall (fun x => f x = true) l -> filter f l = l.
Proof.
  induction 1 as [|x l H _ IH]; [reflexivity|]. simpl. now rewrite H, IH.
Qed.

(** The segments of a path in normal form. *)
Lemma segments_normalized (s : string) :
  normalized s ->
  Forall (fun seg => truthy seg = true /\ contains "/" seg = false)
    (filter truthy (splitOn "/" s)) /\
  ("/" ++ String.concat "/" (filter truthy (splitOn "/" s)))%string = s.
Proof.
  intros (S & N & E). split.
  - apply Forall_forall. intros seg I. apply filter_In in I as [I T]. split; auto.
    pose proof (splitOn_pieces "/" s) as P. rewrite Forall_forall in P. auto.
  - destruct s as [|c u]; [discriminate|]. simpl in S. apply Ascii.eqb_eq in S. subst c.
    rewrite splitOn_cons. simpl Ascii.eqb. cbn [filter truthy String.eqb negb].
    destruct u as [|d u]; [reflexivity|].
    change (negb (Ascii.eqb "/" "/" && startsWith "/" (String d u))
            && noDoubleSlash (String d u) = true) in N.
    apply andb_true_iff in N as [N1 N2].
    apply negb_true_iff in N1. simpl in N1.
    assert (E2 : endsWith "/" (String d u) = false).
    { destruct (endsWith "/" (String d u)) eqn:X; auto.
      assert (String "/" (String d u) = "/") by (apply E; exact X). discriminate. }
    destruct (splitOn_no_empty_piece _ N2 E2) as [T H].
    assert (H' := H ltac:(discriminate) N1).
    pose proof (splitOn_not_nil "/" (String d u)) as NE.
    pose proof (concat_splitOn "/" (String d u)) as C.
    destruct (splitOn "/" (String d u)) as [|x l]; [contradiction|].
    rewrite filter_all; [|constructor; auto]. simpl. simpl in C. now rewrite C.
Qed.

(** X4. The segments [splitPath] returns are not empty and hold no
    slash, and joined with slashes after a leading slash they give the
    normalized path back. *)
Theorem splitPath_rebuilds (p : string) :
  Forall (fun seg => truthy seg = true /\ contains "/" seg = false) (splitPath p) /\
  ("/" ++ String.concat "/" (splitPath p))%string = normalizePath p.
Proof. apply segments_normalized, normalizePath_normalized. Qed.

Lemma normalizePath_idempotent_iff_witness :
  normalizePath (normalizePath "api//users/") = normalizePath "api//users/".
Proof. apply (normalizePath_idempotent_iff "api//users/"). reflexivity. Defined.

Lemma joinPaths_shape_and_neutral_witness : joinPaths "" "//" = "/".
Proof.
  apply (proj1 (joinPaths_shape_and_neutral "" "//")). reflexivity.
Defined.

End PathShape.

(** ** Path parameters *)

Section PathParams.
Import JsString Utils.

Fixpoint allWord (s : string) : bool :=
  match s with
  | EmptyString => true
  | String c s' => isWordChar c && allWord s'
  end.

Definition startsWord (s : string) : bool :=
  match s with
  | String c _ => isWordChar c
  | EmptyString => false
  end.

(** [t] occurs in [s]. *)
Definition occurs (t s : string) : Prop :=
  exists before after, s = (before ++ t ++ after)%string.

Lemma app_assoc_str (a b c : string) : ((a ++ b) ++ c = a ++ b ++ c)%string.
Proof. induction a as [|x a IH]; simpl; [reflexivity|now rewrite IH]. Qed.

Lemma length_app_str (a b : string) :
  String.length (a ++ b) = String.length a + String.length b.
Proof. induction a as [|x a IH]; simpl; [reflexivity|now rewrite IH]. Qed.

Lemma app_nil_str (a : string) : (a ++ "")%string = a.
Proof. induction a as [|x a IH]; simpl; [reflexivity|now rewrite IH]. Qed.

Lemma contains_app (c : ascii) (a b : string) :
  contains c (a ++ b) = contains c a || contains c b.
Proof.
  induction a as [|x a IH]; simpl; [reflexivity|]. now rewrite IH, orb_assoc.
Qed.

Lemma allWord_contains (c : ascii) (w : string) :
  isWordChar c = false -> allWord w = true -> contains c w = false.
Proof.
  intros C. induction w as [|x w IH]; [reflexivity|]. simpl. intros H.
  apply andb_true_iff in H as [H1 H2]. rewrite (IH H2), orb_false_r.
  destruct (Ascii.eqb x c) eqn:E; auto. apply Ascii.eqb_eq in E. congruence.
Qed.

Lemma takeWord_spec (s : string) :
  s = (fst (takeWord s) ++ snd (takeWord s))%string /\
  allWord (fst (takeWord s)) = true /\ startsWord (snd (takeWord s)) = false.
Proof.
  induction s as [|c s (IH1 & IH2 & IH3)]; [repeat split|].
  cbn [takeWord]. destruct (isWordChar c) eqn:W.
  - destruct (takeWord s) as [w r]. simpl in *. rewrite W. repeat split; auto.
    now rewrite <- IH1.
  - simpl. now rewrite W.
Qed.

Lemma takeWord_app (w r : string) :
  allWord w = true -> startsWord r = false -> takeWord (w ++ r) = (w, r).
Proof.
  intros A S. induction w as [|c w IH]; simpl in *.
  - destruct r as [|d r]; [reflexivity|]. simpl in *. now rewrite S.
  - apply andb_true_iff in A as [A1 A2]. now rewrite A1, (IH A2).
Qed.

(** *** The search of a global pattern *)

Section Search.
Variable attempt : string -> option string.
Variable marker : ascii.

(** A match starts with [marker], which does not occur again in it, and
    is the start of the text it is found in. *)
Hypothesis attempt_spec : forall s m,
  attempt s = Some m ->
  exists m' rest, m = String marker m' /\ contains marker m' = false /\
                  s = (m ++ rest)%string.

Fixpoint clearFor (k : nat) (s : string) : Prop :=
  match k, s with
  | S k', String c s' => c <> marker /\ clearFor k' s'
  | _, _ => True
  end.

Lemma clearFor_app (m' rest : string) :
  contains marker m' = false -> clearFor (String.length m') (m' ++ rest).
Proof.
  induction m' as [|c m' IH]; simpl; [auto|]. intros H.
  apply orb_false_iff in H as [H1 H2]. split; auto.
  intros ->. now rewrite Ascii.eqb_refl in H1.
Qed.

Lemma matchAllFrom_sound (s : string) :
  forall skip m, In m (matchAllFrom attempt skip s) ->
  exists before text, s = (before ++ text)%string /\ attempt text = Some m.
Proof.
  induction s as [|c s IH]; intros skip m I; [destruct I|].
  assert (T : forall k, In m (matchAllFrom attempt k s) ->
              exists before text, String c s = (before ++ text)%string /\
                                  attempt text = Some m).
  { intros k Ik. destruct (IH _ _ Ik) as (b & t & -> & A).
    exists (String c b), t. auto. }
  cbn [matchAllFrom] in I. destruct skip as [|k]; [|eauto].
  destruct (attempt (String c s)) as [m0|] eqn:A; [|eauto].
  destruct I as [<-|I]; [|eauto].
  exists EmptyString, (String c s). auto.
Qed.

Lemma matchAllFrom_complete (before text m : string) :
  attempt text = Some m ->
  forall skip, clearFor skip (before ++ text) ->
  In m (matchAllFrom attempt skip (before ++ text)).
Proof.
  intros A. induction before as [|c before IH]; intros skip C.
  - destruct (attempt_spec _ _ A) as (m' & rest & -> & N & ->).
    simpl in *. destruct skip as [|k]; [|destruct C; congruence].
    rewrite A. now left.
  - simpl in *. destruct skip as [|k]; [|apply IH, C].
    destruct (attempt (String c (before ++ text))) as [m0|] eqn:A0.
    + right. apply IH.
      destruct (attempt_spec _ _ A0) as (m' & rest & -> & N & E).
      simpl in E. injection E as _ E. rewrite E. simpl. rewrite Nat.sub_0_r.
      now apply clearFor_app.
    + apply IH. destruct (before ++ text)%string; exact I.
Qed.

(** The matches are the texts the pattern matches at some position. *)
Lemma matchAll_spec (s m : string) :
  In m (matchAll attempt s) <->
  exists before text, s = (before ++ text)%string /\ attempt text = Some m.
Proof.
  split; [apply matchAllFrom_sound|].
  intros (b & t & -> & A). apply matchAllFrom_complete; auto.
  destruct (b ++ t)%string; exact I.
Qed.

End Search.

Lemma colonParamAt_spec (s m : string) :
  colonParamAt s = Some m <->
  exists w rest, s = (String ":" w ++ rest)%string /\ m = String ":" w /\
                 allWord w = true /\ truthy w = true /\ startsWord rest = false.
Proof.
  split.
  - destruct s as [|c s]; [discriminate|]. cbn [colonParamAt].
    pose proof (takeWord_spec s) as (E & A & S).
    destruct (takeWord s) as [w r]. simpl in *.
    destruct (Ascii.eqb c ":") eqn:C; [|discriminate].
    destruct (truthy w) eqn:T; [|discriminate]. simpl.
    apply Ascii.eqb_eq in C. subst c. intros [= <-].
    exists w, r. rewrite <- E. auto.
  - intros (w & rest & -> & -> & A & T & S). simpl.
    now rewrite (takeWord_app _ _ A S), T.
Qed.

Lemma braceParamAt_spec (s m : string) :
  braceParamAt s = Some m <->
  exists w rest, s = (String "{" (w ++ "}") ++ rest)%string /\
                 m = String "{" (w ++ "}")%string /\
                 allWord w = true /\ truthy w = true.
Proof.
  split.
  - destruct s as [|c s]; [discriminate|]. cbn [braceParamAt].
    pose proof (takeWord_spec s) as (E & A & S).
    destruct (takeWord s) as [w r]. simpl in *.
    destruct (Ascii.eqb c "{") eqn:C; [|discriminate].
    destruct (truthy w) eqn:T; [|discriminate].
    destruct r as [|d r]; [discriminate|]. simpl.
    destruct (Ascii.eqb d "}") eqn:D; [|discriminate].
    apply Ascii.eqb_eq in C, D. subst c d. intros [= <-].
    exists w, r. rewrite E at 1. simpl. rewrite app_assoc_str. auto.
  - intros (w & rest & -> & -> & A & T). simpl. rewrite app_assoc_str.
    rewrite (takeWord_app w ("}" ++ rest) A eq_refl), T. reflexivity.
Qed.

Lemma dropLast_snoc (w : string) (c : ascii) :
  dropLast (w ++ String c "") = w.
Proof.
  induction w as [|x w IH]; [reflexivity|].
  simpl. rewrite IH. destruct w; reflexivity.
Qed.

Lemma colonParamAt_marker (s m : string) :
  colonParamAt s = Some m ->
  exists m' rest, m = String ":" m' /\ contains ":" m' = false /\
                  s = (m ++ rest)%string.
Proof.
  intros H. apply colonParamAt_spec in H as (w & rest & -> & -> & A & _).
  exists w, rest. repeat split; auto. now apply allWord_contains.
Qed.

Lemma braceParamAt_marker (s m : string) :
  braceParamAt s = Some m ->
  exists m' rest, m = String "{" m' /\ contains "{" m' = false /\
                  s = (m ++ rest)%string.
Proof.
  intros H. apply braceParamAt_spec in H as (w & rest & -> & -> & A & _).
  exists (w ++ "}")%string, rest. repeat split; auto.
  rewrite contains_app, (allWord_contains "{" w eq_refl A). reflexivity.
Qed.

Lemma fold_add_In {A} (f : A -> string) (ms : list A) :
  forall (init : JsSet.t) (x : string),
  In x (fold_left (fun params m => JsSet.add (f m) params) ms init) <->
  In x init \/ exists m, In m ms /\ f m = x.
Proof.
  induction ms as [|m ms IH]; intros init x; simpl.
  - split; [auto|]. intros [H|(m & [] & _)]. exact H.
  - rewrite IH, JsSet_add_In. split.
    + intros [[H|H]|(m' & I & E)].
      * right. exists m. auto.
      * now left.
      * right. exists m'. auto.
    + intros [H|(m' & [<-|I] & E)].
      * left. now right.
      * left. now left.
      * right. exists m'. auto.
Qed.

Lemma JsSet_add_NoDup (x : string) (s : JsSet.t) : NoDup s -> NoDup (JsSet.add x s).
Proof.
  intros N. unfold JsSet.add. destruct (JsSet.has x s) eqn:H; auto.
  apply JsSet_has_not_In in H. apply NoDup_app; auto.
  - repeat constructor. intros [].
  - intros y I [<-|[]]. contradiction.
Qed.

Lemma fold_add_NoDup {A} (f : A -> string) (ms : list A) :
  forall init : JsSet.t, NoDup init ->
  NoDup (fold_left (fun params m => JsSet.add (f m) params) ms init).
Proof.
  induction ms as [|m ms IH]; intros init N; simpl; auto using JsSet_add_NoDup.
Qed.

(** The names [extractPathParams] returns. *)
Lemma extractPathParams_In (p name : string) :
  In name (extractPathParams p) <->
  (exists before w rest, p = (before ++ String ":" w ++ rest)%string /\
     allWord w = true /\ truthy w = true /\ startsWord rest = false /\ name = w) \/
  (exists before w rest, p = (before ++ String "{" (w ++ "}") ++ rest)%string /\
     allWord w = true /\ truthy w = true /\ name = w).
Proof.
  unfold extractPathParams. rewrite !fold_add_In. split.
  - intros [[[]|(m & I & E)]|(m & I & E)].
    + left. apply (matchAll_spec _ ":" colonParamAt_marker) in I as (b & t & -> & H).
      apply colonParamAt_spec in H as (w & rest & -> & -> & A & T & S).
      exists b, w, rest. simpl in E. auto.
    + right. apply (matchAll_spec _ "{" braceParamAt_marker) in I as (b & t & -> & H).
      apply braceParamAt_spec in H as (w & rest & -> & -> & A & T).
      exists b, w, rest. simpl in E. rewrite dropLast_snoc in E. auto.
  - intros [(b & w & rest & -> & A & T & S & ->)|(b & w & rest & -> & A & T & ->)].
    + left. right. exists (String ":" w). split; [|reflexivity].
      apply (matchAll_spec _ ":" colonParamAt_marker).
      exists b, (String ":" w ++ rest)%string. split; [reflexivity|].
      apply colonParamAt_spec. exists w, rest. auto.
    + right. exists (String "{" (w ++ "}"))%string. split; [|simpl; apply dropLast_snoc].
      apply (matchAll_spec _ "{" braceParamAt_marker).
      exists b, (String "{" (w ++ "}") ++ rest)%string. split; [reflexivity|].
      apply braceParamAt_spec. exists w, rest. auto.
Qed.

(** X5. [extractPathParams] returns each name once, and the names are
    exactly the words that follow a colon in the path, taken as far as
    they go, and the words between a pair of braces; a word being a run
    of letters, digits and underscores that is not empty. *)
Theorem extractPathParams_names (p : string) :
  NoDup (extractPathParams p) /\
  (forall name, In name (extractPathParams p) ->
     allWord name = true /\ truthy name = true /\
     (occurs (":" ++ name) p \/ occurs ("{" ++ name ++ "}") p)) /\
  (forall before w rest,
     p = (before ++ ":" ++ w ++ rest)%string ->
     allWord w = true -> truthy w = true -> startsWord rest = false ->
     In w (extractPathParams p)) /\
  (forall before w rest,
     p = (before ++ "{" ++ w ++ "}" ++ rest)%string ->
     allWord w = true -> truthy w = true ->
     In w (extractPathParams p)).
Proof.
  split; [|split; [|split]].
  - unfold extractPathParams. apply fold_add_NoDup, fold_add_NoDup. constructor.
  - intros name I. apply extractPathParams_In in I
      as [(b & w & rest & -> & A & T & S & ->)|(b & w & rest & -> & A & T & ->)].
    + repeat split; auto. left. exists b, rest. reflexivity.
    + repeat split; auto. right. exists b, rest. simpl. now rewrite app_assoc_str.
  - intros b w rest -> A T S. apply extractPathParams_In. left.
    exists b, w, rest. auto.
  - intros b w rest -> A T. apply extractPathParams_In. right.
    exists b, w, rest. simpl. rewrite app_assoc_str. auto.
Qed.

(** *** Placeholders in braces *)

Definition colonOf (m : string) : string := String ":" (dropLast (dropFirst m)).

(** No placeholder in braces starts anywhere in the text. *)
Fixpoint clean (s : string) : bool :=
  match s with
  | EmptyString => true
  | String _ s' =>
      match braceParamAt s with
      | Some _ => false
      | None => clean s'
      end
  end.

Lemma replaceAllFrom_skip (f : string -> string) (x rest : string) :
  replaceAllFrom braceParamAt f (String.length x) (x ++ rest)
  = replaceAllFrom braceParamAt f 0 rest.
Proof. induction x as [|c x IH]; [reflexivity|exact IH]. Qed.

Lemma matchAllFrom_skip (x rest : string) :
  matchAllFrom braceParamAt (String.length x) (x ++ rest)
  = matchAllFrom braceParamAt 0 rest.
Proof. induction x as [|c x IH]; [reflexivity|exact IH]. Qed.

Lemma toPostmanPath_match (w rest : string) :
  allWord w = true -> truthy w = true ->
  toPostmanPath (String "{" (w ++ "}") ++ rest)
  = (String ":" w ++ toPostmanPath rest)%string.
Proof.
  intros A T. unfold toPostmanPath, replaceAll.
  assert (B : braceParamAt (String "{" (w ++ "}") ++ rest)
              = Some (String "{" (w ++ "}"))%string).
  { apply braceParamAt_spec. exists w, rest. auto. }
  change (String "{" (w ++ "}") ++ rest)%string
    with (String "{" ((w ++ "}") ++ rest))%string in *.
  cbn [replaceAllFrom]. rewrite B.
  cbn [String.length Nat.sub]. rewrite Nat.sub_0_r, replaceAllFrom_skip.
  cbn [dropFirst]. now rewrite dropLast_snoc.
Qed.

Lemma toPostmanPath_other (c : ascii) (s : string) :
  braceParamAt (String c s) = None ->
  toPostmanPath (String c s) = String c (toPostmanPath s).
Proof.
  intros B. unfold toPostmanPath, replaceAll. cbn [replaceAllFrom]. now rewrite B.
Qed.

Lemma braceParamAt_not_brace (c : ascii) (s : string) :
  Ascii.eqb c "{" = false -> braceParamAt (String c s) = None.
Proof.
  intros C. cbn [braceParamAt]. destruct (takeWord s). now rewrite C.
Qed.

Lemma toPostmanPath_word (w rest : string) :
  allWord w = true -> toPostmanPath (w ++ rest) = (w ++ toPostmanPath rest)%string.
Proof.
  induction w as [|c w IH]; [reflexivity|]. simpl. intros A.
  apply andb_true_iff in A as [A1 A2].
  rewrite toPostmanPath_other, (IH A2); [reflexivity|].
  apply braceParamAt_not_brace.
  destruct (Ascii.eqb c "{") eqn:E; auto. apply Ascii.eqb_eq in E. now subst.
Qed.

(** The text [toPostmanPath] returns starts as its argument does, but
    for a colon in place of an opening brace. *)
Lemma toPostmanPath_head (s : string) :
  match s with
  | EmptyString => toPostmanPath s = EmptyString
  | String c _ =>
      exists c' t, toPostmanPath s = String c' t /\
                   (c' = c \/ (c = "{" /\ c' = ":"))%char
  end.
Proof.
  destruct s as [|c s]; [reflexivity|].
  destruct (braceParamAt (String c s)) as [m|] eqn:B.
  - apply braceParamAt_spec in B as (w & rest & E & -> & A & T).
    rewrite E, toPostmanPath_match by auto.
    injection E as -> _. simpl. exists ":"%char, (w ++ toPostmanPath rest)%string.
    split; [reflexivity|]. right. now split.
  - rewrite toPostmanPath_other by auto. exists c, (toPostmanPath s). auto.
Qed.

Lemma toPostmanPath_after_word (r : string) :
  startsWord r = false ->
  startsWord (toPostmanPath r) = false /\
  startsWith "}" (toPostmanPath r) = startsWith "}" r.
Proof.
  intros S. pose proof (toPostmanPath_head r) as H.
  destruct r as [|c r]; [now rewrite H|].
  destruct H as (c' & t & -> & [->|[-> ->]]); simpl in *; auto.
Qed.

Lemma clean_word (w rest : string) :
  allWord w = true -> clean (w ++ rest) = clean rest.
Proof.
  induction w as [|c w IH]; [reflexivity|]. intros A.
  simpl in A. apply andb_true_iff in A as [A1 A2].
  change (String c w ++ rest)%string with (String c (w ++ rest)).
  cbn [clean]. rewrite braceParamAt_not_brace, (IH A2); [reflexivity|].
  destruct (Ascii.eqb c "{") eqn:E; auto. apply Ascii.eqb_eq in E. now subst.
Qed.

Lemma braceParamAt_toPostmanPath (c : ascii) (s : string) :
  braceParamAt (String c s) = None ->
  braceParamAt (String c (toPostmanPath s)) = None.
Proof.
  intros B. destruct (Ascii.eqb c "{") eqn:C; [|now apply braceParamAt_not_brace].
  cbn [braceParamAt] in *. pose proof (takeWord_spec s) as (E & A & S).
  destruct (takeWord s) as [w r]. simpl in E, A, S. rewrite C in B.
  rewrite E, (toPostmanPath_word _ _ A).
  destruct (toPostmanPath_after_word r S) as [S' K].
  rewrite (takeWord_app _ _ A S'), C, K. exact B.
Qed.

Lemma toPostmanPath_clean_upto (n : nat) :
  forall s, String.length s <= n -> clean (toPostmanPath s) = true.
Proof.
  induction n as [|n IH]; intros s L.
  - destruct s; [reflexivity|simpl in L; lia].
  - destruct s as [|c s]; [reflexivity|].
    destruct (braceParamAt (String c s)) as [m|] eqn:B.
    + apply braceParamAt_spec in B as (w & rest & E & -> & A & T).
      rewrite E, toPostmanPath_match by auto.
      change (String ":" w ++ toPostmanPath rest)%string
        with (String ":" (w ++ toPostmanPath rest))%string.
      cbn [clean]. rewrite braceParamAt_not_brace by reflexivity.
      rewrite clean_word by auto. apply IH.
      apply (f_equal String.length) in E. simpl in E, L.
      rewrite !length_app_str in E. lia.
    + rewrite toPostmanPath_other by auto. cbn [clean].
      rewrite (braceParamAt_toPostmanPath _ _ B). apply IH. simpl in L. lia.
Qed.

Lemma clean_fixed (s : string) : clean s = true -> toPostmanPath s = s.
Proof.
  induction s as [|c s IH]; [reflexivity|]. cbn [clean].
  destruct (braceParamAt (String c s)) eqn:B; [discriminate|]. intros C.
  rewrite toPostmanPath_other, (IH C); auto.
Qed.

Lemma clean_no_match (s : string) : clean s = true -> matchAll braceParamAt s = [].
Proof.
  unfold matchAll. induction s as [|c s IH]; [reflexivity|]. cbn [clean matchAllFrom].
  destruct (braceParamAt (String c s)) eqn:B; [discriminate|]. exact IH.
Qed.

Lemma clean_no_brace (s : string) : contains "{" s = false -> clean s = true.
Proof.
  induction s as [|c s IH]; [reflexivity|]. simpl contains. intros H.
  apply orb_false_iff in H as [H1 H2]. cbn [clean].
  rewrite braceParamAt_not_brace; auto.
Qed.

(** X6. [toPostmanPath] leaves no placeholder in braces, so that
    converting twice is converting once, and it leaves a path without
    an opening brace as it is. *)
Theorem toPostmanPath_idempotent (p : string) :
  matchAll braceParamAt (toPostmanPath p) = [] /\
  toPostmanPath (toPostmanPath p) = toPostmanPath p /\
  (contains "{" p = false -> toPostmanPath p = p).
Proof.
  pose proof (toPostmanPath_clean_upto _ p (le_n _)) as C.
  split; [|split].
  - now apply clean_no_match.
  - now apply clean_fixed.
  - intros H. now apply clean_fixed, clean_no_brace.
Qed.

Lemma extractPathParams_names_witness :
  In "id" (extractPathParams "/users/:id/posts") /\
  In "post_id" (extractPathParams "/posts/{post_id}").
Proof.
  split.
  - apply (proj1 (proj2 (proj2 (extractPathParams_names "/users/:id/posts")))
             "/users/" "id" "/posts"); reflexivity.
  - apply (proj2 (proj2 (proj2 (extractPathParams_names "/posts/{post_id}")))
             "/posts/" "post_id" ""); reflexivity.
Defined.

Lemma toPostmanPath_idempotent_witness : toPostmanPath "/users/:id" = "/users/:id".
Proof. apply (toPostmanPath_idempotent "/users/:id"). reflexivity. Defined.

End PathParams.

(** ** The schemas of the schema-builder resolver *)

Section ZodShape.
Import Ast Zod.

(** The longest chain of nested schemas below a schema. *)
Fixpoint height (s : schema) : nat :=
  match s with
  | Schema _ props _ its _ _ =>
      Nat.max
        (match props with
         | Some ps =>
             (fix deepest (l : list (string * schema)) : nat :=
                match l with
                | [] => 0
                | (_, v) :: l' => Nat.max (S (height v)) (deepest l')
                end) ps
         | None => 0
         end)
        (match its with
         | Some it => S (height it)
         | None => 0
         end)
  end.

(** A schema of one of the five types, with [items] on an array and
    only there, [properties] on an object only, and a [required] list
    that is not empty on an object with properties only; and so for the
    schemas below it. *)
Inductive shaped : schema -> Prop :=
| shaped_intro ty props req its ex opt :
    In ty ["string"; "number"; "boolean"; "object"; "array"] ->
    (forall ps, props = Some ps ->
       ty = "object" /\ Forall (fun entry => shaped (snd entry)) ps) ->
    (forall it, its = Some it -> ty = "array" /\ shaped it) ->
    (ty = "array" -> its <> None) ->
    (forall r, req = Some r -> r <> [] /\ props <> None) ->
    shaped (Schema ty props req its ex opt).

(** What holds of every schema the resolver returns at a depth, when it
    holds of the schemas the resolver builds from schemas of which it
    holds one level deeper. *)
Section Invariant.
Variable P : nat -> schema -> Prop.
Hypothesis P_leaf : forall depth ty,
  In ty ["string"; "number"; "boolean"; "object"] -> P depth (ofType ty).
Hypothesis P_object : forall depth ps req,
  depth <= 10 -> Forall (fun entry => P (depth + 1) (snd entry)) ps ->
  P depth (Schema "object" (Some ps)
             (match req with [] => None | _ => Some req end) None None false).
Hypothesis P_array : forall depth it,
  depth <= 10 -> P (depth + 1) it ->
  P depth (Schema "array" None None (Some it) None false).
Hypothesis P_example : forall depth v s, P depth s -> P depth (withExample v s).
Hypothesis P_optional : forall depth s, P depth s -> P depth (withOptional s).
Hypothesis P_up : forall depth s, depth <= 10 -> P (depth + 1) s -> P depth s.

Lemma objectProperties_all (resolve : expr -> option schema) (Q : schema -> Prop) :
  (forall v s, resolve v = Some s -> Q s) ->
  forall props properties required properties' required',
  Forall (fun entry => Q (snd entry)) properties ->
  objectProperties resolve props properties required = Some (properties', required') ->
  Forall (fun entry => Q (snd entry)) properties'.
Proof.
  intros R props. induction props as [|p props IH];
    intros properties required properties' required' F H; simpl in H.
  - now injection H as <- _.
  - destruct p as [k v|]; [|eapply IH; eauto].
    destruct (getPropertyName k) as [name|]; [|eapply IH; eauto].
    destruct (negb (JsString.truthy name)); [eapply IH; eauto|].
    destruct (resolve v) as [s|] eqn:E; [|discriminate].
    eapply IH; [|exact H].
    apply (JsObject_set_Forall (fun x => Q x)); auto. eapply R; eauto.
Qed.

Lemma resolveZodSchemaFuel_invariant (fuel : nat) :
  forall node schemaDefs depth s,
  resolveZodSchemaFuel fuel node schemaDefs depth = Some s -> P depth s.
Proof.
  induction fuel as [|fuel IH]; intros node defs depth s H; [discriminate|].
  cbn [resolveZodSchemaFuel] in H.
  assert (Str : P depth (ofType "string")) by (apply P_leaf; simpl; auto).
  destruct node as [node|]; [|now injection H as <-].
  destruct (10 <? depth)%nat eqn:D; [now injection H as <-|].
  apply Nat.ltb_ge in D.
  assert (Up : forall n, resolveZodSchemaFuel fuel n defs (depth + 1) = Some s -> P depth s).
  { intros n Hn. apply P_up; auto. eapply IH; eauto. }
  assert (Leaf : forall ty, In ty ["string"; "number"; "boolean"; "object"] ->
                 Some (ofType ty) = Some s -> P depth s).
  { intros ty I [= <-]. now apply P_leaf. }
  destruct node; try (now injection H as <-).
  - destruct (JsMap.get name defs); [eauto|]. eapply Leaf; [|exact H]. simpl; auto.
  - destruct node; try (now injection H as <-).
    destruct (isName (nameOf node2) "string"); [eapply Leaf; [|exact H]; simpl; auto|].
    destruct (isName (nameOf node2) "number"); [eapply Leaf; [|exact H]; simpl; auto|].
    destruct (isName (nameOf node2) "boolean"); [eapply Leaf; [|exact H]; simpl; auto 6|].
    destruct (isName (nameOf node2) "object").
    { destruct (hd_error arguments) as [[]|];
        try (eapply Leaf; [|exact H]; simpl; now auto 6).
      destruct (objectProperties _ properties0 JsObject.empty []) as [[ps rq]|] eqn:E;
        [|discriminate].
      injection H as <-. apply P_object; auto.
      eapply (objectProperties_all _ (P (depth + 1))); [|constructor|exact E].
      intros v s' Hv. exact (IH _ _ _ _ Hv). }
    destruct (isName (nameOf node2) "array").
    { destruct (resolveZodSchemaFuel fuel (hd_error arguments) defs (depth + 1)) eqn:E;
        [|discriminate].
      injection H as <-. apply P_array; eauto. }
    destruct (isName (nameOf node2) "openapi").
    { destruct (resolveZodSchemaFuel fuel (Some node1) defs (depth + 1)) eqn:E;
        [|discriminate].
      assert (Pb : P depth s0) by (apply P_up; eauto).
      destruct (getObjectProperty (hd_error arguments) "example");
        [|now injection H as <-].
      destruct (literalOf e); injection H as <-; auto. }
    destruct (isName (nameOf node2) "optional").
    { destruct (resolveZodSchemaFuel fuel (Some node1) defs (depth + 1)) eqn:E;
        [|discriminate].
      injection H as <-. apply P_optional, P_up; eauto. }
    eauto.
  - destruct (isName (nameOf node2) "string"); [eapply Leaf; [|exact H]; simpl; auto|].
    destruct (isName (nameOf node2) "number"); [eapply Leaf; [|exact H]; simpl; auto|].
    destruct (isName (nameOf node2) "boolean"); [eapply Leaf; [|exact H]; simpl; auto 6|].
    eauto.
Qed.

Lemma resolveZodSchema_invariant node schemaDefs depth :
  P depth (resolveZodSchema node schemaDefs depth).
Proof.
  eapply resolveZodSchemaFuel_invariant.
  apply (resolveZodSchema_returns (S (11 - depth))); lia.
Qed.

End Invariant.

Lemma deepest_le (n : nat) (ps : list (string * schema)) :
  Forall (fun entry => S (height (snd entry)) <= n) ps ->
  (fix deepest (l : list (string * schema)) : nat :=
     match l with
     | [] => 0
     | (_, v) :: l' => Nat.max (S (height v)) (deepest l')
     end) ps <= n.
Proof.
  induction 1 as [|[k v] l H _ IH]; [lia|]. simpl in H. lia.
Qed.

(** X7. Whatever the expression and the definitions, the schema
    [resolveZodSchema] returns has one of the types string, number,
    boolean, object and array at every level, an array has [items] and
    nothing else has, only an object has [properties], and a [required]
    list is never empty. *)
Theorem resolveZodSchema_shaped (node : option expr) (schemaDefs : JsMap.t expr)
    (depth : nat) :
  shaped (resolveZodSchema node schemaDefs depth).
Proof.
  apply (resolveZodSchema_invariant (fun _ s => shaped s)).
  - intros _ ty I. constructor; try discriminate.
    + simpl in *. intuition.
    + intros ->. simpl in I. intuition discriminate.
  - intros d ps req _ F. constructor; try discriminate.
    + simpl. auto.
    + intros ps' [= <-]. auto.
    + intros r. destruct req; [discriminate|]. intros [= <-]. split; discriminate.
  - intros d it _ F. constructor; try discriminate.
    + simpl. auto 6.
    + intros it' [= <-]. auto.
  - intros _ v [ty props req its ex opt] S. inversion S; subst. now constructor.
  - intros _ [ty props req its ex opt] S. inversion S; subst. now constructor.
  - auto.
Qed.

(** X8. Whatever the expression and the definitions, cyclic ones
    included, the schema [resolveZodSchema] returns at a depth is
    nested at most [11 - depth] levels deep: at most 11 levels for a
    call from outside. *)
Theorem resolveZodSchema_height (node : option expr) (schemaDefs : JsMap.t expr)
    (depth : nat) :
  height (resolveZodSchema node schemaDefs depth) <= 11 - depth.
Proof.
  apply (resolveZodSchema_invariant (fun d s => height s <= 11 - d)).
  - intros d ty _. simpl. lia.
  - intros d ps req D F. cbn [height]. rewrite Nat.max_0_r. apply deepest_le.
    eapply Forall_impl; [|exact F]. intros entry H. cbv beta in H. lia.
  - intros d it D H. cbn [height]. lia.
  - intros d v [ty props req its ex opt] H. exact H.
  - intros d [ty props req its ex opt] H. exact H.
  - intros d s D H. lia.
Qed.

End ZodShape.

(** ** Router identifiers *)

Section RouterIds.
Import JsString Hono.

Lemma routerId_cut (v1 f2 v2 : string) :
  contains ":" v1 = false ->
  ("::" ++ v1)%string = (f2 ++ "::" ++ v2)%string -> f2 = EmptyString /\ v1 = v2.
Proof.
  intros C E. destruct f2 as [|c [|d f2]]; simpl in E.
  - injection E as E. auto.
  - injection E as _ E. subst v1. discriminate.
  - injection E as _ _ E. subst v1. rewrite contains_app in C.
    simpl in C. now rewrite orb_true_r in C.
Qed.

(** X9. A router identifier determines the file and the variable: two
    routers share an identifier only if they are the same variable of
    the same file.  (A variable name holds no colon.) *)
Theorem routerId_injective (f1 v1 f2 v2 : string) :
  contains ":" v1 = false -> contains ":" v2 = false ->
  routerId f1 v1 = routerId f2 v2 -> f1 = f2 /\ v1 = v2.
Proof.
  unfold routerId. intros C1 C2. revert f2.
  induction f1 as [|c f1 IH]; intros f2 E.
  - destruct (routerId_cut _ _ _ C1 E) as [-> ->]. auto.
  - destruct f2 as [|d f2].
    + symmetry in E. destruct (routerId_cut _ _ _ C2 E). discriminate.
    + simpl in E. injection E as -> E. destruct (IH _ E) as [-> ->]. auto.
Qed.

Lemma routerId_injective_witness :
  routerId "/app/a.ts" "api" = routerId "/app/a.ts" "api" /\
  "/app/a.ts" = "/app/a.ts" /\ "api" = "api".
Proof.
  split; [reflexivity|].
  apply (routerId_injective "/app/a.ts" "api" "/app/a.ts" "api");
    reflexivity.
Defined.

End RouterIds.

(** ** The traversal of the router graph *)

Section Traversal.
Import Model Hono Trace.

Variable routers : JsMap.t routerNode.
Variable edges : JsMap.t (list edge).

(** The prefix under which the traversal reaches the child of an edge
    from a router reached under [prefix]. *)
Definition childPrefix (router : routerNode) (prefix : string) (e : edge) : string :=
  Utils.joinPaths
    (Utils.joinPaths prefix (JsString.orElse (rn_basePath router) ""))
    (ed_prefix e).

(** The pairs of a router and a prefix that the mounts lead to from the
    start set. *)
Inductive reachable (start : list string) : string -> string -> Prop :=
| reachable_start id : In id start -> reachable start id ""
| reachable_edge id prefix router children e :
    reachable start id prefix ->
    JsMap.get id routers = Some router ->
    JsMap.get id edges = Some children -> In e children ->
    reachable start (ed_childId e) (childPrefix router prefix e).

Definition pairs_dec (x y : string * string) : {x = y} + {x <> y}.
Proof. decide equality; apply string_dec. Defined.

Lemma enqueue_spec (b : bfs) (id p : string) :
  (forall id' p', recorded (prefixesByRouter (enqueue b id p)) id' p' <->
                  recorded (prefixesByRouter b) id' p' \/ (id', p') = (id, p)) /\
  (forall x, In x (queue (enqueue b id p)) <->
             In x (queue b) \/ (x = (id, p) /\ ~ recorded (prefixesByRouter b) id p)).
Proof.
  destruct (enqueue_cases b id p) as [[R ->]|[R ->]].
  - split.
    + intros id' p'. split; [auto|]. intros [H|[= -> ->]]; auto.
    + intros x. split; [auto|]. intros [H|[_ H]]; [auto|contradiction].
  - cbn [queue prefixesByRouter]. split.
    + intros id' p'. unfold recorded.
      destruct (String.eqb id' id) eqn:E.
      * apply String.eqb_eq in E. subst id'. rewrite JsMap_get_set_same. split.
        -- intros (set & [= <-] & I). apply in_app_iff in I as [I|[<-|[]]]; [|auto].
           left. destruct (JsMap.get id (prefixesByRouter b)) as [s|]; [eauto|destruct I].
        -- intros [(set & G & I)|[= ->]].
           ++ rewrite G. eexists. split; [reflexivity|]. apply in_app_iff. auto.
           ++ eexists. split; [reflexivity|]. apply in_app_iff. right. now left.
      * apply String.eqb_neq in E. rewrite JsMap_get_set_other by auto. split; [auto|].
        intros [H|[= -> _]]; [auto|congruence].
    + intros x. rewrite in_app_iff. simpl. split.
      * intros [H|[<-|[]]]; auto.
      * intros [H|[-> _]]; auto.
Qed.

Lemma enqueueAll_spec (pairs : list (string * string)) :
  forall b,
  (forall id p, recorded (prefixesByRouter (enqueueAll pairs b)) id p <->
                recorded (prefixesByRouter b) id p \/ In (id, p) pairs) /\
  (forall x, In x (queue (enqueueAll pairs b)) <->
             In x (queue b) \/ (In x pairs /\ ~ recorded (prefixesByRouter b) (fst x) (snd x))).
Proof.
  induction pairs as [|[id0 p0] pairs IH]; intros b.
  - simpl. split; intros; tauto.
  - change (enqueueAll ((id0, p0) :: pairs) b) with (enqueueAll pairs (enqueue b id0 p0)).
    destruct (IH (enqueue b id0 p0)) as [R Q].
    destruct (enqueue_spec b id0 p0) as [R0 Q0]. split.
    + intros id p. rewrite R, R0. simpl. intuition congruence.
    + intros x. rewrite Q, Q0. destruct x as [id p]. simpl. rewrite R0.
      destruct (pairs_dec (id, p) (id0, p0)) as [E|E].
      * injection E as -> ->. tauto.
      * split.
        -- intros [[H|[H _]]|[H1 H2]]; [auto|congruence|]. right. split; auto.
        -- intros [H|[[H|H] H2]]; [auto|congruence|].
           right. split; auto. intros [H3|H3]; [auto|congruence].
Qed.

(** The state of the loop between two turns: what is in the queue is
    recorded, what is recorded is reachable, and a recorded pair is in
    the queue unless the children of its router are recorded. *)
Definition expanded (prefixes : JsMap.t JsSet.t) (id prefix : string) : Prop :=
  forall router children e,
    JsMap.get id routers = Some router ->
    JsMap.get id edges = Some children -> In e children ->
    recorded prefixes (ed_childId e) (childPrefix router prefix e).

Record sweeping (start : list string) (b : bfs) : Prop := {
  sw_queue : forall id p, In (id, p) (queue b) -> recorded (prefixesByRouter b) id p;
  sw_sound : forall id p, recorded (prefixesByRouter b) id p -> reachable start id p;
  sw_done : forall id p, recorded (prefixesByRouter b) id p ->
              In (id, p) (queue b) \/ expanded (prefixesByRouter b) id p;
  sw_start : forall id, In id start -> recorded (prefixesByRouter b) id ""
}.

Lemma recorded_empty (id p : string) : ~ recorded JsMap.empty id p.
Proof. intros (s & E & _). discriminate. Qed.

Lemma sweeping_seed (start : list string) : sweeping start (seed start).
Proof.
  rewrite seed_enqueueAll.
  destruct (enqueueAll_spec (map (fun id => (id, "")) start)
              {| queue := []; prefixesByRouter := JsMap.empty |}) as [R Q].
  cbn [queue prefixesByRouter] in R, Q.
  assert (M : forall id p, In (id, p) (map (fun id => (id, "")) start) <->
                           p = "" /\ In id start).
  { intros id p. rewrite in_map_iff. split.
    - intros (x & [= <- <-] & I). auto.
    - intros [-> I]. eauto. }
  split.
  - intros id p I. apply R. apply Q in I as [[]|[I _]]. auto.
  - intros id p H. apply R in H as [H|H]; [now apply recorded_empty in H|].
    apply M in H as [-> H]. now constructor.
  - intros id p H. left. apply Q. right. apply R in H as [H|H];
      [now apply recorded_empty in H|]. split; auto. apply recorded_empty.
  - intros id I. apply R. right. apply M. auto.
Qed.

Lemma sweeping_step (start : list string) (b : bfs) :
  sweeping start b -> sweeping start (bfsStep routers edges b).
Proof.
  intros [Sq Ss Sd St]. unfold bfsStep.
  destruct (queue b) as [|[id prefix] rest] eqn:Q; [split; rewrite ?Q; auto|].
  destruct (JsMap.get id routers) as [router|] eqn:G.
  - rewrite visitEdges_enqueueAll.
    set (children := match JsMap.get id edges with Some l => l | None => [] end).
    set (pairs := map _ children).
    destruct (enqueueAll_spec pairs {| queue := rest; prefixesByRouter := prefixesByRouter b |})
      as [R Qs].
    cbn [queue prefixesByRouter] in R, Qs.
    assert (P : forall id' p', In (id', p') pairs ->
                exists children' e, JsMap.get id edges = Some children' /\ In e children' /\
                  id' = ed_childId e /\ p' = childPrefix router prefix e).
    { intros id' p' I. apply in_map_iff in I as (e & [= <- <-] & I).
      unfold children in I. destruct (JsMap.get id edges) as [l|]; [|destruct I].
      exists l, e. auto. }
    assert (Head : recorded (prefixesByRouter b) id prefix) by (apply Sq; now left).
    split.
    + intros id' p' I. apply R. apply Qs in I as [I|[I _]]; auto.
      left. apply Sq. now right.
    + intros id' p' H. apply R in H as [H|H]; auto.
      destruct (P _ _ H) as (l & e & Ge & Ie & -> & ->).
      eapply reachable_edge; eauto.
    + intros id' p' H.
      assert (Keep : forall i q, expanded (prefixesByRouter b) i q ->
                     expanded (prefixesByRouter (enqueueAll pairs
                       {| queue := rest; prefixesByRouter := prefixesByRouter b |})) i q).
      { intros i q X r l e Gr Ge Ie. apply R. left. eapply X; eauto. }
      assert (Now : expanded (prefixesByRouter (enqueueAll pairs
                       {| queue := rest; prefixesByRouter := prefixesByRouter b |}))
                      id prefix).
      { intros r l e Gr Ge Ie. apply R. right. rewrite G in Gr. injection Gr as <-.
        unfold pairs, children. rewrite Ge.
        apply in_map_iff. exists e. auto. }
      apply R in H as [H|H].
      * destruct (Sd _ _ H) as [[E|I]|X]; auto.
        -- injection E as <- <-. auto.
        -- left. apply Qs. auto.
      * destruct (pairs_dec (id', p') (id, prefix)) as [E|E];
          [injection E as -> ->; auto|].
        assert (D : {recorded (prefixesByRouter b) id' p'} + {~ recorded (prefixesByRouter b) id' p'}).
        { unfold recorded. destruct (JsMap.get id' (prefixesByRouter b)) as [s|].
          - destruct (in_dec string_dec p' s) as [I|I]; [left; eauto|].
            right. intros (s' & [= <-] & I'). contradiction.
          - right. intros (s' & E' & _). discriminate. }
        destruct D as [D|D].
        -- destruct (Sd _ _ D) as [[E'|I]|X]; auto; [congruence|].
           left. apply Qs. auto.
        -- left. apply Qs. right. auto.
    + intros i I. apply R. left. auto.
  - split; cbn [queue prefixesByRouter].
    + intros id' p' I. apply Sq. now right.
    + exact Ss.
    + intros id' p' H. destruct (Sd _ _ H) as [[E|I]|X]; auto.
      injection E as <- <-. right. intros r l e Gr. congruence.
    + exact St.
Qed.

Lemma sweeping_after (start : list string) (n : nat) :
  forall b, sweeping start b -> sweeping start (after routers edges n b).
Proof.
  induction n as [|n IH]; intros b S; [exact S|].
  rewrite after_succ. apply IH. now apply sweeping_step.
Qed.

(** X10. When the traversal ends, the prefixes it has recorded for a
    router are exactly those under which the mounts lead to the router
    from the start set: every start router under the empty prefix, and
    the child of an edge under the prefix of its parent joined with the
    parent's base path and the edge's prefix. *)
Theorem bfs_records_the_reachable
    (start : list string) (fuel : nat) (b : bfs) (id prefix : string) :
  bfsLoop fuel routers edges (seed start) = Some b ->
  (recorded (prefixesByRouter b) id prefix <-> reachable start id prefix).
Proof.
  intros H. destruct (bfsLoop_after _ _ _ _ _ H) as (n & _ & -> & Q).
  pose proof (sweeping_after start n _ (sweeping_seed start)) as [Sq Ss Sd St].
  split; [apply Ss|].
  induction 1 as [i I|i p r l e _ IH Gr Ge Ie]; [auto|].
  destruct (Sd _ _ IH) as [I|X]; [rewrite Q in I; destruct I|].
  eapply X; eauto.
Qed.

End Traversal.

(** *** Mounts without a cycle *)

Section Acyclic.
Import Model Hono Trace.

Variable routers : JsMap.t routerNode.
Variable edges : JsMap.t (list edge).

(** A rank that goes down along every edge: there is one exactly when
    the mounts have no cycle. *)
Variable rank : string -> nat.
Hypothesis rank_down : forall id children e,
  JsMap.get id edges = Some children -> In e children -> rank (ed_childId e) < rank id.

(** The most edges a router has. *)
Definition degree : nat := list_max (map (fun entry => List.length (snd entry)) edges).

(** A bound on the turns of the loop that one entry of the queue
    causes, by the rank of its router. *)
Fixpoint weight (n : nat) : nat :=
  match n with
  | O => 1
  | S n' => 1 + degree * weight n'
  end.

Definition load (q : list (string * string)) : nat :=
  list_sum (map (fun entry => weight (rank (fst entry))) q).

Lemma weight_pos (n : nat) : 1 <= weight n.
Proof. destruct n; simpl; lia. Qed.

Lemma weight_step (n : nat) : weight n <= weight (S n).
Proof.
  induction n as [|n IH]; [simpl; lia|].
  change (weight (S (S n))) with (1 + degree * weight (S n)).
  change (weight (S n)) with (1 + degree * weight n) at 1. nia.
Qed.

Lemma weight_mono (n m : nat) : n <= m -> weight n <= weight m.
Proof.
  induction 1 as [|m _ IH]; [lia|]. pose proof (weight_step m). lia.
Qed.

Lemma load_app (q1 q2 : list (string * string)) : load (q1 ++ q2) = load q1 + load q2.
Proof. unfold load. now rewrite map_app, list_sum_app. Qed.

Lemma degree_bound (id : string) (children : list edge) :
  JsMap.get id edges = Some children -> List.length children <= degree.
Proof.
  intros G. apply JsMap_get_In in G. unfold degree.
  assert (H : In (List.length children) (map (fun entry => List.length (snd entry)) edges)).
  { apply in_map_iff. exists (id, children). auto. }
  revert H. generalize (map (fun entry => List.length (snd entry)) edges).
  intros l. induction l as [|x l IH]; [intros []|].
  intros [->|H]; simpl; [lia|]. specialize (IH H). lia.
Qed.

Lemma load_enqueue (b : bfs) (id p : string) :
  load (queue (enqueue b id p)) <= load (queue b) + weight (rank id).
Proof.
  destruct (enqueue_cases b id p) as [[_ ->]|[_ ->]]; [lia|].
  cbn [queue]. rewrite load_app. unfold load at 2. simpl. lia.
Qed.

Lemma load_enqueueAll (pairs : list (string * string)) :
  forall b, load (queue (enqueueAll pairs b)) <= load (queue b) + load pairs.
Proof.
  induction pairs as [|[id p] pairs IH]; intros b; [simpl; unfold load at 3; simpl; lia|].
  change (enqueueAll ((id, p) :: pairs) b) with (enqueueAll pairs (enqueue b id p)).
  specialize (IH (enqueue b id p)). pose proof (load_enqueue b id p).
  change (load ((id, p) :: pairs)) with (weight (rank id) + load pairs). lia.
Qed.

Lemma load_children (id : string) (children : list edge) (f : edge -> string) (n : nat) :
  (forall e, In e children -> rank (ed_childId e) <= n) ->
  load (map (fun e => (ed_childId e, f e)) children) <= List.length children * weight n.
Proof.
  induction children as [|e children IH]; intros H; [reflexivity|].
  change (load (map (fun e => (ed_childId e, f e)) (e :: children)))
    with (weight (rank (ed_childId e)) + load (map (fun e => (ed_childId e, f e)) children)).
  assert (weight (rank (ed_childId e)) <= weight n)
    by (apply weight_mono, H; now left).
  assert (load (map (fun e => (ed_childId e, f e)) children)
          <= List.length children * weight n)
    by (apply IH; intros; apply H; now right).
  simpl. lia.
Qed.

(** Each turn of the loop takes the load down. *)
Lemma bfsStep_load (b : bfs) :
  queue b <> [] -> load (queue (bfsStep routers edges b)) < load (queue b).
Proof.
  intros NE. unfold bfsStep. destruct (queue b) as [|[id prefix] rest]; [congruence|].
  change (load ((id, prefix) :: rest)) with (weight (rank id) + load rest).
  pose proof (weight_pos (rank id)) as W.
  destruct (JsMap.get id routers) as [router|]; [|cbn [queue]; lia].
  rewrite visitEdges_enqueueAll.
  match goal with |- context [enqueueAll ?ps ?b0] =>
    pose proof (load_enqueueAll ps b0) as L end.
  cbn [queue] in L.
  destruct (JsMap.get id edges) as [children|] eqn:G;
    [|cbn [map] in *; change (load []) with 0 in L; lia].
  destruct children as [|e0 children];
    [cbn [map] in *; change (load []) with 0 in L; lia|].
  assert (R : 1 <= rank id).
  { pose proof (rank_down id _ e0 G (or_introl eq_refl)). lia. }
  assert (C : load (map (fun e => (ed_childId e,
                           Utils.joinPaths
                             (Utils.joinPaths prefix (JsString.orElse (rn_basePath router) ""))
                             (ed_prefix e))) (e0 :: children))
              <= List.length (e0 :: children) * weight (rank id - 1)).
  { apply load_children; auto. intros e I. pose proof (rank_down id _ e G I). lia. }
  pose proof (degree_bound _ _ G) as D.
  destruct (rank id) as [|r]; [lia|].
  replace (S r - 1) with r in C by lia.
  change (weight (S r)) with (1 + degree * weight r) in *.
  assert (List.length (e0 :: children) * weight r <= degree * weight r) by nia.
  lia.
Qed.

Lemma bfsLoop_returns (fuel : nat) :
  forall b, load (queue b) <= fuel -> exists b', bfsLoop fuel routers edges b = Some b'.
Proof.
  induction fuel as [|fuel IH]; intros b L.
  - destruct (queue b) as [|[id p] rest] eqn:Q; simpl; rewrite Q; [eauto|].
    unfold load in L. simpl in L. pose proof (weight_pos (rank id)). lia.
  - simpl. destruct (queue b) eqn:Q; [eauto|].
    apply IH. assert (NE : queue b <> []) by congruence.
    pose proof (bfsStep_load b NE) as D. rewrite Q in D. lia.
Qed.

End Acyclic.

(** X11. Mounts without a cycle end the traversal: when a rank goes
    down along every edge of the router graph of the files, the loop
    of [extractHonoEndpoints] ends after a number of turns bounded by
    the graph, and the endpoints are returned. *)
Theorem acyclic_mounts_are_traversed
    (env : Model.platform) (files : list string) (rank : string -> nat) :
  (forall id children e,
     JsMap.get id (Hono.g_edges (Hono.buildGraph (Hono.parseAll env files))) = Some children ->
     In e children -> rank (Hono.ed_childId e) < rank id) ->
  exists turns, forall fuel, turns <= fuel ->
  exists endpoints, Hono.extractHonoEndpoints env fuel files = Some endpoints.
Proof.
  intros Down.
  set (g := Hono.buildGraph (Hono.parseAll env files)) in *.
  set (routers := Hono.buildRouterIndex (Hono.parseAll env files)).
  set (start := Hono.startOf routers (Hono.g_childHasParent g)).
  exists (load (Hono.g_edges g) rank (Hono.queue (Hono.seed start))).
  intros fuel L. unfold Hono.extractHonoEndpoints. fold g routers start.
  destruct (bfsLoop_returns routers (Hono.g_edges g) rank Down fuel _ L) as [b ->].
  eauto.
Qed.

Section TraversalExamples.
Import Model Hono Trace.

Definition diamondRank (id : string) : nat :=
  if String.eqb id "/app/d.ts::root" then 2
  else if String.eqb id "/app/d.ts::leaf" then 0
  else 1.

Lemma acyclic_mounts_are_traversed_witness :
  exists turns, forall fuel, turns <= fuel ->
  exists endpoints, extractHonoEndpoints diamondDisk fuel ["/app/d.ts"] = Some endpoints.
Proof.
  apply (acyclic_mounts_are_traversed diamondDisk ["/app/d.ts"] diamondRank).
  intros id children e G I. apply JsMap_get_In in G. vm_compute in G.
  destruct G as [G|[G|[G|[]]]]; injection G as <- <-; simpl in I;
    repeat (destruct I as [<-|I]; [vm_compute; lia|]); destruct I.
Defined.

Lemma bfs_records_the_reachable_witness :
  recorded
    (prefixesByRouter
       (after diamondRouters (g_edges diamondGraph) 5
          (seed (startOf diamondRouters (g_childHasParent diamondGraph)))))
    "/app/d.ts::leaf" "/x/c" <->
  reachable diamondRouters (g_edges diamondGraph)
    (startOf diamondRouters (g_childHasParent diamondGraph)) "/app/d.ts::leaf" "/x/c".
Proof.
  apply (bfs_records_the_reachable diamondRouters (g_edges diamondGraph)
           (startOf diamondRouters (g_childHasParent diamondGraph)) 5).
  vm_compute. reflexivity.
Defined.

End TraversalExamples.

(** ** Call chains of the router-graph extractor *)

Section Chains.
Import Ast Model Hono.

Lemma pushEndpoints_nil (st : parseState) : pushEndpoints [] st = st.
Proof. destruct st. unfold pushEndpoints. simpl. now rewrite app_nil_r. Qed.

Lemma chainCallStep_on (varName : string) (args : list expr) (st : parseState) :
  chainCallStep varName st {| c_name := "on"; c_args := args |} = st.
Proof. unfold chainCallStep. simpl. apply pushEndpoints_nil. Qed.

(** X13. An [on] call in the chain of calls that follows [new Hono()]
    in a declaration adds no endpoint and changes nothing else,
    whatever its arguments: the endpoints of such a declaration are
    those of the chain without its [on] calls.  The same call written
    as a statement on the router variable adds an endpoint for its
    method. *)
Theorem chained_on_is_ignored (varName : string) (calls : list call) (st : parseState) :
  fold_left (chainCallStep varName) calls st
  = fold_left (chainCallStep varName)
      (filter (fun c => negb (String.eqb (c_name c) "on")) calls) st /\
  (forall method routePath rest,
     st_endpoints
       (visitCallExpression (MemberExpression (Identifier varName) (Identifier "on"))
          (StringLiteral method :: StringLiteral routePath :: rest) st)
     = st_endpoints st ++
       [ {| re_routerVar := varName; re_method := JsString.toUpperCase method;
            re_path := routePath;
            re_description := (JsString.toUpperCase method ++ " " ++ routePath)%string;
            re_parameters := None |} ]).
Proof.
  split.
  - revert st. induction calls as [|[name args] calls IH]; intros st; [reflexivity|].
    cbn [fold_left filter c_name].
    destruct (String.eqb name "on") eqn:E; cbn [negb fold_left].
    + apply String.eqb_eq in E. subst name. rewrite chainCallStep_on. apply IH.
    + apply IH.
  - intros method routePath rest. reflexivity.
Qed.

End Chains.

(** ** The driver on the extractors of the repository *)

Section Driver.
Import Model Engine.

(** [extractAllEndpoints] on the three extractors, the traversal of the
    router graph being given [fuel] turns. *)
Definition extractAllEndpointsOn (env : platform) (fuel : nat)
    (files : list string) (framework : string) : option (list endpoint) :=
  extractAllEndpoints (Nest.extractNestJsEndpoints env)
    (Express.extractExpressEndpoints env) (Hono.extractHonoEndpoints env fuel)
    files framework.

Definition parses (env : platform) (file : string) : bool :=
  match parseFile env file with
  | Some _ => true
  | None => false
  end.

Lemma extractEach_rejects (nest express : string -> option (list endpoint))
    (framework : string) (files : list string) (f : string) :
  In f files -> extractEndpoints nest express f framework = None ->
  forall endpoints, extractEach nest express files framework endpoints = None.
Proof.
  induction files as [|g files IH]; intros I H endpoints; [destruct I|].
  simpl. destruct I as [->|I]; [now rewrite H|].
  destruct (extractEndpoints nest express g framework); auto.
Qed.

Lemma parseAll_skips (env : platform) (files : list string) :
  forall fileDataMap,
  fold_left (fun fileDataMap file =>
               match Hono.parseHonoFile env file with
               | Some data => JsMap.set file data fileDataMap
               | None => fileDataMap
               end) files fileDataMap
  = fold_left (fun fileDataMap file =>
               match Hono.parseHonoFile env file with
               | Some data => JsMap.set file data fileDataMap
               | None => fileDataMap
               end) (filter (parses env) files) fileDataMap.
Proof.
  induction files as [|f files IH]; intros m; [reflexivity|].
  cbn [fold_left filter]. destruct (parses env f) eqn:P.
  - cbn [fold_left]. apply IH.
  - assert (H : Hono.parseHonoFile env f = None).
    { unfold Hono.parseHonoFile, parses in *.
      destruct (parseFile env f); [discriminate|reflexivity]. }
    rewrite H. apply IH.
Qed.

(** X14. A file that cannot be parsed is left out by the router-graph
    extractor, whose result is that of the other files, and makes the
    extraction fail in the modes that go through the files one by one:
    the nestjs mode, the express mode, and the auto mode when the
    router-graph extractor finds no endpoint. *)
Theorem unparsable_file (env : platform) (fuel : nat) (files : list string) (f : string) :
  In f files -> parseFile env f = None ->
  extractAllEndpointsOn env fuel files "hono"
  = extractAllEndpointsOn env fuel (filter (parses env) files) "hono" /\
  extractAllEndpointsOn env fuel files "nestjs" = None /\
  extractAllEndpointsOn env fuel files "express" = None /\
  (Hono.extractHonoEndpoints env fuel files = Some [] ->
   extractAllEndpointsOn env fuel files "auto" = None).
Proof.
  intros I P. unfold extractAllEndpointsOn, extractAllEndpoints.
  split; [|split; [|split]].
  - cbn [String.eqb Ascii.eqb Bool.eqb].
    unfold Hono.extractHonoEndpoints, Hono.parseAll. now rewrite parseAll_skips.
  - cbn [String.eqb Ascii.eqb Bool.eqb]. eapply extractEach_rejects; eauto.
    unfold extractEndpoints. cbn [String.eqb Ascii.eqb Bool.eqb].
    unfold Nest.extractNestJsEndpoints. now rewrite P.
  - cbn [String.eqb Ascii.eqb Bool.eqb]. eapply extractEach_rejects; eauto.
    unfold extractEndpoints. cbn [String.eqb Ascii.eqb Bool.eqb].
    unfold Express.extractExpressEndpoints. now rewrite P.
  - intros H. cbn [String.eqb Ascii.eqb Bool.eqb]. rewrite H.
    eapply extractEach_rejects; eauto.
    unfold extractEndpoints. cbn [String.eqb Ascii.eqb Bool.eqb].
    unfold Nest.extractNestJsEndpoints. now rewrite P.
Qed.

(** The keys of a list in the order of their first occurrence. *)
Fixpoint firstOccurrences (l : list string) : list string :=
  match l with
  | [] => []
  | k :: l' => k :: filter (fun x => negb (String.eqb x k)) (firstOccurrences l')
  end.

Lemma filter_filter {A} (f g : A -> bool) (l : list A) :
  filter f (filter g l) = filter (fun x => g x && f x) l.
Proof.
  induction l as [|x l IH]; [reflexivity|]. simpl.
  destruct (g x); simpl; [destruct (f x)|]; now rewrite IH.
Qed.

Lemma merge_keys (es : list endpoint) :
  forall m : JsMap.t endpoint,
  JsMap.keys (fold_left (fun m e => JsMap.set (key e) e m) es m)
  = JsMap.keys m ++
    filter (fun k => negb (JsMap.has k m)) (firstOccurrences (map key es)).
Proof.
  induction es as [|e es IH]; intros m; [simpl; now rewrite app_nil_r|].
  cbn [fold_left map firstOccurrences filter]. rewrite IH, JsMap_keys_set, filter_filter.
  assert (H : forall x, JsMap.has x (JsMap.set (key e) e m)
                        = String.eqb x (key e) || JsMap.has x m).
  { intros x. unfold JsMap.has. destruct (String.eqb x (key e)) eqn:E.
    - apply String.eqb_eq in E. subst x. now rewrite JsMap_get_set_same.
    - apply String.eqb_neq in E. now rewrite JsMap_get_set_other. }
  destruct (JsMap.has (key e) m) eqn:K; cbn [negb].
  - f_equal. apply filter_ext. intros x. rewrite H.
    destruct (String.eqb x (key e)) eqn:E; [|reflexivity].
    apply String.eqb_eq in E. subst x. now rewrite K.
  - rewrite <- app_assoc. simpl. do 2 f_equal. apply filter_ext. intros x. rewrite H.
    destruct (String.eqb x (key e)); reflexivity.
Qed.

(** X15. The endpoints merged by key come in the order in which their
    keys first occur in the list that is merged. *)
Theorem mergeByKey_order (es : list endpoint) :
  map key (mergeByKey es) = firstOccurrences (map key es).
Proof.
  unfold mergeByKey.
  destruct (merge_fold es JsMap.empty) as (K & _ & _); [constructor|constructor|].
  rewrite (keyed_keys _ K), merge_keys. simpl.
  apply filter_all. apply Forall_forall. auto.
Qed.

End Driver.

Section DriverExamples.
Import Model Engine.

Lemma unparsable_file_witness :
  extractAllEndpointsOn diamondDisk 5 ["/app/d.ts"; "/app/missing.ts"] "hono"
  = extractAllEndpointsOn diamondDisk 5
      (filter (parses diamondDisk) ["/app/d.ts"; "/app/missing.ts"]) "hono" /\
  extractAllEndpointsOn diamondDisk 5 ["/app/d.ts"; "/app/missing.ts"] "nestjs" = None /\
  extractAllEndpointsOn diamondDisk 5 ["/app/d.ts"; "/app/missing.ts"] "express" = None /\
  (Hono.extractHonoEndpoints diamondDisk 5 ["/app/d.ts"; "/app/missing.ts"] = Some [] ->
   extractAllEndpointsOn diamondDisk 5 ["/app/d.ts"; "/app/missing.ts"] "auto" = None).
Proof.
  apply (unparsable_file diamondDisk 5 ["/app/d.ts"; "/app/missing.ts"] "/app/missing.ts").
  - simpl. auto.
  - reflexivity.
Defined.

End DriverExamples.

(** ** The builder-route extractor *)

Section ExpressFacts.
Import Ast Model Express.

(** The methods that carry their parameters in the query string. *)
Definition readsQuery (method : string) : bool :=
  existsb (String.eqb method) ["GET"; "DELETE"; "HEAD"].

(** What [extractSchemasFromArgs] has found after some arguments. *)
Definition found (httpMethod : string) (acc : schemas) : Prop :=
  (readsQuery httpMethod = true -> sc_body acc = None) /\
  (readsQuery httpMethod = false -> sc_query acc = []) /\
  (forall s, sc_body acc = Some s ->
     Zod.type s = "object" /\ Zod.properties s <> None).

Lemma found_step (schemaDefs : JsMap.t expr) (httpMethod : string)
    (acc : schemas) (arg : expr) :
  found httpMethod acc -> found httpMethod (schemaArgStep schemaDefs httpMethod acc arg).
Proof.
  intros (B & Q & S). unfold schemaArgStep.
  destruct arg; try (now split).
  destruct arguments as [|possibleSchema rest]; [now split|].
  destruct (Zod.properties _) as [properties|] eqn:P; [|now split].
  destruct (String.eqb _ "object") eqn:T; [|now split]. cbn [negb].
  apply String.eqb_eq in T. fold (readsQuery httpMethod).
  destruct (readsQuery httpMethod) eqn:R; (split; [|split]); cbn [sc_body sc_query];
    auto; try (intros; congruence).
  intros s [= <-]. split; [exact T|]. now rewrite P.
Qed.

Lemma found_all (schemaDefs : JsMap.t expr) (httpMethod : string) (args : list expr) :
  found httpMethod (extractSchemasFromArgs schemaDefs args httpMethod).
Proof.
  unfold extractSchemasFromArgs.
  assert (F : found httpMethod {| sc_body := None; sc_query := [] |})
    by (repeat split; auto; discriminate).
  revert F. generalize {| sc_body := None; sc_query := [] |}.
  induction args as [|arg args IH]; intros acc F; [exact F|].
  simpl. apply IH. now apply found_step.
Qed.

Definition wellFormedRoute (file : string) (e : endpoint) : Prop :=
  In (method e) (map JsString.toUpperCase Utils.HTTP_METHODS) /\
  normalized (path e) /\
  description e = (method e ++ " " ++ path e)%string /\
  key e = Utils.toKey (method e) (path e) /\
  filePath e = Some file /\
  (readsQuery (method e) = true -> ps_body (params e) = None) /\
  (readsQuery (method e) = false -> ps_query (params e) = Some []) /\
  (forall s, ps_body (params e) = Some (ZodBody s) ->
     Zod.type s = "object" /\ Zod.properties s <> None).

Lemma isHttpMethod_upper (name : string) :
  isHttpMethod name = true ->
  In (JsString.toUpperCase name) (map JsString.toUpperCase Utils.HTTP_METHODS).
Proof.
  unfold isHttpMethod. intros H. apply existsb_exists in H as (m & I & E).
  apply String.eqb_eq in E. subst m. now apply in_map.
Qed.

Lemma routeEndpoint_wellFormed (file name : string) (p : string)
    (schemaDefs : JsMap.t expr) (args : list expr) :
  isHttpMethod name = true ->
  wellFormedRoute file
    (routeEndpoint file (JsString.toUpperCase name) (Utils.normalizePath p)
       (extractSchemasFromArgs schemaDefs args (JsString.toUpperCase name))).
Proof.
  intros H. destruct (found_all schemaDefs (JsString.toUpperCase name) args) as (B & Q & S).
  unfold wellFormedRoute, routeEndpoint.
  cbn [method path description key filePath params ps_body ps_query].
  split; [now apply isHttpMethod_upper|].
  split; [apply normalizePath_normalized|].
  do 3 (split; [reflexivity|]).
  split; [intros R; now rewrite (B R)|].
  split; [intros R; now rewrite (Q R)|].
  intros s. destruct (sc_body _) as [s'|] eqn:E; [|discriminate].
  intros [= <-]. now apply S.
Qed.

Lemma routeStep_wellFormed (file : string) (routerBases : JsMap.t string)
    (schemaDefs : JsMap.t expr) (n : node) :
  Forall (wellFormedRoute file) (routeStep file routerBases schemaDefs n).
Proof.
  unfold routeStep.
  destruct n as [| | | |callee arguments|]; try constructor.
  destruct callee as [| | | | | |object property| | | |]; try constructor.
  destruct property as [methodName| | | | | | | | | |]; try constructor.
  destruct object as [ownerName| | | | |c a| | | | |]; try constructor.
  - destruct (isHttpMethod methodName) eqn:H; [|constructor]. cbn [negb].
    destruct arguments as [|first rest]; [constructor|].
    destruct (negb _); [constructor|].
    constructor; [|constructor]. now apply routeEndpoint_wellFormed.
  - destruct (isHttpMethod methodName) eqn:H; [|rewrite andb_false_r; constructor].
    destruct (JsString.truthy methodName); [|constructor]. cbn [andb negb].
    destruct (getRouteCallInfo _) as [routeInfo|]; [|constructor].
    constructor; [|constructor]. now apply routeEndpoint_wellFormed.
Qed.

(** X16. Every endpoint the builder-route extractor returns has one of
    the seven methods in upper case, a path in normal form, the method
    and the path as its description, the key of its method and path,
    and the file it was read from.  A GET, DELETE or HEAD has no body;
    the other methods have no query parameters; and a body is an object
    schema with properties. *)
Theorem express_endpoints_are_well_formed
    (env : platform) (file : string) (endpoints : list endpoint) :
  extractExpressEndpoints env file = Some endpoints ->
  Forall (wellFormedRoute file) endpoints.
Proof.
  unfold extractExpressEndpoints. destruct (parseFile env file) as [tree|]; [|discriminate].
  intros [= <-]. apply Forall_forall. intros e I.
  apply in_flat_map in I as (n & _ & I).
  pose proof (routeStep_wellFormed file (collectRouterBases tree) (collectSchemaDefs tree) n) as F.
  rewrite Forall_forall in F. auto.
Qed.

(** X17. A route written [router.route(path).verb(handlers)] gives the
    endpoint of [router.verb(path, handlers)], or none where that one
    gives none. *)
Theorem route_chain_is_the_same_route
    (file : string) (routerBases : JsMap.t string) (schemaDefs : JsMap.t expr)
    (router verb : string) (routePath : expr) (handlers : list expr) :
  JsString.truthy router = true ->
  routeStep file routerBases schemaDefs
    (CallExpressionNode
       (MemberExpression
          (CallExpression (MemberExpression (Identifier router) (Identifier "route"))
             [routePath])
          (Identifier verb))
       handlers)
  = routeStep file routerBases schemaDefs
      (CallExpressionNode (MemberExpression (Identifier router) (Identifier verb))
         (routePath :: handlers)).
Proof.
  intros T. unfold routeStep, getRouteCallInfo.
  cbn [String.eqb Ascii.eqb Bool.eqb negb getMemberObjectName hd_error].
  rewrite T. cbn [andb].
  destruct (isHttpMethod verb) eqn:H; [|now rewrite andb_false_r].
  assert (V : JsString.truthy verb = true).
  { destruct verb; [discriminate|reflexivity]. }
  rewrite V. cbn [andb negb].
  destruct (JsString.truthy (getStringLiteral (Some routePath))); [|reflexivity].
  cbn [negb rc_routerName rc_routePath].
  replace (JsString.orElse (getBase routerBases router) "")
    with (if JsMap.has router routerBases then getBase routerBases router else "");
    [reflexivity|].
  unfold getBase, JsMap.has, JsString.orElse.
  destruct (JsMap.get router routerBases) as [base|]; [|reflexivity].
  destruct base; reflexivity.
Qed.

End ExpressFacts.

Section ExpressExamples.
Import Ast Model Express.

Definition zCall (name : string) (args : list expr) : expr :=
  CallExpression (MemberExpression (Identifier "z") (Identifier name)) args.

(** [users.js]:
    [const schema = z.object({ name: z.string(), page: z.number().optional() });
     app.use('/api', router);
     router.get('/users/', validate(schema), handler);
     router.route('/users').post(validate(schema), handler)] *)
Definition usersRoutes : ast :=
  [ VariableDeclarator (Some "schema")
      (Some (zCall "object"
               [ObjectExpression
                  [ ObjectProperty (Identifier "name") (zCall "string" []);
                    ObjectProperty (Identifier "page")
                      (CallExpression
                         (MemberExpression (zCall "number" []) (Identifier "optional"))
                         []) ]]));
    callOn "app" "use" [StringLiteral "/api"; Identifier "router"];
    callOn "router" "get"
      [StringLiteral "/users/"; CallExpression (Identifier "validate") [Identifier "schema"];
       handler];
    CallExpressionNode
      (MemberExpression
         (CallExpression (MemberExpression (Identifier "router") (Identifier "route"))
            [StringLiteral "/users"])
         (Identifier "post"))
      [CallExpression (Identifier "validate") [Identifier "schema"]; handler] ].

Definition usersDisk : platform := onDisk [("/app/users.js", usersRoutes)].

Definition usersSchema : Zod.schema :=
  Zod.Schema "object"
    (Some [("name", Zod.ofType "string"); ("page", Zod.withOptional (Zod.ofType "number"))])
    (Some ["name"]) None None false.

Example users_routes :
  extractExpressEndpoints usersDisk "/app/users.js"
  = Some [ {| method := "GET"; path := "/api/users"; description := "GET /api/users";
              tags := None;
              params := {| ps_path := None;
                           ps_query := Some [ {| p_name := "name"; p_required := true |};
                                              {| p_name := "page"; p_required := false |} ];
                           ps_body := None |};
              filePath := Some "/app/users.js"; key := "GET /api/users" |};
           {| method := "POST"; path := "/api/users"; description := "POST /api/users";
              tags := None;
              params := {| ps_path := None; ps_query := Some [];
                           ps_body := Some (ZodBody usersSchema) |};
              filePath := Some "/app/users.js"; key := "POST /api/users" |} ].
Proof. reflexivity. Qed.

Lemma express_endpoints_are_well_formed_witness :
  exists endpoints,
    extractExpressEndpoints usersDisk "/app/users.js" = Some endpoints /\
    Forall (wellFormedRoute "/app/users.js") endpoints.
Proof.
  eexists. split; [reflexivity|].
  apply (express_endpoints_are_well_formed usersDisk "/app/users.js"). reflexivity.
Defined.

Lemma route_chain_is_the_same_route_witness :
  routeStep "/app/users.js" (collectRouterBases usersRoutes) (collectSchemaDefs usersRoutes)
    (CallExpressionNode
       (MemberExpression
          (CallExpression (MemberExpression (Identifier "router") (Identifier "route"))
             [StringLiteral "/users"])
          (Identifier "post"))
       [handler])
  = routeStep "/app/users.js" (collectRouterBases usersRoutes) (collectSchemaDefs usersRoutes)
      (CallExpressionNode (MemberExpression (Identifier "router") (Identifier "post"))
         [StringLiteral "/users"; handler]).
Proof.
  apply (route_chain_is_the_same_route "/app/users.js" (collectRouterBases usersRoutes)
           (collectSchemaDefs usersRoutes) "router" "post" (StringLiteral "/users") [handler]).
  reflexivity.
Defined.

End ExpressExamples.

(** ** The decorator extractor *)

Section NestCollect.
Import Ast Model Nest.

Lemma mergeImported_keeps (name : string) (d : dto) (entries : list (string * dto)) :
  forall dtoMap, JsMap.get name dtoMap = Some d ->
  JsMap.get name (fold_left mergeImported entries dtoMap) = Some d.
Proof.
  induction entries as [|[k v] entries IH]; intros dtoMap G; [exact G|].
  simpl. apply IH. unfold mergeImported. cbn [fst snd].
  destruct (JsMap.has k dtoMap) eqn:H; [exact G|].
  destruct (String.eqb name k) eqn:E.
  - apply String.eqb_eq in E. subst k. unfold JsMap.has in H. now rewrite G in H.
  - apply String.eqb_neq in E. now rewrite JsMap_get_set_other.
Qed.

Lemma collectImported_keeps (env : platform) (name : string) (d : dto)
    (imports : list (string * string)) :
  forall acc, JsMap.get name (fst acc) = Some d ->
  JsMap.get name (fst (fold_left (collectImportedStep env) imports acc)) = Some d.
Proof.
  induction imports as [|entry imports IH]; intros [dtoMap visited] G; [exact G|].
  simpl. apply IH. cbn [fst] in G.
  destruct (JsSet.has (snd entry) visited); [exact G|].
  destruct (parseFile env (snd entry)); [|exact G].
  cbn [fst]. now apply mergeImported_keeps.
Qed.

(** X18. A class declared in the file keeps its own properties: among
    the DTOs collected for a file, a name declared in the file stands
    for the declaration of the file, whatever the imported files
    declare under that name. *)
Theorem local_dto_shadows_imported
    (env : platform) (tree : ast) (file name : string) (d : dto) :
  JsMap.get name (collectDtoSchemasFromAst tree) = Some d ->
  JsMap.get name (collectDtoSchemas env tree file) = Some d.
Proof.
  intros G. unfold collectDtoSchemas. now apply collectImported_keeps.
Qed.

Lemma apiPropertyField_optional (m : propMeta) (prop : objectMember) :
  m_optional m = true -> m_optional (apiPropertyField m prop) = true.
Proof.
  intros H. unfold apiPropertyField.
  destruct prop as [[name| | | | | | | | | |] value|]; auto.
  set (m1 := match value with BooleanLiteral false => _ | _ => m end).
  assert (H1 : m_optional m1 = true).
  { unfold m1. destruct value as [| | |[|]| | | | | | |]; auto.
    destruct (String.eqb name "required"); auto. }
  set (m2 := if String.eqb name "example" then _ else m1).
  assert (H2 : m_optional m2 = true).
  { unfold m2. destruct (String.eqb name "example"); auto.
    destruct (Zod.literalOf value); auto. }
  destruct value; auto. destruct (String.eqb name "type"); auto.
Qed.

Lemma propMetaStep_optional (m : propMeta) (dec : decorator) :
  m_optional m = true -> m_optional (propMetaStep m dec) = true.
Proof.
  intros H. unfold propMetaStep.
  destruct (getDecoratorName dec) as [name|]; auto.
  destruct (negb (JsString.truthy name)); auto.
  set (m1 := if JsSet.has name OPTIONAL_DECORATORS then _ else m).
  assert (H1 : m_optional m1 = true)
    by (unfold m1; destruct (JsSet.has name OPTIONAL_DECORATORS); auto).
  set (m2 := match JsMap.get name TYPE_DECORATORS with Some _ => _ | None => m1 end).
  assert (H2 : m_optional m2 = true)
    by (unfold m2; destruct (JsMap.get name TYPE_DECORATORS); auto).
  destruct (_ || _); auto.
  set (m3 := if String.eqb name "ApiPropertyOptional" then _ else m2).
  assert (H3 : m_optional m3 = true)
    by (unfold m3; destruct (String.eqb name "ApiPropertyOptional"); auto).
  destruct (getDecoratorObjectArg dec) as [props|]; auto.
  revert H3. generalize m3. induction props as [|p props IH]; intros m0 H0; auto.
  simpl. apply IH. now apply apiPropertyField_optional.
Qed.

Lemma propMeta_fold_optional (decorators : list decorator) :
  forall m, m_optional m = true ->
  m_optional (fold_left propMetaStep decorators m) = true.
Proof.
  induction decorators as [|dec decorators IH]; intros m H; auto.
  simpl. apply IH. now apply propMetaStep_optional.
Qed.

Lemma propMetaStep_marks (m : propMeta) (dec : decorator) (name : string) :
  getDecoratorName dec = Some name -> JsSet.has name OPTIONAL_DECORATORS = true ->
  m_optional (propMetaStep m dec) = true.
Proof.
  intros N O.
  assert (T : JsString.truthy name = true).
  { destruct name; [discriminate|reflexivity]. }
  pose proof (propMetaStep_optional
                {| m_optional := true; m_example := m_example m;
                   m_overrideType := m_overrideType m |} dec eq_refl) as H.
  unfold propMetaStep in *. rewrite N, T in *. cbn [negb] in *.
  rewrite O in *. exact H.
Qed.

(** X19. A property is optional as soon as one of its decorators is
    [@IsOptional] or [@ApiPropertyOptional], wherever that decorator
    stands in the list and whatever the other decorators are. *)
Theorem optional_decorator_wins
    (before after : list decorator) (dec : decorator) (name : string) :
  getDecoratorName dec = Some name -> JsSet.has name OPTIONAL_DECORATORS = true ->
  m_optional (getPropMetaFromDecorators (before ++ dec :: after)) = true.
Proof.
  intros N O. unfold getPropMetaFromDecorators.
  rewrite fold_left_app. cbn [fold_left].
  apply propMeta_fold_optional. eapply propMetaStep_marks; eauto.
Qed.

Lemma optional_decorator_wins_witness :
  m_optional
    (getPropMetaFromDecorators
       ([decorate "IsString" []] ++ decorate "IsOptional" [] ::
        [decorate "ApiProperty" [ObjectExpression
                                   [ObjectProperty (Identifier "required")
                                      (BooleanLiteral true)]]]))
  = true.
Proof.
  apply (optional_decorator_wins [decorate "IsString" []]
           [decorate "ApiProperty" [ObjectExpression
                                      [ObjectProperty (Identifier "required")
                                         (BooleanLiteral true)]]]
           (decorate "IsOptional" []) "IsOptional"); reflexivity.
Defined.

End NestCollect.

Section NestExamples.
Import Ast Model Nest.

(** [import { SearchDto } from './search.dto';
     class SearchDto { q: string }] *)
Definition shadowingFile : ast :=
  [ ImportDeclaration "./search.dto" [ImportSpecifier "SearchDto" "SearchDto"];
    ClassDeclaration
      {| c_id := Some "SearchDto"; c_decorators := [];
         c_body := [ClassProperty (Identifier "q") [] false (Some TSStringKeyword) None] |} ].

Definition ownSearchDto : dto :=
  {| d_name := "SearchDto";
     d_props := [ {| dp_name := "q"; dp_optional := false;
                     dp_typeNode := Some TSStringKeyword;
                     dp_example := None; dp_overrideType := None |} ] |}.

Lemma local_dto_shadows_imported_witness :
  JsMap.get "SearchDto" (collectDtoSchemas withImport shadowingFile "/app/users.controller.ts")
  = Some ownSearchDto /\
  JsMap.get "SearchDto"
    (collectDtoSchemas withImport
       [ImportDeclaration "./search.dto" [ImportSpecifier "SearchDto" "SearchDto"]]
       "/app/users.controller.ts")
  <> Some ownSearchDto.
Proof.
  split.
  - apply (local_dto_shadows_imported withImport shadowingFile
             "/app/users.controller.ts" "SearchDto" ownSearchDto).
    reflexivity.
  - vm_compute. discriminate.
Defined.

End NestExamples.

Section NestEndpoints.
Import Ast Model Nest.

Definition namedParam (p : param) : Prop :=
  p_required p = true /\ JsString.truthy (p_name p) = true.

(** An endpoint as the decorator extractor builds it. *)
Definition wellFormedHandler (file : string) (e : endpoint) : Prop :=
  In (method e) (map snd HTTP_DECORATORS) /\
  normalized (path e) /\
  key e = Utils.toKey (method e) (path e) /\
  filePath e = Some file /\
  JsString.truthy (description e) = true /\
  tags e <> Some [] /\
  ps_query (params e) <> Some [] /\
  ps_path (params e) <> Some [] /\
  (forall ps, ps_path (params e) = Some ps -> Forall namedParam ps).

Lemma nonEmpty_not_nil {A} (l : list A) : nonEmpty l <> Some [].
Proof. destruct l; discriminate. Qed.

Lemma nonEmpty_Some {A} (l l' : list A) : nonEmpty l = Some l' -> l' = l.
Proof. destruct l; [discriminate|]. now intros [= <-]. Qed.

Lemma truthy_spaced (a b : string) : JsString.truthy (a ++ " " ++ b) = true.
Proof. destruct a; reflexivity. Qed.

Lemma methodDecorator_verbs (decorators : list decorator) :
  forall acc,
  (forall v, r_httpMethod acc = Some v -> In v (map snd HTTP_DECORATORS)) ->
  forall v, r_httpMethod (fold_left methodDecoratorStep decorators acc) = Some v ->
  In v (map snd HTTP_DECORATORS).
Proof.
  induction decorators as [|dec decorators IH]; intros acc H; [exact H|].
  cbn [fold_left]. apply IH. unfold methodDecoratorStep.
  set (found := match getDecoratorName dec with Some n => _ | None => None end).
  assert (F : forall verb, found = Some verb -> In verb (map snd HTTP_DECORATORS)).
  { unfold found. destruct (getDecoratorName dec) as [n|]; [|discriminate].
    intros verb G. apply JsMap_get_In in G. now apply (in_map snd) in G. }
  destruct found as [verb|]; destruct (isName _ "ApiOperation"); cbn [r_httpMethod];
    auto; intros v [= <-]; auto.
Qed.

Lemma paramDecoratorStep_named (dtoSchemas : JsMap.t dto) (target : paramTarget)
    (acc : option paramInfo) (dec : decorator) (info' : paramInfo) :
  (forall info, acc = Some info -> Forall namedParam (pi_params info)) ->
  paramDecoratorStep dtoSchemas target acc dec = Some info' ->
  Forall namedParam (pi_params info').
Proof.
  intros H. unfold paramDecoratorStep. destruct acc as [info|]; [|discriminate].
  specialize (H info eq_refl).
  destruct (getDecoratorName dec) as [name|]; [|now intros [= <-]].
  destruct (negb (JsString.truthy name)); [now intros [= <-]|].
  cbv zeta.
  match goal with
  | |- context [if String.eqb name "Query" then ?a else ?b] =>
      destruct (if String.eqb name "Query" then a else b); [|discriminate]
  end.
  match goal with
  | |- context [if String.eqb name "Body" then ?a else ?b] =>
      destruct (if String.eqb name "Body" then a else b); [|discriminate]
  end.
  intros [= <-]. cbn [pi_params].
  destruct (String.eqb name "Param" && JsString.truthy (getStringArg dec)) eqn:E; auto.
  apply andb_true_iff in E as [_ E]. apply Forall_app. split; auto.
  repeat constructor. exact E.
Qed.

Lemma paramDecorators_named (dtoSchemas : JsMap.t dto) (target : paramTarget)
    (decorators : list decorator) :
  forall acc info',
  (forall info, acc = Some info -> Forall namedParam (pi_params info)) ->
  fold_left (paramDecoratorStep dtoSchemas target) decorators acc = Some info' ->
  Forall namedParam (pi_params info').
Proof.
  induction decorators as [|dec decorators IH]; intros acc info' H E.
  - simpl in E. auto.
  - simpl in E. eapply IH; [|exact E].
    intros info Hi. eapply paramDecoratorStep_named; eauto.
Qed.

Lemma paramList_named (dtoSchemas : JsMap.t dto) (paramList : list paramNode) :
  forall acc info',
  (forall info, acc = Some info -> Forall namedParam (pi_params info)) ->
  fold_left (paramListStep dtoSchemas) paramList acc = Some info' ->
  Forall namedParam (pi_params info').
Proof.
  induction paramList as [|p paramList IH]; intros acc info' H E.
  - simpl in E. auto.
  - simpl in E. eapply IH; [|exact E].
    intros info Hi. unfold paramListStep in Hi. destruct acc as [info0|]; [|discriminate].
    destruct (getParamDecorators p dtoSchemas) as [res|] eqn:G; [|discriminate].
    injection Hi as <-. cbn [pi_params]. apply Forall_app. split; [auto|].
    unfold getParamDecorators in G. eapply paramDecorators_named; [|exact G].
    intros info1 [= <-]. constructor.
Qed.

Lemma memberEndpoint_wellFormed (dtoSchemas : JsMap.t dto) (file basePath : string)
    (tags : list string) (memberNode : classMember) (es : list endpoint) :
  memberEndpoint dtoSchemas file basePath tags memberNode = Some es ->
  Forall (wellFormedHandler file) es.
Proof.
  unfold memberEndpoint.
  set (route := match memberNode with ClassMethod _ _ => _ | _ => _ end).
  destruct route as [[methodDecorators paramList]|]; [|intros [= <-]; constructor].
  destruct (r_httpMethod _) as [httpMethod|] eqn:V; [|intros [= <-]; constructor].
  destruct (fold_left (paramListStep dtoSchemas) paramList _) as [res|] eqn:P;
    [|discriminate].
  intros [= <-]. constructor; [|constructor].
  unfold wellFormedHandler.
  cbn [method path description key filePath params Model.tags ps_path ps_query].
  split. { eapply methodDecorator_verbs; [|exact V]. discriminate. }
  split; [apply normalizePath_normalized|].
  do 2 (split; [reflexivity|]).
  split. { destruct (r_description _) as [d|]; [destruct (JsString.truthy d) eqn:T|];
           auto; apply truthy_spaced. }
  do 3 (split; [apply nonEmpty_not_nil|]).
  intros ps E. apply nonEmpty_Some in E. subst ps.
  eapply paramList_named; [|exact P]. intros info [= <-]. constructor.
Qed.

Lemma classEndpoints_wellFormed (dtoSchemas : JsMap.t dto) (file basePath : string)
    (tags : list string) (body : list classMember) :
  forall es, classEndpoints dtoSchemas file basePath tags body = Some es ->
  Forall (wellFormedHandler file) es.
Proof.
  induction body as [|memberNode body IH]; intros es E; simpl in E.
  - injection E as <-. constructor.
  - destruct (memberEndpoint dtoSchemas file basePath tags memberNode) eqn:M; [|discriminate].
    destruct (classEndpoints dtoSchemas file basePath tags body); [|discriminate].
    injection E as <-. apply Forall_app. split; eauto using memberEndpoint_wellFormed.
Qed.

Lemma fileEndpoints_wellFormed (dtoSchemas : JsMap.t dto) (file : string) (tree : ast) :
  forall es, fileEndpoints dtoSchemas file tree = Some es ->
  Forall (wellFormedHandler file) es.
Proof.
  induction tree as [|n tree IH]; intros es E; simpl in E.
  - injection E as <-. constructor.
  - destruct n; auto.
    destruct (fold_left controllerStep (c_decorators c) ("", [])) as [basePath tags].
    destruct (classEndpoints dtoSchemas file basePath tags (c_body c)) eqn:C; [|discriminate].
    destruct (fileEndpoints dtoSchemas file tree); [|discriminate].
    injection E as <-. apply Forall_app. split; eauto using classEndpoints_wellFormed.
Qed.

(** X20. Every endpoint the decorator extractor returns has one of the
    seven methods in upper case, a path in normal form, the key of its
    method and path, a description that is not empty and the file it
    was read from; its tags, query parameters and path parameters are
    absent rather than empty, and every path parameter is required and
    has a name. *)
Theorem nest_endpoints_are_well_formed
    (env : platform) (file : string) (endpoints : list endpoint) :
  extractNestJsEndpoints env file = Some endpoints ->
  Forall (wellFormedHandler file) endpoints.
Proof.
  unfold extractNestJsEndpoints. destruct (parseFile env file) as [tree|]; [|discriminate].
  apply fileEndpoints_wellFormed.
Qed.

Lemma nest_endpoints_are_well_formed_witness :
  Forall (wellFormedHandler "/app/users.controller.ts") [getUser].
Proof.
  apply (nest_endpoints_are_well_formed oneFile "/app/users.controller.ts").
  vm_compute. reflexivity.
Defined.

End NestEndpoints.

(** ** The paths of a collection *)

Section DisplayPaths.
Import JsString Utils Postman.

Definition braceOf (m : string) : string := ("{" ++ dropFirst m ++ "}")%string.

(** The first replacement of [toDisplayPath]. *)
Definition colonsToBraces (s : string) : string := replaceAll colonParamAt braceOf s.

(** Every opening brace is followed by a word character. *)
Fixpoint guarded (s : string) : bool :=
  match s with
  | EmptyString => true
  | String c s' => (negb (Ascii.eqb c "{") || startsWord s') && guarded s'
  end.

Lemma replaceAllFrom_passes (attempt : string -> option string) (f : string -> string)
    (x rest : string) :
  replaceAllFrom attempt f (String.length x) (x ++ rest)
  = replaceAllFrom attempt f 0 rest.
Proof. induction x as [|c x IH]; [reflexivity|exact IH]. Qed.

Lemma colonsToBraces_match (w rest : string) :
  allWord w = true -> truthy w = true -> startsWord rest = false ->
  colonsToBraces (String ":" w ++ rest)
  = (String "{" (w ++ "}") ++ colonsToBraces rest)%string.
Proof.
  intros A T S. unfold colonsToBraces, replaceAll.
  assert (C : colonParamAt (String ":" w ++ rest) = Some (String ":" w)).
  { apply colonParamAt_spec. exists w, rest. auto. }
  change (String ":" w ++ rest)%string with (String ":" (w ++ rest)) in *.
  cbn [replaceAllFrom]. rewrite C.
  cbn [String.length Nat.sub]. rewrite Nat.sub_0_r, replaceAllFrom_passes.
  unfold braceOf. cbn [dropFirst]. simpl. now rewrite app_assoc_str.
Qed.

Lemma colonsToBraces_other (c : ascii) (s : string) :
  colonParamAt (String c s) = None ->
  colonsToBraces (String c s) = String c (colonsToBraces s).
Proof.
  intros C. unfold colonsToBraces, replaceAll. cbn [replaceAllFrom]. now rewrite C.
Qed.

Lemma guarded_word (w rest : string) :
  allWord w = true -> guarded (w ++ rest) = guarded rest.
Proof.
  induction w as [|c w IH]; [reflexivity|]. intros A. simpl in A.
  apply andb_true_iff in A as [A1 A2].
  change (String c w ++ rest)%string with (String c (w ++ rest)).
  cbn [guarded]. rewrite (IH A2).
  destruct (Ascii.eqb c "{") eqn:E; [|reflexivity].
  apply Ascii.eqb_eq in E. now subst.
Qed.

Lemma startsWord_app (w rest : string) :
  allWord w = true -> truthy w = true -> startsWord (w ++ rest) = true.
Proof.
  destruct w as [|c w]; [discriminate|]. simpl. intros A _.
  now apply andb_true_iff in A as [A _].
Qed.

(** On a text without an opening brace the first replacement gives a
    guarded text that [toPostmanPath] takes back. *)
Lemma colonsToBraces_back_upto (n : nat) :
  forall s, String.length s <= n -> contains "{" s = false ->
  guarded (colonsToBraces s) = true /\ toPostmanPath (colonsToBraces s) = s.
Proof.
  induction n as [|n IH]; intros s L B.
  - destruct s; [split; reflexivity|simpl in L; lia].
  - destruct s as [|c s]; [split; reflexivity|].
    destruct (colonParamAt (String c s)) as [m|] eqn:C.
    + apply colonParamAt_spec in C as (w & rest & E & -> & A & T & S).
      rewrite E in *. rewrite colonsToBraces_match by auto.
      assert (Br : contains "{" rest = false).
      { change (String ":" w ++ rest)%string with (String ":" (w ++ rest)) in B.
        simpl in B. rewrite contains_app in B. now apply orb_false_iff in B as [_ B]. }
      assert (Lr : String.length rest <= n).
      { simpl in L. rewrite length_app_str in L. lia. }
      destruct (IH rest Lr Br) as [G P]. split.
      * change (String "{" (w ++ "}") ++ colonsToBraces rest)%string
          with (String "{" ((w ++ "}") ++ colonsToBraces rest))%string.
        cbn [guarded]. rewrite app_assoc_str.
        rewrite (startsWord_app _ _ A T), guarded_word by auto.
        simpl. exact G.
      * rewrite toPostmanPath_match by auto. now rewrite P.
    + rewrite colonsToBraces_other by auto.
      simpl in B. apply orb_false_iff in B as [B1 B2].
      assert (Ls : String.length s <= n) by (simpl in L; lia).
      destruct (IH s Ls B2) as [G P]. split.
      * cbn [guarded]. now rewrite B1, G.
      * rewrite toPostmanPath_other, P; [reflexivity|].
        now apply braceParamAt_not_brace.
Qed.

Lemma doubleBraceAt_guarded (s : string) : guarded s = true -> doubleBraceAt s = None.
Proof.
  destruct s as [|c [|d rest]]; try reflexivity. cbn [guarded doubleBraceAt].
  intros G. destruct (takeWord rest) as [w after].
  destruct after as [|e [|f after]]; try reflexivity.
  destruct (Ascii.eqb c "{") eqn:C; [|reflexivity].
  apply andb_true_iff in G as [G _]. simpl in G.
  destruct (Ascii.eqb d "{") eqn:D; [|reflexivity].
  apply Ascii.eqb_eq in D. subst d. discriminate.
Qed.

Lemma guarded_fixed (f : string -> string) (s : string) :
  guarded s = true -> replaceAll doubleBraceAt f s = s.
Proof.
  unfold replaceAll. induction s as [|c s IH]; [reflexivity|]. intros G.
  cbn [replaceAllFrom]. rewrite (doubleBraceAt_guarded _ G).
  cbn [guarded] in G. apply andb_true_iff in G as [_ G]. now rewrite IH.
Qed.

Lemma contains_trimStart (c : ascii) (s : string) :
  contains c s = false -> contains c (trimStart s) = false.
Proof.
  induction s as [|d s IH]; [reflexivity|]. simpl. intros H.
  destruct (isWhiteSpace d); [|exact H].
  apply orb_false_iff in H as [_ H]. auto.
Qed.

Lemma contains_trimEnd (c : ascii) (s : string) :
  contains c s = false -> contains c (trimEnd s) = false.
Proof.
  induction s as [|d s IH]; [reflexivity|]. intros H. simpl in H.
  apply orb_false_iff in H as [H1 H2]. specialize (IH H2).
  rewrite trimEnd_cons. destruct (trimEnd s).
  - destruct (isWhiteSpace d); simpl; [reflexivity|now rewrite H1].
  - simpl in *. now rewrite H1, IH.
Qed.

Lemma contains_collapseSlashes (c : ascii) (s : string) :
  contains c s = false -> contains c (collapseSlashes s) = false.
Proof.
  induction s as [|d s IH]; [reflexivity|]. intros H. simpl in H.
  apply orb_false_iff in H as [H1 H2]. cbn [collapseSlashes].
  destruct (Ascii.eqb d "/" && startsWith "/" s); [auto|].
  simpl. now rewrite H1, IH.
Qed.

Lemma contains_dropLast (c : ascii) (s : string) :
  contains c s = false -> contains c (dropLast s) = false.
Proof.
  induction s as [|d s IH]; [reflexivity|]. intros H.
  destruct s as [|e s]; [reflexivity|].
  change (dropLast (String d (String e s))) with (String d (dropLast (String e s))).
  simpl in H. apply orb_false_iff in H as [H1 H2].
  cbn [contains]. rewrite H1. exact (IH H2).
Qed.

Lemma contains_normalizePath (p : string) :
  contains "{" p = false -> contains "{" (normalizePath p) = false.
Proof.
  intros H. rewrite normalizePath_finish. destruct (negb (truthy p)); [reflexivity|].
  unfold finish, trim.
  pose proof (contains_trimEnd _ _ (contains_trimStart _ _ H)) as H1.
  set (out := trimEnd (trimStart p)) in *.
  assert (H2 : contains "{" (if negb (startsWith "/" out) then ("/" ++ out)%string else out)
               = false) by (destruct (negb (startsWith "/" out)); auto).
  apply contains_collapseSlashes in H2.
  destruct (_ && _); auto using contains_dropLast.
Qed.

(** X21. For a path without an opening brace, the display path, in
    which each [:name] is written [{name}], is taken back by
    [toPostmanPath] to the normalized path. *)
Theorem display_path_converts_back (p : string) :
  contains "{" p = false ->
  toDisplayPath p = colonsToBraces (normalizePath p) /\
  toPostmanPath (toDisplayPath p) = normalizePath p.
Proof.
  intros B.
  assert (O : normalizePath (orElse p "/") = normalizePath p) by (destruct p; reflexivity).
  destruct (colonsToBraces_back_upto _ (normalizePath p) (le_n _)
              (contains_normalizePath _ B)) as [G P].
  assert (D : toDisplayPath p = colonsToBraces (normalizePath p)).
  { unfold toDisplayPath. rewrite O. now apply guarded_fixed. }
  rewrite D. auto.
Qed.

Lemma display_path_converts_back_witness :
  toDisplayPath "users/:id/posts/:post_id/"
  = colonsToBraces (normalizePath "users/:id/posts/:post_id/") /\
  toPostmanPath (toDisplayPath "users/:id/posts/:post_id/") = "/users/:id/posts/:post_id".
Proof.
  apply (display_path_converts_back "users/:id/posts/:post_id/"). reflexivity.
Defined.

End DisplayPaths.

(** ** The requests of a collection *)

Section GroupingFacts.
Import Model Postman.

Variable Item : Type.
Variable buildItem : endpoint -> Item.

Definition itemsOr (groups : JsMap.t (list Item)) (name : string) : list Item :=
  match JsMap.get name groups with
  | Some items => items
  | None => []
  end.

Lemma addTo_get (name : string) (e : endpoint) (groups : JsMap.t (list Item))
    (name' : string) :
  JsMap.get name' (addTo Item buildItem name e groups)
  = if String.eqb name' name then Some (itemsOr groups name ++ [buildItem e])
    else JsMap.get name' groups.
Proof.
  unfold addTo, itemsOr, JsMap.has.
  destruct (JsMap.get name groups) as [items|] eqn:G.
  - rewrite G. destruct (String.eqb name' name) eqn:E.
    + apply String.eqb_eq in E. subst. apply JsMap_get_set_same.
    + apply String.eqb_neq in E. now apply JsMap_get_set_other.
  - rewrite JsMap_get_set_same. destruct (String.eqb name' name) eqn:E.
    + apply String.eqb_eq in E. subst. apply JsMap_get_set_same.
    + apply String.eqb_neq in E. now rewrite !JsMap_get_set_other.
Qed.

Lemma addTo_keys (name : string) (e : endpoint) (groups : JsMap.t (list Item)) :
  JsMap.keys (addTo Item buildItem name e groups)
  = if JsMap.has name groups then JsMap.keys groups else JsMap.keys groups ++ [name].
Proof.
  unfold addTo. destruct (JsMap.has name groups) eqn:H.
  - unfold JsMap.has in H. destruct (JsMap.get name groups) eqn:G; [|discriminate].
    rewrite JsMap_keys_set. unfold JsMap.has. now rewrite G.
  - rewrite JsMap_get_set_same, !JsMap_keys_set, H.
    unfold JsMap.has. now rewrite JsMap_get_set_same.
Qed.

Section ByLabel.
Variable label : endpoint -> string.

Definition labelled (name : string) (endpoints : list endpoint) : list endpoint :=
  filter (fun e => String.eqb (label e) name) endpoints.

Definition grouped (endpoints : list endpoint) (groups : JsMap.t (list Item))
    : JsMap.t (list Item) :=
  fold_left (fun groups e => addTo Item buildItem (label e) e groups) endpoints groups.

Lemma grouped_get (endpoints : list endpoint) :
  forall groups name,
  JsMap.get name (grouped endpoints groups)
  = match labelled name endpoints with
    | [] => JsMap.get name groups
    | es => Some (itemsOr groups name ++ map buildItem es)
    end.
Proof.
  induction endpoints as [|e endpoints IH]; intros groups name; [reflexivity|].
  cbn [grouped fold_left]. fold (grouped endpoints). rewrite IH.
  unfold labelled. cbn [filter]. unfold itemsOr at 1. rewrite !addTo_get.
  rewrite (String.eqb_sym (label e) name).
  destruct (String.eqb name (label e)) eqn:E.
  - apply String.eqb_eq in E. subst name.
    destruct (filter _ endpoints) as [|e' es]; cbn [map]; [reflexivity|].
    now rewrite <- app_assoc.
  - reflexivity.
Qed.

Lemma grouped_keys (endpoints : list endpoint) :
  forall groups,
  JsMap.keys (grouped endpoints groups)
  = JsMap.keys groups ++
    filter (fun k => negb (JsMap.has k groups)) (firstOccurrences (map label endpoints)).
Proof.
  induction endpoints as [|e endpoints IH]; intros groups; [simpl; now rewrite app_nil_r|].
  cbn [grouped fold_left]. fold (grouped endpoints).
  cbn [map firstOccurrences filter]. rewrite IH, addTo_keys, filter_filter.
  assert (H : forall x, JsMap.has x (addTo Item buildItem (label e) e groups)
                        = String.eqb x (label e) || JsMap.has x groups).
  { intros x. unfold JsMap.has at 1. rewrite addTo_get.
    destruct (String.eqb x (label e)); reflexivity. }
  destruct (JsMap.has (label e) groups) eqn:K; cbn [negb].
  - f_equal. apply filter_ext. intros x. rewrite H.
    destruct (String.eqb x (label e)) eqn:E; [|reflexivity].
    apply String.eqb_eq in E. subst x. now rewrite K.
  - rewrite <- app_assoc. simpl. do 2 f_equal. apply filter_ext. intros x. rewrite H.
    destruct (String.eqb x (label e)); reflexivity.
Qed.

Lemma NoDup_firstOccurrences (l : list string) : NoDup (firstOccurrences l).
Proof.
  induction l as [|k l IH]; [constructor|]. simpl. constructor.
  - intros I. apply filter_In in I as [_ I]. now rewrite String.eqb_refl in I.
  - now apply NoDup_filter.
Qed.

(** The groups made of a list of endpoints by a label. *)
Lemma groupsOf_grouped (endpoints : list endpoint) :
  map (@g_name Item) (groupsOf Item (grouped endpoints JsMap.empty))
  = firstOccurrences (map label endpoints) /\
  forall g, In g (groupsOf Item (grouped endpoints JsMap.empty)) ->
    g_item Item g = map buildItem (labelled (g_name Item g) endpoints) /\
    g_item Item g <> [].
Proof.
  pose proof (grouped_keys endpoints JsMap.empty) as K. simpl in K.
  rewrite filter_all in K by (apply Forall_forall; auto).
  split.
  - unfold groupsOf. rewrite map_map. exact K.
  - intros g I. unfold groupsOf in I. apply in_map_iff in I as ([name items] & <- & I).
    cbn [g_name g_item fst snd].
    apply JsMap_In_get in I; [|rewrite K; apply NoDup_firstOccurrences].
    rewrite grouped_get in I. destruct (labelled name endpoints) as [|e es];
      [discriminate|].
    injection I as <-. split; [reflexivity|discriminate].
Qed.

End ByLabel.

(** X22. Both ways of grouping keep every request once: the groups
    come in the order in which their names first occur among the
    endpoints, no group is empty, and a group holds the requests of
    the endpoints with its name, in the order of the endpoints. *)
Theorem requests_are_grouped (cleanLabel : string -> string)
    (deriveFolderName : endpoint -> string) (endpoints : list endpoint) :
  (map (@g_name Item) (buildFolderItems Item buildItem deriveFolderName endpoints)
   = firstOccurrences (map deriveFolderName endpoints) /\
   forall g, In g (buildFolderItems Item buildItem deriveFolderName endpoints) ->
     g_item Item g = map buildItem (labelled deriveFolderName (g_name Item g) endpoints) /\
     g_item Item g <> []) /\
  (map (@g_name Item) (buildTaggedItems Item buildItem cleanLabel endpoints)
   = firstOccurrences (map (tagOf cleanLabel) endpoints) /\
   forall g, In g (buildTaggedItems Item buildItem cleanLabel endpoints) ->
     g_item Item g = map buildItem (labelled (tagOf cleanLabel) (g_name Item g) endpoints) /\
     g_item Item g <> []).
Proof.
  split.
  - apply (groupsOf_grouped deriveFolderName).
  - apply (groupsOf_grouped (tagOf cleanLabel)).
Qed.

End GroupingFacts.

Section GroupingExamples.
Import Model Postman.

Definition request (verb route : string) (labels : option (list string)) : endpoint :=
  {| method := verb; path := route; description := (verb ++ " " ++ route)%string;
     tags := labels;
     params := {| ps_path := None; ps_query := None; ps_body := None |};
     filePath := None; key := (verb ++ " " ++ route)%string |}.

Definition threeRequests : list endpoint :=
  [ request "GET" "/users" (Some ["Users"]);
    request "GET" "/health" None;
    request "POST" "/users" (Some ["Users"; "Admin"]) ].

Lemma requests_are_grouped_witness :
  g_item string {| g_name := "Users"; g_item := ["GET /users"; "POST /users"] |}
  = map key (labelled (tagOf (fun label => label)) "Users" threeRequests).
Proof.
  apply (proj2 (proj2 (requests_are_grouped string key (fun label => label) method
                         threeRequests))
           {| g_name := "Users"; g_item := ["GET /users"; "POST /users"] |}).
  left. reflexivity.
Defined.

End GroupingExamples.

(** ** The endpoints of the router-graph extractor *)

Section HonoEndpoints.
Import Ast Model Hono.

Lemma has_set_same {V} (k : string) (v : V) (m : JsMap.t V) :
  JsMap.has k (JsMap.set k v m) = true.
Proof. unfold JsMap.has. now rewrite JsMap_get_set_same. Qed.

Lemma has_set_mono {V} (k k' : string) (v : V) (m : JsMap.t V) :
  JsMap.has k' m = true -> JsMap.has k' (JsMap.set k v m) = true.
Proof.
  intros H. destruct (String.eqb k' k) eqn:E.
  - apply String.eqb_eq in E. subst. apply has_set_same.
  - apply String.eqb_neq in E. unfold JsMap.has in *. now rewrite JsMap_get_set_other.
Qed.

Lemma has_get {V} (k : string) (m : JsMap.t V) :
  JsMap.has k m = true -> exists v, JsMap.get k m = Some v.
Proof. unfold JsMap.has. destruct (JsMap.get k m); [eauto|discriminate]. Qed.

(** *** What the visitors of a file keep *)

(** From one state of the visitors to a later one: the routers stay,
    and a new endpoint is on a router that is there. *)
Definition extends (st st' : parseState) : Prop :=
  (forall k, JsMap.has k (st_routers st) = true -> JsMap.has k (st_routers st') = true) /\
  (forall e, In e (st_endpoints st') ->
     In e (st_endpoints st) \/ JsMap.has (re_routerVar e) (st_routers st') = true).

Lemma extends_refl (st : parseState) : extends st st.
Proof. split; auto. Qed.

Lemma extends_trans (st1 st2 st3 : parseState) :
  extends st1 st2 -> extends st2 st3 -> extends st1 st3.
Proof.
  intros [R1 E1] [R2 E2]. split; [auto|].
  intros e I. destruct (E2 e I) as [I2|H]; [|auto].
  destruct (E1 e I2) as [I1|H]; auto.
Qed.

Lemma extends_same (st st' : parseState) :
  st_routers st' = st_routers st -> st_endpoints st' = st_endpoints st -> extends st st'.
Proof. intros R E. split; rewrite ?R, ?E; auto. Qed.

Lemma extends_fold {A} (f : parseState -> A -> parseState) (l : list A) :
  (forall st a, extends st (f st a)) -> forall st, extends st (fold_left f l st).
Proof.
  intros H. induction l as [|a l IH]; intros st; [apply extends_refl|].
  simpl. eapply extends_trans; [apply H|apply IH].
Qed.

Lemma extends_withRouters (f : JsMap.t routerMeta -> JsMap.t routerMeta)
    (st : parseState) :
  (forall k, JsMap.has k (st_routers st) = true -> JsMap.has k (f (st_routers st)) = true) ->
  extends st (withRouters f st).
Proof. intros H. split; cbn; auto. Qed.

Lemma extends_pushEndpoints (es : list rawEndpoint) (st : parseState) :
  (forall e, In e es -> JsMap.has (re_routerVar e) (st_routers st) = true) ->
  extends st (pushEndpoints es st).
Proof.
  intros H. split; cbn; auto.
  intros e I. apply in_app_iff in I as [I|I]; auto.
Qed.

Lemma recordBasePath_mono (routers : JsMap.t routerMeta) (routerVar basePath k : string) :
  JsMap.has k routers = true ->
  JsMap.has k (recordBasePath routers routerVar basePath) = true.
Proof.
  intros H. unfold recordBasePath.
  destruct (negb (JsString.truthy basePath)); auto using has_set_mono.
Qed.

Lemma ensureRouter_has (routerVar : string) (st : parseState) :
  extends st (ensureRouter routerVar st) /\
  JsMap.has routerVar (st_routers (ensureRouter routerVar st)) = true.
Proof.
  unfold ensureRouter. split.
  - apply extends_withRouters. intros k H.
    destruct (JsMap.has routerVar (st_routers st)); auto using has_set_mono.
  - cbn. destruct (JsMap.has routerVar (st_routers st)) eqn:H; auto using has_set_same.
Qed.

Lemma verbEndpoint_var (routerVar name : string) (args : list expr)
    (schemaDefs : JsMap.t expr) (e : rawEndpoint) :
  In e (verbEndpoint routerVar name args schemaDefs) -> re_routerVar e = routerVar.
Proof.
  unfold verbEndpoint. destruct (JsString.truthy _); [|intros []].
  intros [<-|[]]. reflexivity.
Qed.

Lemma onEndpoints_var (routerVar : string) (isCall : bool) (args : list expr)
    (e : rawEndpoint) :
  In e (onEndpoints routerVar isCall args) -> re_routerVar e = routerVar.
Proof.
  unfold onEndpoints. intros I. apply in_map_iff in I as (m & <- & _). reflexivity.
Qed.

Lemma openapiEndpoint_var (routerVar : string) (args : list expr)
    (routeDefs : JsMap.t routeDef) (e : rawEndpoint) :
  In e (openapiEndpoint routerVar args routeDefs) -> re_routerVar e = routerVar.
Proof.
  unfold openapiEndpoint. destruct (parseOpenApiRouteArg _ _); [|intros []].
  intros [<-|[]]. reflexivity.
Qed.

(** Endpoints of one router pushed on a state that has the router. *)
Lemma extends_push_on (routerVar : string) (es : list rawEndpoint) (st : parseState) :
  JsMap.has routerVar (st_routers st) = true ->
  (forall e, In e es -> re_routerVar e = routerVar) ->
  extends st (pushEndpoints es st) /\
  JsMap.has routerVar (st_routers (pushEndpoints es st)) = true.
Proof.
  intros H V. split; [|exact H].
  apply extends_pushEndpoints. intros e I. now rewrite (V e I).
Qed.

Lemma chainCallStep_extends (varName : string) (st : parseState) (c : call) :
  JsMap.has varName (st_routers st) = true ->
  extends st (chainCallStep varName st c) /\
  JsMap.has varName (st_routers (chainCallStep varName st c)) = true.
Proof.
  intros H. unfold chainCallStep.
  set (st1 := if String.eqb (c_name c) "basePath" then _ else st).
  assert (S1 : extends st st1 /\ JsMap.has varName (st_routers st1) = true).
  { unfold st1. destruct (String.eqb (c_name c) "basePath"); [|split; auto using extends_refl].
    split; [apply extends_withRouters; intros; now apply recordBasePath_mono|].
    cbn. now apply recordBasePath_mono. }
  destruct S1 as [X1 H1].
  set (st2 := if JsSet.has (c_name c) HONO_METHODS then _ else st1).
  assert (S2 : extends st1 st2 /\ JsMap.has varName (st_routers st2) = true).
  { unfold st2. destruct (JsSet.has (c_name c) HONO_METHODS); [|split; auto using extends_refl].
    apply extends_push_on; auto. intros e. apply verbEndpoint_var. }
  destruct S2 as [X2 H2].
  set (st3 := if String.eqb (c_name c) "on" then _ else st2).
  assert (S3 : extends st2 st3 /\ JsMap.has varName (st_routers st3) = true).
  { unfold st3. destruct (String.eqb (c_name c) "on"); [|split; auto using extends_refl].
    apply extends_push_on; auto. intros e. apply onEndpoints_var. }
  destruct S3 as [X3 H3].
  assert (S4 : extends st3 (if String.eqb (c_name c) "openapi"
                            then pushEndpoints (openapiEndpoint varName (c_args c)
                                                  (st_routeDefs st3)) st3
                            else st3) /\
               JsMap.has varName
                 (st_routers (if String.eqb (c_name c) "openapi"
                              then pushEndpoints (openapiEndpoint varName (c_args c)
                                                    (st_routeDefs st3)) st3
                              else st3)) = true).
  { destruct (String.eqb (c_name c) "openapi"); [|split; auto using extends_refl].
    apply extends_push_on; auto. intros e. apply openapiEndpoint_var. }
  destruct S4 as [X4 H4]. split; [|exact H4].
  eauto using extends_trans.
Qed.

Lemma chain_extends (varName : string) (calls : list call) :
  forall st, JsMap.has varName (st_routers st) = true ->
  extends st (fold_left (chainCallStep varName) calls st).
Proof.
  induction calls as [|c calls IH]; intros st H; [apply extends_refl|].
  simpl. destruct (chainCallStep_extends varName st c H) as [X H'].
  eapply extends_trans; [exact X|now apply IH].
Qed.

Lemma visitVariableDeclarator_extends (varName : string) (init : expr) (st : parseState) :
  extends st (visitVariableDeclarator varName init st).
Proof.
  unfold visitVariableDeclarator.
  set (st1 := match init with CallExpression _ _ => _ | _ => _ end).
  assert (X1 : extends st st1).
  { unfold st1. destruct init; try apply extends_refl; now apply extends_same. }
  eapply extends_trans; [exact X1|].
  destruct (parseCreateRoute (Some init)); [now apply extends_same|].
  assert (N : extends st1 (withRouters (JsMap.set varName {| rm_basePath := "" |}) st1))
    by (apply extends_withRouters; intros; now apply has_set_mono).
  destruct init; try apply extends_refl.
  - destruct (parseCallChain _) as [root calls].
    destruct (isHonoNewExpression root); [|apply extends_refl].
    eapply extends_trans; [exact N|]. apply chain_extends. cbn. apply has_set_same.
  - destruct (isHonoNewExpression _); [exact N|apply extends_refl].
Qed.

Lemma visitCallExpression_extends (callee : expr) (arguments : list expr)
    (st : parseState) :
  extends st (visitCallExpression callee arguments st).
Proof.
  unfold visitCallExpression.
  destruct callee as [| | | | | |object property| | | |]; try apply extends_refl.
  destruct object as [routerVar| | | | | | | | | |]; try apply extends_refl.
  destruct property as [methodName| | | | | | | | | |]; try apply extends_refl.
  destruct (ensureRouter_has routerVar st) as [X H].
  destruct (String.eqb methodName "basePath").
  { eapply extends_trans; [exact X|].
    apply extends_withRouters. intros. now apply recordBasePath_mono. }
  destruct (String.eqb methodName "route").
  { eapply extends_trans; [exact X|].
    destruct (nth_error arguments 1) as [[child| | | | | | | | | |]|];
      try apply extends_refl.
    destruct (JsString.truthy _); [now apply extends_same|apply extends_refl]. }
  destruct (JsSet.has methodName HONO_METHODS).
  { eapply extends_trans; [exact X|].
    refine (proj1 (extends_push_on routerVar _ _ H _)). intros e. apply verbEndpoint_var. }
  destruct (String.eqb methodName "on").
  { eapply extends_trans; [exact X|].
    refine (proj1 (extends_push_on routerVar _ _ H _)). intros e. apply onEndpoints_var. }
  destruct (String.eqb methodName "openapi"); [|apply extends_refl].
  eapply extends_trans; [exact X|].
  refine (proj1 (extends_push_on routerVar _ _ H _)). intros e. apply openapiEndpoint_var.
Qed.

Lemma visit_extends (env : platform) (file : string) (st : parseState) (n : node) :
  extends st (visit env file st n).
Proof.
  destruct n as [source specifiers|declaration|declaration specifiers|id init|callee arguments|c];
    cbn [visit].
  - destruct (_ || _); [apply extends_refl|].
    destruct (resolveImportFile _ _ _); [|apply extends_refl].
    apply extends_fold. intros st0 spec. destruct spec; try apply extends_refl;
      now apply extends_same.
  - destruct declaration; try apply extends_refl. now apply extends_same.
  - apply (extends_trans st
             (match declaration with
              | Some ids => fold_left exportDeclaredStep ids st
              | None => st
              end)).
    + destruct declaration as [ids|]; [|apply extends_refl].
      apply extends_fold. intros st0 [name|]; [now apply extends_same|apply extends_refl].
    + apply extends_fold. intros st0 [exported local|];
        [now apply extends_same|apply extends_refl].
  - destruct id as [varName|]; [|apply extends_refl].
    destruct init as [init|]; [|apply extends_refl].
    apply visitVariableDeclarator_extends.
  - apply visitCallExpression_extends.
  - apply extends_refl.
Qed.

(** Every endpoint read in a file is on a router of the file. *)
Lemma parseHonoFile_routed (env : platform) (file : string) (data : fileData) :
  parseHonoFile env file = Some data ->
  fd_filePath data = file /\ parses env file = true /\
  forall e, In e (fd_endpoints data) ->
    JsMap.has (re_routerVar e) (fd_routers data) = true.
Proof.
  unfold parseHonoFile, parses. destruct (parseFile env file) as [tree|]; [|discriminate].
  intros [= <-]. cbn. repeat split; auto.
  pose proof (extends_fold (visit env file) tree (visit_extends env file) initial) as [_ E].
  intros e I. destruct (E e I) as [[]|H]. exact H.
Qed.

(** *** The files behind the index and the graph *)

Lemma fold_left_invariant {A B} (P : A -> Prop) (f : A -> B -> A) (l : list B) :
  (forall a b, In b l -> P a -> P (f a b)) -> forall a, P a -> P (fold_left f l a).
Proof.
  induction l as [|b l IH]; intros H a Pa; [exact Pa|].
  simpl. apply IH; [intros; apply H; auto; now right|]. apply H; auto. now left.
Qed.

Lemma fold_left_reaches {A B} (P : A -> Prop) (f : A -> B -> A) (l : list B) (b : B) :
  (forall a b', P a -> P (f a b')) -> (forall a, P (f a b)) -> In b l ->
  forall a, P (fold_left f l a).
Proof.
  intros M R. induction l as [|b0 l IH]; intros I a; [destruct I|].
  simpl. destruct I as [->|I]; [|now apply IH].
  apply fold_left_invariant; auto.
Qed.

Lemma values_In {V} (v : V) (m : JsMap.t V) :
  In v (JsMap.values m) <-> exists k, In (k, v) m.
Proof.
  unfold JsMap.values. rewrite in_map_iff. split.
  - intros ([k v'] & <- & I). eauto.
  - intros (k & I). exists (k, v). auto.
Qed.

(** A file of the table was given and was parsed. *)
Lemma parseAll_parsed (env : platform) (files : list string) (data : fileData) :
  In data (JsMap.values (parseAll env files)) ->
  exists f, In f files /\ parseHonoFile env f = Some data.
Proof.
  intros I. apply values_In in I as (k & I). exists k. revert k data I.
  unfold parseAll.
  apply (fold_left_invariant
           (fun m : JsMap.t fileData =>
              forall k data, In (k, data) m ->
              In k files /\ parseHonoFile env k = Some data)).
  - intros m f If H k data I.
    destruct (parseHonoFile env f) as [d|] eqn:P; [|auto].
    apply JsMap_set_In in I as [[-> ->]|I]; auto.
  - intros k data [].
Qed.

Section Table.
Variable fileDataMap : JsMap.t fileData.

Lemma indexFile_mono (routers : JsMap.t routerNode) (data : fileData) (k : string) :
  JsMap.has k routers = true -> JsMap.has k (indexFile routers data) = true.
Proof.
  unfold indexFile.
  apply (fold_left_invariant (fun m : JsMap.t routerNode => JsMap.has k m = true)).
  intros; now apply has_set_mono.
Qed.

(** Every router of a file of the table is in the index. *)
Lemma buildRouterIndex_has (data : fileData) (varName : string) :
  In data (JsMap.values fileDataMap) ->
  JsMap.has varName (fd_routers data) = true ->
  JsMap.has (routerId (fd_filePath data) varName) (buildRouterIndex fileDataMap) = true.
Proof.
  intros I H. unfold buildRouterIndex.
  apply (fold_left_reaches
           (fun routers => JsMap.has (routerId (fd_filePath data) varName) routers = true)
           indexFile _ data); auto.
  - intros; now apply indexFile_mono.
  - intros routers. unfold indexFile.
    apply has_get in H as (meta & G). apply JsMap_get_In in G.
    apply (fold_left_reaches
             (fun routers => JsMap.has (routerId (fd_filePath data) varName) routers = true)
             _ _ (varName, meta)); auto.
    + intros; now apply has_set_mono.
    + intros; apply has_set_same.
Qed.

(** Every router of the index is in a file of the table. *)
Lemma buildRouterIndex_file (id : string) (router : routerNode) :
  JsMap.get id (buildRouterIndex fileDataMap) = Some router ->
  exists data, In data (JsMap.values fileDataMap) /\ rn_filePath router = fd_filePath data.
Proof.
  intros G. apply JsMap_get_In in G. revert id router G. unfold buildRouterIndex.
  apply (fold_left_invariant
           (fun routers : JsMap.t routerNode =>
              forall id router, In (id, router) routers ->
              exists data, In data (JsMap.values fileDataMap) /\
                           rn_filePath router = fd_filePath data)).
  - intros routers data I H. unfold indexFile.
    apply (fold_left_invariant
             (fun routers : JsMap.t routerNode =>
                forall id router, In (id, router) routers ->
                exists data, In data (JsMap.values fileDataMap) /\
                             rn_filePath router = fd_filePath data)); [|exact H].
    intros routers' entry _ H' id router Ir.
    apply JsMap_set_In in Ir as [[-> ->]|Ir]; eauto.
  - intros id router [].
Qed.

(** Every endpoint of the graph was read in a file of the table, and
    is under the router it was read on. *)
Lemma buildGraph_endpoints (id : string) (routes : list rawEndpoint) (e : rawEndpoint) :
  In (id, routes) (g_endpointsByRouter (buildGraph fileDataMap)) -> In e routes ->
  exists data, In data (JsMap.values fileDataMap) /\ In e (fd_endpoints data) /\
               id = routerId (fd_filePath data) (re_routerVar e).
Proof.
  revert id routes e. unfold buildGraph.
  apply (fold_left_invariant
           (fun g : graph =>
              forall id routes e, In (id, routes) (g_endpointsByRouter g) -> In e routes ->
              exists data, In data (JsMap.values fileDataMap) /\ In e (fd_endpoints data) /\
                           id = routerId (fd_filePath data) (re_routerVar e))).
  - intros g data I H. unfold collectFile.
    set (P := fun g : graph =>
              forall id routes e, In (id, routes) (g_endpointsByRouter g) -> In e routes ->
              exists data, In data (JsMap.values fileDataMap) /\ In e (fd_endpoints data) /\
                           id = routerId (fd_filePath data) (re_routerVar e)).
    apply (fold_left_invariant P).
    + intros g' m _ H'. unfold collectMount.
      destruct (truthyOpt _); exact H'.
    + apply (fold_left_invariant P); [|exact H].
      intros g' e0 I0 H' id routes e Ir Ie. cbn in Ir.
      apply pushTo_In in Ir as [Ir|(-> & l & -> & L)]; [eauto|].
      apply in_app_iff in Ie as [Ie|[<-|[]]]; [|eauto].
      destruct L as [->|L]; [destruct Ie|eauto].
  - intros id routes e [].
Qed.

End Table.

Lemma emissions_In (endpointsByRouter : JsMap.t (list rawEndpoint))
    (prefixes : JsMap.t JsSet.t) (id prefix : string) (e : rawEndpoint) :
  In (id, prefix, e) (emissions endpointsByRouter prefixes) ->
  exists routes, In (id, routes) endpointsByRouter /\ In e routes.
Proof.
  unfold emissions. intros I. apply in_flat_map in I as ([k routes] & Ik & I).
  apply in_flat_map in I as (p & _ & I). apply in_map_iff in I as (e' & [= <- <- <-] & Ie).
  eauto.
Qed.

(** An endpoint as the router-graph extractor builds it from the files
    it is given. *)
Definition wellFormedMount (env : platform) (files : list string) (e : endpoint) : Prop :=
  normalized (path e) /\
  key e = Utils.toKey (method e) (path e) /\
  JsString.truthy (description e) = true /\
  tags e = None /\
  exists file, filePath e = Some file /\ In file files /\ parses env file = true.

(** X23. Every endpoint the router-graph extractor returns has a path
    in normal form, the key of its method and path, a description that
    is not empty, and the path of one of the files given that could be
    parsed: the router of an endpoint is always found in the index. *)
Theorem hono_endpoints_are_well_formed
    (env : platform) (fuel : nat) (files : list string) (endpoints : list endpoint) :
  extractHonoEndpoints env fuel files = Some endpoints ->
  Forall (wellFormedMount env files) endpoints.
Proof.
  unfold extractHonoEndpoints.
  set (table := parseAll env files).
  destruct (bfsLoop _ _ _ _) as [b|]; [|discriminate].
  intros [= <-]. apply Forall_forall. intros x I.
  apply in_map_iff in I as ([[id prefix] e] & <- & I).
  apply emissions_In in I as (routes & Ir & Ie).
  destruct (buildGraph_endpoints table _ _ _ Ir Ie) as (data & Id & Ied & ->).
  destruct (parseAll_parsed env files data Id) as (f & If & P).
  destruct (parseHonoFile_routed env f data P) as (Ef & _ & R).
  pose proof (buildRouterIndex_has table data (re_routerVar e) Id (R e Ied)) as H.
  apply has_get in H as (router & G).
  destruct (buildRouterIndex_file table _ _ G) as (data' & Id' & Er).
  destruct (parseAll_parsed env files data' Id') as (f' & If' & P').
  destruct (parseHonoFile_routed env f' data' P') as (Ef' & Pf' & _).
  unfold wellFormedMount, emit. rewrite G.
  cbn [method path description key filePath Model.tags option_map].
  split; [apply normalizePath_normalized|].
  split; [reflexivity|].
  split. { unfold JsString.orElse. destruct (JsString.truthy (re_description e)) eqn:T;
           [exact T|apply truthy_spaced]. }
  split; [reflexivity|].
  exists f'. rewrite Er, Ef'. auto.
Qed.

Lemma hono_endpoints_are_well_formed_witness :
  exists endpoints,
    extractHonoEndpoints diamondDisk 5 ["/app/d.ts"] = Some endpoints /\
    Forall (wellFormedMount diamondDisk ["/app/d.ts"]) endpoints.
Proof.
  eexists. split; [vm_compute; reflexivity|].
  apply (hono_endpoints_are_well_formed diamondDisk 5 ["/app/d.ts"]).
  vm_compute. reflexivity.
Defined.

End HonoEndpoints.

(** ** Joining paths *)

Section JoinPaths.
Import JsString Utils.

(** The segments of a path: what stands between its slashes. *)
Definition segments (s : string) : list string := filter truthy (splitOn "/" s).

Definition segment (piece : string) : Prop :=
  truthy piece = true /\ contains "/" piece = false.

Lemma splitOn_app (sep : ascii) (a b : string) :
  splitOn sep (a ++ String sep b) = splitOn sep a ++ splitOn sep b.
Proof.
  induction a as [|c a IH].
  - simpl. now rewrite Ascii.eqb_refl.
  - change (String c a ++ String sep b)%string with (String c (a ++ String sep b)).
    rewrite !splitOn_cons, IH. destruct (Ascii.eqb c sep); [reflexivity|].
    pose proof (splitOn_not_nil sep a). destruct (splitOn sep a); [contradiction|reflexivity].
Qed.

Lemma segments_app (a b : string) :
  segments (a ++ "/" ++ b) = segments a ++ segments b.
Proof. unfold segments. simpl. now rewrite splitOn_app, filter_app. Qed.

Lemma segments_slash (s : string) : segments (String "/" s) = segments s.
Proof. unfold segments. rewrite splitOn_cons. reflexivity. Qed.

Lemma segments_collapseSlashes (s : string) :
  segments (collapseSlashes s) = segments s.
Proof.
  induction s as [|c s IH]; [reflexivity|]. cbn [collapseSlashes].
  destruct (Ascii.eqb c "/") eqn:C; cbn [andb].
  - apply Ascii.eqb_eq in C. subst c.
    destruct (startsWith "/" s); rewrite !segments_slash; exact IH.
  - unfold segments in *. rewrite !splitOn_cons, C.
    revert IH. generalize (splitOn_not_nil "/" (collapseSlashes s)) (splitOn_not_nil "/" s).
    assert (Hd : hd "" (splitOn "/" (collapseSlashes s)) = hd "" (splitOn "/" s)).
    { clear. induction s as [|d s IH]; [reflexivity|]. cbn [collapseSlashes].
      destruct (Ascii.eqb d "/") eqn:D; cbn [andb].
      - apply Ascii.eqb_eq in D. subst d. destruct (startsWith "/" s) eqn:S.
        + rewrite IH. destruct s as [|e s]; [discriminate|]. simpl in S.
          apply Ascii.eqb_eq in S. subst e. reflexivity.
        + rewrite !splitOn_cons. reflexivity.
      - rewrite !splitOn_cons, D.
        pose proof (splitOn_not_nil "/" (collapseSlashes s)).
        pose proof (splitOn_not_nil "/" s).
        destruct (splitOn "/" (collapseSlashes s)), (splitOn "/" s); try contradiction.
        simpl in *. now rewrite IH. }
    destruct (splitOn "/" (collapseSlashes s)) as [|x l], (splitOn "/" s) as [|y l'];
      try contradiction.
    simpl in Hd. subst y. intros _ _ E. cbn [filter truthy String.eqb negb].
    simpl in E. destruct (truthy x); [now injection E as ->|now rewrite E].
Qed.

Lemma splitOn_dropLast (s : string) :
  endsWith "/" s = true -> splitOn "/" s = splitOn "/" (dropLast s) ++ [""].
Proof.
  induction s as [|c s IH]; [discriminate|].
  destruct s as [|d s].
  - simpl. intros E. now rewrite E.
  - intros E. change (endsWith "/" (String d s) = true) in E.
    change (dropLast (String c (String d s))) with (String c (dropLast (String d s))).
    rewrite (splitOn_cons "/" c (String d s)), (splitOn_cons "/" c (dropLast (String d s))).
    rewrite (IH E). destruct (Ascii.eqb c "/"); [reflexivity|].
    pose proof (splitOn_not_nil "/" (dropLast (String d s))).
    destruct (splitOn "/" (dropLast (String d s))); [contradiction|reflexivity].
Qed.

Lemma segments_dropLast (s : string) :
  endsWith "/" s = true -> segments (dropLast s) = segments s.
Proof.
  intros E. unfold segments. rewrite (splitOn_dropLast s E), filter_app. simpl.
  now rewrite app_nil_r.
Qed.

Lemma segments_finish (s : string) : segments (finish s) = segments s.
Proof.
  unfold finish.
  assert (H : segments (collapseSlashes
                          (if negb (startsWith "/" s) then ("/" ++ s)%string else s))
              = segments s).
  { rewrite segments_collapseSlashes. destruct (negb (startsWith "/" s)); [|reflexivity].
    apply segments_slash. }
  destruct (1 <? _)%nat; cbn [andb]; [|exact H].
  destruct (endsWith "/" _) eqn:E; [|exact H].
  now rewrite segments_dropLast.
Qed.

Lemma trim_noSpace (s : string) : noSpace s = true -> trim s = s.
Proof.
  intros W. unfold trim.
  now rewrite (noSpace_trimStart _ W), (trimEnd_fixed _ (noSpace_endsWithSpace _ W)).
Qed.

(** A path without white space is normalized to its segments, joined
    by slashes after a leading slash. *)
Lemma normalizePath_segments (s : string) :
  noSpace s = true -> normalizePath s = ("/" ++ String.concat "/" (segments s))%string.
Proof.
  intros W. destruct (segments_normalized _ (normalizePath_normalized s)) as [_ R].
  rewrite <- R. do 2 f_equal.
  unfold splitPath. fold (segments (normalizePath s)).
  rewrite normalizePath_finish. destruct s as [|c s]; [reflexivity|].
  cbn [truthy String.eqb negb]. rewrite (trim_noSpace _ W). apply segments_finish.
Qed.

Lemma noSpace_app (a b : string) : noSpace (a ++ b) = noSpace a && noSpace b.
Proof.
  induction a as [|c a IH]; [reflexivity|]. simpl. now rewrite IH, andb_assoc.
Qed.

Lemma noSpace_normalizePath (s : string) :
  noSpace s = true -> noSpace (normalizePath s) = true.
Proof.
  intros W. rewrite normalizePath_finish. destruct (negb (truthy s)); [reflexivity|].
  apply noSpace_finish. now rewrite trim_noSpace.
Qed.

Lemma segments_are_segments (s : string) : Forall segment (segments s).
Proof.
  apply Forall_forall. intros piece I. apply filter_In in I as [I T]. split; auto.
  pose proof (splitOn_pieces "/" s) as P. rewrite Forall_forall in P. auto.
Qed.

Lemma splitOn_piece (piece : string) :
  contains "/" piece = false -> splitOn "/" piece = [piece].
Proof.
  induction piece as [|c piece IH]; [reflexivity|]. simpl contains. intros H.
  apply orb_false_iff in H as [H1 H2]. rewrite splitOn_cons, H1, (IH H2). reflexivity.
Qed.

(** The segments of segments joined by slashes. *)
Lemma segments_concat (l : list string) :
  Forall segment l -> segments (String.concat "/" l) = l.
Proof.
  induction 1 as [|piece l [T C] _ IH]; [reflexivity|].
  destruct l as [|next l].
  - simpl. unfold segments. rewrite (splitOn_piece _ C). simpl. now rewrite T.
  - change (String.concat "/" (piece :: next :: l))
      with (piece ++ "/" ++ String.concat "/" (next :: l))%string.
    rewrite segments_app, IH. unfold segments. rewrite (splitOn_piece _ C). simpl.
    now rewrite T.
Qed.

Lemma segments_normalizePath (s : string) :
  noSpace s = true -> segments (normalizePath s) = segments s.
Proof.
  intros W. rewrite (normalizePath_segments _ W). cbn [append]. rewrite segments_slash.
  apply segments_concat, segments_are_segments.
Qed.

Lemma root_segments (l : list string) :
  Forall segment l -> ("/" ++ String.concat "/" l)%string = "/" -> l = [].
Proof.
  intros F E. destruct l as [|piece l]; [reflexivity|]. exfalso.
  inversion F as [|? ? [T _] _]; subst. destruct piece; [discriminate|].
  destruct l; discriminate.
Qed.

(** Joining two paths without white space puts their segments one
    after the other. *)
Lemma joinPaths_segments (a b : string) :
  noSpace a = true -> noSpace b = true ->
  joinPaths a b = ("/" ++ String.concat "/" (segments a ++ segments b))%string.
Proof.
  intros Wa Wb. unfold joinPaths.
  assert (O : forall s, normalizePath (orElse s "/") = normalizePath s)
    by (intros [|c s]; reflexivity).
  rewrite !O.
  destruct (String.eqb (normalizePath a) "/") eqn:Ea.
  - apply String.eqb_eq in Ea. rewrite (normalizePath_segments _ Wa) in Ea.
    apply root_segments in Ea; [|apply segments_are_segments].
    rewrite Ea. simpl app. now apply normalizePath_segments.
  - destruct (String.eqb (normalizePath b) "/") eqn:Eb.
    + apply String.eqb_eq in Eb. rewrite (normalizePath_segments _ Wb) in Eb.
      apply root_segments in Eb; [|apply segments_are_segments].
      rewrite Eb, app_nil_r. now apply normalizePath_segments.
    + rewrite normalizePath_segments.
      * change (normalizePath a ++ "/" ++ normalizePath b)%string
          with (normalizePath a ++ "/" ++ normalizePath b)%string.
        now rewrite segments_app, !segments_normalizePath.
      * rewrite noSpace_app. simpl.
        now rewrite !noSpace_normalizePath.
Qed.

Lemma noSpace_concat (l : list string) :
  Forall (fun piece => noSpace piece = true) l -> noSpace (String.concat "/" l) = true.
Proof.
  induction 1 as [|piece l H _ IH]; [reflexivity|].
  destruct l as [|next l]; [exact H|].
  change (String.concat "/" (piece :: next :: l))
    with (piece ++ "/" ++ String.concat "/" (next :: l))%string.
  rewrite noSpace_app. simpl in *. now rewrite H, IH.
Qed.

Lemma noSpace_joinPaths (a b : string) :
  noSpace a = true -> noSpace b = true -> noSpace (joinPaths a b) = true.
Proof.
  intros Wa Wb. unfold joinPaths.
  assert (O : forall s, normalizePath (orElse s "/") = normalizePath s)
    by (intros [|c s]; reflexivity).
  rewrite !O. pose proof (noSpace_normalizePath _ Wa). pose proof (noSpace_normalizePath _ Wb).
  destruct (String.eqb _ "/"); auto. destruct (String.eqb _ "/"); auto.
  apply noSpace_normalizePath. rewrite noSpace_app. simpl. now rewrite H, H0.
Qed.

(** X24. On paths without white space, joining is normalizing the two
    paths written with a slash between them, and joining is
    associative: a router mounted under a prefix under another prefix
    is reached under the same path however the prefixes are grouped. *)
Theorem joinPaths_associative (a b c : string) :
  noSpace a = true -> noSpace b = true -> noSpace c = true ->
  joinPaths a b = normalizePath (a ++ "/" ++ b) /\
  joinPaths (joinPaths a b) c = joinPaths a (joinPaths b c).
Proof.
  intros Wa Wb Wc. split.
  - rewrite joinPaths_segments, normalizePath_segments, segments_app; auto.
    rewrite noSpace_app. simpl. now rewrite Wa, Wb.
  - rewrite (joinPaths_segments (joinPaths a b) c), (joinPaths_segments a (joinPaths b c));
      auto using noSpace_joinPaths.
    rewrite (joinPaths_segments a b), (joinPaths_segments b c); auto.
    cbn [append]. rewrite !segments_slash, !segments_concat, app_assoc; auto;
      apply Forall_app; split; apply segments_are_segments.
Qed.

Lemma joinPaths_associative_witness :
  joinPaths "/api/" "v1" = normalizePath ("/api/" ++ "/" ++ "v1") /\
  joinPaths (joinPaths "/api/" "v1") "/users/:id"
  = joinPaths "/api/" (joinPaths "v1" "/users/:id").
Proof.
  apply (joinPaths_associative "/api/" "v1" "/users/:id"); reflexivity.
Defined.

End JoinPaths.

(** ** The parameters of a query object *)

Section NestQuery.
Import Ast Model Nest.

(** The store grows, and its objects below [n] stay as they are. *)
Definition below (n : nat) (st st' : state) : Prop :=
  List.length (heap st) <= List.length (heap st') /\
  forall r, r < n -> nth_error (heap st') r = nth_error (heap st) r.

(** [m] returns, keeps the objects below [n] and establishes [Q]. *)
Definition keeps {A} (n : nat) (m : M A) (st : state) (Q : A -> state -> Prop) : Prop :=
  exists a st', m st = Some (a, st') /\ below n st st' /\ Q a st'.

(** [m] returns and leaves the objects it is given as they are. *)
Definition own {A} (m : M A) : Prop :=
  forall st, keeps (List.length (heap st)) m st (fun _ _ => True).

Lemma below_refl (n : nat) (st : state) : below n st st.
Proof. split; auto. Qed.

Lemma keeps_ret {A} (n : nat) (a : A) (st : state) (Q : A -> state -> Prop) :
  Q a st -> keeps n (ret a) st Q.
Proof. intros H. exists a, st. repeat split; auto. Qed.

Lemma keeps_bind {A B} (n n1 : nat) (m : M A) (f : A -> M B) (st : state)
    (Q : A -> state -> Prop) (R : B -> state -> Prop) :
  keeps n1 m st Q -> n <= n1 ->
  (forall a st', below n1 st st' -> Q a st' -> keeps n (f a) st' R) ->
  keeps n (bind m f) st R.
Proof.
  intros (a & st1 & E & [L1 K1] & HQ) Ln H.
  destruct (H a st1 (conj L1 K1) HQ) as (b & st2 & E2 & [L2 K2] & HR).
  exists b, st2. unfold bind. rewrite E. repeat split; auto; [lia|].
  intros r Hr. rewrite K2 by exact Hr. apply K1. lia.
Qed.

Lemma keeps_post {A} (n : nat) (m : M A) (st : state) (Q Q' : A -> state -> Prop) :
  keeps n m st Q -> (forall a st', Q a st' -> Q' a st') -> keeps n m st Q'.
Proof. intros (a & st' & E & K & HQ) H. exists a, st'. auto. Qed.

Lemma keeps_alloc (o : sobj) (st : state) :
  keeps (List.length (heap st)) (alloc o) st
    (fun r st' => r = List.length (heap st) /\ heap st' = heap st ++ [o] /\
                  memo st' = memo st).
Proof.
  eexists _, _. split; [reflexivity|]. repeat split; simpl.
  - rewrite length_app. lia.
  - intros r Hr. now apply nth_error_app1.
Qed.

Lemma keeps_modify (n r : nat) (f : sobj -> sobj) (st : state) :
  n <= r ->
  keeps n (modify r f) st
    (fun _ st' => heap st' = updateNth r f (heap st) /\ memo st' = memo st).
Proof.
  intros L. eexists _, _. split; [reflexivity|]. repeat split; simpl.
  - now rewrite length_updateNth.
  - intros x Hx. apply nth_error_updateNth_other. lia.
Qed.

Lemma keeps_memoGet (n : nat) (name : string) (st : state) :
  keeps n (memoGet name) st
    (fun cached st' => cached = JsMap.get name (memo st) /\ st' = st).
Proof. eexists _, _. split; [reflexivity|]. split; [apply below_refl|auto]. Qed.

Lemma keeps_memoSet (n : nat) (name : string) (r : ref) (st : state) :
  keeps n (memoSet name r) st (fun _ st' => heap st' = heap st).
Proof. eexists _, _. split; [reflexivity|]. split; [split; simpl; auto|reflexivity]. Qed.

Lemma own_ret {A} (a : A) : own (ret a).
Proof. intros st. now apply keeps_ret. Qed.

Lemma own_bind {A B} (m : M A) (f : A -> M B) :
  own m -> (forall a, own (f a)) -> own (bind m f).
Proof.
  intros Hm Hf st. eapply keeps_bind; [apply Hm|reflexivity|].
  intros a st' [L K] _.
  destruct (Hf a st') as (b & st2 & E & [L2 K2] & _).
  exists b, st2. repeat split; auto. intros r Hr. apply K2. lia.
Qed.

Lemma own_alloc (o : sobj) : own (alloc o).
Proof. intros st. eapply keeps_post; [apply keeps_alloc|auto]. Qed.

Lemma own_fallback (meta : propMeta) : own (fallback meta).
Proof.
  unfold fallback.
  destruct (m_overrideType meta) as [ty|]; [destruct (JsString.truthy ty)|];
    apply own_alloc.
Qed.

(** The DTO resolver as the type resolver relies on it at a depth
    [depth]. *)
Definition buildKeeps (build : string -> nat -> M ref) (depth : nat) : Prop :=
  forall name d, depth < d -> d <= 2 -> own (build name d).

Lemma buildKeeps_deeper build (depth depth' : nat) :
  depth <= depth' -> buildKeeps build depth -> buildKeeps build depth'.
Proof. intros L H name d L1 L2. apply H; lia. Qed.

Lemma literalMembers_own (resolve : tsType -> M ref) (members : list tsMember) :
  Forall (fun m => forall k t, m = TSPropertySignature k (Some t) -> own (resolve t))
    members ->
  forall properties, own (literalMembers resolve members properties).
Proof.
  induction 1 as [|m ms Hm Hms IH]; intros properties; simpl.
  - apply own_ret.
  - destruct m as [k ta|]; [|auto].
    destruct (getPropertyName k) as [name|]; [|auto].
    destruct (negb (JsString.truthy name)); [auto|].
    apply own_bind; [|auto].
    destruct ta as [t|]; [apply (Hm k t eq_refl)|apply own_fallback].
Qed.

Lemma fromType_own (dtoMap : JsMap.t dto) (build : string -> nat -> M ref)
    (typeNode : tsType) :
  forall depth meta,
  buildKeeps build depth -> own (fromType dtoMap build typeNode depth meta).
Proof.
  induction typeNode using tsType_nested_ind; intros depth meta B; cbn [fromType].
  - apply own_alloc.
  - apply own_alloc.
  - apply own_alloc.
  - apply own_bind; [|intros; apply own_alloc].
    apply IHtypeNode. eapply buildKeeps_deeper; [|exact B]. lia.
  - assert (E : own (if JsMap.has
                           match n with Identifier name => name | _ => "" end dtoMap
                           && (depth <? 2)%nat
                         then build match n with Identifier name => name | _ => "" end (depth + 1)
                         else fallback meta)).
    { destruct (JsMap.has _ dtoMap && (depth <? 2)%nat) eqn:C.
      - apply andb_prop in C as [_ C]. apply Nat.ltb_lt in C. apply B; lia.
      - apply own_fallback. }
    destruct n; try apply own_fallback.
    destruct (String.eqb name "Array"); [|exact E].
    destruct ps as [[|param [|]]|]; try exact E.
    apply own_bind; [|intros; apply own_alloc].
    specialize (H _ eq_refl). inversion H as [|? ? Hp _]; subst.
    apply Hp. eapply buildKeeps_deeper; [|exact B]. lia.
  - apply own_bind; [|intros; apply own_alloc].
    apply literalMembers_own.
    eapply Forall_impl; [|exact H]. simpl.
    intros m Hm k t E. apply (Hm k t E).
    eapply buildKeeps_deeper; [|exact B]. lia.
  - apply own_fallback.
Qed.

Lemma schemaFromTypeNodeWith_own dtoMap build typeNode depth meta :
  buildKeeps build depth ->
  own (schemaFromTypeNodeWith dtoMap build typeNode depth meta).
Proof.
  intros B. destruct typeNode as [t|]; simpl.
  - now apply fromType_own.
  - apply own_fallback.
Qed.

(** The keys of an object, in the order of [Object.entries]. *)
Definition shape {V} (o : JsObject.t V) : JsObject.t unit :=
  map (fun entry => (fst entry, tt)) o.

(** The keys of an object to which [names] are assigned in this
    order. *)
Definition objectKeys (names : list string) : list string :=
  map fst (fold_left (fun o name => JsObject.set name tt o) names JsObject.empty).

Lemma shape_get {V} (k : string) (o : JsObject.t V) :
  JsMap.has k (shape o) = JsMap.has k o.
Proof.
  unfold JsMap.has. induction o as [|[k' v'] o IH]; simpl; [reflexivity|].
  destruct (String.eqb k' k); auto.
Qed.

Lemma shape_set {V} (k : string) (v : V) (o : JsObject.t V) :
  shape (JsObject.set k v o) = JsObject.set k tt (shape o).
Proof.
  unfold JsObject.set, JsObject.has. rewrite shape_get.
  destruct (JsMap.has k o).
  - induction o as [|[k' v'] o IH]; simpl; [reflexivity|].
    destruct (String.eqb k' k); simpl; [reflexivity|now rewrite IH].
  - destruct (JsObject.arrayIndex k) as [n|].
    + induction o as [|[k' v'] o IH]; simpl; [reflexivity|].
      destruct (JsObject.arrayIndex k') as [n'|]; [|reflexivity].
      destruct (n' <? n)%N; simpl; [now rewrite IH|reflexivity].
    + unfold shape. now rewrite map_app.
Qed.

Lemma shape_keys {V} (o : JsObject.t V) : map fst (shape o) = map fst o.
Proof. unfold shape. rewrite map_map. reflexivity. Qed.

(** The names of the properties that are not optional. *)
Definition requiredNames (props : list dtoProp) : list string :=
  map dp_name (filter (fun prop => negb (dp_optional prop)) props).

(** The loop over the properties assigns each name to the object
    [schema], which nothing else changes, and collects the names that
    are not optional. *)
Lemma dtoProperties_fills dtoMap build (schema : ref) (depth n : nat) :
  buildKeeps build (depth + 1) -> n <= schema ->
  forall props required st o ps,
  nth_error (heap st) schema = Some o -> o_properties o = Some ps ->
  keeps n (dtoProperties dtoMap build schema props depth required) st
    (fun required' st' =>
       required' = required ++ requiredNames props /\
       exists o' ps',
         nth_error (heap st') schema = Some o' /\
         o_properties o' = Some ps' /\
         o_required o' = o_required o /\
         shape ps' = fold_left (fun acc name => JsObject.set name tt acc)
                       (map dp_name props) (shape ps)).
Proof.
  intros B Ln. induction props as [|prop props IH]; intros required st o ps Ho Hps;
    cbn [dtoProperties].
  - apply keeps_ret. split; [unfold requiredNames; simpl; now rewrite app_nil_r|].
    exists o, ps. auto.
  - assert (Hs : schema < List.length (heap st)).
    { apply nth_error_Some. congruence. }
    eapply keeps_bind;
      [apply (schemaFromTypeNodeWith_own dtoMap build (dp_typeNode prop) (depth + 1)
                (metaOfProp prop) B st)|lia|].
    intros r st1 [L1 K1] _.
    eapply keeps_bind; [apply (keeps_modify n); exact Ln|reflexivity|].
    intros u st2 _ [H2 _].
    assert (Ho2 : nth_error (heap st2) schema = Some (setProperty (dp_name prop) r o)).
    { rewrite H2. apply nth_error_updateNth_same. rewrite K1 by exact Hs. exact Ho. }
    eapply keeps_post;
      [apply (IH _ st2 (setProperty (dp_name prop) r o)
                (JsObject.set (dp_name prop) r ps) Ho2);
       simpl; now rewrite Hps|].
    intros required' st3 (-> & o' & ps' & Ho' & Hps' & Hr' & Hk).
    split.
    + unfold requiredNames. cbn [filter].
      destruct (dp_optional prop); cbn [negb map]; [reflexivity|].
      now rewrite <- app_assoc.
    + exists o', ps'. repeat split; auto.
      cbn [map fold_left]. now rewrite <- (shape_set (dp_name prop) r ps).
Qed.

(** [buildSchemaForDto] leaves the objects it is given as they are,
    and for a DTO it has not met returns a new object with the names
    of the properties as keys and the names that are not optional as
    [required]. *)
Lemma buildSchemaForDtoWith_builds (build : string -> nat -> M ref)
    dtoName dtoMap depth st :
  buildKeeps build (depth + 1) ->
  keeps (List.length (heap st)) (buildSchemaForDtoWith build dtoName dtoMap depth) st
    (fun r st' =>
       JsMap.get dtoName (memo st) = None ->
       match JsMap.get dtoName dtoMap with
       | Some d =>
           exists o ps,
             nth_error (heap st') r = Some o /\
             o_properties o = Some ps /\
             map fst ps = objectKeys (map dp_name (d_props d)) /\
             o_required o = nonEmpty (requiredNames (d_props d))
       | None =>
           exists o, nth_error (heap st') r = Some o /\ o_properties o = None
       end).
Proof.
  intros B. unfold buildSchemaForDtoWith.
  eapply keeps_bind; [apply keeps_memoGet|reflexivity|].
  cbv beta. intros cached st0 _ [-> ->].
  destruct (JsMap.get dtoName (memo st)) as [r|] eqn:C.
  { apply keeps_ret. discriminate. }
  destruct (JsMap.get dtoName dtoMap) as [d|].
  2:{ eapply keeps_post; [apply keeps_alloc|].
      intros r st' (-> & H & _) _. exists (plain "object" None).
      rewrite H, nth_error_app2, Nat.sub_diag by lia. auto. }
  eapply keeps_bind; [apply keeps_alloc|reflexivity|].
  cbv beta. intros schema st1 _ (-> & H1 & _).
  eapply keeps_bind; [apply keeps_memoSet|reflexivity|].
  cbv beta. intros u st2 _ H2.
  assert (L2 : List.length (heap st) <= List.length (heap st2)).
  { rewrite H2, H1, length_app. lia. }
  assert (Ho : nth_error (heap st2) (List.length (heap st)) = Some (objectWith JsObject.empty)).
  { rewrite H2, H1, nth_error_app2, Nat.sub_diag by lia. reflexivity. }
  eapply keeps_bind;
    [apply (dtoProperties_fills dtoMap build (List.length (heap st)) depth
              (List.length (heap st)) B (le_n _) (d_props d) [] st2
              (objectWith JsObject.empty) JsObject.empty Ho eq_refl)
    |reflexivity|].
  cbv beta. intros required st3 [L3 K3] (-> & o & ps & Ho3 & Hps & Hreq & Hk).
  cbn [app].
  eapply keeps_bind with (n1 := List.length (heap st))
    (Q := fun _ st' =>
            exists o', nth_error (heap st') (List.length (heap st)) = Some o' /\
                       o_properties o' = Some ps /\
                       o_required o' = nonEmpty (requiredNames (d_props d))).
  - destruct (requiredNames (d_props d)) as [|x required] eqn:R.
    + apply keeps_ret. exists o. auto.
    + eapply keeps_post; [apply keeps_modify; reflexivity|].
      intros _ st4 [H4 _]. exists (setRequired (x :: required) o).
      rewrite H4. split; [now apply nth_error_updateNth_same|]. auto.
  - simpl in *. lia.
  - intros u4 st4 _ (o' & Ho' & Hps' & Hr'). apply keeps_ret.
    intros _. exists o', ps. repeat split; auto.
    unfold objectKeys. rewrite <- shape_keys, Hk. reflexivity.
Qed.

Lemma buildSchemaForDtoIn_own (k : nat) :
  forall dtoName dtoMap depth,
  2 <= k + depth -> own (buildSchemaForDtoIn k dtoName dtoMap depth).
Proof.
  induction k as [|k IH]; intros dtoName dtoMap depth K st;
    cbn [buildSchemaForDtoIn];
    (eapply keeps_post; [apply buildSchemaForDtoWith_builds|auto]).
  - intros name d L1 L2. lia.
  - intros name d L1 L2. apply IH. lia.
Qed.

Lemma JsObject_set_plain {V} (k : string) (v : V) (o : JsObject.t V) :
  JsObject.arrayIndex k = None -> JsObject.set k v o = JsMap.set k v o.
Proof.
  intros I. unfold JsObject.set, JsObject.has, JsMap.has. rewrite I.
  induction o as [|[k' v'] o IH]; simpl; [reflexivity|].
  destruct (String.eqb k' k); [reflexivity|].
  destruct (JsMap.get k o); [reflexivity|]. now rewrite <- IH.
Qed.

Lemma objectKeys_from (names : list string) :
  Forall (fun name => JsObject.arrayIndex name = None) names ->
  forall o : JsObject.t unit,
  map fst (fold_left (fun acc name => JsObject.set name tt acc) names o)
  = map fst o ++ filter (fun k => negb (JsMap.has k o)) (firstOccurrences names).
Proof.
  induction 1 as [|name names I _ IH]; intros o; [simpl; now rewrite app_nil_r|].
  cbn [fold_left firstOccurrences filter].
  rewrite IH, (JsObject_set_plain _ _ _ I), filter_filter.
  change (map fst (JsMap.set name tt o)) with (JsMap.keys (JsMap.set name tt o)).
  rewrite JsMap_keys_set. unfold JsMap.keys.
  assert (H : forall x, JsMap.has x (JsMap.set name tt o)
                        = String.eqb x name || JsMap.has x o).
  { intros x. unfold JsMap.has. destruct (String.eqb x name) eqn:E.
    - apply String.eqb_eq in E. subst x. now rewrite JsMap_get_set_same.
    - apply String.eqb_neq in E. now rewrite JsMap_get_set_other. }
  destruct (JsMap.has name o) eqn:K; cbn [negb].
  - f_equal. apply filter_ext. intros x. rewrite H.
    destruct (String.eqb x name) eqn:E; [|reflexivity].
    apply String.eqb_eq in E. subst x. now rewrite K.
  - rewrite <- app_assoc. simpl. do 2 f_equal. apply filter_ext. intros x. rewrite H.
    destruct (String.eqb x name); reflexivity.
Qed.

(** One query parameter for each key of the schema of a DTO, required
    when the name is among those that are not optional. *)
Definition queryOfDto (d : dto) : list param :=
  map (fun name =>
         {| p_name := name;
            p_required := existsb (String.eqb name) (requiredNames (d_props d)) |})
      (objectKeys (map dp_name (d_props d))).

Lemma queryOfSchema_dto (d : dto) (o : sobj) (ps : JsObject.t ref) :
  o_properties o = Some ps ->
  map fst ps = objectKeys (map dp_name (d_props d)) ->
  o_required o = nonEmpty (requiredNames (d_props d)) ->
  queryOfSchema o = queryOfDto d.
Proof.
  intros Hps Hk Hr. unfold queryOfSchema, queryOfDto, JsObject.entries.
  rewrite Hps, Hr, <- Hk, map_map. apply map_ext. intros entry.
  destruct (requiredNames (d_props d)); reflexivity.
Qed.

(** X25. A parameter decorated with [@Query()] alone, without a name,
    whose type is a reference to a name, gives no path parameter and no
    body; when the name is that of a collected DTO it gives one query
    parameter for each key of the properties of the DTO, in the order
    of [Object.entries], required exactly when a property of that name
    is not optional, and no query parameter when the name is not that
    of a DTO.  When no name is an array index, the keys are the names
    in the order of their first occurrence. *)
Theorem query_object_parameters
    (p : paramNode) (dtoSchemas : JsMap.t dto) (dec : decorator)
    (dtoName : string) (typeParameters : option (list tsType)) :
  pt_decorators (decoratorTarget p) = Some [dec] ->
  getDecoratorName dec = Some "Query" ->
  JsString.truthy (getStringArg dec) = false ->
  pt_typeAnnotation (decoratorTarget p)
  = Some (TSTypeReference (Identifier dtoName) typeParameters) ->
  (forall d, JsMap.get dtoName dtoSchemas = Some d ->
             Forall (fun prop => dp_name prop <> "__proto__") (d_props d)) ->
  getParamDecorators p dtoSchemas
  = Some {| pi_params := [];
            pi_query := match JsMap.get dtoName dtoSchemas with
                        | Some d => queryOfDto d
                        | None => []
                        end;
            pi_body := None |} /\
  (forall d, JsMap.get dtoName dtoSchemas = Some d ->
     Forall (fun prop => JsObject.arrayIndex (dp_name prop) = None) (d_props d) ->
     map p_name (queryOfDto d) = firstOccurrences (map dp_name (d_props d))).
Proof.
  intros Hd Hn Ha Ht _. split.
  - unfold getParamDecorators. rewrite Hd. cbn [fold_left].
    unfold paramDecoratorStep. rewrite Hn, Ha, Ht.
    cbn [JsString.truthy String.eqb Ascii.eqb Bool.eqb negb andb pi_params pi_query pi_body app].
    assert (B : buildKeeps (fun name depth' => buildSchemaForDtoIn 1 name dtoSchemas depth') 1).
    { intros name d L1 L2. apply buildSchemaForDtoIn_own. lia. }
    destruct (buildSchemaForDtoWith_builds _ dtoName dtoSchemas 0
                {| heap := []; memo := JsMap.empty |} B)
      as (r & st' & E & _ & H).
    assert (F : fresh (buildSchemaForDto dtoName dtoSchemas 0) = Some (r, heap st')).
    { unfold fresh, buildSchemaForDto.
      change (buildSchemaForDtoIn 2 dtoName dtoSchemas 0)
        with (buildSchemaForDtoWith
                (fun name depth' => buildSchemaForDtoIn 1 name dtoSchemas depth')
                dtoName dtoSchemas 0).
      now rewrite E. }
    rewrite F. specialize (H eq_refl).
    destruct (JsMap.get dtoName dtoSchemas) as [d|].
    + destruct H as (o & ps & Ho & Hps & Hk & Hr). rewrite Ho.
      now rewrite (queryOfSchema_dto d o ps Hps Hk Hr).
    + destruct H as (o & Ho & Hps). rewrite Ho.
      unfold queryOfSchema. now rewrite Hps.
  - intros d _ I. unfold queryOfDto, objectKeys. rewrite map_map. cbn [p_name].
    rewrite map_id, objectKeys_from.
    + simpl. apply filter_all. apply Forall_forall. auto.
    + apply Forall_map. exact I.
Qed.

End NestQuery.

Section NestQueryExamples.
Import Ast Model Nest.

(** [class SearchDto { name: string; age?: number; page: SearchDto }] *)
Definition searchProps : dto :=
  {| d_name := "SearchDto";
     d_props :=
       [ {| dp_name := "name"; dp_optional := false; dp_typeNode := Some TSStringKeyword;
            dp_example := None; dp_overrideType := None |};
         {| dp_name := "age"; dp_optional := true; dp_typeNode := Some TSNumberKeyword;
            dp_example := None; dp_overrideType := None |};
         {| dp_name := "page"; dp_optional := false;
            dp_typeNode := Some (TSTypeReference (Identifier "SearchDto") None);
            dp_example := None; dp_overrideType := None |} ] |}.

Definition queryParam : paramNode :=
  {| pn_self := {| pt_decorators := Some [decorate "Query" []];
                   pt_typeAnnotation :=
                     Some (TSTypeReference (Identifier "SearchDto") None) |};
     pn_left := None |}.

Lemma query_object_parameters_witness :
  getParamDecorators queryParam [("SearchDto", searchProps)]
  = Some {| pi_params := [];
            pi_query := [ {| p_name := "name"; p_required := true |};
                          {| p_name := "age"; p_required := false |};
                          {| p_name := "page"; p_required := true |} ];
            pi_body := None |}.
Proof.
  refine (proj1 (query_object_parameters queryParam [("SearchDto", searchProps)]
                   (decorate "Query" []) "SearchDto" None
                   eq_refl eq_refl eq_refl eq_refl _)).
  intros d H. injection H as <-. repeat constructor; discriminate.
Defined.

End NestQueryExamples.
